(** * Magolor front end: lexer and Pratt parser

    A shallow embedding of [token.go], [lexer.go], [ast.go] and [parser.go].
    Go strings are byte sequences and are modelled by [string] (a list of
    8-bit [ascii]); Go's [int] positions are modelled by [nat] (a position
    never exceeds the length of an in-memory string by more than the number
    of calls made, so the 64-bit bound is out of reach).  A run-time panic
    of the Go program (slice bounds, nil dereference) is an explicit
    failure value of the model. *)

From Stdlib Require Import String Ascii List Arith ZArith Bool Lia.
Import ListNotations.
Open Scope string_scope.
Open Scope nat_scope.

(* ================================================================== *)
(** * token.go *)
(* ================================================================== *)

(** [type TokenType string] with its constants.  The constants are
    pairwise different strings, so an enumeration is faithful;
    [ZERO_TYPE] is Go's zero value (the empty string), which the fields of
    a freshly allocated [Parser] hold before the first tokens are read. *)
Inductive TokenType : Type :=
| ZERO_TYPE
| ILLEGAL | EOF
| IDENT | INT | STRING | FLOAT | BOOL | NIL
| LPAREN | RPAREN | LBRACE | RBRACE | COMMA | SEMICOLON
| ADD | SUB | MUL | DIV | ASSIGN
| EQ | NOT_EQ | LT | GT
| NOT | AND | OR | LE | GE | MOD
| IF | ELSE | WHILE | FOR | LOOP | IN | FUNC | RETURN | TYPE | VOID
| TYPEOF | BREAK | CONTINUE.

Definition TokenType_eq_dec (a b : TokenType) : {a = b} + {a <> b}.
Proof. decide equality. Defined.

Definition TokenType_eqb (a b : TokenType) : bool :=
  if TokenType_eq_dec a b then true else false.

(** The string a [TokenType] constant stands for (what [%s] prints). *)
Definition TokenType_string (t : TokenType) : string :=
  match t with
  | ZERO_TYPE => EmptyString
  | ILLEGAL => "ILLEGAL" | EOF => "EOF"
  | IDENT => "IDENT" | INT => "INT" | STRING => "STRING"
  | FLOAT => "FLOAT" | BOOL => "BOOL" | NIL => "NIL"
  | LPAREN => "(" | RPAREN => ")" | LBRACE => "{" | RBRACE => "}"
  | COMMA => "," | SEMICOLON => ";"
  | ADD => "+" | SUB => "-" | MUL => "*" | DIV => "/" | ASSIGN => "="
  | EQ => "==" | NOT_EQ => "!=" | LT => "<" | GT => ">"
  | NOT => "!" | AND => "&&" | OR => "||" | LE => "<=" | GE => ">="
  | MOD => "%"
  | IF => "if" | ELSE => "else" | WHILE => "while" | FOR => "for"
  | LOOP => "loop" | IN => "in" | FUNC => "fn" | RETURN => "return"
  | TYPE => "TYPE" | VOID => "void" | TYPEOF => "typeof"
  | BREAK => "break" | CONTINUE => "continue"
  end.

Record Token : Type := mkToken { Type_ : TokenType; Literal : string }.

(** Precedence constants ([iota] starts at 0 and is discarded). *)
Definition LOWEST : nat := 1.
Definition OR_PREC : nat := 2.
Definition AND_PREC : nat := 3.
Definition EQUALS : nat := 4.
Definition LESSGREATER : nat := 5.
Definition SUM : nat := 6.
Definition PRODUCT : nat := 7.
Definition PREFIX : nat := 8.
Definition CALL : nat := 9.

(** [var precedences = map[TokenType]int{...}]: lookup in the map. *)
Definition precedences (t : TokenType) : option nat :=
  match t with
  | OR => Some OR_PREC
  | AND => Some AND_PREC
  | EQ => Some EQUALS
  | NOT_EQ => Some EQUALS
  | LT => Some LESSGREATER
  | GT => Some LESSGREATER
  | LE => Some LESSGREATER
  | GE => Some LESSGREATER
  | ADD => Some SUM
  | SUB => Some SUM
  | MUL => Some PRODUCT
  | DIV => Some PRODUCT
  | MOD => Some PRODUCT
  | LPAREN => Some CALL
  | _ => None
  end.

(* ================================================================== *)
(** * lexer.go *)
(* ================================================================== *)

Record Lexer : Type := mkLexer {
  input : string;
  position : nat;      (* current char position *)
  readPosition : nat;  (* next char position *)
  ch : ascii           (* current char *)
}.

Definition NUL : ascii := Ascii.zero.
Definition DQUOTE : ascii := "034"%char.

(** [s[i]] for an index the code has checked to be in range. *)
Definition byte_at (s : string) (i : nat) : ascii :=
  match String.get i s with
  | Some c => c
  | None => NUL
  end.

(** [s[a:b]]: Go panics unless [a <= b <= len(s)]. *)
Definition slice (s : string) (a b : nat) : option string :=
  if (a <=? b) && (b <=? String.length s)
  then Some (String.substring a (b - a) s)
  else None.

(** [string(c)] for a byte [c]: the conversion of an integer to a string
    yields the UTF-8 encoding of that code point, two bytes from 128 on. *)
Definition string_of_byte (c : ascii) : string :=
  let n := nat_of_ascii c in
  if n <? 128 then String c EmptyString
  else String (ascii_of_nat (192 + n / 64))
         (String (ascii_of_nat (128 + n mod 64)) EmptyString).

Definition readChar (l : Lexer) : Lexer :=
  {| input := input l;
     position := readPosition l;
     readPosition := S (readPosition l);
     ch := if String.length (input l) <=? readPosition l
           then NUL
           else byte_at (input l) (readPosition l) |}.

Definition NewLexer (inp : string) : Lexer :=
  readChar {| input := inp; position := 0; readPosition := 0; ch := NUL |}.

Definition peekChar (l : Lexer) : ascii :=
  if String.length (input l) <=? readPosition l
  then NUL
  else byte_at (input l) (readPosition l).

(** [unicode.IsLetter(rune(ch)) || ch == '_'] on a byte: the letters of
    Latin-1 are A-Z, a-z, U+00AA, U+00B5, U+00BA, U+00C0-U+00D6,
    U+00D8-U+00F6 and U+00F8-U+00FF. *)
Definition isLetter (c : ascii) : bool :=
  let n := nat_of_ascii c in
  ((65 <=? n) && (n <=? 90)) || ((97 <=? n) && (n <=? 122))
  || (n =? 170) || (n =? 181) || (n =? 186)
  || ((192 <=? n) && (n <=? 214)) || ((216 <=? n) && (n <=? 246))
  || (248 <=? n)
  || Ascii.eqb c "_"%char.

Definition isDigit (c : ascii) : bool :=
  let n := nat_of_ascii c in (48 <=? n) && (n <=? 57).

Definition isSpace (c : ascii) : bool :=
  Ascii.eqb c " "%char || Ascii.eqb c "009"%char
  || Ascii.eqb c "010"%char || Ascii.eqb c "013"%char.

(** An upper bound on the number of [readChar] calls any scanning loop of
    the lexer makes: [readChar] at or past the end sets [ch] to 0, which
    ends every loop (see [readWhile_stops] and [readString_loop_ok]). *)
Definition loop_bound (l : Lexer) : nat :=
  S (String.length (input l) - readPosition l).

(** [for cond(l.ch) { l.readChar() }] *)
Fixpoint readWhile (cond : ascii -> bool) (n : nat) (l : Lexer) : Lexer :=
  match n with
  | O => l
  | S n' => if cond (ch l) then readWhile cond n' (readChar l) else l
  end.

Definition skipWhitespace (l : Lexer) : Lexer :=
  readWhile isSpace (loop_bound l) l.

Definition readIdentifier (l : Lexer) : option (string * Lexer) :=
  let start := position l in
  let l1 := readWhile isLetter (loop_bound l) l in
  match slice (input l1) start (position l1) with
  | Some s => Some (s, l1)
  | None => None
  end.

Definition readNumber (l : Lexer) : option (string * Lexer) :=
  let start := position l in
  let l1 := readWhile isDigit (loop_bound l) l in
  let l2 := if Ascii.eqb (ch l1) "."%char
            then let l1' := readChar l1 in
                 readWhile isDigit (loop_bound l1') l1'
            else l1 in
  match slice (input l2) start (position l2) with
  | Some s => Some (s, l2)
  | None => None
  end.

(** [for { l.readChar(); if l.ch == DQUOTE || l.ch == 0 { break } }] *)
Fixpoint readString_loop (n : nat) (l : Lexer) : Lexer :=
  match n with
  | O => l
  | S n' =>
      let l1 := readChar l in
      if Ascii.eqb (ch l1) DQUOTE || Ascii.eqb (ch l1) NUL
      then l1
      else readString_loop n' l1
  end.

Definition readString (l : Lexer) : option (string * Lexer) :=
  let pos := position l + 1 in
  let l1 := readString_loop (loop_bound l) l in
  match slice (input l1) pos (position l1) with
  | Some s => Some (s, l1)
  | None => None
  end.

Definition lookupIdent (ident : string) : TokenType :=
  if String.eqb ident "if" then IF
  else if String.eqb ident "else" then ELSE
  else if String.eqb ident "int" || String.eqb ident "string"
          || String.eqb ident "void" || String.eqb ident "float" then TYPE
  else if String.eqb ident "return" then RETURN
  else if String.eqb ident "fn" || String.eqb ident "func" then FUNC
  else if String.eqb ident "typeof" then TYPEOF
  else if String.eqb ident "loop" then LOOP
  else if String.eqb ident "while" then WHILE
  else if String.eqb ident "for" then FOR
  else if String.eqb ident "in" then IN
  else if String.eqb ident "true" || String.eqb ident "false" then BOOL
  else if String.eqb ident "null" || String.eqb ident "nil" then NIL
  else if String.eqb ident "break" then BREAK
  else if String.eqb ident "continue" then CONTINUE
  else IDENT.

(** [strings.Contains(lit, ".")] *)
Fixpoint contains_dot (s : string) : bool :=
  match s with
  | EmptyString => false
  | String c s' => Ascii.eqb c "."%char || contains_dot s'
  end.

(** A one-character token followed by the common [l.readChar()]. *)
Definition single (t : TokenType) (l : Lexer) : option (Token * Lexer) :=
  Some (mkToken t (string_of_byte (ch l)), readChar l).

(** The four two-character operators: on a matching second byte the token
    [two] with both bytes as its text, otherwise the token [one]. *)
Definition double (second : ascii) (two one : TokenType) (l : Lexer)
  : option (Token * Lexer) :=
  if Ascii.eqb (peekChar l) second then
    let c := ch l in
    let l1 := readChar l in
    Some (mkToken two (string_of_byte c ++ string_of_byte (ch l1)),
          readChar l1)
  else single one l.

(** [NextToken]: [None] is a run-time panic (a slice out of range). *)
Definition NextToken (l0 : Lexer) : option (Token * Lexer) :=
  let l := skipWhitespace l0 in
  let c := ch l in
  if Ascii.eqb c "("%char then single LPAREN l
  else if Ascii.eqb c ")"%char then single RPAREN l
  else if Ascii.eqb c "{"%char then single LBRACE l
  else if Ascii.eqb c "}"%char then single RBRACE l
  else if Ascii.eqb c ","%char then single COMMA l
  else if Ascii.eqb c ";"%char then single SEMICOLON l
  else if Ascii.eqb c "*"%char then single MUL l
  else if Ascii.eqb c "-"%char then single SUB l
  else if Ascii.eqb c "+"%char then single ADD l
  else if Ascii.eqb c "/"%char then single DIV l
  else if Ascii.eqb c "<"%char then single LT l
  else if Ascii.eqb c ">"%char then single GT l
  else if Ascii.eqb c "="%char then double "="%char EQ ASSIGN l
  else if Ascii.eqb c "!"%char then double "="%char NOT_EQ NOT l
  else if Ascii.eqb c "&"%char then double "&"%char AND ILLEGAL l
  else if Ascii.eqb c "|"%char then double "|"%char OR ILLEGAL l
  else if Ascii.eqb c "%"%char then single MOD l
  else if Ascii.eqb c DQUOTE then
    match readString l with
    | Some (lit, l1) => Some (mkToken STRING lit, readChar l1)
    | None => None
    end
  else if Ascii.eqb c NUL then
    Some (mkToken EOF EmptyString, readChar l)
  else if isLetter c then
    match readIdentifier l with
    | Some (lit, l1) => Some (mkToken (lookupIdent lit) lit, l1)
    | None => None
    end
  else if isDigit c then
    match readNumber l with
    | Some (lit, l1) =>
        if contains_dot lit then Some (mkToken FLOAT lit, l1)
        else Some (mkToken INT lit, l1)
    | None => None
    end
  else single ILLEGAL l.

(** The tokens of the first [n] calls of [NextToken]. *)
Fixpoint tokens (n : nat) (l : Lexer) : option (list Token) :=
  match n with
  | O => Some []
  | S n' =>
      match NextToken l with
      | Some (t, l1) =>
          match tokens n' l1 with
          | Some ts => Some (t :: ts)
          | None => None
          end
      | None => None
      end
  end.

(* ================================================================== *)
(** * strconv *)
(* ================================================================== *)

Fixpoint parse_digits (s : string) (acc : Z) : option Z :=
  match s with
  | EmptyString => Some acc
  | String c s' =>
      if isDigit c
      then parse_digits s' (10 * acc + Z.of_nat (nat_of_ascii c - 48))%Z
      else None
  end.

(** [strconv.ParseInt(s, 10, 64)]: [None] when [err != nil] (a syntax
    error: empty text, a non-digit; or a value outside int64). *)
Definition ParseInt (s : string) : option Z :=
  match s with
  | EmptyString => None
  | String c s' =>
      let neg := Ascii.eqb c "-"%char in
      let body := if Ascii.eqb c "+"%char || neg then s' else s in
      match body with
      | EmptyString => None
      | _ =>
          match parse_digits body 0%Z with
          | None => None
          | Some n =>
              if neg
              then if (n <=? 2 ^ 63)%Z then Some (- n)%Z else None
              else if (n <? 2 ^ 63)%Z then Some n else None
          end
      end
  end.

(** A text between two quote marks. *)
Definition in_quotes (s : string) : string :=
  String DQUOTE (s ++ String DQUOTE EmptyString).

(** [%q] of a text made of digits and dots (the only texts the parser
    formats that way, where nothing is to be escaped). *)
Definition quoted (s : string) : string := in_quotes s.

(* ================================================================== *)
(** * parser.go *)
(* ================================================================== *)

Record Parser : Type := mkParser {
  lexer : Lexer;
  curToken : Token;
  peekToken : Token;
  peekPeek : Token;
  errors : list string
}.

(** The outcome of running a method: a normal return, a run-time panic,
    or no outcome within the given number of unfoldings. *)
Inductive res (A : Type) : Type :=
| Ok (a : A)
| Panic
| OutOfFuel.
Arguments Ok {A} a.
Arguments Panic {A}.
Arguments OutOfFuel {A}.

(** A method of [*Parser]: it reads and updates the receiver. *)
Definition M (A : Type) : Type := Parser -> res (A * Parser).

Definition ret {A : Type} (a : A) : M A := fun p => Ok (a, p).

Definition bind {A B : Type} (m : M A) (k : A -> M B) : M B :=
  fun p =>
    match m p with
    | Ok (a, p') => k a p'
    | Panic => Panic
    | OutOfFuel => OutOfFuel
    end.

Notation "x <- m ;; k" := (bind m (fun x => k))
  (at level 61, m at next level, right associativity).
Notation "m ;; k" := (bind m (fun _ => k))
  (at level 61, right associativity).

Definition get : M Parser := fun p => Ok (p, p).
Definition out_of_fuel {A : Type} : M A := fun _ => OutOfFuel.

Definition curTokenIs (t : TokenType) (p : Parser) : bool :=
  TokenType_eqb (Type_ (curToken p)) t.
Definition peekTokenIs (t : TokenType) (p : Parser) : bool :=
  TokenType_eqb (Type_ (peekToken p)) t.
Definition peekPeekIs (t : TokenType) (p : Parser) : bool :=
  TokenType_eqb (Type_ (peekPeek p)) t.

Definition nextToken : M unit := fun p =>
  match NextToken (lexer p) with
  | Some (tok, l') =>
      Ok (tt, {| lexer := l';
                 curToken := peekToken p;
                 peekToken := peekPeek p;
                 peekPeek := tok;
                 errors := errors p |})
  | None => Panic
  end.

Definition zeroToken : Token := mkToken ZERO_TYPE EmptyString.

Definition NewParser (l : Lexer) : res Parser :=
  match (nextToken ;; nextToken ;; nextToken)
          {| lexer := l; curToken := zeroToken; peekToken := zeroToken;
             peekPeek := zeroToken; errors := [] |} with
  | Ok (_, p) => Ok p
  | Panic => Panic
  | OutOfFuel => OutOfFuel
  end.

Definition addError (msg : string) : M unit := fun p =>
  Ok (tt, {| lexer := lexer p; curToken := curToken p;
             peekToken := peekToken p; peekPeek := peekPeek p;
             errors := errors p ++ [msg] |}).

Definition expectPeek (t : TokenType) : M bool :=
  p <- get ;;
  if peekTokenIs t p then
    nextToken ;; ret true
  else
    addError ("expected next token to be " ++ TokenType_string t
              ++ ", got " ++ TokenType_string (Type_ (peekToken p))
              ++ " instead") ;;
    ret false.

Definition peekPrecedence (p : Parser) : nat :=
  match precedences (Type_ (peekToken p)) with
  | Some prec => prec
  | None => LOWEST
  end.

Definition curPrecedence (p : Parser) : nat :=
  match precedences (Type_ (curToken p)) with
  | Some prec => prec
  | None => LOWEST
  end.

(** One turn of the loop of [skipWhitespaceTokens]; [again] stands for
    the rest of the loop. *)
Definition skipWhitespaceTokens_body (again : M unit) : M unit :=
  p <- get ;;
  if curTokenIs ILLEGAL p && String.eqb (Literal (curToken p)) EmptyString
  then
    nextToken ;;
    p1 <- get ;;
    if curTokenIs EOF p1 then ret tt else again
  else ret tt.

Fixpoint skipWhitespaceTokens (fuel : nat) : M unit :=
  match fuel with
  | O => out_of_fuel
  | S fuel' => skipWhitespaceTokens_body (skipWhitespaceTokens fuel')
  end.

(* ================================================================== *)
(** * ast.go, and the parsing methods of parser.go *)
(* ================================================================== *)

Section Parser.

(** [float64] and [strconv.ParseFloat(s, 64)] ([None] when [err != nil])
    are left abstract: no parsing decision depends on the value found. *)
Variable float64 : Type.
Variable ParseFloat : string -> option float64.

Record Identifier : Type := mkIdentifier {
  ident_Token : Token;
  ident_Value : string
}.

(** A value of the interface [Expression] is [option Expression]: [None]
    is the nil interface, and every node the parser builds is a non-nil
    pointer.  Fields of interface type are options for the same reason. *)
#[warnings="-register-all"] Inductive Expression : Type :=
| IdentifierNode (i : Identifier)
| IntegerLiteral (tok : Token) (value : Z)
| FloatLiteral (tok : Token) (value : float64)
| StringLiteral (tok : Token) (value : string)
| BooleanLiteral (tok : Token) (value : bool)
| NilLiteral (tok : Token)
| VoidLiteral (tok : Token)
| PrefixExpression (tok : Token) (operator : string)
    (right : option Expression)
| InfixExpression (tok : Token) (operator : string)
    (left right : option Expression)
| TypeOfExpression (tok : Token) (expr : option Expression).

(** The struct [Parameter]. *)
Record FnParameter : Type := mkParameter {
  param_Type : Token;
  param_Name : option Identifier
}.

Record ExpressionStatement : Type := mkExpressionStatement {
  es_Token : Token;
  es_Expression : option Expression
}.

Record VariableDeclaration : Type := mkVariableDeclaration {
  vd_Token : Token;
  vd_Name : option Identifier;
  vd_Value : option Expression
}.

Record ReturnStatement : Type := mkReturnStatement {
  rs_Token : Token;
  rs_ReturnValue : option Expression
}.

Record BreakStatement : Type := mkBreakStatement { brk_Token : Token }.

Record ContinueStatement : Type := mkContinueStatement { cnt_Token : Token }.

(** A non-nil value of the interface [Statement] is a dynamic type
    together with a pointer, and the pointer itself may be nil: a parse
    function of result type [*IfStatement] that returns nil, once returned
    through [parseStatement], is an interface value that compares unequal
    to nil.  So [Statement] is the tagged pointer ([None] inside is the
    nil pointer) and [option Statement] the interface value.  Slices are
    lists; [[]Statement] and [[]*Parameter] are only ever appended to under
    a [!= nil] test, so their elements are [Statement] and [FnParameter]. *)
#[warnings="-register-all"] Inductive Statement : Type :=
| ExpressionStatementPtr (s : option ExpressionStatement)
| VariableDeclarationPtr (s : option VariableDeclaration)
| ReturnStatementPtr (s : option ReturnStatement)
| BreakStatementPtr (s : option BreakStatement)
| ContinueStatementPtr (s : option ContinueStatement)
| BlockStatementPtr (s : option BlockStatement)
| IfStatementPtr (s : option IfStatement)
| WhileStatementPtr (s : option WhileStatement)
| LoopStatementPtr (s : option LoopStatement)
| ForStatementPtr (s : option ForStatement)
| FunctionStatementPtr (s : option FunctionStatement)
with BlockStatement : Type :=
| mkBlockStatement (tok : Token) (stmts : list Statement)
with IfStatement : Type :=
| mkIfStatement (tok : Token) (cond : option Expression)
    (thenBlock : option BlockStatement) (elseIfs : list ElseIfClause)
    (elseBlock : option BlockStatement)
with ElseIfClause : Type :=
| mkElseIfClause (cond : option Expression) (block : option BlockStatement)
with WhileStatement : Type :=
| mkWhileStatement (tok : Token) (block : option BlockStatement)
    (cond : option Expression)
with LoopStatement : Type :=
| mkLoopStatement (tok : Token) (block : option BlockStatement)
with ForStatement : Type :=
| mkForStatement (tok : Token) (ident : option Identifier)
    (iterable : option Expression) (block : option BlockStatement)
with FunctionStatement : Type :=
| mkFunctionStatement (tok : Token) (name : option Identifier)
    (params : list FnParameter) (returnType : Token)
    (body : option BlockStatement).

Record Program : Type := mkProgram { Statements : list Statement }.

Definition parseBooleanLiteral : M (option Expression) :=
  p <- get ;;
  ret (Some (BooleanLiteral (curToken p)
               (String.eqb (Literal (curToken p)) "true"))).

(** ** Expressions *)

Section ExpressionBodies.

(** The budget of the nested calls, and the recursive calls: of
    [parseExpression] and of the loop inside it. *)
Variable fuel : nat.
Variable parseExpression : nat -> M (option Expression).
Variable parseExpression_loop :
  nat -> option Expression -> M (option Expression).

Definition parsePrefixOperatorExpression : M (option Expression) :=
  p <- get ;;
  let tok := curToken p in
  nextToken ;;
  right <- parseExpression PREFIX ;;
  ret (Some (PrefixExpression tok (Literal tok) right)).

Definition parseTypeofExpression : M (option Expression) :=
  p <- get ;;
  let tok := curToken p in
  ok <- expectPeek LPAREN ;;
  if negb ok then ret None else
  nextToken ;;
  e <- parseExpression LOWEST ;;
  ok <- expectPeek RPAREN ;;
  if negb ok then ret None else
  ret (Some (TypeOfExpression tok e)).

Definition parsePrefixExpression : M (option Expression) :=
  skipWhitespaceTokens fuel ;;
  p <- get ;;
  let tok := curToken p in
  match Type_ tok with
  | VOID => ret (Some (VoidLiteral tok))
  | IDENT => ret (Some (IdentifierNode (mkIdentifier tok (Literal tok))))
  | INT =>
      match ParseInt (Literal tok) with
      | None =>
          addError ("could not parse " ++ quoted (Literal tok)
                    ++ " as integer") ;;
          ret None
      | Some value => ret (Some (IntegerLiteral tok value))
      end
  | BOOL => parseBooleanLiteral
  | NIL => ret (Some (NilLiteral tok))
  | STRING => ret (Some (StringLiteral tok (Literal tok)))
  | FLOAT =>
      match ParseFloat (Literal tok) with
      | None =>
          addError ("could not parse " ++ quoted (Literal tok)
                    ++ " as float") ;;
          ret None
      | Some value =>
          nextToken ;;
          ret (Some (FloatLiteral tok value))
      end
  | LPAREN =>
      nextToken ;;
      exp <- parseExpression LOWEST ;;
      ok <- expectPeek RPAREN ;;
      if negb ok then ret None else
      ret exp
  | SUB | ADD => parsePrefixOperatorExpression
  | TYPEOF => parseTypeofExpression
  | _ =>
      (if negb (curTokenIs EOF p)
       then addError ("no prefix parse function for "
                      ++ TokenType_string (Type_ tok) ++ " found")
       else ret tt) ;;
      ret None
  end.

Definition parseInfixExpression (left : option Expression)
  : M (option Expression) :=
  p <- get ;;
  let tok := curToken p in
  let precedence := curPrecedence p in
  nextToken ;;
  right <- parseExpression precedence ;;
  ret (Some (InfixExpression tok (Literal tok) left right)).

(** One turn of the [for] loop of [parseExpression]. *)
Definition parseExpression_loop_body (precedence : nat)
  (leftExp : option Expression) : M (option Expression) :=
  p <- get ;;
  if negb (peekTokenIs SEMICOLON p) && (precedence <? peekPrecedence p)
     && negb (peekTokenIs EOF p)
  then
    nextToken ;;
    leftExp' <- parseInfixExpression leftExp ;;
    match leftExp' with
    | None => ret None
    | Some _ => parseExpression_loop precedence leftExp'
    end
  else ret leftExp.

Definition parseExpression_body (precedence : nat) : M (option Expression) :=
  leftExp <- parsePrefixExpression ;;
  match leftExp with
  | None => ret None
  | Some _ => parseExpression_loop precedence leftExp
  end.

End ExpressionBodies.

Fixpoint parseExpression (fuel : nat) (precedence : nat) {struct fuel}
  : M (option Expression) :=
  match fuel with
  | O => out_of_fuel
  | S fuel' =>
      parseExpression_body fuel' (parseExpression fuel')
        (parseExpression_loop fuel') precedence
  end
with parseExpression_loop (fuel : nat) (precedence : nat)
       (leftExp : option Expression) {struct fuel} : M (option Expression) :=
  match fuel with
  | O => out_of_fuel
  | S fuel' =>
      parseExpression_loop_body (parseExpression fuel')
        (parseExpression_loop fuel') precedence leftExp
  end.

(** ** Statements *)

Definition parseReturnStatement (fuel : nat) : M (option ReturnStatement) :=
  p <- get ;;
  let tok := curToken p in
  if peekTokenIs SEMICOLON p then
    nextToken ;;
    ret (Some (mkReturnStatement tok None))
  else if peekTokenIs RBRACE p then
    ret (Some (mkReturnStatement tok None))
  else
    nextToken ;;
    value <- parseExpression fuel LOWEST ;;
    p1 <- get ;;
    (if peekTokenIs SEMICOLON p1 then nextToken else ret tt) ;;
    ret (Some (mkReturnStatement tok value)).

Definition parseBreakStatement : M (option BreakStatement) :=
  p <- get ;;
  (if peekTokenIs SEMICOLON p then nextToken else ret tt) ;;
  ret (Some (mkBreakStatement (curToken p))).

Definition parseContinueStatement : M (option ContinueStatement) :=
  p <- get ;;
  (if peekTokenIs SEMICOLON p then nextToken else ret tt) ;;
  ret (Some (mkContinueStatement (curToken p))).

Definition parseDeclarationStatement (fuel : nat)
  : M (option VariableDeclaration) :=
  p <- get ;;
  if negb (curTokenIs TYPE p) && negb (curTokenIs VOID p) then
    addError ("expected type, got "
              ++ TokenType_string (Type_ (curToken p))) ;;
    ret None
  else
  let token := curToken p in
  ok <- expectPeek IDENT ;;
  if negb ok then ret None else
  p1 <- get ;;
  let name := mkIdentifier (curToken p1) (Literal (curToken p1)) in
  ok <- expectPeek ASSIGN ;;
  if negb ok then ret None else
  nextToken ;;
  value <- parseExpression fuel LOWEST ;;
  p2 <- get ;;
  (if peekTokenIs SEMICOLON p2 then nextToken else ret tt) ;;
  ret (Some (mkVariableDeclaration token (Some name) value)).

Definition parseParameter : M (option FnParameter) :=
  p <- get ;;
  if negb (curTokenIs TYPE p) then
    addError ("expected parameter type, got "
              ++ TokenType_string (Type_ (curToken p))) ;;
    ret None
  else
  ok <- expectPeek IDENT ;;
  if negb ok then ret None else
  p1 <- get ;;
  ret (Some (mkParameter (curToken p)
               (Some (mkIdentifier (curToken p1) (Literal (curToken p1)))))).

(** [params = append(params, param)] under [if param != nil]. *)
Definition append_param (params : list FnParameter)
  (param : option FnParameter) : list FnParameter :=
  match param with
  | Some x => params ++ [x]
  | None => params
  end.

(** One turn of the loop [for p.peekToken.Type == COMMA] of
    [parseFunctionParameters]. *)
Definition parseFunctionParameters_loop_body
  (again : list FnParameter -> M (list FnParameter))
  (params : list FnParameter) : M (list FnParameter) :=
  p <- get ;;
  if peekTokenIs COMMA p then
    nextToken ;;
    nextToken ;;
    param <- parseParameter ;;
    again (append_param params param)
  else ret params.

Fixpoint parseFunctionParameters_loop (fuel : nat)
  (params : list FnParameter) : M (list FnParameter) :=
  match fuel with
  | O => out_of_fuel
  | S fuel' =>
      parseFunctionParameters_loop_body (parseFunctionParameters_loop fuel')
        params
  end.

(** The nil slice and the empty slice are both the empty list. *)
Definition parseFunctionParameters (fuel : nat) : M (list FnParameter) :=
  p <- get ;;
  if peekTokenIs RPAREN p then
    nextToken ;;
    ret []
  else
  nextToken ;;
  param <- parseParameter ;;
  params <- parseFunctionParameters_loop fuel (append_param [] param) ;;
  ok <- expectPeek RPAREN ;;
  if negb ok then ret [] else
  ret params.

(** [program.Statements = append(..., stmt)] under [if stmt != nil]. *)
Definition append_stmt (stmts : list Statement) (stmt : option Statement)
  : list Statement :=
  match stmt with
  | Some s => stmts ++ [s]
  | None => stmts
  end.

Section StatementBodies.

(** The budget of the nested calls, and the recursive calls: of
    [parseStatement], of the loop of [parseBlockStatement] and of the
    else loop of [parseIfStatement]. *)
Variable fuel : nat.
Variable parseStatement : M (option Statement).
Variable parseBlockStatement_loop : list Statement -> M (list Statement).
Variable parseIfStatement_loop : IfStatement -> M (option IfStatement).

(** The result is never the nil pointer. *)
Definition parseBlockStatement : M BlockStatement :=
  p <- get ;;
  let tok := curToken p in
  nextToken ;;
  stmts <- parseBlockStatement_loop [] ;;
  ret (mkBlockStatement tok stmts).

(** One turn of [for !p.curTokenIs(RBRACE) && !p.curTokenIs(EOF)]. *)
Definition parseBlockStatement_loop_body (stmts : list Statement)
  : M (list Statement) :=
  p <- get ;;
  if negb (curTokenIs RBRACE p) && negb (curTokenIs EOF p) then
    stmt <- parseStatement ;;
    nextToken ;;
    parseBlockStatement_loop (append_stmt stmts stmt)
  else ret stmts.

(** The body of a branch, written three times in [parseIfStatement]: a
    braced block, or one statement wrapped in a synthetic block.  [None]
    is where the code has [return nil]. *)
Definition parseBranch : M (option BlockStatement) :=
  p <- get ;;
  if peekTokenIs LBRACE p then
    ok <- expectPeek LBRACE ;;
    if negb ok then ret None else
    block <- parseBlockStatement ;;
    ret (Some block)
  else
    nextToken ;;
    singleStmt <- parseStatement ;;
    match singleStmt with
    | None => ret None
    | Some s =>
        p1 <- get ;;
        ret (Some (mkBlockStatement (curToken p1) [s]))
    end.

(** One turn of [for p.peekToken.Type == ELSE]. *)
Definition parseIfStatement_loop_body (stmt : IfStatement)
  : M (option IfStatement) :=
  p <- get ;;
  if peekTokenIs ELSE p then
    nextToken ;;
    p1 <- get ;;
    if peekTokenIs IF p1 then
      nextToken ;;
      ok <- expectPeek LPAREN ;;
      if negb ok then ret None else
      nextToken ;;
      condition <- parseExpression fuel LOWEST ;;
      match condition with
      | None => ret None
      | Some _ =>
          ok <- expectPeek RPAREN ;;
          if negb ok then ret None else
          block <- parseBranch ;;
          match block with
          | None => ret None
          | Some _ =>
              match stmt with
              | mkIfStatement tok c t elseIfs e =>
                  parseIfStatement_loop
                    (mkIfStatement tok c t
                       (elseIfs ++ [mkElseIfClause condition block]) e)
              end
          end
      end
    else
      block <- parseBranch ;;
      match block with
      | None => ret None
      | Some _ =>
          match stmt with
          | mkIfStatement tok c t elseIfs _ =>
              ret (Some (mkIfStatement tok c t elseIfs block))
          end
      end
  else ret (Some stmt).

Definition parseIfStatement : M (option IfStatement) :=
  p <- get ;;
  let tok := curToken p in
  ok <- expectPeek LPAREN ;;
  if negb ok then ret None else
  nextToken ;;
  condition <- parseExpression fuel LOWEST ;;
  match condition with
  | None => ret None
  | Some _ =>
      ok <- expectPeek RPAREN ;;
      if negb ok then ret None else
      thenBlock <- parseBranch ;;
      match thenBlock with
      | None => ret None
      | Some _ =>
          parseIfStatement_loop
            (mkIfStatement tok condition thenBlock [] None)
      end
  end.

Definition parseWhileStatement : M (option WhileStatement) :=
  p <- get ;;
  let tok := curToken p in
  ok <- expectPeek LPAREN ;;
  if negb ok then addError "expected '(' after 'while'" ;; ret None else
  nextToken ;;
  condition <- parseExpression fuel LOWEST ;;
  match condition with
  | None => ret None
  | Some _ =>
      ok <- expectPeek RPAREN ;;
      if negb ok
      then addError "expected ')' after while condition" ;; ret None else
      ok <- expectPeek LBRACE ;;
      if negb ok
      then addError "expected '{' after while condition" ;; ret None else
      block <- parseBlockStatement ;;
      ret (Some (mkWhileStatement tok (Some block) condition))
  end.

Definition parseLoopStatement : M (option LoopStatement) :=
  p <- get ;;
  let tok := curToken p in
  ok <- expectPeek LBRACE ;;
  if negb ok then addError "expected '{' after 'loop'" ;; ret None else
  block <- parseBlockStatement ;;
  ret (Some (mkLoopStatement tok (Some block))).

Definition parseForStatement : M (option ForStatement) :=
  p <- get ;;
  let tok := curToken p in
  ok <- expectPeek LPAREN ;;
  if negb ok then addError "expected '(' after 'for'" ;; ret None else
  ok <- expectPeek IDENT ;;
  if negb ok
  then addError "expected identifier after '(' in for statement" ;;
       ret None else
  p1 <- get ;;
  let ident := mkIdentifier (curToken p1) (Literal (curToken p1)) in
  ok <- expectPeek IN ;;
  if negb ok
  then addError "expected 'in' after identifier in for statement" ;;
       ret None else
  nextToken ;;
  iterable <- parseExpression fuel LOWEST ;;
  match iterable with
  | None => ret None
  | Some _ =>
      ok <- expectPeek RPAREN ;;
      if negb ok
      then addError "expected ')' after for loop iterable" ;; ret None else
      ok <- expectPeek LBRACE ;;
      if negb ok
      then addError "expected '{' after for loop header" ;; ret None else
      block <- parseBlockStatement ;;
      ret (Some (mkForStatement tok (Some ident) iterable (Some block)))
  end.

Definition parseFunctionStatement : M (option FunctionStatement) :=
  p <- get ;;
  let tok := curToken p in
  let returnType :=
    if curTokenIs FUNC p then mkToken VOID "void" else curToken p in
  ok <- expectPeek IDENT ;;
  if negb ok then ret None else
  p1 <- get ;;
  let name := mkIdentifier (curToken p1) (Literal (curToken p1)) in
  ok <- expectPeek LPAREN ;;
  if negb ok then ret None else
  params <- parseFunctionParameters fuel ;;
  ok <- expectPeek LBRACE ;;
  if negb ok then ret None else
  body <- parseBlockStatement ;;
  ret (Some (mkFunctionStatement tok (Some name) params returnType
               (Some body))).

(** The body of [parseStatement].  A result of pointer type returned as
    a [Statement] is a non-nil interface value, whatever the pointer. *)
Definition parseStatement_body : M (option Statement) :=
  skipWhitespaceTokens fuel ;;
  p <- get ;;
  match Type_ (curToken p) with
  | IF => s <- parseIfStatement ;; ret (Some (IfStatementPtr s))
  | RETURN =>
      s <- parseReturnStatement fuel ;; ret (Some (ReturnStatementPtr s))
  | BREAK => s <- parseBreakStatement ;; ret (Some (BreakStatementPtr s))
  | CONTINUE =>
      s <- parseContinueStatement ;; ret (Some (ContinueStatementPtr s))
  | WHILE => s <- parseWhileStatement ;; ret (Some (WhileStatementPtr s))
  | LOOP => s <- parseLoopStatement ;; ret (Some (LoopStatementPtr s))
  | FOR => s <- parseForStatement ;; ret (Some (ForStatementPtr s))
  | FUNC =>
      s <- parseFunctionStatement ;; ret (Some (FunctionStatementPtr s))
  | TYPE | VOID =>
      if peekTokenIs IDENT p then
        if peekPeekIs LPAREN p then
          s <- parseFunctionStatement ;;
          ret (Some (FunctionStatementPtr s))
        else if peekPeekIs ASSIGN p then
          s <- parseDeclarationStatement fuel ;;
          ret (Some (VariableDeclarationPtr s))
        else
          s <- parseDeclarationStatement fuel ;;
          ret (Some (VariableDeclarationPtr s))
      else ret None
  | RBRACE | SEMICOLON | EOF => ret None
  | _ =>
      expr <- parseExpression fuel LOWEST ;;
      match expr with
      | Some _ =>
          p1 <- get ;;
          (if peekTokenIs SEMICOLON p1 then nextToken else ret tt) ;;
          ret (Some (ExpressionStatementPtr
                       (Some (mkExpressionStatement (curToken p1) expr))))
      | None =>
          p1 <- get ;;
          (if negb (curTokenIs EOF p1)
           then addError ("unexpected token: " ++ Literal (curToken p1))
           else ret tt) ;;
          ret None
      end
  end.

End StatementBodies.

Fixpoint parseStatement (fuel : nat) {struct fuel} : M (option Statement) :=
  match fuel with
  | O => out_of_fuel
  | S fuel' =>
      parseStatement_body fuel' (parseStatement fuel')
        (parseBlockStatement_loop fuel') (parseIfStatement_loop fuel')
  end
with parseBlockStatement_loop (fuel : nat) (stmts : list Statement)
       {struct fuel} : M (list Statement) :=
  match fuel with
  | O => out_of_fuel
  | S fuel' =>
      parseBlockStatement_loop_body (parseStatement fuel')
        (parseBlockStatement_loop fuel') stmts
  end
with parseIfStatement_loop (fuel : nat) (stmt : IfStatement) {struct fuel}
       : M (option IfStatement) :=
  match fuel with
  | O => out_of_fuel
  | S fuel' =>
      parseIfStatement_loop_body fuel' (parseStatement fuel')
        (parseBlockStatement_loop fuel') (parseIfStatement_loop fuel') stmt
  end.

(** One turn of the loop [for p.curToken.Type != EOF] of [ParseProgram]. *)
Definition ParseProgram_loop_body (fuel : nat)
  (again : list Statement -> M (list Statement))
  (stmts : list Statement) : M (list Statement) :=
  p <- get ;;
  if negb (curTokenIs EOF p) then
    skipWhitespaceTokens fuel ;;
    p1 <- get ;;
    if curTokenIs EOF p1 then ret stmts else
    stmt <- parseStatement fuel ;;
    nextToken ;;
    again (append_stmt stmts stmt)
  else ret stmts.

Fixpoint ParseProgram_loop (fuel : nat) (stmts : list Statement)
  : M (list Statement) :=
  match fuel with
  | O => out_of_fuel
  | S fuel' =>
      ParseProgram_loop_body fuel' (ParseProgram_loop fuel') stmts
  end.

Definition ParseProgram (fuel : nat) : M Program :=
  stmts <- ParseProgram_loop fuel [] ;;
  ret (mkProgram stmts).

Definition GetErrors (p : Parser) : list string := errors p.

(** Lexing and parsing a source text, as [main] does. *)
Definition parse_source (fuel : nat) (source : string)
  : res (Program * Parser) :=
  match NewParser (NewLexer source) with
  | Ok p => ParseProgram fuel p
  | Panic => Panic
  | OutOfFuel => OutOfFuel
  end.

(** ** Rendering ([String()] of the expression nodes)

    [None] is a panic (a method call on the nil interface).  Inside
    [fmt.Sprintf], the verb [%s] prints the nil interface and a panicking
    [String] method as the fixed texts below; a direct call panics. *)

Definition fmt_nil : string := "%!s(<nil>)".
Definition fmt_panic : string :=
  "%!s(PANIC=String method: runtime error: invalid memory address or nil pointer dereference)".

Fixpoint Expression_String (e : Expression) : option string :=
  match e with
  | IdentifierNode i => Some (ident_Value i)
  | IntegerLiteral tok _ => Some (Literal tok)
  | FloatLiteral tok _ => Some (Literal tok)
  | StringLiteral _ value => Some (in_quotes value)
  | BooleanLiteral tok _ => Some (Literal tok)
  | NilLiteral tok => Some (Literal tok)
  | VoidLiteral tok => Some (Literal tok)
  | PrefixExpression _ operator right_ =>
      match right_ with
      | None => None
      | Some r =>
          match Expression_String r with
          | None => None
          | Some s => Some ("(" ++ operator ++ s ++ ")")
          end
      end
  | InfixExpression _ operator left_ right_ =>
      let verb_s (x : option Expression) : string :=
        match x with
        | None => fmt_nil
        | Some x' =>
            match Expression_String x' with
            | None => fmt_panic
            | Some s => s
            end
        end in
      Some ("(" ++ verb_s left_ ++ " " ++ operator ++ " " ++ verb_s right_
            ++ ")")
  | TypeOfExpression _ expr =>
      match expr with
      | None => None
      | Some x =>
          match Expression_String x with
          | None => None
          | Some s => Some ("typeof(" ++ s ++ ")")
          end
      end
  end.

Definition ExpressionStatement_String (es : ExpressionStatement)
  : option string :=
  match es_Expression es with
  | Some e => Expression_String e
  | None => Some EmptyString
  end.

(** Parsing a source text as one expression, as [demoTypeofEvaluation]
    does, and rendering the result. *)
Definition parse_expression_source (fuel : nat) (source : string)
  : res (option Expression * Parser) :=
  match NewParser (NewLexer source) with
  | Ok p => parseExpression fuel LOWEST p
  | Panic => Panic
  | OutOfFuel => OutOfFuel
  end.

Definition render_expression (fuel : nat) (source : string)
  : option string :=
  match parse_expression_source fuel source with
  | Ok (Some e, _) => Expression_String e
  | _ => None
  end.

(* ================================================================== *)
(** * Progress measure and invariants *)
(* ================================================================== *)

(** The fields of a lexer agree: [ch] is the byte at [position] (0 past
    the end) and [readPosition] is one further. *)
Definition lexer_ok (l : Lexer) : Prop :=
  readPosition l = S (position l) /\ ch l = byte_at (input l) (position l).

(** The bytes of the input not yet passed. *)
Definition remaining (l : Lexer) : nat :=
  String.length (input l) - position l.

(** The state of the lexer after [k] calls of [NextToken]. *)
Fixpoint lexer_after (k : nat) (l : Lexer) : option Lexer :=
  match k with
  | O => Some l
  | S k' =>
      match NextToken l with
      | Some (_, l1) => lexer_after k' l1
      | None => None
      end
  end.

Definition parser_ok (p : Parser) : Prop := lexer_ok (lexer p).

(** Look-ahead slots that may still hold a token other than [EOF]. *)
Definition slots (p : Parser) : nat :=
  if negb (peekPeekIs EOF p) then 3
  else if negb (peekTokenIs EOF p) then 2
  else if negb (curTokenIs EOF p) then 1
  else 0.

(** The token position counted from the end: what is left of the input
    plus the look-ahead.  [nextToken] lowers it until it is 0, and there
    every token in sight is [EOF]. *)
Definition togo (p : Parser) : nat :=
  remaining (lexer p)
  + (if remaining (lexer p) =? 0 then slots p else 3).

(** A budget that suffices for [ParseProgram] on a source text. *)
Definition enough_fuel (source : string) : nat :=
  3 * String.length source + 13.

Definition Parse (source : string) : res (Program * Parser) :=
  parse_source (enough_fuel source) source.

(** ** Vocabulary of the statements below *)

(** What a caller of [ParseProgram] and [GetErrors] obtains for a source
    text, as [main] does for each of its test cases. *)
Definition run_parser (source : string) : option (Program * list string) :=
  match Parse source with
  | Ok (prog, p) => Some (prog, GetErrors p)
  | _ => None
  end.

(** The rendering of a source text parsed as one expression. *)
Definition Render (source : string) : option string :=
  render_expression (enough_fuel source) source.

(** Nodes of the expected trees: an identifier, a statement made of one
    integer literal, a braced block. *)
Definition ident_ (name : string) : Identifier :=
  mkIdentifier (mkToken IDENT name) name.

Definition ident_expr (name : string) : option Expression :=
  Some (IdentifierNode (ident_ name)).

Definition int_stmt (lit : string) (value : Z) : Statement :=
  ExpressionStatementPtr
    (Some (mkExpressionStatement (mkToken INT lit)
             (Some (IntegerLiteral (mkToken INT lit) value)))).

Definition block_ (stmts : list Statement) : option BlockStatement :=
  Some (mkBlockStatement (mkToken LBRACE "{") stmts).

Definition EOF_token : Token := mkToken EOF EmptyString.

(** A parser at the end of its input, with the given tokens in sight. *)
Definition parser_at_end (cur peek peek2 : Token) : Parser :=
  {| lexer := NewLexer EmptyString; curToken := cur; peekToken := peek;
     peekPeek := peek2; errors := [] |}.

(** A [strconv.ParseFloat] that rejects every text. *)
Definition reject_floats (s : string) : option unit := None.

(** The binary operators the lexer produces, with their token kinds. *)
Definition binary_operators : list (string * TokenType) :=
  [("||", OR); ("&&", AND); ("==", EQ); ("!=", NOT_EQ); ("<", LT);
   (">", GT); ("+", ADD); ("-", SUB); ("*", MUL); ("/", DIV); ("%", MOD)].

Definition precedence_of (t : TokenType) : nat :=
  match precedences t with
  | Some prec => prec
  | None => LOWEST
  end.

(** Every byte of [s] satisfies [f]. *)
Fixpoint string_forallb (f : ascii -> bool) (s : string) : bool :=
  match s with
  | EmptyString => true
  | String c s' => f c && string_forallb f s'
  end.

(** Nothing but white space is left of the input. *)
Definition only_space_left (l : Lexer) : Prop :=
  forall i, position l <= i -> i < String.length (input l) ->
            isSpace (byte_at (input l) i) = true.

(** The bytes that end the scan of a string literal. *)
Definition string_end (c : ascii) : bool :=
  Ascii.eqb c DQUOTE || Ascii.eqb c NUL.

(** [NextToken] returned, left the lexer consistent and moved forward. *)
Definition lex_step (l : Lexer) (r : option (Token * Lexer)) : Prop :=
  exists tok l',
    r = Some (tok, l') /\ lexer_ok l' /\ input l' = input l
    /\ position l < position l'.

(** The error list only grows at its end. *)
Definition extends (es es' : list string) : Prop :=
  exists more, es' = (es ++ more)%list.

(** What every parsing method guarantees of the state it leaves: a
    consistent lexer, no step backwards, errors appended only. *)
Definition post (p0 p : Parser) : Prop :=
  parser_ok p /\ togo p <= togo p0 /\ extends (errors p0) (errors p).

(** The rest of a loop that is only willing to start from a state
    strictly closer to the end of the input than [p]. *)
Definition only_below {A : Type} (p : Parser) (a : A) : M A :=
  fun q => if togo q <? togo p then Ok (a, q) else OutOfFuel.

(** Whatever [m1] returns, [m2] returns too. *)
Definition M_le {A : Type} (m1 m2 : M A) : Prop :=
  forall p r, m1 p = Ok r -> m2 p = Ok r.

(** [m] run from [p] returns normally. *)
Definition returns {A : Type} (m : M A) (p : Parser) : Prop :=
  exists a p', m p = Ok (a, p').

(** [m] run from [p] returns normally, with a result and a state that
    satisfy [Q]. *)
Definition wp {A : Type} (m : M A) (p : Parser)
  (Q : A -> Parser -> Prop) : Prop :=
  match m p with
  | Ok (a, p') => Q a p'
  | Panic => False
  | OutOfFuel => False
  end.


(** ** Vocabulary of the further statements on the lexer *)

(** The consistent lexer on [s] whose current byte is at index [i]. *)
Definition lexer_at (s : string) (i : nat) : Lexer :=
  {| input := s; position := i; readPosition := S i; ch := byte_at s i |}.

(** The lexer [l] seen on an input that has [pre] in front of it. *)
Definition shift (pre : string) (l : Lexer) : Lexer :=
  lexer_at (pre ++ input l) (String.length pre + position l).

(** The number a text of decimal digits denotes. *)
Fixpoint decimal_from (acc : Z) (s : string) : Z :=
  match s with
  | EmptyString => acc
  | String c s' =>
      decimal_from (10 * acc + Z.of_nat (nat_of_ascii c - 48))%Z s'
  end.

Definition decimal (s : string) : Z := decimal_from 0%Z s.

(** The text of a token against the bytes the lexer passed for it,
    [start] being where the token began and [stop] where the lexer is
    afterwards. *)
Definition token_text (inp : string) (start stop : nat) (tok : Token)
  : Prop :=
  match Type_ tok with
  | EOF => Literal tok = EmptyString /\ stop = S start
  | STRING =>
      Literal tok = String.substring (S start) (stop - start - 2) inp
  | ILLEGAL =>
      Literal tok = string_of_byte (byte_at inp start) /\ stop = S start
  | _ => Literal tok = String.substring start (stop - start) inp
  end.

(** A step of the lexer [l], seen behind [pre]. *)
Definition shifted {A : Type} (pre : string) (r : option (A * Lexer))
  : option (A * Lexer) :=
  match r with
  | Some (a, l') => Some (a, shift pre l')
  | None => None
  end.

(** ** Vocabulary of the further statements on the parser *)

(** The first [n] tokens the parser [p] has before it, the current one
    first: its three slots, then what the lexer gives. *)
Definition stream (n : nat) (p : Parser) : option (list Token) :=
  match tokens (n - 3) (lexer p) with
  | Some ts =>
      Some (firstn n (curToken p :: peekToken p :: peekPeek p :: ts))
  | None => None
  end.

(** The parser [p] has the tokens [ts] before it. *)
Definition sees (p : Parser) (ts : list Token) : Prop :=
  parser_ok p /\ stream (List.length ts) p = Some ts.

Definition LPAREN_token : Token := mkToken LPAREN "(".
Definition RPAREN_token : Token := mkToken RPAREN ")".
Definition COMMA_token : Token := mkToken COMMA ",".

(** A parameter list as pairs of a type token and a name token: its
    tokens, and the parameters it stands for. *)
Fixpoint param_tokens (ps : list (Token * Token)) : list Token :=
  match ps with
  | [] => []
  | tn :: rest =>
      fst tn :: snd tn
      :: match rest with
         | [] => []
         | _ :: _ => COMMA_token :: param_tokens rest
         end
  end.

Definition param_ok (tn : Token * Token) : Prop :=
  Type_ (fst tn) = TYPE /\ Type_ (snd tn) = IDENT.

Definition param_of (tn : Token * Token) : FnParameter :=
  mkParameter (fst tn) (Some (mkIdentifier (snd tn) (Literal (snd tn)))).

(** The tokens of an expression written with every operator application
    in parentheses, as [String()] writes it. *)
Fixpoint expr_tokens (e : Expression) : list Token :=
  let child (x : option Expression) : list Token :=
    match x with
    | Some x' => expr_tokens x'
    | None => []
    end in
  match e with
  | IdentifierNode i => [ident_Token i]
  | IntegerLiteral tok _ => [tok]
  | FloatLiteral tok _ => [tok]
  | StringLiteral tok _ => [tok]
  | BooleanLiteral tok _ => [tok]
  | NilLiteral tok => [tok]
  | VoidLiteral tok => [tok]
  | PrefixExpression tok _ right_ =>
      LPAREN_token :: tok :: child right_ ++ [RPAREN_token]
  | InfixExpression tok _ left_ right_ =>
      LPAREN_token :: child left_ ++ tok :: child right_ ++ [RPAREN_token]
  | TypeOfExpression tok expr =>
      tok :: LPAREN_token :: child expr ++ [RPAREN_token]
  end.

(** An expression tree with every child present, every node carrying
    the token of its kind and the fields [parsePrefixExpression] and
    [parseInfixExpression] derive from it; no float literal. *)
Fixpoint complete (e : Expression) : Prop :=
  match e with
  | IdentifierNode i =>
      Type_ (ident_Token i) = IDENT
      /\ ident_Value i = Literal (ident_Token i)
  | IntegerLiteral tok value =>
      Type_ tok = INT /\ ParseInt (Literal tok) = Some value
  | FloatLiteral _ _ => False
  | StringLiteral tok value => Type_ tok = STRING /\ value = Literal tok
  | BooleanLiteral tok value =>
      Type_ tok = BOOL /\ value = String.eqb (Literal tok) "true"
  | NilLiteral tok => Type_ tok = NIL
  | VoidLiteral tok => Type_ tok = VOID
  | PrefixExpression tok operator (Some r) =>
      (Type_ tok = SUB \/ Type_ tok = ADD) /\ operator = Literal tok
      /\ complete r
  | InfixExpression tok operator (Some l) (Some r) =>
      LOWEST < precedence_of (Type_ tok) /\ operator = Literal tok
      /\ complete l /\ complete r
  | TypeOfExpression tok (Some x) => Type_ tok = TYPEOF /\ complete x
  | _ => False
  end.

(** What [parsePrefixExpression] and [parseExpression] do on the tokens
    of [e], from a budget [n] on. *)
Definition prefix_parses (e : Expression) (n : nat) : Prop :=
  forall fuel p more,
    n <= fuel ->
    sees p (expr_tokens e ++ more) ->
    exists p',
      parsePrefixExpression fuel (parseExpression fuel) p = Ok (Some e, p')
      /\ errors p' = errors p
      /\ sees p' (last (expr_tokens e) zeroToken :: more).

Definition expr_parses (e : Expression) (n : nat) : Prop :=
  forall fuel q p t more,
    n <= fuel ->
    sees p (expr_tokens e ++ t :: more) ->
    precedence_of (Type_ t) <= q ->
    exists p',
      parseExpression fuel q p = Ok (Some e, p')
      /\ errors p' = errors p
      /\ sees p' (last (expr_tokens e) zeroToken :: t :: more).

(** How tight the operator at the root of [e] binds; a tree that is no
    operator application binds tighter than any operator. *)
Definition level (e : Expression) : nat :=
  match e with
  | InfixExpression tok _ _ _ => precedence_of (Type_ tok)
  | _ => S CALL
  end.

(** The tokens of an expression of identifiers, literals and binary
    operators, written without parentheses. *)
Fixpoint infix_tokens (e : Expression) : list Token :=
  let child (x : option Expression) : list Token :=
    match x with
    | Some x' => infix_tokens x'
    | None => []
    end in
  match e with
  | IdentifierNode i => [ident_Token i]
  | IntegerLiteral tok _ => [tok]
  | FloatLiteral tok _ => [tok]
  | StringLiteral tok _ => [tok]
  | BooleanLiteral tok _ => [tok]
  | NilLiteral tok => [tok]
  | VoidLiteral tok => [tok]
  | InfixExpression tok _ left_ right_ => child left_ ++ tok :: child right_
  | PrefixExpression tok _ _ => [tok]
  | TypeOfExpression tok _ => [tok]
  end.

(** A tree of binary operators over identifiers and literals in which a
    left operand binds at least as tight as its operator and a right
    operand tighter: the tree that precedence and grouping to the left
    give to its tokens. *)
Fixpoint canonical (e : Expression) : Prop :=
  match e with
  | InfixExpression tok operator (Some l) (Some r) =>
      LOWEST < precedence_of (Type_ tok) /\ operator = Literal tok
      /\ precedence_of (Type_ tok) <= level l
      /\ precedence_of (Type_ tok) < level r
      /\ canonical l /\ canonical r
  | InfixExpression _ _ _ _ => False
  | PrefixExpression _ _ _ => False
  | TypeOfExpression _ _ => False
  | _ => complete e
  end.

(** The parser [main] builds for a source text. *)
Definition parser_on (source : string) : Parser :=
  match NewParser (NewLexer source) with
  | Ok p => p
  | _ => parser_at_end EOF_token EOF_token EOF_token
  end.

(** ** Programs as token sequences *)

Definition SEMICOLON_token : Token := mkToken SEMICOLON ";".
Definition ASSIGN_token : Token := mkToken ASSIGN "=".
Definition RBRACE_token : Token := mkToken RBRACE "}".
Definition ELSE_token : Token := mkToken ELSE "else".
Definition IF_token : Token := mkToken IF "if".
Definition IN_token : Token := mkToken IN "in".

Definition opt_expr_tokens (x : option Expression) : list Token :=
  match x with
  | Some e => expr_tokens e
  | None => []
  end.

Definition name_tokens (x : option Identifier) : list Token :=
  match x with
  | Some i => [ident_Token i]
  | None => []
  end.

(** The type token and the name token of a parameter. *)
Definition param_pair (prm : FnParameter) : Token * Token :=
  (param_Type prm,
   match param_Name prm with
   | Some i => ident_Token i
   | None => zeroToken
   end).

(** The tokens of a statement written the way the [String] methods write
    it (expressions with all parentheses, blocks in braces), with a
    semicolon after every statement that is not a block. *)
Fixpoint stmt_tokens (s : Statement) : list Token :=
  let opt_block (x : option BlockStatement) : list Token :=
    match x with
    | Some b => block_tokens b
    | None => []
    end in
  match s with
  | ExpressionStatementPtr (Some es) =>
      opt_expr_tokens (es_Expression es) ++ [SEMICOLON_token]
  | VariableDeclarationPtr (Some vd) =>
      vd_Token vd :: name_tokens (vd_Name vd)
      ++ ASSIGN_token :: opt_expr_tokens (vd_Value vd) ++ [SEMICOLON_token]
  | ReturnStatementPtr (Some rs) =>
      rs_Token rs :: opt_expr_tokens (rs_ReturnValue rs)
      ++ [SEMICOLON_token]
  | BreakStatementPtr (Some b) => [brk_Token b; SEMICOLON_token]
  | ContinueStatementPtr (Some c) => [cnt_Token c; SEMICOLON_token]
  | IfStatementPtr (Some (mkIfStatement tok cond thenBlock elseIfs
                            elseBlock)) =>
      tok :: LPAREN_token :: opt_expr_tokens cond
      ++ RPAREN_token :: opt_block thenBlock
      ++ flat_map
           (fun c =>
              match c with
              | mkElseIfClause cond' block =>
                  ELSE_token :: IF_token :: LPAREN_token
                  :: opt_expr_tokens cond'
                  ++ RPAREN_token :: opt_block block
              end) elseIfs
      ++ match elseBlock with
         | Some b => ELSE_token :: block_tokens b
         | None => []
         end
  | WhileStatementPtr (Some (mkWhileStatement tok block cond)) =>
      tok :: LPAREN_token :: opt_expr_tokens cond
      ++ RPAREN_token :: opt_block block
  | LoopStatementPtr (Some (mkLoopStatement tok block)) =>
      tok :: opt_block block
  | ForStatementPtr (Some (mkForStatement tok ident iterable block)) =>
      tok :: LPAREN_token :: name_tokens ident
      ++ IN_token :: opt_expr_tokens iterable
      ++ RPAREN_token :: opt_block block
  | FunctionStatementPtr (Some (mkFunctionStatement tok name params _
                                  body)) =>
      tok :: name_tokens name
      ++ LPAREN_token :: param_tokens (map param_pair params)
      ++ RPAREN_token :: opt_block body
  | _ => []
  end
with block_tokens (b : BlockStatement) : list Token :=
  match b with
  | mkBlockStatement tok stmts =>
      tok :: flat_map stmt_tokens stmts ++ [RBRACE_token]
  end.

Definition opt_block_tokens (x : option BlockStatement) : list Token :=
  match x with
  | Some b => block_tokens b
  | None => []
  end.

Definition clause_tokens (c : ElseIfClause) : list Token :=
  match c with
  | mkElseIfClause cond block =>
      ELSE_token :: IF_token :: LPAREN_token
      :: opt_expr_tokens cond ++ RPAREN_token :: opt_block_tokens block
  end.

Definition else_tokens (x : option BlockStatement) : list Token :=
  match x with
  | Some b => ELSE_token :: block_tokens b
  | None => []
  end.

Definition name_ok (i : Identifier) : Prop :=
  Type_ (ident_Token i) = IDENT /\ ident_Value i = Literal (ident_Token i).

Definition fn_param_ok (prm : FnParameter) : Prop :=
  Type_ (param_Type prm) = TYPE
  /\ match param_Name prm with
     | Some i => name_ok i
     | None => False
     end.

Fixpoint all {A : Type} (P : A -> Prop) (xs : list A) : Prop :=
  match xs with
  | [] => True
  | x :: xs' => P x /\ all P xs'
  end.

(** A statement as the parser builds it from such a text: every part
    present, every node with the token of its kind, every expression
    complete, every block in braces. *)
Fixpoint stmt_ok (s : Statement) : Prop :=
  let opt_block_ok (x : option BlockStatement) : Prop :=
    match x with
    | Some b => block_ok b
    | None => False
    end in
  match s with
  | ExpressionStatementPtr (Some (mkExpressionStatement tok (Some e))) =>
      complete e /\ tok = last (expr_tokens e) zeroToken
      /\ match e with VoidLiteral _ => False | _ => True end
  | VariableDeclarationPtr
      (Some (mkVariableDeclaration tok (Some name) (Some e))) =>
      Type_ tok = TYPE /\ name_ok name /\ complete e
  | ReturnStatementPtr (Some (mkReturnStatement tok value)) =>
      Type_ tok = RETURN
      /\ match value with
         | Some e => complete e
         | None => True
         end
  | BreakStatementPtr (Some b) => Type_ (brk_Token b) = BREAK
  | ContinueStatementPtr (Some c) => Type_ (cnt_Token c) = CONTINUE
  | IfStatementPtr (Some (mkIfStatement tok (Some cond) thenBlock elseIfs
                            elseBlock)) =>
      Type_ tok = IF /\ complete cond /\ opt_block_ok thenBlock
      /\ all (fun c =>
                match c with
                | mkElseIfClause (Some cond') block =>
                    complete cond' /\ opt_block_ok block
                | mkElseIfClause None _ => False
                end) elseIfs
      /\ match elseBlock with
         | Some b => block_ok b
         | None => True
         end
  | WhileStatementPtr (Some (mkWhileStatement tok block (Some cond))) =>
      Type_ tok = WHILE /\ complete cond /\ opt_block_ok block
  | LoopStatementPtr (Some (mkLoopStatement tok block)) =>
      Type_ tok = LOOP /\ opt_block_ok block
  | ForStatementPtr (Some (mkForStatement tok (Some ident) (Some iterable)
                             block)) =>
      Type_ tok = FOR /\ name_ok ident /\ complete iterable
      /\ opt_block_ok block
  | FunctionStatementPtr (Some (mkFunctionStatement tok (Some name) params
                                  returnType body)) =>
      ((Type_ tok = FUNC /\ returnType = mkToken VOID "void")
       \/ (Type_ tok = TYPE /\ returnType = tok))
      /\ name_ok name /\ all fn_param_ok params /\ opt_block_ok body
  | _ => False
  end
with block_ok (b : BlockStatement) : Prop :=
  match b with
  | mkBlockStatement tok stmts => Type_ tok = LBRACE /\ all stmt_ok stmts
  end.

Definition clause_ok (c : ElseIfClause) : Prop :=
  match c with
  | mkElseIfClause (Some cond) (Some b) => complete cond /\ block_ok b
  | _ => False
  end.

(** The token that follows is no [else]. *)
Definition not_else (more : list Token) : Prop :=
  match more with
  | t :: _ => Type_ t <> ELSE
  | [] => False
  end.

(** What [parseStatement] and [parseBlockStatement] do on the tokens of
    a statement and of a block, from a budget [n] on. *)
Definition stmt_parses (s : Statement) (n : nat) : Prop :=
  forall fuel p more,
    n <= fuel ->
    sees p (stmt_tokens s ++ more) ->
    not_else more ->
    exists p',
      parseStatement fuel p = Ok (Some s, p')
      /\ errors p' = errors p
      /\ sees p' (last (stmt_tokens s) zeroToken :: more).

Definition block_parses (b : BlockStatement) (n : nat) : Prop :=
  forall fuel p more,
    n <= fuel ->
    sees p (block_tokens b ++ more) ->
    exists p',
      parseBlockStatement (parseBlockStatement_loop fuel) p = Ok (b, p')
      /\ errors p' = errors p
      /\ sees p' (RBRACE_token :: more).

(** The kinds of token an expression begins with. *)
Definition expr_start (t : TokenType) : Prop :=
  In t [IDENT; INT; STRING; BOOL; NIL; VOID; LPAREN; TYPEOF].

(** The kinds of token a statement begins with. *)
Definition stmt_start (t : TokenType) : Prop :=
  In t [IDENT; INT; STRING; BOOL; NIL; LPAREN; TYPEOF; TYPE; RETURN; BREAK;
        CONTINUE; IF; WHILE; LOOP; FOR; FUNC].

(** A [strconv.ParseFloat] that accepts every text. *)
Definition accept_floats (s : string) : option unit := Some tt.

(** ** Printing and reading back *)

(** The lexer [l] gives the tokens [ts] one after the other and is [l']
    afterwards. *)
Fixpoint feeds (l : Lexer) (ts : list Token) (l' : Lexer) : Prop :=
  match ts with
  | [] => l' = l
  | t :: ts' => exists l1, NextToken l = Some (t, l1) /\ feeds l1 ts' l'
  end.

(** What may follow the text of an expression: nothing, a space or a
    closing parenthesis. *)
Definition delim (rest : string) : Prop :=
  match rest with
  | EmptyString => True
  | String c _ => c = " "%char \/ c = ")"%char
  end.

Definition anything (rest : string) : Prop := True.

(** The text [s], wherever it stands in the input and whatever follows
    it that satisfies [D], is read as the tokens [ts]. *)
Definition lexes (D : string -> Prop) (s : string) (ts : list Token)
  : Prop :=
  forall pre rest,
    D rest ->
    feeds (lexer_at (pre ++ s ++ rest) (String.length pre)) ts
      (lexer_at (pre ++ s ++ rest) (String.length pre + String.length s)).

(** A tree whose tokens are those the lexer gives for their texts: names
    made of letters and underscores that are no keywords, integers made
    of digits, strings without quote and 0 byte, the operators of the
    lexer. *)
Fixpoint printable (e : Expression) : Prop :=
  match e with
  | IdentifierNode i =>
      ident_Token i = mkToken IDENT (ident_Value i)
      /\ ident_Value i <> EmptyString
      /\ string_forallb isLetter (ident_Value i) = true
      /\ lookupIdent (ident_Value i) = IDENT
  | IntegerLiteral tok value =>
      Type_ tok = INT /\ Literal tok <> EmptyString
      /\ string_forallb isDigit (Literal tok) = true
      /\ ParseInt (Literal tok) = Some value
  | FloatLiteral _ _ => False
  | StringLiteral tok value =>
      tok = mkToken STRING value
      /\ string_forallb (fun c => negb (string_end c)) value = true
  | BooleanLiteral tok value =>
      (tok = mkToken BOOL "true" /\ value = true)
      \/ (tok = mkToken BOOL "false" /\ value = false)
  | NilLiteral tok => tok = mkToken NIL "null" \/ tok = mkToken NIL "nil"
  | VoidLiteral _ => False
  | PrefixExpression tok operator (Some r) =>
      (tok = mkToken SUB "-" \/ tok = mkToken ADD "+")
      /\ operator = Literal tok /\ printable r
  | InfixExpression tok operator (Some l) (Some r) =>
      In (Literal tok, Type_ tok) binary_operators
      /\ operator = Literal tok /\ printable l /\ printable r
  | TypeOfExpression tok (Some x) =>
      tok = mkToken TYPEOF "typeof" /\ printable x
  | _ => False
  end.



(* ================================================================== *)
(** * The evaluator (ast.go) *)
(* ================================================================== *)

(** The constants of the string type [Type]. *)
Definition IntType : string := "int".
Definition StringType : string := "string".
Definition VoidType : string := "void".
Definition FloatType : string := "float".
Definition UnknownType : string := "unknown".

(** The four structs whose pointers implement [Object].  [Value] of
    [Integer] is an int64, kept in its range by [wrap64]. *)
Inductive Struct : Type :=
| Integer (Value : Z)
| String_ (Value : string)
| Error (Message : string)
| Null.

(** The four pointer types, which are the dynamic types of an [Object]. *)
Inductive PointerType : Type :=
| to_Integer
| to_String
| to_Error
| to_Null.

(** A pointer: to an allocated struct, or the nil pointer of one of the
    four types.  No struct is written to after its allocation, so a
    pointer carries what it points to. *)
Inductive Pointer : Type :=
| mkPointer (address : nat) (pointee : Struct)
| nil_pointer (T : PointerType).

(** A value of the interface [Object]: [None] is the nil interface,
    [Some (nil_pointer T)] an interface value that holds a nil pointer. *)
Definition Object : Type := option Pointer.

Definition wrap64 (z : Z) : Z := ((z + 2 ^ 63) mod 2 ^ 64 - 2 ^ 63)%Z.

Definition int64 (z : Z) : Prop := (- 2 ^ 63 <= z < 2 ^ 63)%Z.

(** [fmt.Sprintf("%d", z)] for an int64. *)
Fixpoint format_digits (n : nat) (z : Z) (acc : string) : string :=
  match n with
  | O => acc
  | S n' =>
      let acc' := String (ascii_of_N (Z.to_N (48 + z mod 10))) acc in
      if (z / 10 =? 0)%Z then acc' else format_digits n' (z / 10)%Z acc'
  end.

Definition format_int (z : Z) : string :=
  if (z <? 0)%Z then String "-"%char (format_digits 20 (- z) EmptyString)
  else format_digits 20 z EmptyString.

Definition PointerType_of (x : Struct) : PointerType :=
  match x with
  | Integer _ => to_Integer
  | String_ _ => to_String
  | Error _ => to_Error
  | Null => to_Null
  end.

(** The methods [Type] and [Inspect] of the four pointer types.  [Type]
    reads no field, so it returns on a nil pointer too; [Inspect] reads
    one, but for [Null]. *)
Definition PointerType_Type (T : PointerType) : string :=
  match T with
  | to_Integer => IntType
  | to_String => StringType
  | to_Error => UnknownType
  | to_Null => VoidType
  end.

Definition Struct_Type (x : Struct) : string :=
  PointerType_Type (PointerType_of x).

Definition Struct_Inspect (x : Struct) : string :=
  match x with
  | Integer Value => format_int Value
  | String_ Value => Value
  | Error Message => "ERROR: " ++ Message
  | Null => "null"
  end.

(** A method call through the interface panics on the nil interface,
    and a field read panics on a nil pointer. *)
Definition Object_Type (obj : Object) : res string :=
  match obj with
  | Some (mkPointer _ x) => Ok (Struct_Type x)
  | Some (nil_pointer T) => Ok (PointerType_Type T)
  | None => Panic
  end.

Definition Object_Inspect (obj : Object) : res string :=
  match obj with
  | Some (mkPointer _ x) => Ok (Struct_Inspect x)
  | Some (nil_pointer to_Null) => Ok "null"
  | Some (nil_pointer _) => Panic
  | None => Panic
  end.

(** The verb [%T]: the dynamic type of an interface value. *)
Definition PointerType_T (T : PointerType) : string :=
  match T with
  | to_Integer => "*main.Integer"
  | to_String => "*main.String"
  | to_Error => "*main.Error"
  | to_Null => "*main.Null"
  end.

Definition Object_T (obj : Object) : string :=
  match obj with
  | None => "<nil>"
  | Some (mkPointer _ x) => PointerType_T (PointerType_of x)
  | Some (nil_pointer T) => PointerType_T T
  end.

Definition Expression_T (node : option Expression) : string :=
  match node with
  | None => "<nil>"
  | Some (IdentifierNode _) => "*main.Identifier"
  | Some (IntegerLiteral _ _) => "*main.IntegerLiteral"
  | Some (FloatLiteral _ _) => "*main.FloatLiteral"
  | Some (StringLiteral _ _) => "*main.StringLiteral"
  | Some (BooleanLiteral _ _) => "*main.BooleanLiteral"
  | Some (NilLiteral _) => "*main.NilLiteral"
  | Some (VoidLiteral _) => "*main.VoidLiteral"
  | Some (PrefixExpression _ _ _) => "*main.PrefixExpression"
  | Some (InfixExpression _ _ _ _) => "*main.InfixExpression"
  | Some (TypeOfExpression _ _) => "*main.TypeOfExpression"
  end.

(** [left == right] on interface values: the same dynamic type and the
    same pointer; a pointer to an allocated struct is not nil.  (Go
    leaves open whether two pointers to [Null], a struct of size zero,
    are equal; here their addresses decide as for the other structs, and
    the evaluator allocates no [Null].) *)
Definition PointerType_eqb (T U : PointerType) : bool :=
  match T, U with
  | to_Integer, to_Integer => true
  | to_String, to_String => true
  | to_Error, to_Error => true
  | to_Null, to_Null => true
  | _, _ => false
  end.

Definition Object_eqb (left_ right_ : Object) : bool :=
  match left_, right_ with
  | None, None => true
  | Some (mkPointer a x), Some (mkPointer b y) =>
      PointerType_eqb (PointerType_of x) (PointerType_of y) && (a =? b)
  | Some (nil_pointer T), Some (nil_pointer U) => PointerType_eqb T U
  | _, _ => false
  end.

(** [EvalEnv]: the map [store] as a function, and the enclosing
    environment ([None] is the nil pointer). *)
#[warnings="-register-all"] Inductive EvalEnv : Type :=
| mkEvalEnv (store : string -> option Object) (outer : option EvalEnv).

Definition NewEvalEnv : EvalEnv := mkEvalEnv (fun _ => None) None.

Definition NewEnclosedEnv (outer : EvalEnv) : EvalEnv :=
  mkEvalEnv (fun _ => None) (Some outer).

Fixpoint Get (e : EvalEnv) (name : string) : Object * bool :=
  match e with
  | mkEvalEnv store outer =>
      match store name with
      | Some value => (value, true)
      | None =>
          match outer with
          | Some o => Get o name
          | None => (None, false)
          end
      end
  end.

Definition Set_ (e : EvalEnv) (name : string) (val : Object)
  : EvalEnv * Object :=
  match e with
  | mkEvalEnv store outer =>
      (mkEvalEnv (fun k => if String.eqb k name then Some val else store k)
         outer, val)
  end.

(** A function of the evaluator: it allocates, so it reads and moves the
    next free address; an allocation returns a pointer unequal to every
    pointer made before. *)
Definition Ev (A : Type) : Type := nat -> res (A * nat).

Definition ret_Ev {A : Type} (a : A) : Ev A := fun h => Ok (a, h).

Definition bind_Ev {A B : Type} (m : Ev A) (k : A -> Ev B) : Ev B :=
  fun h =>
    match m h with
    | Ok (a, h') => k a h'
    | Panic => Panic
    | OutOfFuel => OutOfFuel
    end.

Definition lift_Ev {A : Type} (r : res A) : Ev A :=
  fun h =>
    match r with
    | Ok a => Ok (a, h)
    | Panic => Panic
    | OutOfFuel => OutOfFuel
    end.

Notation "x <~ m ;; k" := (bind_Ev m (fun x => k))
  (at level 61, m at next level, right associativity).

(** [&T{...}] *)
Definition new (x : Struct) : Ev Object :=
  fun h => Ok (Some (mkPointer h x), S h).

(** [newError], applied to the formatted message. *)
Definition newError (message : string) : Ev Object := new (Error message).

(** [obj.Inspect()[:5] == "ERROR"] *)
Definition Inspect_is_ERROR (obj : Object) : res bool :=
  match Object_Inspect obj with
  | Ok s =>
      match slice s 0 5 with
      | Some s' => Ok (String.eqb s' "ERROR")
      | None => Panic
      end
  | Panic => Panic
  | OutOfFuel => OutOfFuel
  end.

Definition isError (obj : Object) : res bool :=
  match obj with
  | Some _ =>
      match Object_Type obj with
      | Ok t =>
          if String.eqb t UnknownType then Inspect_is_ERROR obj
          else Ok false
      | Panic => Panic
      | OutOfFuel => OutOfFuel
      end
  | None => Ok false
  end.

Definition nativeBoolToPyMonkeyBoolean (input : bool) : Ev Object :=
  if input then new (Integer 1) else new (Integer 0).

(** The field [Value] behind the type assertion of [obj] to a pointer
    to [Integer]: the assertion panics on an object of another type, the
    field read on the nil pointer. *)
Definition Integer_Value (obj : Object) : res Z :=
  match obj with
  | Some (mkPointer _ (Integer Value)) => Ok Value
  | _ => Panic
  end.

(** [fmt.Sprintf(format)] without operands, which [evalIdentifier] and
    [typeof] call on a text that ends in a name of the evaluated
    expression; what it makes of a [%] in that name is left abstract. *)
Class Fmt : Type := { Sprintf_text : string -> string }.

Section Evaluator.

Context {fmt : Fmt}.

Definition evalIdentifier (node : Identifier) (env : EvalEnv) : Ev Object :=
  let (val, ok) := Get env (ident_Value node) in
  if negb ok
  then newError (Sprintf_text ("identifier not found: " ++ ident_Value node))
  else ret_Ev val.

Definition evalMinusPrefixOperatorExpression (right_ : Object) : Ev Object :=
  t <~ lift_Ev (Object_Type right_) ;;
  if negb (String.eqb t IntType)
  then newError ("unknown operator: -" ++ Object_T right_)
  else
    value <~ lift_Ev (Integer_Value right_) ;;
    new (Integer (wrap64 (- value))).

Definition evalPlusPrefixOperatorExpression (right_ : Object) : Ev Object :=
  t <~ lift_Ev (Object_Type right_) ;;
  if negb (String.eqb t IntType)
  then newError ("unknown operator: +" ++ Object_T right_)
  else ret_Ev right_.

Definition evalPrefixExpression (operator : string) (right_ : Object)
  : Ev Object :=
  if String.eqb operator "-" then evalMinusPrefixOperatorExpression right_
  else if String.eqb operator "+" then evalPlusPrefixOperatorExpression right_
  else newError ("unknown operator: " ++ operator ++ Object_T right_).

Definition evalIntegerInfixExpression (operator : string)
    (left_ right_ : Object) : Ev Object :=
  leftVal <~ lift_Ev (Integer_Value left_) ;;
  rightVal <~ lift_Ev (Integer_Value right_) ;;
  if String.eqb operator "+"
  then new (Integer (wrap64 (leftVal + rightVal)))
  else if String.eqb operator "-"
  then new (Integer (wrap64 (leftVal - rightVal)))
  else if String.eqb operator "*"
  then new (Integer (wrap64 (leftVal * rightVal)))
  else if String.eqb operator "/"
  then if (rightVal =? 0)%Z
       then newError "division by zero"
       else new (Integer (wrap64 (Z.quot leftVal rightVal)))
  else if String.eqb operator "<"
  then nativeBoolToPyMonkeyBoolean (leftVal <? rightVal)%Z
  else if String.eqb operator ">"
  then nativeBoolToPyMonkeyBoolean (leftVal >? rightVal)%Z
  else if String.eqb operator "=="
  then nativeBoolToPyMonkeyBoolean (leftVal =? rightVal)%Z
  else if String.eqb operator "!="
  then nativeBoolToPyMonkeyBoolean (negb (leftVal =? rightVal)%Z)
  else newError ("unknown operator: " ++ operator).

(** [left.Type() == IntType && right.Type() == IntType]: the right
    operand is asked only when the left one is an integer. *)
Definition both_IntType (left_ right_ : Object) : res bool :=
  match Object_Type left_ with
  | Ok t =>
      if String.eqb t IntType
      then match Object_Type right_ with
           | Ok t' => Ok (String.eqb t' IntType)
           | Panic => Panic
           | OutOfFuel => OutOfFuel
           end
      else Ok false
  | Panic => Panic
  | OutOfFuel => OutOfFuel
  end.

Definition evalInfixExpression (operator : string) (left_ right_ : Object)
  : Ev Object :=
  ints <~ lift_Ev (both_IntType left_ right_) ;;
  if ints then evalIntegerInfixExpression operator left_ right_
  else if String.eqb operator "=="
  then nativeBoolToPyMonkeyBoolean (Object_eqb left_ right_)
  else if String.eqb operator "!="
  then nativeBoolToPyMonkeyBoolean (negb (Object_eqb left_ right_))
  else newError ("unknown operator: " ++ Object_T left_ ++ " " ++ operator
                 ++ " " ++ Object_T right_).

(** [typeof], over the function that evaluates a node. *)
Definition typeof_body (Eval_node : Expression -> Ev Object)
    (expr : option Expression) (env : EvalEnv) : Ev Object :=
  match expr with
  | Some (IntegerLiteral _ _) => new (String_ IntType)
  | Some (IdentifierNode i) =>
      let (val, ok) := Get env (ident_Value i) in
      if negb ok
      then newError (Sprintf_text ("identifier not found: " ++ ident_Value i))
      else
        t <~ lift_Ev (Object_Type val) ;;
        new (String_ t)
  | Some (InfixExpression _ _ _ _ as x)
  | Some (PrefixExpression _ _ _ as x) =>
      result <~ Eval_node x ;;
      err <~ lift_Ev (isError result) ;;
      if err then ret_Ev result
      else
        t <~ lift_Ev (Object_Type result) ;;
        new (String_ t)
  | _ =>
      newError ("cannot determine type of expression: " ++ Expression_T expr)
  end.

(** [Eval] on a node that is not the nil interface. *)
Fixpoint Eval_node (node : Expression) (env : EvalEnv) {struct node}
  : Ev Object :=
  let Eval (n : option Expression) : Ev Object :=
    match n with
    | Some e => Eval_node e env
    | None => newError ("unknown expression type: " ++ Expression_T None)
    end in
  match node with
  | IntegerLiteral _ value => new (Integer value)
  | IdentifierNode i => evalIdentifier i env
  | PrefixExpression _ operator right_ =>
      right' <~ Eval right_ ;;
      err <~ lift_Ev (isError right') ;;
      if err then ret_Ev right'
      else evalPrefixExpression operator right'
  | InfixExpression _ operator left_ right_ =>
      left' <~ Eval left_ ;;
      errl <~ lift_Ev (isError left') ;;
      if errl then ret_Ev left'
      else
        right' <~ Eval right_ ;;
        errr <~ lift_Ev (isError right') ;;
        if errr then ret_Ev right'
        else evalInfixExpression operator left' right'
  | TypeOfExpression _ expr =>
      typeof_body (fun x => Eval_node x env) expr env
  | _ => newError ("unknown expression type: " ++ Expression_T (Some node))
  end.

Definition Eval (node : option Expression) (env : EvalEnv) : Ev Object :=
  match node with
  | Some e => Eval_node e env
  | None => newError ("unknown expression type: " ++ Expression_T None)
  end.

Definition typeof (expr : option Expression) (env : EvalEnv) : Ev Object :=
  typeof_body (fun x => Eval_node x env) expr env.

End Evaluator.

(** ** Vocabulary of the statements on the evaluator *)

(** Every object bound in the environment, at any level, is an allocated
    struct: neither the nil interface nor a nil pointer. *)
Definition env_ok (env : EvalEnv) : Prop :=
  forall name obj,
    Get env name = (obj, true) -> exists a x, obj = Some (mkPointer a x).

Definition is_error (x : Struct) : bool :=
  match x with
  | Error _ => true
  | _ => false
  end.

Definition Integer_or_Error (x : Struct) : Prop :=
  match x with
  | Integer _ | Error _ => True
  | _ => False
  end.

(** [m] returns, whatever the next free address [h]: a pointer to an
    allocated struct [x] at [a], with [Q h a x h'] for the next free
    address [h'] after. *)
Definition yields (m : Ev Object) (Q : nat -> nat -> Struct -> nat -> Prop)
  : Prop :=
  forall h,
    exists a x h',
      m h = Ok (Some (mkPointer a x), h') /\ h <= h' /\ Q h a x h'.

(** An expression with a part the evaluator has no case for: a literal
    that is no integer, a missing operand, a typeof applied to a typeof. *)
Fixpoint unsupported (e : Expression) : Prop :=
  match e with
  | IdentifierNode _ | IntegerLiteral _ _ => False
  | FloatLiteral _ _ | StringLiteral _ _ | BooleanLiteral _ _
  | NilLiteral _ | VoidLiteral _ => True
  | PrefixExpression _ _ right_ =>
      match right_ with
      | Some r => unsupported r
      | None => True
      end
  | InfixExpression _ _ left_ right_ =>
      match left_ with
      | Some l => unsupported l
      | None => True
      end
      \/ match right_ with
         | Some r => unsupported r
         | None => True
         end
  | TypeOfExpression _ expr =>
      match expr with
      | Some (TypeOfExpression _ _) => True
      | Some x => unsupported x
      | None => True
      end
  end.

(** The integer an expression of [+], [-] and [*] over integer literals
    and integer variables stands for, computed without bound. *)
Fixpoint value_of (env : EvalEnv) (e : Expression) : option Z :=
  match e with
  | IntegerLiteral _ value => Some value
  | IdentifierNode i =>
      match Get env (ident_Value i) with
      | (Some (mkPointer _ (Integer Value)), true) => Some Value
      | _ => None
      end
  | PrefixExpression _ operator (Some r) =>
      match value_of env r with
      | Some z =>
          if String.eqb operator "-" then Some (- z)%Z
          else if String.eqb operator "+" then Some z
          else None
      | None => None
      end
  | InfixExpression _ operator (Some l) (Some r) =>
      match value_of env l, value_of env r with
      | Some x, Some y =>
          if String.eqb operator "+" then Some (x + y)%Z
          else if String.eqb operator "-" then Some (x - y)%Z
          else if String.eqb operator "*" then Some (x * y)%Z
          else None
      | _, _ => None
      end
  | _ => None
  end.

(** The int64 fields of the literals of an expression, and of the
    integers of an environment, hold int64 values. *)
Fixpoint literals_int64 (e : Expression) : Prop :=
  match e with
  | IntegerLiteral _ value => int64 value
  | PrefixExpression _ _ (Some r) => literals_int64 r
  | InfixExpression _ _ left_ right_ =>
      match left_ with
      | Some l => literals_int64 l
      | None => True
      end
      /\ match right_ with
         | Some r => literals_int64 r
         | None => True
         end
  | TypeOfExpression _ (Some x) => literals_int64 x
  | _ => True
  end.

Definition env_int64 (env : EvalEnv) : Prop :=
  forall name a z,
    Get env name = (Some (mkPointer a (Integer z)), true) -> int64 z.

(** What [typeof] returns for the operand [expr], and [Eval] for the node
    [e], when the next free address moves from [h] to [h']: the struct
    [x], at the address [a]. *)
Definition typeof_result (expr : option Expression) (h a : nat)
    (x : Struct) (h' : nat) : Prop :=
  is_error x = true
  \/ exists t,
       x = String_ t /\ h <= a < h'
       /\ match expr with
          | Some (IdentifierNode _) => True
          | _ => t = IntType
          end.

Definition Eval_result (e : Expression) (h a : nat) (x : Struct) (h' : nat)
  : Prop :=
  match e with
  | IdentifierNode _ => True
  | IntegerLiteral _ value => x = Integer value
  | PrefixExpression _ _ _ | InfixExpression _ _ _ _ => Integer_or_Error x
  | TypeOfExpression _ expr => typeof_result expr h a x h'
  | _ => is_error x = true
  end.

(** The environment of [demoTypeofEvaluation]. *)
Definition demo_env : EvalEnv :=
  fst (Set_ (fst (Set_ NewEvalEnv "x" (Some (mkPointer 0 (Integer 100)))))
         "name" (Some (mkPointer 1 (String_ "hello")))).

(** A formatter that returns its format, as [fmt.Sprintf] does on a text
    without [%]. *)
Definition plain_text : Fmt := {| Sprintf_text := fun s => s |}.


(* ================================================================== *)
(** * The call stack *)
(* ================================================================== *)

(** The parser recurses.  [parseExpression] calls itself for the operand
    of a prefix and of a binary operator and for what stands between
    parentheses; [parseStatement] calls itself for the statements of a
    block and of a branch, and calls [parseExpression].  Each call takes
    room on the stack of the goroutine, which the runtime bounds; past
    the bound the run ends with the fatal error [stack overflow].  Below,
    [stack] is the number of nested calls of [parseExpression] and
    [parseStatement] there is room for, the frames of the functions
    called in between counted with theirs.  The loops take no room. *)

(** The run ends without a result, as it does on a panic. *)
Definition StackOverflow {A : Type} : res A := Panic.

Definition stack_overflow {A : Type} : M A := fun _ => StackOverflow.

Fixpoint parseExpression_st (fuel stack : nat) (precedence : nat)
    {struct fuel} : M (option Expression) :=
  match fuel with
  | O => out_of_fuel
  | S fuel' =>
      match stack with
      | O => stack_overflow
      | S stack' =>
          parseExpression_body fuel' (parseExpression_st fuel' stack')
            (parseExpression_loop_st fuel' stack') precedence
      end
  end
with parseExpression_loop_st (fuel stack : nat) (precedence : nat)
       (leftExp : option Expression) {struct fuel}
       : M (option Expression) :=
  match fuel with
  | O => out_of_fuel
  | S fuel' =>
      parseExpression_loop_body (parseExpression_st fuel' stack)
        (parseExpression_loop_st fuel' stack) precedence leftExp
  end.

(** The functions of the statements that call [parseExpression], over
    the function they call ([pe]) and over the recursive calls: [ps] of
    [parseStatement], [block_loop] of the loop of [parseBlockStatement],
    [if_loop] of the else loop of [parseIfStatement]. *)
Section StatementsOnStack.

Variable fuel : nat.
Variable pe : nat -> M (option Expression).
Variable ps : M (option Statement).
Variable block_loop : list Statement -> M (list Statement).
Variable if_loop : IfStatement -> M (option IfStatement).

Definition parseReturnStatement_st : M (option ReturnStatement) :=
  p <- get ;;
  let tok := curToken p in
  if peekTokenIs SEMICOLON p then
    nextToken ;;
    ret (Some (mkReturnStatement tok None))
  else if peekTokenIs RBRACE p then
    ret (Some (mkReturnStatement tok None))
  else
    nextToken ;;
    value <- pe LOWEST ;;
    p1 <- get ;;
    (if peekTokenIs SEMICOLON p1 then nextToken else ret tt) ;;
    ret (Some (mkReturnStatement tok value)).

Definition parseDeclarationStatement_st : M (option VariableDeclaration) :=
  p <- get ;;
  if negb (curTokenIs TYPE p) && negb (curTokenIs VOID p) then
    addError ("expected type, got "
              ++ TokenType_string (Type_ (curToken p))) ;;
    ret None
  else
  let token := curToken p in
  ok <- expectPeek IDENT ;;
  if negb ok then ret None else
  p1 <- get ;;
  let name := mkIdentifier (curToken p1) (Literal (curToken p1)) in
  ok <- expectPeek ASSIGN ;;
  if negb ok then ret None else
  nextToken ;;
  value <- pe LOWEST ;;
  p2 <- get ;;
  (if peekTokenIs SEMICOLON p2 then nextToken else ret tt) ;;
  ret (Some (mkVariableDeclaration token (Some name) value)).

Definition parseIfStatement_loop_body_st (stmt : IfStatement)
  : M (option IfStatement) :=
  p <- get ;;
  if peekTokenIs ELSE p then
    nextToken ;;
    p1 <- get ;;
    if peekTokenIs IF p1 then
      nextToken ;;
      ok <- expectPeek LPAREN ;;
      if negb ok then ret None else
      nextToken ;;
      condition <- pe LOWEST ;;
      match condition with
      | None => ret None
      | Some _ =>
          ok <- expectPeek RPAREN ;;
          if negb ok then ret None else
          block <- parseBranch ps block_loop ;;
          match block with
          | None => ret None
          | Some _ =>
              match stmt with
              | mkIfStatement tok c t elseIfs e =>
                  if_loop
                    (mkIfStatement tok c t
                       (elseIfs ++ [mkElseIfClause condition block]) e)
              end
          end
      end
    else
      block <- parseBranch ps block_loop ;;
      match block with
      | None => ret None
      | Some _ =>
          match stmt with
          | mkIfStatement tok c t elseIfs _ =>
              ret (Some (mkIfStatement tok c t elseIfs block))
          end
      end
  else ret (Some stmt).

Definition parseIfStatement_st : M (option IfStatement) :=
  p <- get ;;
  let tok := curToken p in
  ok <- expectPeek LPAREN ;;
  if negb ok then ret None else
  nextToken ;;
  condition <- pe LOWEST ;;
  match condition with
  | None => ret None
  | Some _ =>
      ok <- expectPeek RPAREN ;;
      if negb ok then ret None else
      thenBlock <- parseBranch ps block_loop ;;
      match thenBlock with
      | None => ret None
      | Some _ =>
          if_loop (mkIfStatement tok condition thenBlock [] None)
      end
  end.

Definition parseWhileStatement_st : M (option WhileStatement) :=
  p <- get ;;
  let tok := curToken p in
  ok <- expectPeek LPAREN ;;
  if negb ok then addError "expected '(' after 'while'" ;; ret None else
  nextToken ;;
  condition <- pe LOWEST ;;
  match condition with
  | None => ret None
  | Some _ =>
      ok <- expectPeek RPAREN ;;
      if negb ok
      then addError "expected ')' after while condition" ;; ret None else
      ok <- expectPeek LBRACE ;;
      if negb ok
      then addError "expected '{' after while condition" ;; ret None else
      block <- parseBlockStatement block_loop ;;
      ret (Some (mkWhileStatement tok (Some block) condition))
  end.

Definition parseForStatement_st : M (option ForStatement) :=
  p <- get ;;
  let tok := curToken p in
  ok <- expectPeek LPAREN ;;
  if negb ok then addError "expected '(' after 'for'" ;; ret None else
  ok <- expectPeek IDENT ;;
  if negb ok
  then addError "expected identifier after '(' in for statement" ;;
       ret None else
  p1 <- get ;;
  let ident := mkIdentifier (curToken p1) (Literal (curToken p1)) in
  ok <- expectPeek IN ;;
  if negb ok
  then addError "expected 'in' after identifier in for statement" ;;
       ret None else
  nextToken ;;
  iterable <- pe LOWEST ;;
  match iterable with
  | None => ret None
  | Some _ =>
      ok <- expectPeek RPAREN ;;
      if negb ok
      then addError "expected ')' after for loop iterable" ;; ret None else
      ok <- expectPeek LBRACE ;;
      if negb ok
      then addError "expected '{' after for loop header" ;; ret None else
      block <- parseBlockStatement block_loop ;;
      ret (Some (mkForStatement tok (Some ident) iterable (Some block)))
  end.

Definition parseStatement_body_st : M (option Statement) :=
  skipWhitespaceTokens fuel ;;
  p <- get ;;
  match Type_ (curToken p) with
  | IF => s <- parseIfStatement_st ;; ret (Some (IfStatementPtr s))
  | RETURN =>
      s <- parseReturnStatement_st ;; ret (Some (ReturnStatementPtr s))
  | BREAK => s <- parseBreakStatement ;; ret (Some (BreakStatementPtr s))
  | CONTINUE =>
      s <- parseContinueStatement ;; ret (Some (ContinueStatementPtr s))
  | WHILE => s <- parseWhileStatement_st ;; ret (Some (WhileStatementPtr s))
  | LOOP =>
      s <- parseLoopStatement block_loop ;; ret (Some (LoopStatementPtr s))
  | FOR => s <- parseForStatement_st ;; ret (Some (ForStatementPtr s))
  | FUNC =>
      s <- parseFunctionStatement fuel block_loop ;;
      ret (Some (FunctionStatementPtr s))
  | TYPE | VOID =>
      if peekTokenIs IDENT p then
        if peekPeekIs LPAREN p then
          s <- parseFunctionStatement fuel block_loop ;;
          ret (Some (FunctionStatementPtr s))
        else if peekPeekIs ASSIGN p then
          s <- parseDeclarationStatement_st ;;
          ret (Some (VariableDeclarationPtr s))
        else
          s <- parseDeclarationStatement_st ;;
          ret (Some (VariableDeclarationPtr s))
      else ret None
  | RBRACE | SEMICOLON | EOF => ret None
  | _ =>
      expr <- pe LOWEST ;;
      match expr with
      | Some _ =>
          p1 <- get ;;
          (if peekTokenIs SEMICOLON p1 then nextToken else ret tt) ;;
          ret (Some (ExpressionStatementPtr
                       (Some (mkExpressionStatement (curToken p1) expr))))
      | None =>
          p1 <- get ;;
          (if negb (curTokenIs EOF p1)
           then addError ("unexpected token: " ++ Literal (curToken p1))
           else ret tt) ;;
          ret None
      end
  end.

(** One turn of the loop of [ParseProgram]. *)
Definition ParseProgram_loop_body_st
  (again : list Statement -> M (list Statement))
  (stmts : list Statement) : M (list Statement) :=
  p <- get ;;
  if negb (curTokenIs EOF p) then
    skipWhitespaceTokens fuel ;;
    p1 <- get ;;
    if curTokenIs EOF p1 then ret stmts else
    stmt <- ps ;;
    nextToken ;;
    again (append_stmt stmts stmt)
  else ret stmts.

End StatementsOnStack.

Fixpoint parseStatement_st (fuel stack : nat) {struct fuel}
  : M (option Statement) :=
  match fuel with
  | O => out_of_fuel
  | S fuel' =>
      match stack with
      | O => stack_overflow
      | S stack' =>
          parseStatement_body_st fuel' (parseExpression_st fuel' stack')
            (parseStatement_st fuel' stack')
            (parseBlockStatement_loop_st fuel' stack')
            (parseIfStatement_loop_st fuel' stack')
      end
  end
with parseBlockStatement_loop_st (fuel stack : nat)
       (stmts : list Statement) {struct fuel} : M (list Statement) :=
  match fuel with
  | O => out_of_fuel
  | S fuel' =>
      parseBlockStatement_loop_body (parseStatement_st fuel' stack)
        (parseBlockStatement_loop_st fuel' stack) stmts
  end
with parseIfStatement_loop_st (fuel stack : nat) (stmt : IfStatement)
       {struct fuel} : M (option IfStatement) :=
  match fuel with
  | O => out_of_fuel
  | S fuel' =>
      parseIfStatement_loop_body_st (parseExpression_st fuel' stack)
        (parseStatement_st fuel' stack)
        (parseBlockStatement_loop_st fuel' stack)
        (parseIfStatement_loop_st fuel' stack) stmt
  end.

Fixpoint ParseProgram_loop_st (fuel stack : nat) (stmts : list Statement)
  : M (list Statement) :=
  match fuel with
  | O => out_of_fuel
  | S fuel' =>
      ParseProgram_loop_body_st fuel' (parseStatement_st fuel' stack)
        (ParseProgram_loop_st fuel' stack) stmts
  end.

Definition ParseProgram_st (fuel stack : nat) : M Program :=
  stmts <- ParseProgram_loop_st fuel stack [] ;;
  ret (mkProgram stmts).

(** Lexing and parsing a source text, as [main] does, with room on the
    stack for [stack] nested calls. *)
Definition parse_source_st (fuel stack : nat) (source : string)
  : res (Program * Parser) :=
  match NewParser (NewLexer source) with
  | Ok p => ParseProgram_st fuel stack p
  | Panic => Panic
  | OutOfFuel => OutOfFuel
  end.

Definition Parse_st (stack : nat) (source : string)
  : res (Program * Parser) :=
  parse_source_st (enough_fuel source) stack source.

Definition run_parser_st (stack : nat) (source : string)
  : option (Program * list string) :=
  match Parse_st stack source with
  | Ok (prog, p) => Some (prog, GetErrors p)
  | _ => None
  end.

(** A source text of [n] minus signs. *)
Fixpoint minus_signs (n : nat) : string :=
  match n with
  | O => EmptyString
  | S n' => String "-"%char (minus_signs n')
  end.

Definition SUB_token : Token := mkToken SUB "-".

(* ================================================================== *)
(** * Properties of the lexer *)
(* ================================================================== *)

Lemma get_none_past_end (s : string) (i : nat) :
  String.length s <= i -> String.get i s = None.
Proof.
  revert i; induction s as [|c s IH]; intros i H.
  - destruct i; reflexivity.
  - destruct i as [|i]; simpl in *; [lia|]. apply IH; lia.
Qed.

Lemma byte_at_past_end (s : string) (i : nat) :
  String.length s <= i -> byte_at s i = NUL.
Proof. intros H. unfold byte_at. now rewrite get_none_past_end. Qed.

Lemma byte_at_not_NUL_in_range (s : string) (i : nat) :
  byte_at s i <> NUL -> i < String.length s.
Proof.
  intros H. destruct (Nat.lt_ge_cases i (String.length s)) as [Hlt|Hge]; auto.
  exfalso; apply H, byte_at_past_end, Hge.
Qed.

Lemma readChar_ch (l : Lexer) :
  ch (readChar l) = byte_at (input l) (readPosition l).
Proof.
  unfold readChar; simpl.
  destruct (String.length (input l) <=? readPosition l) eqn:E; auto.
  apply Nat.leb_le in E. now rewrite byte_at_past_end.
Qed.

Lemma readChar_ok (l : Lexer) : lexer_ok (readChar l).
Proof. split; [reflexivity|]. apply readChar_ch. Qed.

Lemma NewLexer_ok (inp : string) : lexer_ok (NewLexer inp).
Proof. apply readChar_ok. Qed.

Lemma readChar_position (l : Lexer) :
  lexer_ok l -> position (readChar l) = S (position l).
Proof. intros [H _]. exact H. Qed.

Lemma ch_not_NUL_in_range (l : Lexer) :
  lexer_ok l -> ch l <> NUL -> position l < String.length (input l).
Proof. intros [_ H] Hc. apply byte_at_not_NUL_in_range. now rewrite <- H. Qed.

Section ScanLoop.

Variable cond : ascii -> bool.
Hypothesis cond_NUL : cond NUL = false.

Lemma cond_true_in_range (l : Lexer) :
  lexer_ok l -> cond (ch l) = true -> position l < String.length (input l).
Proof.
  intros Hok Hc. apply ch_not_NUL_in_range; auto.
  intros E. rewrite E, cond_NUL in Hc. discriminate.
Qed.

Lemma readWhile_ok (n : nat) (l : Lexer) :
  lexer_ok l ->
  lexer_ok (readWhile cond n l)
  /\ input (readWhile cond n l) = input l
  /\ position l <= position (readWhile cond n l).
Proof.
  revert l; induction n as [|n IH]; intros l Hok; simpl.
  - auto.
  - destruct (cond (ch l)); auto.
    destruct (IH (readChar l) (readChar_ok l)) as (H1 & H2 & H3).
    rewrite readChar_position in H3 by assumption.
    split; [|split]; auto. lia.
Qed.

Lemma readWhile_in_range (n : nat) (l : Lexer) :
  lexer_ok l ->
  position l <= String.length (input l) ->
  position (readWhile cond n l) <= String.length (input l).
Proof.
  revert l; induction n as [|n IH]; intros l Hok Hle; simpl; auto.
  destruct (cond (ch l)) eqn:E; auto.
  apply (IH (readChar l) (readChar_ok l)).
  rewrite readChar_position by assumption.
  apply (cond_true_in_range l Hok E).
Qed.

(** The loop ends because its test fails, not because the bound on the
    number of turns is reached. *)
Lemma readWhile_stops_gen (k : nat) (l : Lexer) :
  String.length (input l) - readPosition l <= k ->
  cond (ch (readWhile cond (S k) l)) = false.
Proof.
  revert l; induction k as [|k IH]; intros l H.
  - simpl. destruct (cond (ch l)) eqn:E; auto.
    rewrite readChar_ch, byte_at_past_end by lia. apply cond_NUL.
  - change (readWhile cond (S (S k)) l)
      with (if cond (ch l) then readWhile cond (S k) (readChar l) else l).
    destruct (cond (ch l)) eqn:E; auto.
    apply IH. simpl. lia.
Qed.

Lemma readWhile_stops (l : Lexer) :
  cond (ch (readWhile cond (loop_bound l) l)) = false.
Proof. apply readWhile_stops_gen. lia. Qed.

Lemma readWhile_false (n : nat) (l : Lexer) :
  cond (ch l) = false -> readWhile cond n l = l.
Proof. intros H. destruct n; simpl; auto. now rewrite H. Qed.

Lemma readWhile_advances (l : Lexer) :
  lexer_ok l -> cond (ch l) = true ->
  position l < position (readWhile cond (loop_bound l) l).
Proof.
  intros Hok Hc. unfold loop_bound. simpl. rewrite Hc.
  destruct (readWhile_ok (String.length (input l) - readPosition l)
              (readChar l) (readChar_ok l)) as (_ & _ & H).
  rewrite readChar_position in H by assumption. lia.
Qed.

End ScanLoop.

Lemma isSpace_NUL : isSpace NUL = false.
Proof. reflexivity. Qed.
Lemma isLetter_NUL : isLetter NUL = false.
Proof. reflexivity. Qed.
Lemma isDigit_NUL : isDigit NUL = false.
Proof. reflexivity. Qed.

Lemma skipWhitespace_stops (l : Lexer) :
  isSpace (ch (skipWhitespace l)) = false.
Proof. apply readWhile_stops, isSpace_NUL. Qed.

Lemma skipWhitespace_ok (l : Lexer) :
  lexer_ok l ->
  lexer_ok (skipWhitespace l)
  /\ input (skipWhitespace l) = input l
  /\ position l <= position (skipWhitespace l).
Proof. apply readWhile_ok. Qed.

(** ** The scanning loop of a string literal *)

Lemma readString_loop_S (n : nat) (l : Lexer) :
  readString_loop (S n) l
  = if string_end (ch (readChar l)) then readChar l
    else readString_loop n (readChar l).
Proof. reflexivity. Qed.

(** With [k] bytes that end no string after the current one and then one
    that does, the loop stops on that one. *)
Lemma readString_loop_scan (k n : nat) (l : Lexer) :
  lexer_ok l ->
  (forall i, i < k ->
     string_end (byte_at (input l) (S (position l) + i)) = false) ->
  string_end (byte_at (input l) (S (position l) + k)) = true ->
  k < n ->
  let l' := readString_loop n l in
  lexer_ok l' /\ input l' = input l /\ position l' = S (position l) + k.
Proof.
  revert n l; induction k as [|k IH]; intros n l Hok Hbody Hend Hn.
  - destruct n as [|n]; [lia|]. rewrite readString_loop_S.
    rewrite readChar_ch. destruct Hok as [Hrp Hch].
    rewrite Hrp. rewrite Nat.add_0_r in Hend. rewrite Hend.
    split; [|split]; simpl; auto using readChar_ok. lia.
  - destruct n as [|n]; [lia|]. rewrite readString_loop_S.
    rewrite readChar_ch. pose proof Hok as [Hrp Hch].
    rewrite Hrp.
    pose proof (Hbody 0 ltac:(lia)) as H0. rewrite Nat.add_0_r in H0.
    rewrite H0.
    destruct (IH n (readChar l) (readChar_ok l)) as (H1 & H2 & H3).
    + intros i Hi. rewrite <- (Hbody (S i) ltac:(lia)).
      simpl. rewrite Hrp. do 2 f_equal. lia.
    + rewrite <- Hend. simpl. rewrite Hrp. do 2 f_equal. lia.
    + lia.
    + split; [|split]; auto. rewrite H3. simpl. rewrite Hrp. lia.
Qed.

(** From any lexer whose current byte is not 0, the loop stops within
    [loop_bound] turns, in range, and has moved. *)
Lemma readString_loop_ok (l : Lexer) :
  lexer_ok l -> position l < String.length (input l) ->
  let l' := readString_loop (loop_bound l) l in
  lexer_ok l' /\ input l' = input l
  /\ position l < position l' <= String.length (input l)
  /\ string_end (ch l') = true.
Proof.
  intros Hok Hlt.
  assert (Hex : exists k,
             S (position l) + k <= String.length (input l)
             /\ (forall i, i < k ->
                   string_end (byte_at (input l) (S (position l) + i)) = false)
             /\ string_end (byte_at (input l) (S (position l) + k)) = true).
  { remember (String.length (input l) - S (position l)) as d eqn:Hd.
    assert (Hgen : forall d j,
               S (position l) + j + d = String.length (input l) ->
               (forall i, i < j ->
                  string_end (byte_at (input l) (S (position l) + i)) = false) ->
               exists k,
                 S (position l) + k <= String.length (input l)
                 /\ (forall i, i < k ->
                       string_end (byte_at (input l) (S (position l) + i))
                       = false)
                 /\ string_end (byte_at (input l) (S (position l) + k)) = true).
    { clear d Hd. induction d as [|d IHd]; intros j Hj Hpre.
      - exists j. split; [|split]; auto; [lia|].
        rewrite byte_at_past_end by lia. reflexivity.
      - destruct (string_end (byte_at (input l) (S (position l) + j))) eqn:E.
        + exists j. split; [|split]; auto. lia.
        + apply (IHd (S j)); [lia|].
          intros i Hi. destruct (Nat.eq_dec i j) as [->|Hne]; auto.
          apply Hpre. lia. }
    apply (Hgen d 0); [lia|]. intros i Hi. lia. }
  destruct Hex as (k & Hk & Hbody & Hend).
  destruct (readString_loop_scan k (loop_bound l) l Hok Hbody Hend)
    as (H1 & H2 & H3).
  { unfold loop_bound. destruct Hok as [Hrp _]. rewrite Hrp. lia. }
  cbv zeta. split; [|split; [|split; [|]]]; auto; try lia.
  destruct H1 as [_ Hch]. rewrite Hch, H2, H3. exact Hend.
Qed.

(** ** [NextToken] on a consistent lexer *)


Lemma slice_in_range (s : string) (a b : nat) :
  a <= b -> b <= String.length s ->
  slice s a b = Some (String.substring a (b - a) s).
Proof.
  intros H1 H2. unfold slice.
  apply Nat.leb_le in H1, H2. now rewrite H1, H2.
Qed.

Lemma single_step (t : TokenType) (l0 l : Lexer) :
  lexer_ok l -> input l = input l0 -> position l0 <= position l ->
  lex_step l0 (single t l).
Proof.
  intros Hok Hin Hpos. unfold single. eexists _, _.
  split; [reflexivity|split; [|split]]; try apply readChar_ok; auto.
  rewrite readChar_position by assumption. lia.
Qed.

Lemma double_step (c : ascii) (two one : TokenType) (l0 l : Lexer) :
  lexer_ok l -> input l = input l0 -> position l0 <= position l ->
  lex_step l0 (double c two one l).
Proof.
  intros Hok Hin Hpos. unfold double.
  destruct (Ascii.eqb (peekChar l) c); [|now apply single_step].
  eexists _, _.
  split; [reflexivity|split; [|split]]; try apply readChar_ok; auto.
  rewrite !readChar_position by auto using readChar_ok. lia.
Qed.

Lemma readIdentifier_step (l : Lexer) :
  lexer_ok l -> isLetter (ch l) = true ->
  exists lit l',
    readIdentifier l = Some (lit, l') /\ lexer_ok l'
    /\ input l' = input l /\ position l < position l'.
Proof.
  intros Hok Hc. unfold readIdentifier.
  destruct (readWhile_ok isLetter (loop_bound l) l Hok) as (H1 & H2 & H3).
  pose proof (readWhile_advances isLetter l Hok Hc) as H4.
  pose proof (cond_true_in_range isLetter isLetter_NUL l Hok Hc) as H5.
  pose proof (readWhile_in_range isLetter isLetter_NUL (loop_bound l) l Hok
                ltac:(lia)) as H6.
  cbv zeta. rewrite slice_in_range by (rewrite ?H2; lia).
  eexists _, _. split; [reflexivity|split; [|split]]; auto.
Qed.

Lemma readNumber_step (l : Lexer) :
  lexer_ok l -> isDigit (ch l) = true ->
  exists lit l',
    readNumber l = Some (lit, l') /\ lexer_ok l'
    /\ input l' = input l /\ position l < position l'.
Proof.
  intros Hok Hc. unfold readNumber.
  destruct (readWhile_ok isDigit (loop_bound l) l Hok) as (H1 & H2 & H3).
  pose proof (readWhile_advances isDigit l Hok Hc) as H4.
  pose proof (cond_true_in_range isDigit isDigit_NUL l Hok Hc) as H5.
  pose proof (readWhile_in_range isDigit isDigit_NUL (loop_bound l) l Hok
                ltac:(lia)) as H6.
  cbv zeta.
  set (l1 := readWhile isDigit (loop_bound l) l) in *.
  destruct (Ascii.eqb (ch l1) "."%char) eqn:Edot.
  - set (l2 := readChar l1).
    assert (Hl1 : position l1 < String.length (input l1)).
    { apply ch_not_NUL_in_range; auto. intros E. rewrite E in Edot.
      discriminate. }
    assert (P2 : position l2 = S (position l1))
      by (apply readChar_position; assumption).
    assert (I2 : input l2 = input l) by (rewrite <- H2; reflexivity).
    destruct (readWhile_ok isDigit (loop_bound l2) l2 (readChar_ok l1))
      as (K1 & K2 & K3).
    pose proof (readWhile_in_range isDigit isDigit_NUL (loop_bound l2) l2
                  (readChar_ok l1)) as K4.
    rewrite I2 in K2, K4. rewrite H2 in Hl1.
    specialize (K4 ltac:(lia)).
    rewrite slice_in_range by (rewrite ?K2; lia).
    eexists _, _. split; [reflexivity|split; [|split]]; auto. lia.
  - rewrite slice_in_range by (rewrite ?H2; lia).
    eexists _, _. split; [reflexivity|split; [|split]]; auto.
Qed.

Lemma readString_step (l : Lexer) :
  lexer_ok l -> ch l = DQUOTE ->
  exists lit l',
    readString l = Some (lit, l') /\ lexer_ok l'
    /\ input l' = input l /\ position l < position l'.
Proof.
  intros Hok Hc. unfold readString.
  assert (Hlt : position l < String.length (input l)).
  { apply ch_not_NUL_in_range; auto. rewrite Hc. discriminate. }
  destruct (readString_loop_ok l Hok Hlt) as (H1 & H2 & H3 & _).
  cbv zeta. rewrite slice_in_range by (rewrite ?H2; lia).
  eexists _, _. split; [reflexivity|split; [|split]]; auto. lia.
Qed.

Lemma lex_step_after (l0 l : Lexer) (tok : Token) (l1 : Lexer) :
  lexer_ok l1 -> input l = input l0 -> position l0 <= position l ->
  input l1 = input l -> position l < position l1 ->
  lex_step l0 (Some (tok, l1)).
Proof.
  intros. eexists _, _.
  split; [reflexivity|split; [|split]]; eauto; try congruence. lia.
Qed.

Lemma NextToken_step (l : Lexer) : lexer_ok l -> lex_step l (NextToken l).
Proof.
  intros Hok. unfold NextToken.
  destruct (skipWhitespace_ok l Hok) as (Hok1 & Hin1 & Hpos1).
  set (l1 := skipWhitespace l) in *.
  repeat match goal with
  | |- lex_step _ (if Ascii.eqb (ch l1) ?c then _ else _) =>
      destruct (Ascii.eqb (ch l1) c) eqn:?;
      [ first [ now apply single_step | now apply double_step | idtac ] | ]
  end.
  - (* string *)
    destruct (readString_step l1 Hok1) as (lit & l2 & -> & K1 & K2 & K3).
    { now apply Ascii.eqb_eq. }
    apply (lex_step_after l l1); auto using readChar_ok.
    rewrite readChar_position by assumption. lia.
  - (* end of input *)
    apply (lex_step_after l l1); auto using readChar_ok.
    rewrite readChar_position by assumption. lia.
  - destruct (isLetter (ch l1)) eqn:EL.
    { destruct (readIdentifier_step l1 Hok1 EL)
        as (lit & l2 & -> & K1 & K2 & K3).
      now apply (lex_step_after l l1). }
    destruct (isDigit (ch l1)) eqn:ED.
    { destruct (readNumber_step l1 Hok1 ED)
        as (lit & l2 & -> & K1 & K2 & K3).
      destruct (contains_dot lit); now apply (lex_step_after l l1). }
    now apply single_step.
Qed.

(** At or past the end of the input the next token is [EOF]. *)
Lemma NextToken_at_NUL (l : Lexer) :
  ch l = NUL -> NextToken l = Some (mkToken EOF EmptyString, readChar l).
Proof.
  intros H. unfold NextToken, skipWhitespace.
  rewrite readWhile_false by (rewrite H; reflexivity).
  rewrite H. reflexivity.
Qed.

Lemma NextToken_exhausted (l : Lexer) :
  lexer_ok l -> String.length (input l) <= position l ->
  NextToken l = Some (mkToken EOF EmptyString, readChar l).
Proof.
  intros [_ Hch] Hle. apply NextToken_at_NUL.
  rewrite Hch. now apply byte_at_past_end.
Qed.

Lemma tokens_exhausted (n : nat) (l : Lexer) :
  lexer_ok l -> String.length (input l) <= position l ->
  tokens n l = Some (repeat (mkToken EOF EmptyString) n).
Proof.
  revert l; induction n as [|n IH]; intros l Hok Hle; simpl; auto.
  rewrite NextToken_exhausted by assumption.
  rewrite IH; auto using readChar_ok.
  rewrite readChar_position by assumption. simpl. lia.
Qed.

Lemma lexer_after_ok (k : nat) (l : Lexer) :
  lexer_ok l ->
  exists l', lexer_after k l = Some l' /\ lexer_ok l'
             /\ input l' = input l /\ position l <= position l'.
Proof.
  revert l; induction k as [|k IH]; intros l Hok; simpl.
  - exists l. auto.
  - destruct (NextToken_step l Hok) as (tok & l1 & -> & H1 & H2 & H3).
    destruct (IH l1 H1) as (l' & K1 & K2 & K3 & K4).
    exists l'. split; [|split; [|split]]; auto; try congruence. lia.
Qed.

(** With only white space left the next token is [EOF], and the lexer
    is past the end afterwards. *)
Lemma NextToken_only_space_left (l : Lexer) :
  lexer_ok l -> only_space_left l ->
  exists l',
    NextToken l = Some (mkToken EOF EmptyString, l')
    /\ lexer_ok l' /\ input l' = input l
    /\ String.length (input l') <= position l'.
Proof.
  intros Hok Hsp.
  destruct (skipWhitespace_ok l Hok) as (Hok1 & Hin1 & Hpos1).
  pose proof (skipWhitespace_stops l) as Hstop.
  assert (Hend : String.length (input l) <= position (skipWhitespace l)).
  { destruct (Nat.le_gt_cases (String.length (input l))
                (position (skipWhitespace l))) as [H|H]; auto.
    destruct Hok1 as [_ Hch]. rewrite Hch, Hin1 in Hstop.
    rewrite (Hsp _ Hpos1 H) in Hstop. discriminate. }
  assert (Hnul : ch (skipWhitespace l) = NUL).
  { destruct Hok1 as [_ ->]. apply byte_at_past_end. now rewrite Hin1. }
  exists (readChar (skipWhitespace l)).
  split; [|split; [apply readChar_ok|split; [exact Hin1|]]].
  - unfold NextToken. rewrite Hnul. reflexivity.
  - rewrite readChar_position by assumption.
    change (input (readChar (skipWhitespace l)))
      with (input (skipWhitespace l)).
    rewrite Hin1. lia.
Qed.

Lemma tokens_only_space_left (n : nat) (l : Lexer) :
  lexer_ok l -> only_space_left l ->
  tokens n l = Some (repeat (mkToken EOF EmptyString) n).
Proof.
  intros Hok Hsp. destruct n as [|n]; [reflexivity|].
  destruct (NextToken_only_space_left l Hok Hsp) as (l' & E & H1 & _ & H3).
  simpl. rewrite E. now rewrite tokens_exhausted.
Qed.

(* ================================================================== *)
(** * Every parsing method returns *)
(* ================================================================== *)

Lemma extends_refl (es : list string) : extends es es.
Proof. exists []. now rewrite app_nil_r. Qed.

Lemma extends_trans (a b c : list string) :
  extends a b -> extends b c -> extends a c.
Proof.
  intros [x ->] [y ->]. exists (x ++ y)%list. now rewrite app_assoc.
Qed.

Lemma post_refl (p : Parser) : parser_ok p -> post p p.
Proof. intros H. split; [|split]; auto using extends_refl. Qed.

Lemma post_trans (a b c : Parser) : post a b -> post b c -> post a c.
Proof.
  intros (_ & H1 & H2) (K0 & K1 & K2).
  split; [|split]; eauto using extends_trans. lia.
Qed.

Lemma TokenType_eqb_eq (a b : TokenType) : TokenType_eqb a b = true <-> a = b.
Proof.
  unfold TokenType_eqb. destruct (TokenType_eq_dec a b); split; congruence.
Qed.

Lemma TokenType_eqb_neq (a b : TokenType) :
  TokenType_eqb a b = false <-> a <> b.
Proof.
  unfold TokenType_eqb. destruct (TokenType_eq_dec a b); split; congruence.
Qed.

Lemma slots_le_3 (p : Parser) : slots p <= 3.
Proof.
  unfold slots.
  destruct (peekPeekIs EOF p), (peekTokenIs EOF p), (curTokenIs EOF p);
    simpl; lia.
Qed.

Lemma togo_cur_not_EOF (p : Parser) : curTokenIs EOF p = false -> 1 <= togo p.
Proof.
  intros H. unfold togo, slots. rewrite H.
  destruct (remaining (lexer p) =? 0), (peekPeekIs EOF p), (peekTokenIs EOF p);
    simpl; lia.
Qed.

Lemma togo_peek_not_EOF (p : Parser) :
  peekTokenIs EOF p = false -> 1 <= togo p.
Proof.
  intros H. unfold togo, slots. rewrite H.
  destruct (remaining (lexer p) =? 0), (peekPeekIs EOF p); simpl; lia.
Qed.

Lemma togo_cur_type (p : Parser) (t : TokenType) :
  Type_ (curToken p) = t -> t <> EOF -> 1 <= togo p.
Proof.
  intros H Ht. apply togo_cur_not_EOF, TokenType_eqb_neq. congruence.
Qed.

Lemma togo_curTokenIs (p : Parser) (t : TokenType) :
  curTokenIs t p = true -> t <> EOF -> 1 <= togo p.
Proof.
  intros H. apply togo_cur_type. now apply TokenType_eqb_eq.
Qed.

Lemma togo_peekTokenIs (p : Parser) (t : TokenType) :
  peekTokenIs t p = true -> t <> EOF -> 1 <= togo p.
Proof.
  intros H Ht. apply togo_peek_not_EOF, TokenType_eqb_neq.
  apply TokenType_eqb_eq in H. congruence.
Qed.

(** [nextToken] returns, shifts the look-ahead and lowers the measure. *)
Lemma nextToken_spec (p : Parser) :
  parser_ok p ->
  exists p',
    nextToken p = Ok (tt, p') /\ parser_ok p' /\ errors p' = errors p
    /\ curToken p' = peekToken p /\ peekToken p' = peekPeek p
    /\ togo p' <= togo p - 1.
Proof.
  intros Hok. unfold nextToken.
  destruct (Nat.eq_dec (remaining (lexer p)) 0) as [Hz|Hnz].
  - rewrite NextToken_exhausted;
      [|assumption|unfold remaining in Hz; lia].
    eexists. split; [reflexivity|].
    split; [apply readChar_ok|]. do 3 (split; [reflexivity|]).
    assert (Hz' : remaining (readChar (lexer p)) = 0).
    { unfold remaining in *. rewrite readChar_position by assumption.
      simpl. lia. }
    unfold togo. simpl lexer. rewrite Hz, Hz'. simpl.
    unfold slots, peekPeekIs, peekTokenIs, curTokenIs. simpl.
    destruct (TokenType_eqb (Type_ (peekPeek p)) EOF),
             (TokenType_eqb (Type_ (peekToken p)) EOF),
             (TokenType_eqb (Type_ (curToken p)) EOF); simpl; lia.
  - destruct (NextToken_step (lexer p) Hok)
      as (tok & l' & -> & H1 & H2 & H3).
    eexists. split; [reflexivity|].
    split; [exact H1|]. do 3 (split; [reflexivity|]).
    unfold togo at 2. apply Nat.eqb_neq in Hnz as Hnz'. rewrite Hnz'.
    unfold togo. simpl lexer.
    match goal with |- context [slots ?q] => pose proof (slots_le_3 q) end.
    assert (remaining l' <= remaining (lexer p) - 1)
      by (unfold remaining; rewrite H2; lia).
    destruct (remaining l' =? 0); lia.
Qed.

(** ** Rules for [wp] *)

Lemma wp_ret {A : Type} (a : A) (p : Parser) (Q : A -> Parser -> Prop) :
  Q a p -> wp (ret a) p Q.
Proof. exact (fun H => H). Qed.

Lemma wp_get (p : Parser) (Q : Parser -> Parser -> Prop) :
  Q p p -> wp get p Q.
Proof. exact (fun H => H). Qed.

Lemma wp_bind {A B : Type} (m : M A) (k : A -> M B) (p : Parser)
  (Q : B -> Parser -> Prop) :
  wp m p (fun a p' => wp (k a) p' Q) -> wp (bind m k) p Q.
Proof.
  unfold wp, bind. destruct (m p) as [[a p']| |]; auto.
Qed.

Lemma wp_mono {A : Type} (m : M A) (p : Parser)
  (Q Q' : A -> Parser -> Prop) :
  wp m p Q -> (forall a p', Q a p' -> Q' a p') -> wp m p Q'.
Proof.
  unfold wp. destruct (m p) as [[a p']| |]; auto.
Qed.

(** Calling a method whose guarantee is [post], from a state reached
    from [p0]. *)
Lemma wp_call {A : Type} (m : M A) (p0 p : Parser)
  (Q : A -> Parser -> Prop) :
  post p0 p ->
  wp m p (fun _ p' => post p p') ->
  (forall a p', post p0 p' -> togo p' <= togo p -> Q a p') ->
  wp m p Q.
Proof.
  intros H0 Hm HQ. apply (wp_mono _ _ _ _ Hm).
  intros a p' Hp. apply HQ; [eapply post_trans; eauto|apply Hp].
Qed.

Lemma wp_nextToken (p0 p : Parser) (Q : unit -> Parser -> Prop) :
  post p0 p ->
  (forall p', post p0 p' -> togo p' <= togo p - 1 ->
              curToken p' = peekToken p -> peekToken p' = peekPeek p ->
              Q tt p') ->
  wp nextToken p Q.
Proof.
  intros H0 HQ. pose proof H0 as (Hok & Hle & Hex).
  destruct (nextToken_spec p Hok) as (p' & E & K1 & K2 & K3 & K4 & K5).
  unfold wp. rewrite E. apply HQ; auto.
  split; [|split]; auto; [lia|congruence].
Qed.

Lemma wp_addError (msg : string) (p0 p : Parser)
  (Q : unit -> Parser -> Prop) :
  post p0 p ->
  (forall p', post p0 p' -> togo p' = togo p ->
              curToken p' = curToken p -> Q tt p') ->
  wp (addError msg) p Q.
Proof.
  intros (Hok & Hle & Hex) HQ. unfold wp, addError. apply HQ; auto.
  split; [|split]; auto.
  eapply extends_trans; [exact Hex|]. now exists [msg].
Qed.

Lemma wp_expectPeek (t : TokenType) (p0 p : Parser)
  (Q : bool -> Parser -> Prop) :
  post p0 p -> t <> EOF ->
  (forall b p', post p0 p' -> togo p' <= togo p ->
                (b = true -> togo p' < togo p) -> Q b p') ->
  wp (expectPeek t) p Q.
Proof.
  intros H0 Ht HQ. unfold expectPeek.
  apply wp_bind, wp_get. destruct (peekTokenIs t p) eqn:E.
  - apply wp_bind. eapply wp_nextToken; [eassumption|].
    intros p' H1 H2 _ _. apply wp_ret.
    pose proof (togo_peekTokenIs p t E Ht).
    apply HQ; auto; lia.
  - apply wp_bind. eapply wp_addError; [eassumption|].
    intros p' H1 H2 _. apply wp_ret. apply HQ; auto; [lia|discriminate].
Qed.

(** One turn of the loop of [skipWhitespaceTokens] hands over to the
    rest of the loop only after a token has been consumed. *)
Lemma skipWhitespaceTokens_body_spec (again : M unit) (p : Parser) :
  parser_ok p ->
  (forall q, parser_ok q -> togo q < togo p ->
             wp again q (fun _ p' => post q p')) ->
  wp (skipWhitespaceTokens_body again) p (fun _ p' => post p p').
Proof.
  intros Hok Hagain. pose proof (post_refl p Hok) as H0.
  unfold skipWhitespaceTokens_body. apply wp_bind, wp_get.
  destruct (curTokenIs ILLEGAL p
            && String.eqb (Literal (curToken p)) EmptyString) eqn:E.
  - apply andb_true_iff in E as [E _].
    pose proof (togo_curTokenIs p ILLEGAL E ltac:(discriminate)).
    apply wp_bind. eapply wp_nextToken; [eassumption|].
    intros p1 H1 H2 _ _. apply wp_bind, wp_get.
    destruct (curTokenIs EOF p1).
    + apply wp_ret. assumption.
    + eapply wp_call; [eassumption| |intros; assumption].
      apply Hagain; [apply H1|lia].
  - apply wp_ret. assumption.
Qed.

Lemma skipWhitespaceTokens_spec (fuel : nat) :
  forall p, parser_ok p -> togo p < fuel ->
    wp (skipWhitespaceTokens fuel) p (fun _ p' => post p p').
Proof.
  induction fuel as [|fuel IH]; intros p Hok Hf; [lia|].
  simpl. apply skipWhitespaceTokens_body_spec; auto.
  intros q Hq Hlt. apply IH; auto. lia.
Qed.

Lemma wp_skipWhitespaceTokens (fuel : nat) (p0 p : Parser)
  (Q : unit -> Parser -> Prop) :
  post p0 p -> togo p < fuel ->
  (forall p', post p0 p' -> togo p' <= togo p -> Q tt p') ->
  wp (skipWhitespaceTokens fuel) p Q.
Proof.
  intros H0 Hf HQ. eapply wp_call; [eassumption| |].
  - apply skipWhitespaceTokens_spec; [apply H0|assumption].
  - intros [] p' H1 H2. now apply HQ.
Qed.

(** ** Stepping through a method *)

Lemma post_ok (p0 p : Parser) : post p0 p -> parser_ok p.
Proof. intros H. apply H. Qed.

Ltac learn H :=
  let T := type of H in
  lazymatch goal with
  | _ : T |- _ => fail
  | _ => pose proof H
  end.

(** Collects what the tokens in sight say about the measure. *)
Ltac togo_facts :=
  repeat match goal with
  | H : true = true -> _ |- _ => specialize (H eq_refl)
  | H : Type_ (curToken ?p) = ?t |- _ =>
      learn (togo_cur_type p t H ltac:(discriminate))
  | H : curTokenIs ?t ?p = true |- _ =>
      learn (togo_curTokenIs p t H ltac:(discriminate))
  | H : peekTokenIs ?t ?p = true |- _ =>
      learn (togo_peekTokenIs p t H ltac:(discriminate))
  | H : curTokenIs EOF ?p = false |- _ => learn (togo_cur_not_EOF p H)
  | H : peekTokenIs EOF ?p = false |- _ => learn (togo_peek_not_EOF p H)
  end.

Ltac togo_lia := togo_facts; lia.

Ltac wp_step :=
  cbv beta zeta;
  lazymatch goal with
  | |- wp (bind _ _) _ _ => apply wp_bind
  | |- wp get _ _ => apply wp_get
  | |- wp (ret _) _ _ => apply wp_ret
  | |- wp nextToken _ _ =>
      eapply wp_nextToken; [eassumption | intros ? ? ? ? ?]
  | |- wp (addError _) _ _ =>
      eapply wp_addError; [eassumption | intros ? ? ? ?]
  | |- wp (expectPeek _) _ _ =>
      eapply wp_expectPeek; [eassumption | discriminate | intros ? ? ? ? ?]
  | |- wp (skipWhitespaceTokens _) _ _ =>
      eapply wp_skipWhitespaceTokens; [eassumption | togo_lia | intros ? ? ?]
  | |- wp (if negb ?b then _ else _) _ _ =>
      destruct b eqn:?; simpl negb; cbv iota
  | |- wp (if ?b then _ else _) _ _ => destruct b eqn:?
  | |- wp (match ?x with _ => _ end) _ _ => destruct x eqn:?
  | |- post _ _ => eassumption
  end.

(** Side conditions of a call: a consistent state, a bound on the
    measure, a current token that is not [EOF]. *)
Ltac wp_side :=
  first [ eassumption
        | solve [eauto using post_ok]
        | togo_lia
        | solve [apply TokenType_eqb_neq; congruence] ].

(** Calls a method through its own lemma [L]. *)
Ltac wp_use L :=
  cbv beta zeta;
  eapply wp_call; [eassumption | eapply L; wp_side | intros ? ? ? ?].

Ltac wp_go tac := repeat first [wp_step | tac].

(** ** Expressions *)

Section ExpressionSpecs.

Variable fuel : nat.
Variable rec : nat -> M (option Expression).
Variable rec_loop : nat -> option Expression -> M (option Expression).
Variable B : nat.
Hypothesis Hrec :
  forall prec p, parser_ok p -> togo p < B ->
                 wp (rec prec) p (fun _ p' => post p p').

Lemma parsePrefixOperatorExpression_spec (p : Parser) :
  parser_ok p -> togo p <= B -> curTokenIs EOF p = false ->
  wp (parsePrefixOperatorExpression rec) p (fun _ p' => post p p').
Proof.
  intros Hok HB Hc. pose proof (post_refl p Hok).
  unfold parsePrefixOperatorExpression.
  wp_go ltac:(wp_use Hrec).
Qed.

Lemma parseTypeofExpression_spec (p : Parser) :
  parser_ok p -> togo p <= B ->
  wp (parseTypeofExpression rec) p (fun _ p' => post p p').
Proof.
  intros Hok HB. pose proof (post_refl p Hok).
  unfold parseTypeofExpression.
  wp_go ltac:(wp_use Hrec).
Qed.

Lemma parseInfixExpression_spec (left_ : option Expression) (p : Parser) :
  parser_ok p -> togo p < B ->
  wp (parseInfixExpression rec left_) p (fun _ p' => post p p').
Proof.
  intros Hok HB. pose proof (post_refl p Hok).
  unfold parseInfixExpression.
  wp_go ltac:(wp_use Hrec).
Qed.

Lemma parsePrefixExpression_spec (p : Parser) :
  parser_ok p -> togo p <= B -> togo p < fuel ->
  wp (parsePrefixExpression fuel rec) p (fun _ p' => post p p').
Proof.
  intros Hok HB Hf. pose proof (post_refl p Hok).
  unfold parsePrefixExpression, parseBooleanLiteral.
  wp_go ltac:(first [ wp_use Hrec
                    | wp_use parsePrefixOperatorExpression_spec
                    | wp_use parseTypeofExpression_spec ]).
Qed.

(** One turn of the loop of [parseExpression] hands over to the rest of
    the loop only after a token has been consumed. *)
Lemma parseExpression_loop_body_spec (prec : nat)
  (leftExp : option Expression) (p : Parser) :
  parser_ok p -> togo p <= B ->
  (forall prec' left' q, parser_ok q -> togo q < togo p ->
     wp (rec_loop prec' left') q (fun _ p' => post q p')) ->
  wp (parseExpression_loop_body rec rec_loop prec leftExp) p
     (fun _ p' => post p p').
Proof.
  intros Hok HB Hloop. pose proof (post_refl p Hok).
  unfold parseExpression_loop_body. do 2 wp_step.
  destruct (negb (peekTokenIs SEMICOLON p) && (prec <? peekPrecedence p)
            && negb (peekTokenIs EOF p)) eqn:E; [|repeat wp_step].
  apply andb_true_iff in E as [_ E]. apply negb_true_iff in E.
  wp_go ltac:(first [wp_use parseInfixExpression_spec | wp_use Hloop]).
Qed.

Lemma parseExpression_body_spec (prec : nat) (p : Parser) :
  parser_ok p -> togo p <= B -> togo p < fuel ->
  (forall prec' left' q, parser_ok q -> togo q <= togo p ->
     wp (rec_loop prec' left') q (fun _ p' => post q p')) ->
  wp (parseExpression_body fuel rec rec_loop prec) p
     (fun _ p' => post p p').
Proof.
  intros Hok HB Hf Hloop. pose proof (post_refl p Hok).
  unfold parseExpression_body.
  wp_go ltac:(first [wp_use parsePrefixExpression_spec | wp_use Hloop]).
Qed.

End ExpressionSpecs.

Lemma parseExpression_total (n : nat) :
  (forall prec p, parser_ok p -> 2 * togo p + 2 <= n ->
     wp (parseExpression n prec) p (fun _ p' => post p p'))
  /\ (forall prec leftExp p, parser_ok p -> 2 * togo p + 1 <= n ->
        wp (parseExpression_loop n prec leftExp) p (fun _ p' => post p p')).
Proof.
  induction n as [|n [IHe IHl]]; [split; intros; lia|].
  split.
  - intros prec p Hok Hn. simpl.
    apply (parseExpression_body_spec n _ _ (togo p)); auto; try lia.
    + intros prec' q Hq Hlt. apply IHe; auto. lia.
    + intros prec' left' q Hq Hle. apply IHl; auto. lia.
  - intros prec leftExp p Hok Hn. simpl.
    apply (parseExpression_loop_body_spec _ _ (togo p)); auto.
    + intros prec' q Hq Hlt. apply IHe; auto. lia.
    + intros prec' left' q Hq Hlt. apply IHl; auto. lia.
Qed.

(** ** Statements *)

Lemma parseExpression_spec (fuel prec : nat) (p : Parser) :
  parser_ok p -> 2 * togo p + 2 <= fuel ->
  wp (parseExpression fuel prec) p (fun _ p' => post p p').
Proof. apply parseExpression_total. Qed.

Lemma parseReturnStatement_spec (fuel : nat) (p : Parser) :
  parser_ok p -> 2 * togo p + 2 <= fuel ->
  wp (parseReturnStatement fuel) p (fun _ p' => post p p').
Proof.
  intros Hok Hf. pose proof (post_refl p Hok).
  unfold parseReturnStatement.
  wp_go ltac:(wp_use parseExpression_spec).
Qed.

Lemma parseBreakStatement_spec (p : Parser) :
  parser_ok p -> wp parseBreakStatement p (fun _ p' => post p p').
Proof.
  intros Hok. pose proof (post_refl p Hok).
  unfold parseBreakStatement. repeat wp_step.
Qed.

Lemma parseContinueStatement_spec (p : Parser) :
  parser_ok p -> wp parseContinueStatement p (fun _ p' => post p p').
Proof.
  intros Hok. pose proof (post_refl p Hok).
  unfold parseContinueStatement. repeat wp_step.
Qed.

Lemma parseDeclarationStatement_spec (fuel : nat) (p : Parser) :
  parser_ok p -> 2 * togo p + 2 <= fuel ->
  wp (parseDeclarationStatement fuel) p (fun _ p' => post p p').
Proof.
  intros Hok Hf. pose proof (post_refl p Hok).
  unfold parseDeclarationStatement.
  do 2 wp_step.
  destruct (negb (curTokenIs TYPE p) && negb (curTokenIs VOID p));
    wp_go ltac:(wp_use parseExpression_spec).
Qed.

Lemma parseParameter_spec (p : Parser) :
  parser_ok p -> wp parseParameter p (fun _ p' => post p p').
Proof.
  intros Hok. pose proof (post_refl p Hok).
  unfold parseParameter. repeat wp_step.
Qed.

(** One turn of the loop of [parseFunctionParameters] hands over to the
    rest of the loop only after a token has been consumed. *)
Lemma parseFunctionParameters_loop_body_spec
  (again : list FnParameter -> M (list FnParameter))
  (params : list FnParameter) (p : Parser) :
  parser_ok p ->
  (forall ps q, parser_ok q -> togo q < togo p ->
     wp (again ps) q (fun _ p' => post q p')) ->
  wp (parseFunctionParameters_loop_body again params) p
     (fun _ p' => post p p').
Proof.
  intros Hok Hagain. pose proof (post_refl p Hok).
  unfold parseFunctionParameters_loop_body.
  wp_go ltac:(first [wp_use parseParameter_spec | wp_use Hagain]).
Qed.

Lemma parseFunctionParameters_loop_spec (fuel : nat) :
  forall params p, parser_ok p -> togo p < fuel ->
    wp (parseFunctionParameters_loop fuel params) p (fun _ p' => post p p').
Proof.
  induction fuel as [|fuel IH]; intros params p Hok Hf; [lia|].
  simpl. apply parseFunctionParameters_loop_body_spec; auto.
  intros ps q Hq Hlt. apply IH; auto. lia.
Qed.

Lemma parseFunctionParameters_spec (fuel : nat) (p : Parser) :
  parser_ok p -> togo p < fuel ->
  wp (parseFunctionParameters fuel) p (fun _ p' => post p p').
Proof.
  intros Hok Hf. pose proof (post_refl p Hok).
  unfold parseFunctionParameters.
  wp_go ltac:(first [ wp_use parseParameter_spec
                    | wp_use parseFunctionParameters_loop_spec ]).
Qed.

Section StatementSpecs.

Variable fuel : nat.
Variable pS : M (option Statement).
Variable pB : list Statement -> M (list Statement).
Variable pI : IfStatement -> M (option IfStatement).
Variable B : nat.
Hypothesis Hfuel : 2 * B + 2 <= fuel.
Hypothesis HpS :
  forall p, parser_ok p -> togo p < B -> wp pS p (fun _ p' => post p p').
Hypothesis HpB :
  forall stmts p, parser_ok p -> togo p < B ->
                  wp (pB stmts) p (fun _ p' => post p p').
Hypothesis HpI :
  forall stmt p, parser_ok p -> togo p < B ->
                 wp (pI stmt) p (fun _ p' => post p p').

Lemma parseBlockStatement_spec (p : Parser) :
  parser_ok p -> togo p < B ->
  wp (parseBlockStatement pB) p (fun _ p' => post p p').
Proof.
  intros Hok Hlt. pose proof (post_refl p Hok).
  unfold parseBlockStatement.
  wp_go ltac:(wp_use HpB).
Qed.

Lemma parseBranch_spec (p : Parser) :
  parser_ok p -> togo p < B ->
  wp (parseBranch pS pB) p (fun _ p' => post p p').
Proof.
  intros Hok Hlt. pose proof (post_refl p Hok).
  unfold parseBranch.
  wp_go ltac:(first [wp_use parseBlockStatement_spec | wp_use HpS]).
Qed.

Lemma parseIfStatement_loop_body_spec (stmt : IfStatement) (p : Parser) :
  parser_ok p -> togo p <= B ->
  wp (parseIfStatement_loop_body fuel pS pB pI stmt) p
     (fun _ p' => post p p').
Proof.
  intros Hok Hle. pose proof (post_refl p Hok).
  unfold parseIfStatement_loop_body.
  wp_go ltac:(first [ wp_use parseExpression_spec
                    | wp_use parseBranch_spec
                    | wp_use HpI ]).
Qed.

Lemma parseIfStatement_spec (p : Parser) :
  parser_ok p -> togo p <= B ->
  wp (parseIfStatement fuel pS pB pI) p (fun _ p' => post p p').
Proof.
  intros Hok Hle. pose proof (post_refl p Hok).
  unfold parseIfStatement.
  wp_go ltac:(first [ wp_use parseExpression_spec
                    | wp_use parseBranch_spec
                    | wp_use HpI ]).
Qed.

Lemma parseWhileStatement_spec (p : Parser) :
  parser_ok p -> togo p <= B ->
  wp (parseWhileStatement fuel pB) p (fun _ p' => post p p').
Proof.
  intros Hok Hle. pose proof (post_refl p Hok).
  unfold parseWhileStatement.
  wp_go ltac:(first [ wp_use parseExpression_spec
                    | wp_use parseBlockStatement_spec ]).
Qed.

Lemma parseLoopStatement_spec (p : Parser) :
  parser_ok p -> togo p <= B ->
  wp (parseLoopStatement pB) p (fun _ p' => post p p').
Proof.
  intros Hok Hle. pose proof (post_refl p Hok).
  unfold parseLoopStatement.
  wp_go ltac:(wp_use parseBlockStatement_spec).
Qed.

Lemma parseForStatement_spec (p : Parser) :
  parser_ok p -> togo p <= B ->
  wp (parseForStatement fuel pB) p (fun _ p' => post p p').
Proof.
  intros Hok Hle. pose proof (post_refl p Hok).
  unfold parseForStatement.
  wp_go ltac:(first [ wp_use parseExpression_spec
                    | wp_use parseBlockStatement_spec ]).
Qed.

Lemma parseFunctionStatement_spec (p : Parser) :
  parser_ok p -> togo p <= B ->
  wp (parseFunctionStatement fuel pB) p (fun _ p' => post p p').
Proof.
  intros Hok Hle. pose proof (post_refl p Hok).
  unfold parseFunctionStatement.
  wp_go ltac:(first [ wp_use parseFunctionParameters_spec
                    | wp_use parseBlockStatement_spec ]).
Qed.

Lemma parseStatement_body_spec (p : Parser) :
  parser_ok p -> togo p <= B ->
  wp (parseStatement_body fuel pS pB pI) p (fun _ p' => post p p').
Proof.
  intros Hok Hle. pose proof (post_refl p Hok).
  unfold parseStatement_body.
  wp_go ltac:(first [ wp_use parseExpression_spec
                    | wp_use parseIfStatement_spec
                    | wp_use parseReturnStatement_spec
                    | wp_use parseBreakStatement_spec
                    | wp_use parseContinueStatement_spec
                    | wp_use parseWhileStatement_spec
                    | wp_use parseLoopStatement_spec
                    | wp_use parseForStatement_spec
                    | wp_use parseFunctionStatement_spec
                    | wp_use parseDeclarationStatement_spec ]).
Qed.

End StatementSpecs.

Section BlockLoopSpec.

Variable pS : M (option Statement).
Variable pB : list Statement -> M (list Statement).
Variable B : nat.
Hypothesis HpS :
  forall p, parser_ok p -> togo p <= B -> wp pS p (fun _ p' => post p p').
Hypothesis HpB :
  forall stmts p, parser_ok p -> togo p < B ->
                  wp (pB stmts) p (fun _ p' => post p p').

Lemma parseBlockStatement_loop_body_spec (stmts : list Statement)
  (p : Parser) :
  parser_ok p -> togo p <= B ->
  wp (parseBlockStatement_loop_body pS pB stmts) p (fun _ p' => post p p').
Proof.
  intros Hok Hle. pose proof (post_refl p Hok).
  unfold parseBlockStatement_loop_body.
  do 2 wp_step.
  destruct (negb (curTokenIs RBRACE p) && negb (curTokenIs EOF p)) eqn:E;
    [|repeat wp_step].
  apply andb_true_iff in E as [_ E]. apply negb_true_iff in E.
  wp_go ltac:(first [wp_use HpS | wp_use HpB]).
Qed.

End BlockLoopSpec.

Lemma parseStatement_total (n : nat) :
  (forall p, parser_ok p -> 3 * togo p + 3 <= n ->
     wp (parseStatement n) p (fun _ p' => post p p'))
  /\ (forall stmts p, parser_ok p -> 3 * togo p + 4 <= n ->
        wp (parseBlockStatement_loop n stmts) p (fun _ p' => post p p'))
  /\ (forall stmt p, parser_ok p -> 3 * togo p + 3 <= n ->
        wp (parseIfStatement_loop n stmt) p (fun _ p' => post p p')).
Proof.
  induction n as [|n (IHs & IHb & IHi)]; [repeat split; intros; lia|].
  split; [|split].
  - intros p Hok Hn. simpl.
    apply (parseStatement_body_spec n _ _ _ (togo p)); auto; try lia.
    + intros q Hq Hlt. apply IHs; auto. lia.
    + intros stmts q Hq Hlt. apply IHb; auto. lia.
    + intros stmt q Hq Hlt. apply IHi; auto. lia.
  - intros stmts p Hok Hn. simpl.
    apply (parseBlockStatement_loop_body_spec _ _ (togo p)); auto.
    + intros q Hq Hle. apply IHs; auto. lia.
    + intros stmts' q Hq Hlt. apply IHb; auto. lia.
  - intros stmt p Hok Hn. simpl.
    apply (parseIfStatement_loop_body_spec n _ _ _ (togo p)); auto; try lia.
    + intros q Hq Hlt. apply IHs; auto. lia.
    + intros stmts q Hq Hlt. apply IHb; auto. lia.
    + intros stmt' q Hq Hlt. apply IHi; auto. lia.
Qed.

Lemma parseStatement_spec (n : nat) (p : Parser) :
  parser_ok p -> 3 * togo p + 3 <= n ->
  wp (parseStatement n) p (fun _ p' => post p p').
Proof. apply parseStatement_total. Qed.

(** One turn of the loop of [ParseProgram] hands over to the rest of the
    loop only after a token has been consumed. *)
Lemma ParseProgram_loop_body_spec (fuel : nat)
  (again : list Statement -> M (list Statement))
  (stmts : list Statement) (p : Parser) :
  parser_ok p -> 3 * togo p + 3 <= fuel ->
  (forall ss q, parser_ok q -> togo q < togo p ->
     wp (again ss) q (fun _ p' => post q p')) ->
  wp (ParseProgram_loop_body fuel again stmts) p (fun _ p' => post p p').
Proof.
  intros Hok Hf Hagain. pose proof (post_refl p Hok).
  unfold ParseProgram_loop_body.
  wp_go ltac:(first [wp_use parseStatement_spec | wp_use Hagain]).
Qed.

Lemma ParseProgram_loop_total (n : nat) :
  forall stmts p, parser_ok p -> 3 * togo p + 4 <= n ->
    wp (ParseProgram_loop n stmts) p (fun _ p' => post p p').
Proof.
  induction n as [|n IH]; intros stmts p Hok Hn; [lia|].
  simpl. apply ParseProgram_loop_body_spec; auto; [lia|].
  intros ss q Hq Hlt. apply IH; auto. lia.
Qed.

Lemma ParseProgram_total (n : nat) (p : Parser) :
  parser_ok p -> 3 * togo p + 4 <= n ->
  wp (ParseProgram n) p (fun _ p' => post p p').
Proof.
  intros Hok Hn. pose proof (post_refl p Hok). unfold ParseProgram.
  wp_go ltac:(wp_use ParseProgram_loop_total).
Qed.

Lemma NewParser_total (l : Lexer) :
  lexer_ok l ->
  exists p, NewParser l = Ok p /\ parser_ok p /\ errors p = []
            /\ togo p <= remaining l + 3.
Proof.
  intros Hok. unfold NewParser.
  set (p0 := {| lexer := l; curToken := zeroToken; peekToken := zeroToken;
                peekPeek := zeroToken; errors := [] |}).
  assert (H0 : parser_ok p0) by exact Hok.
  destruct (nextToken_spec p0 H0) as (p1 & E1 & K1 & Er1 & _ & _ & T1).
  destruct (nextToken_spec p1 K1) as (p2 & E2 & K2 & Er2 & _ & _ & T2).
  destruct (nextToken_spec p2 K2) as (p3 & E3 & K3 & Er3 & _ & _ & T3).
  unfold bind. rewrite E1, E2, E3.
  exists p3. split; [reflexivity|]. split; [assumption|].
  split; [rewrite Er3, Er2, Er1; reflexivity|].
  assert (togo p0 <= remaining l + 3).
  { unfold togo. simpl lexer. pose proof (slots_le_3 p0).
    destruct (remaining l =? 0); lia. }
  lia.
Qed.

(** [Parse] returns a program for every source text. *)
Lemma Parse_total (source : string) :
  exists prog p,
    Parse source = Ok (prog, p) /\ parser_ok p.
Proof.
  unfold Parse, parse_source.
  destruct (NewParser_total (NewLexer source) (NewLexer_ok source))
    as (p0 & -> & Hok & _ & HT).
  assert (Hrem : remaining (NewLexer source) = String.length source).
  { unfold remaining. simpl. lia. }
  pose proof (ParseProgram_total (enough_fuel source) p0 Hok) as H.
  unfold enough_fuel in *. specialize (H ltac:(lia)).
  unfold wp in H.
  destruct (ParseProgram (3 * String.length source + 13) p0)
    as [[prog p]| |]; try contradiction.
  exists prog, p. split; [reflexivity|]. apply H.
Qed.

(* ================================================================== *)
(** * A result does not depend on the budget *)
(* ================================================================== *)

Lemma M_le_refl {A : Type} (m : M A) : M_le m m.
Proof. intros p r H. exact H. Qed.

Lemma M_le_out_of_fuel {A : Type} (m : M A) : M_le out_of_fuel m.
Proof. intros p r H. discriminate. Qed.

Lemma M_le_bind {A B : Type} (m1 m2 : M A) (k1 k2 : A -> M B) :
  M_le m1 m2 -> (forall a, M_le (k1 a) (k2 a)) ->
  M_le (bind m1 k1) (bind m2 k2).
Proof.
  intros Hm Hk p r. unfold bind.
  destruct (m1 p) as [[a p']| |] eqn:E; try discriminate.
  rewrite (Hm p _ E). apply Hk.
Qed.

Ltac mono_step :=
  cbv beta zeta;
  lazymatch goal with
  | |- M_le ?m ?m => apply M_le_refl
  | |- M_le out_of_fuel _ => apply M_le_out_of_fuel
  | |- M_le (bind _ _) (bind _ _) => apply M_le_bind; [|intros ?]
  | |- M_le (if ?b then _ else _) (if ?b then _ else _) => destruct b
  | |- M_le (match ?x with _ => _ end) (match ?x with _ => _ end) =>
      destruct x
  end.

Ltac mono := repeat mono_step; auto.

Lemma skipWhitespaceTokens_mono (n : nat) :
  forall m, n <= m ->
    M_le (skipWhitespaceTokens n) (skipWhitespaceTokens m).
Proof.
  induction n as [|n IH]; intros m Hle; [apply M_le_out_of_fuel|].
  destruct m as [|m]; [lia|]. specialize (IH m ltac:(lia)).
  simpl. unfold skipWhitespaceTokens_body. mono.
Qed.

Lemma parseFunctionParameters_loop_mono (n : nat) :
  forall m params, n <= m ->
    M_le (parseFunctionParameters_loop n params)
         (parseFunctionParameters_loop m params).
Proof.
  induction n as [|n IH]; intros m params Hle; [apply M_le_out_of_fuel|].
  destruct m as [|m]; [lia|].
  assert (IH' : forall ps, M_le (parseFunctionParameters_loop n ps)
                                (parseFunctionParameters_loop m ps))
    by (intros; apply IH; lia).
  simpl. unfold parseFunctionParameters_loop_body. mono.
Qed.

Section ExpressionMono.

Variables fuel1 fuel2 : nat.
Variables rec1 rec2 : nat -> M (option Expression).
Variables loop1 loop2 : nat -> option Expression -> M (option Expression).
Hypothesis Hfuel : fuel1 <= fuel2.
Hypothesis Hrec : forall prec, M_le (rec1 prec) (rec2 prec).
Hypothesis Hloop : forall prec l, M_le (loop1 prec l) (loop2 prec l).

Lemma parseExpression_body_mono (prec : nat) :
  M_le (parseExpression_body fuel1 rec1 loop1 prec)
       (parseExpression_body fuel2 rec2 loop2 prec).
Proof.
  pose proof (skipWhitespaceTokens_mono fuel1 fuel2 Hfuel).
  unfold parseExpression_body, parsePrefixExpression,
    parsePrefixOperatorExpression, parseTypeofExpression. mono.
Qed.

Lemma parseExpression_loop_body_mono (prec : nat)
  (leftExp : option Expression) :
  M_le (parseExpression_loop_body rec1 loop1 prec leftExp)
       (parseExpression_loop_body rec2 loop2 prec leftExp).
Proof.
  unfold parseExpression_loop_body, parseInfixExpression. mono.
Qed.

End ExpressionMono.

Lemma parseExpression_mono (n : nat) :
  forall m, n <= m ->
    (forall prec, M_le (parseExpression n prec) (parseExpression m prec))
    /\ (forall prec l, M_le (parseExpression_loop n prec l)
                            (parseExpression_loop m prec l)).
Proof.
  induction n as [|n IH]; intros m Hle;
    [split; intros; apply M_le_out_of_fuel|].
  destruct m as [|m]; [lia|].
  destruct (IH m ltac:(lia)) as [IHe IHl].
  split; intros; simpl.
  - apply parseExpression_body_mono; auto. lia.
  - apply parseExpression_loop_body_mono; auto.
Qed.

Section StatementMono.

Variables fuel1 fuel2 : nat.
Variables pS1 pS2 : M (option Statement).
Variables pB1 pB2 : list Statement -> M (list Statement).
Variables pI1 pI2 : IfStatement -> M (option IfStatement).
Hypothesis Hfuel : fuel1 <= fuel2.
Hypothesis HpS : M_le pS1 pS2.
Hypothesis HpB : forall stmts, M_le (pB1 stmts) (pB2 stmts).
Hypothesis HpI : forall stmt, M_le (pI1 stmt) (pI2 stmt).

Lemma parseBranch_mono : M_le (parseBranch pS1 pB1) (parseBranch pS2 pB2).
Proof. unfold parseBranch, parseBlockStatement. mono. Qed.

Lemma parseIfStatement_loop_body_mono (stmt : IfStatement) :
  M_le (parseIfStatement_loop_body fuel1 pS1 pB1 pI1 stmt)
       (parseIfStatement_loop_body fuel2 pS2 pB2 pI2 stmt).
Proof.
  pose proof (fun prec => proj1 (parseExpression_mono fuel1 fuel2 Hfuel) prec).
  pose proof parseBranch_mono.
  unfold parseIfStatement_loop_body. mono.
Qed.

Lemma parseBlockStatement_loop_body_mono (stmts : list Statement) :
  M_le (parseBlockStatement_loop_body pS1 pB1 stmts)
       (parseBlockStatement_loop_body pS2 pB2 stmts).
Proof. unfold parseBlockStatement_loop_body. mono. Qed.

Lemma parseStatement_body_mono :
  M_le (parseStatement_body fuel1 pS1 pB1 pI1)
       (parseStatement_body fuel2 pS2 pB2 pI2).
Proof.
  pose proof (fun prec => proj1 (parseExpression_mono fuel1 fuel2 Hfuel) prec).
  pose proof (skipWhitespaceTokens_mono fuel1 fuel2 Hfuel).
  pose proof (fun ps => parseFunctionParameters_loop_mono fuel1 fuel2 ps Hfuel).
  pose proof parseBranch_mono.
  unfold parseStatement_body, parseIfStatement, parseReturnStatement,
    parseWhileStatement, parseLoopStatement, parseForStatement,
    parseFunctionStatement, parseFunctionParameters,
    parseDeclarationStatement, parseBlockStatement.
  mono.
Qed.

End StatementMono.

Lemma parseStatement_mono (n : nat) :
  forall m, n <= m ->
    M_le (parseStatement n) (parseStatement m)
    /\ (forall stmts, M_le (parseBlockStatement_loop n stmts)
                           (parseBlockStatement_loop m stmts))
    /\ (forall stmt, M_le (parseIfStatement_loop n stmt)
                          (parseIfStatement_loop m stmt)).
Proof.
  induction n as [|n IH]; intros m Hle;
    [repeat split; intros; apply M_le_out_of_fuel|].
  destruct m as [|m]; [lia|].
  destruct (IH m ltac:(lia)) as (IHs & IHb & IHi).
  split; [|split]; intros; simpl.
  - apply parseStatement_body_mono; auto. lia.
  - apply parseBlockStatement_loop_body_mono; auto.
  - apply parseIfStatement_loop_body_mono; auto. lia.
Qed.

Lemma ParseProgram_loop_mono (n : nat) :
  forall m stmts, n <= m ->
    M_le (ParseProgram_loop n stmts) (ParseProgram_loop m stmts).
Proof.
  induction n as [|n IH]; intros m stmts Hle; [apply M_le_out_of_fuel|].
  destruct m as [|m]; [lia|].
  assert (IH' : forall ss, M_le (ParseProgram_loop n ss)
                                (ParseProgram_loop m ss))
    by (intros; apply IH; lia).
  pose proof (skipWhitespaceTokens_mono n m ltac:(lia)).
  pose proof (proj1 (parseStatement_mono n m ltac:(lia))).
  simpl. unfold ParseProgram_loop_body. mono.
Qed.

Lemma ParseProgram_mono (n m : nat) :
  n <= m -> M_le (ParseProgram n) (ParseProgram m).
Proof.
  intros Hle.
  pose proof (fun ss => ParseProgram_loop_mono n m ss Hle).
  unfold ParseProgram. mono.
Qed.

(** Whatever budget gives a result gives the result of [Parse]. *)
Lemma parse_source_budget (fuel : nat) (source : string)
  (r : Program * Parser) :
  parse_source fuel source = Ok r -> Parse source = Ok r.
Proof.
  unfold Parse, parse_source.
  destruct (NewParser (NewLexer source)) as [p0| |] eqn:E0; try discriminate.
  intros H.
  destruct (Nat.le_ge_cases fuel (enough_fuel source)) as [Hle|Hge].
  - exact (ParseProgram_mono _ _ Hle p0 r H).
  - pose proof (Parse_total source) as (prog & p & E & _).
    unfold Parse, parse_source in E. rewrite E0 in E.
    pose proof (ParseProgram_mono _ _ Hge p0 _ E) as E'.
    congruence.
Qed.

(* ================================================================== *)
(** * The lexer: end of input, strings, comparison operators *)
(* ================================================================== *)

(** C8.  From the state the lexer is in after any number of calls on any
    input, [NextToken] returns and the position has strictly grown; and
    once the position has reached the end of the input, or only white
    space is left before it, every further call, however many, returns
    the [EOF] token with empty text. *)
Theorem NextToken_EOF_idempotent :
  forall (inp : string) (k : nat),
  exists l tok l',
    lexer_after k (NewLexer inp) = Some l
    /\ NextToken l = Some (tok, l')
    /\ position l < position l'
    /\ (String.length inp <= position l \/ only_space_left l ->
        tok = mkToken EOF EmptyString
        /\ forall n, tokens n l = Some (repeat (mkToken EOF EmptyString) n)).
Proof.
  intros inp k.
  destruct (lexer_after_ok k (NewLexer inp) (NewLexer_ok inp))
    as (l & E & Hok & Hin & _).
  destruct (NextToken_step l Hok) as (tok & l' & E' & _ & _ & Hpos).
  exists l, tok, l'. do 3 (split; [assumption|]).
  intros Hend.
  assert (Hsp : only_space_left l).
  { destruct Hend as [Hend|Hsp]; [|exact Hsp].
    intros i Hi Hlt. simpl in Hin. rewrite Hin in Hlt. lia. }
  split.
  - destruct (NextToken_only_space_left l Hok Hsp) as (l2 & E2 & _).
    congruence.
  - intros n. now apply tokens_only_space_left.
Qed.

Lemma lookupIdent_not_LE_GE (s : string) :
  lookupIdent s <> LE /\ lookupIdent s <> GE.
Proof.
  unfold lookupIdent.
  repeat match goal with
  | |- context [if ?b then _ else _] => destruct b
  end; split; discriminate.
Qed.

(** C10.  Whatever state the lexer is in, the token [NextToken] returns
    is neither [LE] nor [GE]: on [<] and on [>] it is the one-byte token
    [LT] or [GT], whatever byte follows.  So the text [<=] is the tokens
    [LT], [ASSIGN] and [>=] is [GT], [ASSIGN]; the precedence table has
    both kinds all the same. *)
Theorem NextToken_never_LE_GE :
  (forall (l : Lexer) (tok : Token) (l' : Lexer),
     NextToken l = Some (tok, l') -> Type_ tok <> LE /\ Type_ tok <> GE)
  /\ (forall l : Lexer,
        ch (skipWhitespace l) = "<"%char ->
        NextToken l = Some (mkToken LT "<", readChar (skipWhitespace l)))
  /\ (forall l : Lexer,
        ch (skipWhitespace l) = ">"%char ->
        NextToken l = Some (mkToken GT ">", readChar (skipWhitespace l)))
  /\ tokens 3 (NewLexer "<=")
     = Some [mkToken LT "<"; mkToken ASSIGN "="; mkToken EOF EmptyString]
  /\ tokens 3 (NewLexer ">=")
     = Some [mkToken GT ">"; mkToken ASSIGN "="; mkToken EOF EmptyString]
  /\ precedences LE = Some LESSGREATER
  /\ precedences GE = Some LESSGREATER.
Proof.
  split; [|split; [|split; [|repeat split; reflexivity]]].
  2,3: intros l H; unfold NextToken, single; rewrite !H; reflexivity.
  intros l tok l'. unfold NextToken, single, double.
  set (l1 := skipWhitespace l).
  repeat match goal with
  | |- context [if Ascii.eqb ?a ?b then _ else _] =>
      destruct (Ascii.eqb a b)
  end;
  try (intros [= <- _]; split; discriminate).
  - destruct (readString l1) as [[lit l2]|]; [|discriminate].
    intros [= <- _]; split; discriminate.
  - destruct (isLetter (ch l1)).
    { destruct (readIdentifier l1) as [[lit l2]|]; [|discriminate].
      intros [= <- _]. apply lookupIdent_not_LE_GE. }
    destruct (isDigit (ch l1)).
    { destruct (readNumber l1) as [[lit l2]|]; [|discriminate].
      destruct (contains_dot lit); intros [= <- _]; split; discriminate. }
    intros [= <- _]; split; discriminate.
Qed.

(** ** String literals *)

Lemma byte_at_cons (c : ascii) (s : string) (i : nat) :
  byte_at (String c s) (S i) = byte_at s i.
Proof. reflexivity. Qed.

Lemma byte_at_app_right (pre s : string) (i : nat) :
  byte_at (pre ++ s) (String.length pre + i) = byte_at s i.
Proof. induction pre as [|c pre IH]; simpl; auto. Qed.

Lemma byte_at_app_left (s t : string) (i : nat) :
  i < String.length s -> byte_at (s ++ t) i = byte_at s i.
Proof.
  revert i; induction s as [|c s IH]; intros i H; simpl in *; [lia|].
  destruct i as [|i]; [reflexivity|]. rewrite !byte_at_cons. apply IH. lia.
Qed.

Lemma string_forallb_byte_at (f : ascii -> bool) (s : string) (i : nat) :
  string_forallb f s = true -> i < String.length s ->
  f (byte_at s i) = true.
Proof.
  revert i; induction s as [|c s IH]; intros i H Hi; simpl in *; [lia|].
  apply andb_true_iff in H as [H1 H2].
  destruct i as [|i]; [exact H1|]. rewrite byte_at_cons. apply IH; auto. lia.
Qed.

Lemma length_app (s t : string) :
  String.length (s ++ t) = String.length s + String.length t.
Proof. induction s; simpl; auto. Qed.

Lemma substring_app_right (pre s : string) (n : nat) :
  String.substring (String.length pre) n (pre ++ s) = String.substring 0 n s.
Proof. induction pre as [|c pre IH]; simpl; auto. Qed.

Lemma substring_prefix (s t : string) :
  String.substring 0 (String.length s) (s ++ t) = s.
Proof.
  induction s as [|c s IH]; simpl.
  - destruct t; reflexivity.
  - now rewrite IH.
Qed.

Lemma NextToken_at_DQUOTE (l : Lexer) :
  ch l = DQUOTE ->
  NextToken l
  = match readString l with
    | Some (lit, l1) => Some (mkToken STRING lit, readChar l1)
    | None => None
    end.
Proof.
  intros H. unfold NextToken, skipWhitespace.
  rewrite readWhile_false by (rewrite H; reflexivity).
  rewrite H. reflexivity.
Qed.

(** C9, as the code has it.  At an opening quote, with a body free of
    quote and 0 bytes that is followed by a quote, by a 0 byte or by the
    end of the input, the token is a [STRING] whose text is the body byte
    for byte; when it is the end of the input that follows, the next
    token is [EOF]. *)
Theorem string_literal_verbatim :
  forall (pre body tail : string) (l : Lexer),
    lexer_ok l ->
    input l = pre ++ String DQUOTE (body ++ tail) ->
    position l = String.length pre ->
    string_forallb (fun c => negb (string_end c)) body = true ->
    string_end (byte_at tail 0) = true ->
    exists l',
      NextToken l = Some (mkToken STRING body, l')
      /\ lexer_ok l'
      /\ position l' = String.length pre + String.length body + 2
      /\ (tail = EmptyString ->
          NextToken l' = Some (mkToken EOF EmptyString, readChar l')).
Proof.
  intros pre body tail l Hok Hin Hpos Hbody Htail.
  assert (Hat : forall i,
            byte_at (input l) (S (position l) + i) = byte_at (body ++ tail) i).
  { intros i. rewrite Hin, Hpos.
    replace (S (String.length pre) + i) with (String.length pre + S i) by lia.
    rewrite byte_at_app_right. apply byte_at_cons. }
  assert (Hch : ch l = DQUOTE).
  { destruct Hok as [_ ->]. rewrite Hin, Hpos.
    rewrite <- (Nat.add_0_r (String.length pre)).
    now rewrite byte_at_app_right. }
  assert (Hlen : String.length (input l)
                 = String.length pre + S (String.length body
                                          + String.length tail)).
  { rewrite Hin, length_app. simpl. now rewrite length_app. }
  destruct (readString_loop_scan (String.length body) (loop_bound l) l Hok)
    as (H1 & H2 & H3).
  - intros i Hi. rewrite Hat, byte_at_app_left by assumption.
    apply negb_true_iff.
    apply (string_forallb_byte_at _ body i Hbody Hi).
  - rewrite Hat.
    rewrite <- (Nat.add_0_r (String.length body)).
    now rewrite byte_at_app_right.
  - unfold loop_bound. destruct Hok as [-> _]. lia.
  - rewrite NextToken_at_DQUOTE by assumption. unfold readString.
    rewrite slice_in_range by (rewrite ?H2; lia).
    replace (position (readString_loop (loop_bound l) l) - (position l + 1))
      with (String.length body) by lia.
    rewrite H2, Hin, Hpos.
    replace (String.length pre + 1) with (String.length (pre ++ String DQUOTE EmptyString))
      by (rewrite length_app; reflexivity).
    replace (pre ++ String DQUOTE (body ++ tail))
      with ((pre ++ String DQUOTE EmptyString) ++ (body ++ tail)).
    2:{ clear. induction pre; simpl; congruence. }
    rewrite substring_app_right, substring_prefix.
    eexists. split; [reflexivity|]. split; [apply readChar_ok|].
    split; [rewrite readChar_position by assumption; lia|].
    intros ->. apply NextToken_exhausted; [apply readChar_ok|].
    rewrite readChar_position by assumption.
    change (input (readChar (readString_loop (loop_bound l) l)))
      with (input (readString_loop (loop_bound l) l)).
    rewrite H2, Hlen, H3, Hpos.
    change (String.length EmptyString) with 0. lia.
Qed.

(** C9, as stated, fails on a string literal that holds a 0 byte: the
    text of the token stops there. *)
Lemma string_literal_cut_at_NUL :
  let body := String "a"%char (String NUL (String "b"%char EmptyString)) in
  let source := String DQUOTE (body ++ String DQUOTE EmptyString) in
  option_map fst (NextToken (NewLexer source))
  = Some (mkToken STRING "a")
  /\ option_map fst (NextToken (NewLexer source))
     <> Some (mkToken STRING body).
Proof. split; [reflexivity|discriminate]. Qed.

(* ================================================================== *)
(** * The parser on the programs of the specification *)
(* ================================================================== *)

(** C5.  [void test() { return; }] is one function statement named
    [test], without parameters, of return type token [void], whose body
    holds one return statement without a value; no error is recorded. *)
Theorem void_test_function_parses :
  run_parser "void test() { return; }"
  = Some (mkProgram
            [FunctionStatementPtr
               (Some (mkFunctionStatement (mkToken TYPE "void")
                        (Some (ident_ "test")) []
                        (mkToken TYPE "void")
                        (block_
                           [ReturnStatementPtr
                              (Some (mkReturnStatement
                                       (mkToken RETURN "return") None))])))],
          []).
Proof. vm_compute. reflexivity. Qed.

(** C1 fails on the code: the operand of a prefix or infix operator and
    the initializer of a declaration may be absent in a node that is
    returned; for the first two sources no error is recorded either. *)
Theorem absent_children_are_kept :
  run_parser "-"
  = Some (mkProgram
            [ExpressionStatementPtr
               (Some (mkExpressionStatement EOF_token
                        (Some (PrefixExpression (mkToken SUB "-") "-"
                                 None))))],
          [])
  /\ run_parser "a +"
     = Some (mkProgram
               [ExpressionStatementPtr
                  (Some (mkExpressionStatement EOF_token
                           (Some (InfixExpression (mkToken ADD "+") "+"
                                    (ident_expr "a") None))))],
             [])
  /\ run_parser "int x = ;"
     = Some (mkProgram
               [VariableDeclarationPtr
                  (Some (mkVariableDeclaration (mkToken TYPE "int")
                           (Some (ident_ "x")) None))],
             ["no prefix parse function for ; found"]).
Proof. repeat split; vm_compute; reflexivity. Qed.

(** ** Function or declaration *)

Lemma skipWhitespaceTokens_noop (n : nat) (p : Parser) :
  curTokenIs ILLEGAL p = false -> skipWhitespaceTokens (S n) p = Ok (tt, p).
Proof.
  intros H. simpl. unfold skipWhitespaceTokens_body, bind, get.
  now rewrite H.
Qed.

Lemma curTokenIs_of_type (p : Parser) (t u : TokenType) :
  Type_ (curToken p) = t -> t <> u -> curTokenIs u p = false.
Proof. intros H Hn. apply TokenType_eqb_neq. congruence. Qed.

Lemma parseStatement_on_type (n : nat) (p : Parser) :
  Type_ (curToken p) = TYPE \/ Type_ (curToken p) = VOID ->
  parseStatement (S (S n)) p
  = if peekTokenIs IDENT p then
      if peekPeekIs LPAREN p then
        (s <- parseFunctionStatement (S n) (parseBlockStatement_loop (S n)) ;;
         ret (Some (FunctionStatementPtr s))) p
      else
        (s <- parseDeclarationStatement (S n) ;;
         ret (Some (VariableDeclarationPtr s))) p
    else Ok (None, p).
Proof.
  intros H.
  change (parseStatement (S (S n)) p)
    with (parseStatement_body (S n) (parseStatement (S n))
            (parseBlockStatement_loop (S n)) (parseIfStatement_loop (S n)) p).
  unfold parseStatement_body. unfold bind at 1.
  rewrite skipWhitespaceTokens_noop
    by (destruct H as [H|H];
        apply (curTokenIs_of_type p _ _ H); discriminate).
  unfold bind at 1. unfold get at 1. cbv beta iota.
  destruct H as [-> | ->];
    destruct (peekTokenIs IDENT p), (peekPeekIs LPAREN p),
             (peekPeekIs ASSIGN p); reflexivity.
Qed.

Lemma bind_Ok {A B : Type} (m : M A) (k : A -> M B) (p : Parser)
  (a : A) (p' : Parser) :
  m p = Ok (a, p') -> bind m k p = k a p'.
Proof. intros H. unfold bind. now rewrite H. Qed.

Lemma expectPeek_hit (t : TokenType) (p p1 : Parser) :
  peekTokenIs t p = true -> nextToken p = Ok (tt, p1) ->
  expectPeek t p = Ok (true, p1).
Proof.
  intros H E. unfold expectPeek.
  rewrite (bind_Ok get _ p p p eq_refl), H.
  now rewrite (bind_Ok nextToken _ p tt p1 E).
Qed.

Lemma expectPeek_miss (t : TokenType) (p : Parser) :
  peekTokenIs t p = false ->
  exists p',
    expectPeek t p = Ok (false, p')
    /\ errors p'
       = (errors p
          ++ [("expected next token to be " ++ TokenType_string t
               ++ ", got " ++ TokenType_string (Type_ (peekToken p))
               ++ " instead")%string])%list.
Proof.
  intros H. unfold expectPeek.
  rewrite (bind_Ok get _ p p p eq_refl), H.
  eexists. split; reflexivity.
Qed.

Lemma parseDeclaration_without_assign (n : nat) (p : Parser) :
  parser_ok p ->
  Type_ (curToken p) = TYPE \/ Type_ (curToken p) = VOID ->
  peekTokenIs IDENT p = true ->
  peekPeekIs ASSIGN p = false ->
  exists p',
    parseDeclarationStatement n p = Ok (None, p')
    /\ errors p'
       = (errors p
          ++ [("expected next token to be =, got "
               ++ TokenType_string (Type_ (peekPeek p)) ++ " instead")%string])
           %list.
Proof.
  intros Hok Hcur Hpeek Hpp.
  destruct (nextToken_spec p Hok) as (p1 & E1 & _ & Er1 & _ & Hpk & _).
  assert (Hty : negb (curTokenIs TYPE p) && negb (curTokenIs VOID p) = false).
  { destruct Hcur as [H|H]; apply TokenType_eqb_eq in H;
      fold (curTokenIs TYPE p) in H || fold (curTokenIs VOID p) in H;
      rewrite H; simpl; auto using andb_false_r. }
  assert (Hpk1 : peekTokenIs ASSIGN p1 = false).
  { unfold peekTokenIs. rewrite Hpk. exact Hpp. }
  destruct (expectPeek_miss ASSIGN p1 Hpk1) as (p2 & E2 & Er2).
  unfold parseDeclarationStatement.
  rewrite (bind_Ok get _ p p p eq_refl), Hty.
  rewrite (bind_Ok (expectPeek IDENT) _ p true p1
             (expectPeek_hit IDENT p p1 Hpeek E1)).
  cbv beta iota delta [negb].
  rewrite (bind_Ok get _ p1 p1 p1 eq_refl). cbv beta zeta.
  rewrite (bind_Ok (expectPeek ASSIGN) _ p1 false p2 E2).
  exists p2. split; [reflexivity|].
  rewrite Er2, Er1, Hpk. reflexivity.
Qed.

(** C2.  With a type or [void] token in hand, the next two token kinds
    decide: identifier then [(] is a function, identifier then anything
    else is a declaration (nothing is attempted when no identifier
    follows); and a declaration without [=] records exactly the error of
    [expectPeek] that cites it. *)
Theorem statement_dispatch_by_two_tokens :
  (forall (n : nat) (p : Parser),
     Type_ (curToken p) = TYPE \/ Type_ (curToken p) = VOID ->
     parseStatement (S (S n)) p
     = if peekTokenIs IDENT p then
         if peekPeekIs LPAREN p then
           (s <- parseFunctionStatement (S n)
                   (parseBlockStatement_loop (S n)) ;;
            ret (Some (FunctionStatementPtr s))) p
         else
           (s <- parseDeclarationStatement (S n) ;;
            ret (Some (VariableDeclarationPtr s))) p
       else Ok (None, p))
  /\ (forall (n : nat) (p : Parser),
        parser_ok p ->
        Type_ (curToken p) = TYPE \/ Type_ (curToken p) = VOID ->
        peekTokenIs IDENT p = true ->
        peekPeekIs LPAREN p = false ->
        peekPeekIs ASSIGN p = false ->
        exists p',
          parseStatement (S (S n)) p
          = Ok (Some (VariableDeclarationPtr None), p')
          /\ errors p'
             = (errors p
                ++ [("expected next token to be =, got "
                     ++ TokenType_string (Type_ (peekPeek p))
                     ++ " instead")%string])%list)
  /\ run_parser "int foo() {}"
     = Some (mkProgram
               [FunctionStatementPtr
                  (Some (mkFunctionStatement (mkToken TYPE "int")
                           (Some (ident_ "foo")) []
                           (mkToken TYPE "int") (block_ [])))],
             [])
  /\ run_parser "int foo = 1;"
     = Some (mkProgram
               [VariableDeclarationPtr
                  (Some (mkVariableDeclaration (mkToken TYPE "int")
                           (Some (ident_ "foo"))
                           (Some (IntegerLiteral (mkToken INT "1") 1))))],
             [])
  /\ run_parser "int foo"
     = Some (mkProgram [VariableDeclarationPtr None],
             ["expected next token to be =, got EOF instead"]).
Proof.
  split; [exact parseStatement_on_type|].
  split; [|repeat split; vm_compute; reflexivity].
  intros n p Hok Hcur Hpeek Hlp Has.
  rewrite parseStatement_on_type, Hpeek, Hlp by assumption.
  destruct (parseDeclaration_without_assign (S n) p Hok Hcur Hpeek Has)
    as (p' & E & Herr).
  exists p'. split; [|exact Herr].
  unfold bind. now rewrite E.
Qed.

(** ** Precedence and associativity *)

(** C3.  The four expressions of the specification render as stated,
    also through [ParseProgram]; the precedence classes are ordered; and
    for any two binary operators the second one takes [b] as its left
    operand exactly when it binds tighter than the first, so operators of
    one class fold to the left. *)
Theorem precedence_and_associativity :
  Render "a + b * c" = Some "(a + (b * c))"
  /\ Render "a < b == c" = Some "((a < b) == c)"
  /\ Render "-a + b" = Some "((-a) + b)"
  /\ Render "123 + 4 * 5" = Some "(123 + (4 * 5))"
  /\ (exists es,
        run_parser "123 + 4 * 5"
        = Some (mkProgram [ExpressionStatementPtr (Some es)], [])
        /\ ExpressionStatement_String es = Some "(123 + (4 * 5))")
  /\ (LOWEST < OR_PREC /\ OR_PREC < AND_PREC /\ AND_PREC < EQUALS
      /\ EQUALS < LESSGREATER /\ LESSGREATER < SUM /\ SUM < PRODUCT
      /\ PRODUCT < PREFIX)
  /\ map (fun o => precedence_of (snd o)) binary_operators
     = [OR_PREC; AND_PREC; EQUALS; EQUALS; LESSGREATER; LESSGREATER;
        SUM; SUM; PRODUCT; PRODUCT; PRODUCT]
  /\ (forall o1 o2 : string * TokenType,
        In o1 binary_operators -> In o2 binary_operators ->
        Render ("a " ++ fst o1 ++ " b " ++ fst o2 ++ " c")
        = Some (if precedence_of (snd o1) <? precedence_of (snd o2)
                then "(a " ++ fst o1 ++ " (b " ++ fst o2 ++ " c))"
                else "((a " ++ fst o1 ++ " b) " ++ fst o2 ++ " c)")).
Proof.
  do 4 (split; [vm_compute; reflexivity|]).
  split; [eexists; split; vm_compute; reflexivity|].
  split; [unfold LOWEST, OR_PREC, AND_PREC, EQUALS, LESSGREATER, SUM,
            PRODUCT, PREFIX; lia|].
  split; [reflexivity|].
  intros o1 o2 H1 H2. simpl in H1, H2.
  repeat (destruct H1 as [<-|H1]; [|]); try contradiction;
    repeat (destruct H2 as [<-|H2]; [|]); try contradiction;
    vm_compute; reflexivity.
Qed.

(** ** Else-if chains *)

Lemma nextToken_shift (p p1 : Parser) :
  nextToken p = Ok (tt, p1) ->
  curToken p1 = peekToken p /\ peekToken p1 = peekPeek p
  /\ errors p1 = errors p.
Proof.
  unfold nextToken. destruct (NextToken (lexer p)) as [[tok l']|];
    [|discriminate].
  intros [= <-]. auto.
Qed.

(** After a plain [else], the rest of the else loop has no say in the
    result. *)
Lemma plain_else_ends_loop (fuel : nat) (pS : M (option Statement))
  (pB : list Statement -> M (list Statement))
  (again1 again2 : IfStatement -> M (option IfStatement))
  (stmt : IfStatement) (p : Parser) :
  peekTokenIs ELSE p = true -> peekPeekIs IF p = false ->
  parseIfStatement_loop_body fuel pS pB again1 stmt p
  = parseIfStatement_loop_body fuel pS pB again2 stmt p.
Proof.
  intros H1 H2. unfold parseIfStatement_loop_body.
  rewrite !(bind_Ok get _ p p p eq_refl), H1.
  destruct (nextToken p) as [[[] p1]| |] eqn:E;
    [|unfold bind; rewrite E; reflexivity..].
  rewrite !(bind_Ok nextToken _ p tt p1 E).
  rewrite !(bind_Ok get _ p1 p1 p1 eq_refl).
  destruct (nextToken_shift p p1 E) as (_ & Hpk & _).
  replace (peekTokenIs IF p1) with false; [reflexivity|].
  unfold peekTokenIs. rewrite Hpk. symmetry. exact H2.
Qed.

(** C4.  The chain of the specification gives two else-if clauses, for
    [b] then [c], and an else block; after a plain [else] the loop is
    over, whatever follows: a further [else if] is not attached. *)
Theorem else_if_chain_collected_in_order :
  run_parser "if (a) {1} else if (b) {2} else if (c) {3} else {4}"
  = Some (mkProgram
            [IfStatementPtr
               (Some (mkIfStatement (mkToken IF "if") (ident_expr "a")
                        (block_ [int_stmt "1" 1])
                        [mkElseIfClause (ident_expr "b")
                           (block_ [int_stmt "2" 2]);
                         mkElseIfClause (ident_expr "c")
                           (block_ [int_stmt "3" 3])]
                        (block_ [int_stmt "4" 4])))],
          [])
  /\ (forall (fuel : nat) (pS : M (option Statement))
        (pB : list Statement -> M (list Statement))
        (again1 again2 : IfStatement -> M (option IfStatement))
        (stmt : IfStatement) (p : Parser),
        peekTokenIs ELSE p = true -> peekPeekIs IF p = false ->
        parseIfStatement_loop_body fuel pS pB again1 stmt p
        = parseIfStatement_loop_body fuel pS pB again2 stmt p)
  /\ run_parser "if (a) {1} else {2} else if (b) {3}"
     = Some (mkProgram
               [IfStatementPtr
                  (Some (mkIfStatement (mkToken IF "if") (ident_expr "a")
                           (block_ [int_stmt "1" 1]) []
                           (block_ [int_stmt "2" 2])));
                IfStatementPtr
                  (Some (mkIfStatement (mkToken IF "if") (ident_expr "b")
                           (block_ [int_stmt "3" 3]) [] None))],
             ["no prefix parse function for else found";
              "unexpected token: else"]).
Proof.
  split; [vm_compute; reflexivity|].
  split; [exact plain_else_ends_loop|vm_compute; reflexivity].
Qed.

(** ** Termination *)

Lemma only_below_spec {A : Type} (p : Parser) (a : A) (q : Parser) :
  parser_ok q -> togo q < togo p ->
  wp (only_below p a) q (fun _ p' => post q p').
Proof.
  intros Hq Hlt. unfold wp, only_below.
  apply Nat.ltb_lt in Hlt. rewrite Hlt. now apply post_refl.
Qed.

Lemma wp_returns {A : Type} (m : M A) (p : Parser)
  (Q : A -> Parser -> Prop) : wp m p Q -> returns m p.
Proof.
  unfold wp, returns. destruct (m p) as [[a p']| |]; [eauto|tauto..].
Qed.

Lemma wp_result {A : Type} (m : M A) (p : Parser)
  (Q : A -> Parser -> Prop) :
  wp m p Q -> exists a p', m p = Ok (a, p') /\ Q a p'.
Proof.
  unfold wp. destruct (m p) as [[a p']| |]; [eauto|tauto..].
Qed.

(** C6.  [Parse] returns for every source text, within a budget linear
    in its length, and no other budget gives another result.  From any
    consistent state and with such a budget,
    [ParseProgram] returns, [nextToken] moves the token position, and one
    turn of each loop (of [ParseProgram], of a block, of an expression, of
    an else chain, of a parameter list, of [skipWhitespaceTokens])
    returns even when the rest of the loop is only willing to start
    strictly closer to the end of the input: every turn consumes a
    token. *)
Theorem ParseProgram_terminates :
  (forall source : string, exists prog p, Parse source = Ok (prog, p))
  /\ (forall (source : string) (fuel : nat) (r : Program * Parser),
        parse_source fuel source = Ok r -> Parse source = Ok r)
  /\ (forall (fuel : nat) (p : Parser),
        parser_ok p -> 3 * togo p + 4 <= fuel ->
        (exists prog p', ParseProgram fuel p = Ok (prog, p')
                         /\ togo p' <= togo p)
        /\ (exists p', nextToken p = Ok (tt, p')
                       /\ togo p' <= togo p - 1
                       /\ (curTokenIs EOF p = false -> togo p' < togo p))
        /\ (forall stmts,
              returns (ParseProgram_loop_body fuel (only_below p) stmts) p)
        /\ (forall stmts,
              returns (parseBlockStatement_loop_body (parseStatement fuel)
                         (only_below p) stmts) p)
        /\ (forall prec leftExp,
              returns (parseExpression_loop_body (parseExpression fuel)
                         (fun _ => only_below p) prec leftExp) p)
        /\ (forall stmt,
              returns (parseIfStatement_loop_body fuel (parseStatement fuel)
                         (parseBlockStatement_loop fuel)
                         (fun s => only_below p (Some s)) stmt) p)
        /\ (forall params,
              returns (parseFunctionParameters_loop_body (only_below p)
                         params) p)
        /\ returns (skipWhitespaceTokens_body (only_below p tt)) p).
Proof.
  split.
  { intros source. destruct (Parse_total source) as (prog & p & E & _).
    eauto. }
  split.
  { intros source fuel r. apply parse_source_budget. }
  intros fuel p Hok Hf.
  split.
  { destruct (wp_result _ _ _ (ParseProgram_total fuel p Hok Hf))
      as (prog & p' & E & _ & Hle & _). eauto. }
  split.
  { destruct (nextToken_spec p Hok) as (p' & E & _ & _ & _ & _ & Hle).
    exists p'. split; [exact E|]. split; [exact Hle|].
    intros Hc. pose proof (togo_cur_not_EOF p Hc). lia. }
  split.
  { intros stmts. eapply wp_returns.
    apply ParseProgram_loop_body_spec; auto; [lia|].
    intros ss q Hq Hlt. now apply only_below_spec. }
  split.
  { intros stmts. eapply wp_returns.
    apply (parseBlockStatement_loop_body_spec _ _ (togo p)); auto.
    - intros q Hq Hle. apply parseStatement_spec; auto. lia.
    - intros ss q Hq Hlt. now apply only_below_spec. }
  split.
  { intros prec leftExp. eapply wp_returns.
    apply (parseExpression_loop_body_spec _ _ (togo p)); auto.
    - intros prec' q Hq Hlt. apply parseExpression_spec; auto. lia.
    - intros prec' left' q Hq Hlt. now apply only_below_spec. }
  split.
  { intros stmt. eapply wp_returns.
    apply (parseIfStatement_loop_body_spec fuel _ _ _ (togo p)); auto;
      try lia.
    - intros q Hq Hlt. apply parseStatement_spec; auto. lia.
    - intros ss q Hq Hlt.
      apply (proj1 (proj2 (parseStatement_total fuel))); auto. lia.
    - intros s q Hq Hlt. now apply only_below_spec. }
  split.
  { intros params. eapply wp_returns.
    apply parseFunctionParameters_loop_body_spec; auto.
    intros ps q Hq Hlt. now apply only_below_spec. }
  eapply wp_returns. apply skipWhitespaceTokens_body_spec; auto.
  intros q Hq Hlt. now apply only_below_spec.
Qed.

(** ** Errors are collected *)

(** Without a bound on the stack: [Parse] returns a program for every
    source text, and [GetErrors] then gives the error list.  From any
    consistent state and with a sufficient budget, [ParseProgram],
    [parseStatement] and [parseExpression] return and leave the errors
    they found appended to those already there; [addError] appends at the
    end; a fresh parser has no errors; two faulty statements in a row
    leave their errors in the order of the source. *)
Lemma errors_accumulate_on_an_unbounded_stack :
  (forall source : string,
     exists prog p,
       Parse source = Ok (prog, p)
       /\ run_parser source = Some (prog, GetErrors p))
  /\ (forall (fuel : nat) (p : Parser),
        parser_ok p -> 3 * togo p + 4 <= fuel ->
        (exists prog p', ParseProgram fuel p = Ok (prog, p')
                         /\ extends (errors p) (GetErrors p'))
        /\ (exists s p', parseStatement fuel p = Ok (s, p')
                         /\ extends (errors p) (GetErrors p'))
        /\ (forall prec,
              exists e p', parseExpression fuel prec p = Ok (e, p')
                           /\ extends (errors p) (GetErrors p')))
  /\ (forall (msg : string) (p : Parser),
        exists p', addError msg p = Ok (tt, p')
                   /\ GetErrors p' = (errors p ++ [msg])%list)
  /\ (forall source : string,
        exists p0, NewParser (NewLexer source) = Ok p0
                   /\ GetErrors p0 = [])
  /\ run_parser "if 1 while 2"
     = Some (mkProgram
               [IfStatementPtr None; int_stmt "1" 1;
                WhileStatementPtr None; int_stmt "2" 2],
             ["expected next token to be (, got INT instead";
              "expected next token to be (, got INT instead";
              "expected '(' after 'while'"]).
Proof.
  split.
  { intros source. destruct (Parse_total source) as (prog & p & E & _).
    exists prog, p. split; [exact E|]. unfold run_parser. now rewrite E. }
  split.
  { intros fuel p Hok Hf. split; [|split].
    - destruct (wp_result _ _ _ (ParseProgram_total fuel p Hok Hf))
        as (prog & p' & E & _ & _ & Hex). eauto.
    - destruct (wp_result _ _ _
                  (parseStatement_spec fuel p Hok ltac:(lia)))
        as (s & p' & E & _ & _ & Hex). eauto.
    - intros prec.
      destruct (wp_result _ _ _
                  (parseExpression_spec fuel prec p Hok ltac:(lia)))
        as (e & p' & E & _ & _ & Hex). eauto. }
  split.
  { intros msg p. eexists. split; reflexivity. }
  split.
  { intros source.
    destruct (NewParser_total (NewLexer source) (NewLexer_ok source))
      as (p0 & E & _ & Her & _). eauto. }
  vm_compute. reflexivity.
Qed.

(* ================================================================== *)
(** * More on the lexer *)
(* ================================================================== *)

Lemma string_of_byte_not_empty (c : ascii) : string_of_byte c <> EmptyString.
Proof.
  unfold string_of_byte. destruct (nat_of_ascii c <? 128); discriminate.
Qed.

Ltac in_list := simpl; solve [repeat (first [left; reflexivity | right])].

Lemma lookupIdent_range (s : string) :
  In (lookupIdent s)
     [IF; ELSE; TYPE; RETURN; FUNC; TYPEOF; LOOP; WHILE; FOR; IN; BOOL; NIL;
      BREAK; CONTINUE; IDENT].
Proof.
  unfold lookupIdent.
  repeat match goal with
  | |- context [if ?b then _ else _] => destruct b
  end; in_list.
Qed.

Lemma NextToken_kind_facts (l : Lexer) (tok : Token) (l' : Lexer) :
  NextToken l = Some (tok, l') ->
  Type_ tok <> VOID /\ Type_ tok <> ZERO_TYPE
  /\ (Type_ tok = ILLEGAL -> Literal tok <> EmptyString).
Proof.
  unfold NextToken, single, double.
  set (l1 := skipWhitespace l).
  assert (Hne := string_of_byte_not_empty (ch l1)).
  repeat match goal with
  | |- context [if Ascii.eqb ?a ?b then _ else _] =>
      destruct (Ascii.eqb a b)
  end;
  try (intros [= <- _]; simpl; repeat split; (discriminate || auto)).
  - destruct (readString l1) as [[lit l2]|]; [|discriminate].
    intros [= <- _]; repeat split; discriminate.
  - destruct (isLetter (ch l1)).
    { destruct (readIdentifier l1) as [[lit l2]|]; [|discriminate].
      intros [= <- _]. simpl.
      pose proof (lookupIdent_range lit) as H. simpl in H.
      repeat split; intros E; rewrite E in H;
        repeat (destruct H as [H|H]; [discriminate|]); contradiction. }
    destruct (isDigit (ch l1)).
    { destruct (readNumber l1) as [[lit l2]|]; [|discriminate].
      destruct (contains_dot lit); intros [= <- _]; repeat split;
        discriminate. }
    intros [= <- _]; simpl; repeat split; (discriminate || auto).
Qed.

(** X1.  Whatever state the lexer is in, [NextToken] returns no token of
    kind [VOID] and none of the empty kind: the cases of the parser for
    a [VOID] token are never entered on the tokens of a source text. *)
Theorem NextToken_never_VOID :
  forall (l : Lexer) (tok : Token) (l' : Lexer),
    NextToken l = Some (tok, l') ->
    Type_ tok <> VOID /\ Type_ tok <> ZERO_TYPE.
Proof.
  intros l tok l' H. destruct (NextToken_kind_facts l tok l' H) as (A & B & _).
  auto.
Qed.

(** X2.  An [ILLEGAL] token of the lexer has a text that is not empty,
    so [skipWhitespaceTokens] consumes nothing when the current token is
    one the lexer returned. *)
Theorem skipWhitespaceTokens_keeps_lexer_tokens :
  forall (l : Lexer) (tok : Token) (l' : Lexer) (p : Parser) (n : nat),
    NextToken l = Some (tok, l') ->
    curToken p = tok ->
    (Type_ tok = ILLEGAL -> Literal tok <> EmptyString)
    /\ skipWhitespaceTokens (S n) p = Ok (tt, p).
Proof.
  intros l tok l' p n H Hcur.
  destruct (NextToken_kind_facts l tok l' H) as (_ & _ & Hill).
  split; [exact Hill|].
  simpl. unfold skipWhitespaceTokens_body, bind, get.
  destruct (curTokenIs ILLEGAL p) eqn:E; [|reflexivity].
  apply TokenType_eqb_eq in E. rewrite Hcur in E.
  specialize (Hill E). rewrite Hcur.
  destruct (Literal tok); [contradiction|reflexivity].
Qed.

(** ** The text of a token *)

Lemma substring_0 (s : string) (i : nat) :
  String.substring i 0 s = EmptyString.
Proof.
  revert i; induction s as [|c s IH]; intros [|i]; simpl; auto.
Qed.

Lemma substring_cons (s : string) (i n : nat) :
  i < String.length s ->
  String.substring i (S n) s
  = String (byte_at s i) (String.substring (S i) n s).
Proof.
  revert i; induction s as [|c s IH]; intros i H; simpl in H; [lia|].
  destruct i as [|i].
  - reflexivity.
  - change (String.substring (S i) (S n) (String c s))
      with (String.substring i (S n) s).
    change (String.substring (S (S i)) n (String c s))
      with (String.substring (S i) n s).
    rewrite IH by lia. reflexivity.
Qed.

Lemma string_of_byte_ascii (c : ascii) :
  nat_of_ascii c < 128 -> string_of_byte c = String c EmptyString.
Proof.
  intros H. unfold string_of_byte. apply Nat.ltb_lt in H. now rewrite H.
Qed.

Lemma one_byte_text (l : Lexer) :
  lexer_ok l -> ch l <> NUL -> nat_of_ascii (ch l) < 128 ->
  string_of_byte (ch l)
  = String.substring (position l) (position (readChar l) - position l)
      (input l).
Proof.
  intros Hok Hnul Hlt.
  rewrite readChar_position by assumption.
  replace (S (position l) - position l) with 1 by lia.
  rewrite substring_cons by now apply ch_not_NUL_in_range.
  rewrite substring_0, string_of_byte_ascii by assumption.
  destruct Hok as [_ <-]. reflexivity.
Qed.

Lemma two_byte_text (l : Lexer) (second : ascii) :
  lexer_ok l -> ch l <> NUL -> nat_of_ascii (ch l) < 128 ->
  peekChar l = second -> second <> NUL -> nat_of_ascii second < 128 ->
  (string_of_byte (ch l) ++ string_of_byte (ch (readChar l)))%string
  = String.substring (position l)
      (position (readChar (readChar l)) - position l) (input l).
Proof.
  intros Hok Hnul Hlt Hpeek Hs Hs128.
  assert (Hch : ch (readChar l) = second) by exact Hpeek.
  pose proof (ch_not_NUL_in_range (readChar l) (readChar_ok l)) as Hr.
  rewrite Hch in Hr. specialize (Hr Hs).
  rewrite (readChar_position l) in Hr by assumption.
  change (input (readChar l)) with (input l) in Hr.
  rewrite !readChar_position by auto using readChar_ok.
  replace (S (S (position l)) - position l) with 2 by lia.
  rewrite !substring_cons, substring_0 by lia.
  rewrite !string_of_byte_ascii by (rewrite ?Hch; assumption).
  rewrite readChar_ch.
  destruct Hok as [-> <-]. reflexivity.
Qed.

Lemma readIdentifier_text (l : Lexer) (lit : string) (l' : Lexer) :
  lexer_ok l -> isLetter (ch l) = true ->
  readIdentifier l = Some (lit, l') ->
  lit = String.substring (position l) (position l' - position l) (input l).
Proof.
  intros Hok Hc. unfold readIdentifier.
  destruct (readWhile_ok isLetter (loop_bound l) l Hok) as (H1 & H2 & H3).
  pose proof (cond_true_in_range isLetter isLetter_NUL l Hok Hc) as H5.
  pose proof (readWhile_in_range isLetter isLetter_NUL (loop_bound l) l Hok
                ltac:(lia)) as H6.
  cbv zeta. rewrite slice_in_range by (rewrite ?H2; lia).
  generalize dependent (readWhile isLetter (loop_bound l) l).
  intros l1 _ H2 _ _ [= <- <-]. now rewrite H2.
Qed.

Lemma readNumber_text (l : Lexer) (lit : string) (l' : Lexer) :
  lexer_ok l -> isDigit (ch l) = true ->
  readNumber l = Some (lit, l') ->
  lit = String.substring (position l) (position l' - position l) (input l).
Proof.
  intros Hok Hc H.
  destruct (readNumber_step l Hok Hc) as (lit' & l2 & E & K1 & K2 & K3).
  rewrite H in E. injection E as <- <-.
  revert H. unfold readNumber. cbv zeta.
  match goal with
  | |- context [slice ?s ?a ?b] => destruct (slice s a b) as [x|] eqn:Es
  end; [|discriminate].
  intros [= -> E2]. unfold slice in Es.
  match type of Es with
  | (if ?b then _ else _) = _ => destruct b; [|discriminate]
  end.
  injection Es as <-. rewrite E2, K2. reflexivity.
Qed.

Lemma readString_text (l : Lexer) (lit : string) (l' : Lexer) :
  lexer_ok l -> ch l = DQUOTE ->
  readString l = Some (lit, l') ->
  lexer_ok l'
  /\ lit = String.substring (S (position l))
             (position l' - S (position l)) (input l).
Proof.
  intros Hok Hc. unfold readString.
  assert (Hlt : position l < String.length (input l)).
  { apply ch_not_NUL_in_range; auto. rewrite Hc. discriminate. }
  destruct (readString_loop_ok l Hok Hlt) as (H1 & H2 & H3 & _).
  cbv zeta. rewrite slice_in_range by (rewrite ?H2; lia).
  generalize dependent (readString_loop (loop_bound l) l).
  intros l1 H1 H2 _ [= <- <-]. split; [assumption|].
  rewrite H2, Nat.add_1_r. reflexivity.
Qed.

Ltac ascii_side :=
  match goal with
  | E : Ascii.eqb (ch ?l) ?c = true |- _ =>
      apply Ascii.eqb_eq in E; rewrite ?E;
      first [ discriminate | vm_compute; lia | reflexivity ]
  end.

(** X3.  The text of a token is the piece of the input the lexer passed
    for it: from where the token began, after the white space, to where
    the lexer stands afterwards; for a string without the two bytes
    around it; for [EOF] the empty text and for an [ILLEGAL] token the
    conversion of its one byte, each one byte on. *)
Theorem token_text_is_the_input_passed :
  forall (l : Lexer) (tok : Token) (l' : Lexer),
    lexer_ok l ->
    NextToken l = Some (tok, l') ->
    token_text (input l) (position (skipWhitespace l)) (position l') tok.
Proof.
  intros l tok l' Hok. unfold NextToken.
  destruct (skipWhitespace_ok l Hok) as (Hok1 & Hin1 & Hpos1).
  rewrite <- Hin1.
  set (l1 := skipWhitespace l) in *.
  assert (Hone : forall t,
             nat_of_ascii (ch l1) < 128 -> ch l1 <> NUL ->
             t <> EOF -> t <> STRING -> t <> ILLEGAL ->
             single t l1 = Some (tok, l') ->
             token_text (input l1) (position l1) (position l') tok).
  { intros t H128 Hnul T1 T2 T3 [= <- <-]. unfold token_text. simpl Type_.
    simpl Literal.
    destruct t; try congruence; now apply one_byte_text. }
  assert (Hill : ch l1 <> NUL ->
             single ILLEGAL l1 = Some (tok, l') ->
             token_text (input l1) (position l1) (position l') tok).
  { intros Hnul [= <- <-]. unfold token_text. simpl.
    split; [|now apply readChar_position].
    destruct Hok1 as [_ <-]. reflexivity. }
  assert (Htwo : forall second two one,
             nat_of_ascii (ch l1) < 128 -> ch l1 <> NUL ->
             nat_of_ascii second < 128 -> second <> NUL ->
             two <> EOF -> two <> STRING -> two <> ILLEGAL ->
             (single one l1 = Some (tok, l') ->
              token_text (input l1) (position l1) (position l') tok) ->
             double second two one l1 = Some (tok, l') ->
             token_text (input l1) (position l1) (position l') tok).
  { intros second two one H128 Hnul S128 Snul T1 T2 T3 Hsingle.
    unfold double.
    destruct (Ascii.eqb (peekChar l1) second) eqn:Ep; [|exact Hsingle].
    apply Ascii.eqb_eq in Ep.
    intros [= <- <-]. unfold token_text. simpl Type_. simpl Literal.
    destruct two; try congruence;
      now apply (two_byte_text l1 second). }
  repeat match goal with
  | |- (if Ascii.eqb (ch l1) ?c then _ else _) = _ -> _ =>
      destruct (Ascii.eqb (ch l1) c) eqn:?;
      [ first
          [ apply Hone; solve [ ascii_side | discriminate ]
          | apply Htwo;
            try solve [ ascii_side | discriminate | vm_compute; lia ];
            first [ apply Hone; solve [ ascii_side | discriminate ]
                  | apply Hill; ascii_side ]
          | idtac ] | ]
  end.
  - (* string *)
    destruct (readString l1) as [[lit l2]|] eqn:E; [|discriminate].
    apply readString_text in E; auto; [|now apply Ascii.eqb_eq].
    destruct E as [Hok2 E].
    intros [= <- <-]. unfold token_text. cbn [Type_ Literal].
    rewrite readChar_position by assumption. rewrite E.
    f_equal. lia.
  - (* end of input *)
    intros [= <- <-]. unfold token_text. cbn [Type_ Literal].
    split; [reflexivity|now apply readChar_position].
  - destruct (isLetter (ch l1)) eqn:EL.
    { destruct (readIdentifier l1) as [[lit l2]|] eqn:E; [|discriminate].
      apply readIdentifier_text in E; auto.
      intros [= <- <-]. unfold token_text. cbn [Type_ Literal].
      pose proof (lookupIdent_range lit) as H. simpl in H.
      destruct (lookupIdent lit); auto;
        repeat (destruct H as [H|H]; [discriminate|]); contradiction. }
    destruct (isDigit (ch l1)) eqn:ED.
    { destruct (readNumber l1) as [[lit l2]|] eqn:E; [|discriminate].
      apply readNumber_text in E; auto.
      destruct (contains_dot lit); intros [= <- <-]; exact E. }
    apply Hill. intros E. rewrite E in *. discriminate.
Qed.

(** ** The shape of numbers and names *)

Section ScanLoopBytes.

Variable cond : ascii -> bool.

(** Every byte the loop has passed satisfies its test. *)
Lemma readWhile_all (n : nat) (l : Lexer) :
  lexer_ok l ->
  forall i, position l <= i -> i < position (readWhile cond n l) ->
            cond (byte_at (input l) i) = true.
Proof.
  revert l; induction n as [|n IH]; intros l Hok i Hlo Hhi; simpl in Hhi.
  - lia.
  - destruct (cond (ch l)) eqn:E; [|lia].
    destruct (Nat.eq_dec i (position l)) as [->|Hne].
    + destruct Hok as [_ <-]. exact E.
    + apply (IH (readChar l) (readChar_ok l)); auto.
      rewrite readChar_position by assumption. lia.
Qed.

Lemma string_forallb_substring (s : string) (n a : nat) :
  (forall i, a <= i -> i < a + n -> cond (byte_at s i) = true) ->
  a + n <= String.length s ->
  string_forallb cond (String.substring a n s) = true.
Proof.
  revert a; induction n as [|n IH]; intros a H Hlen.
  - now rewrite substring_0.
  - rewrite substring_cons by lia. simpl.
    rewrite H by lia. apply IH; [|lia].
    intros i H1 H2. apply H; lia.
Qed.

End ScanLoopBytes.

Lemma substring_not_empty (s : string) (a b : nat) :
  a < b -> b <= String.length s ->
  String.substring a (b - a) s <> EmptyString.
Proof.
  intros H1 H2. replace (b - a) with (S (b - a - 1)) by lia.
  rewrite substring_cons by lia. discriminate.
Qed.

Lemma substring_split (s : string) (n m a : nat) :
  a + n + m <= String.length s ->
  String.substring a (n + m) s
  = (String.substring a n s ++ String.substring (a + n) m s)%string.
Proof.
  revert a; induction n as [|n IH]; intros a H.
  - rewrite substring_0, Nat.add_0_r. reflexivity.
  - destruct m as [|m].
    + rewrite substring_0, Nat.add_0_r.
      generalize (String.substring a (S n) s). intros t.
      induction t as [|c t IHt]; simpl; congruence.
    + change (S n + S m) with (S (n + S m)).
      rewrite (substring_cons s a (n + S m)) by lia.
      rewrite (substring_cons s a n) by lia.
      rewrite IH by lia. simpl. do 3 f_equal. lia.
Qed.

Lemma digit_not_dot (c : ascii) :
  isDigit c = true -> Ascii.eqb c "."%char = false.
Proof.
  intros H. destruct (Ascii.eqb c "."%char) eqn:E; auto.
  apply Ascii.eqb_eq in E. subst c. discriminate.
Qed.

Lemma contains_dot_digits (s : string) :
  string_forallb isDigit s = true -> contains_dot s = false.
Proof.
  induction s as [|c s IH]; simpl; auto.
  intros H. apply andb_true_iff in H as [H1 H2].
  now rewrite digit_not_dot, IH.
Qed.

Lemma contains_dot_app (a b : string) :
  contains_dot (a ++ String "."%char b) = true.
Proof.
  induction a as [|c a IH]; simpl; auto.
  rewrite IH. apply orb_true_r.
Qed.

Lemma readIdentifier_shape (l : Lexer) (lit : string) (l' : Lexer) :
  lexer_ok l -> isLetter (ch l) = true ->
  readIdentifier l = Some (lit, l') ->
  lit <> EmptyString /\ string_forallb isLetter lit = true
  /\ isLetter (ch l') = false.
Proof.
  intros Hok Hc H.
  pose proof (readIdentifier_text l lit l' Hok Hc H) as ->.
  revert H. unfold readIdentifier. cbv zeta.
  destruct (readWhile_ok isLetter (loop_bound l) l Hok) as (H1 & H2 & H3).
  pose proof (readWhile_advances isLetter l Hok Hc) as H4.
  pose proof (cond_true_in_range isLetter isLetter_NUL l Hok Hc) as H5.
  pose proof (readWhile_in_range isLetter isLetter_NUL (loop_bound l) l Hok
                ltac:(lia)) as H6.
  pose proof (readWhile_stops isLetter isLetter_NUL l) as H7.
  pose proof (readWhile_all isLetter (loop_bound l) l Hok) as H8.
  rewrite slice_in_range by (rewrite ?H2; lia).
  generalize dependent (readWhile isLetter (loop_bound l) l).
  intros l1 _ _ H3 H4 H6 H7 H8 [= _ <-].
  split; [|split]; auto.
  - now apply substring_not_empty.
  - apply string_forallb_substring; [|lia].
    intros i Hlo Hhi. apply H8; lia.
Qed.

Lemma readNumber_shape (l : Lexer) (lit : string) (l' : Lexer) :
  lexer_ok l -> isDigit (ch l) = true ->
  readNumber l = Some (lit, l') ->
  isDigit (ch l') = false
  /\ ((lit <> EmptyString /\ string_forallb isDigit lit = true
       /\ ch l' <> "."%char)
      \/ exists a b,
           lit = (a ++ String "."%char b)%string /\ a <> EmptyString
           /\ string_forallb isDigit a = true
           /\ string_forallb isDigit b = true).
Proof.
  intros Hok Hc H.
  pose proof (readNumber_text l lit l' Hok Hc H) as ->.
  revert H. unfold readNumber. cbv zeta.
  destruct (readWhile_ok isDigit (loop_bound l) l Hok) as (H1 & H2 & H3).
  pose proof (readWhile_advances isDigit l Hok Hc) as H4.
  pose proof (cond_true_in_range isDigit isDigit_NUL l Hok Hc) as H5.
  pose proof (readWhile_in_range isDigit isDigit_NUL (loop_bound l) l Hok
                ltac:(lia)) as H6.
  pose proof (readWhile_stops isDigit isDigit_NUL l) as H7.
  pose proof (readWhile_all isDigit (loop_bound l) l Hok) as H8.
  generalize dependent (readWhile isDigit (loop_bound l) l).
  intros l1 H1 H2 H3 H4 H6 H7 H8.
  destruct (Ascii.eqb (ch l1) "."%char) eqn:Edot.
  - assert (Hl1 : position l1 < String.length (input l)).
    { rewrite <- H2. apply ch_not_NUL_in_range; auto.
      intros E. rewrite E in Edot. discriminate. }
    assert (P2 : position (readChar l1) = S (position l1))
      by (apply readChar_position; assumption).
    destruct (readWhile_ok isDigit (loop_bound (readChar l1)) (readChar l1)
                (readChar_ok l1)) as (K1 & K2 & K3).
    pose proof (readWhile_in_range isDigit isDigit_NUL
                  (loop_bound (readChar l1)) (readChar l1)
                  (readChar_ok l1)) as K4.
    pose proof (readWhile_stops isDigit isDigit_NUL (readChar l1)) as K7.
    pose proof (readWhile_all isDigit (loop_bound (readChar l1))
                  (readChar l1) (readChar_ok l1)) as K8.
    change (input (readChar l1)) with (input l1) in K2, K4, K8.
    rewrite H2 in K2, K4, K8. rewrite P2 in K3, K4, K8.
    specialize (K4 ltac:(lia)).
    generalize dependent
      (readWhile isDigit (loop_bound (readChar l1)) (readChar l1)).
    intros l2 K1 K2 K3 K4 K7 K8.
    rewrite slice_in_range by (rewrite ?K2; lia).
    intros [= _ <-]. split; [exact K7|]. right.
    exists (String.substring (position l) (position l1 - position l)
              (input l)),
           (String.substring (S (position l1))
              (position l2 - S (position l1)) (input l)).
    split; [|split; [|split]].
    + replace (position l2 - position l)
        with ((position l1 - position l) + (position l2 - position l1))
        by lia.
      rewrite substring_split by lia. f_equal.
      replace (position l + (position l1 - position l))
        with (position l1) by lia.
      replace (position l2 - position l1)
        with (S (position l2 - S (position l1))) by lia.
      rewrite substring_cons by lia. f_equal.
      apply Ascii.eqb_eq in Edot. rewrite <- Edot.
      destruct H1 as [_ ->]. now rewrite H2.
    + now apply substring_not_empty; lia.
    + apply string_forallb_substring; [|lia].
      intros i Hlo Hhi. apply H8; lia.
    + apply string_forallb_substring; [|lia].
      intros i Hlo Hhi. apply K8; lia.
  - rewrite slice_in_range by (rewrite ?H2; lia).
    intros [= _ <-]. split; [exact H7|]. left.
    split; [|split].
    + now apply substring_not_empty.
    + apply string_forallb_substring; [|lia].
      intros i Hlo Hhi. apply H8; lia.
    + intros E. rewrite E in Edot. discriminate.
Qed.

(** The three ways [NextToken] makes a token. *)
Lemma NextToken_cases (l : Lexer) (tok : Token) (l' : Lexer) :
  NextToken l = Some (tok, l') ->
  (isLetter (ch (skipWhitespace l)) = true
   /\ readIdentifier (skipWhitespace l) = Some (Literal tok, l')
   /\ Type_ tok = lookupIdent (Literal tok))
  \/ (isDigit (ch (skipWhitespace l)) = true
      /\ readNumber (skipWhitespace l) = Some (Literal tok, l')
      /\ Type_ tok = if contains_dot (Literal tok) then FLOAT else INT)
  \/ In (Type_ tok)
       [LPAREN; RPAREN; LBRACE; RBRACE; COMMA; SEMICOLON; MUL; SUB; ADD;
        DIV; LT; GT; EQ; ASSIGN; NOT_EQ; NOT; AND; OR; MOD; STRING; EOF;
        ILLEGAL].
Proof.
  unfold NextToken, single, double.
  set (l1 := skipWhitespace l).
  repeat match goal with
  | |- context [if Ascii.eqb ?a ?b then _ else _] =>
      destruct (Ascii.eqb a b)
  end;
  try (intros [= <- _]; right; right; in_list).
  - destruct (readString l1) as [[lit l2]|]; [|discriminate].
    intros [= <- _]; right; right; in_list.
  - destruct (isLetter (ch l1)) eqn:EL.
    { destruct (readIdentifier l1) as [[lit l2]|]; [|discriminate].
      intros [= <- <-]. left. auto. }
    destruct (isDigit (ch l1)) eqn:ED.
    { destruct (readNumber l1) as [[lit l2]|]; [|discriminate].
      destruct (contains_dot lit) eqn:Ec; intros [= <- <-]; right; left;
        simpl; rewrite Ec; auto. }
    intros [= <- _]; right; right; in_list.
Qed.

Lemma parse_digits_decimal (s : string) (acc : Z) :
  string_forallb isDigit s = true ->
  parse_digits s acc = Some (decimal_from acc s).
Proof.
  revert acc; induction s as [|c s IH]; intros acc H; simpl in *; auto.
  apply andb_true_iff in H as [H1 H2]. rewrite H1. now apply IH.
Qed.

Lemma ParseInt_digits (s : string) :
  s <> EmptyString -> string_forallb isDigit s = true ->
  ParseInt s
  = if (decimal s <? 2 ^ 63)%Z then Some (decimal s) else None.
Proof.
  intros Hne H. destruct s as [|c s]; [contradiction|].
  unfold ParseInt.
  assert (Hc : isDigit c = true).
  { simpl in H. now apply andb_true_iff in H as [H _]. }
  assert (Ep : Ascii.eqb c "+"%char = false).
  { destruct (Ascii.eqb c "+"%char) eqn:E; auto.
    apply Ascii.eqb_eq in E. subst c. discriminate. }
  assert (Em : Ascii.eqb c "-"%char = false).
  { destruct (Ascii.eqb c "-"%char) eqn:E; auto.
    apply Ascii.eqb_eq in E. subst c. discriminate. }
  rewrite Ep, Em. cbv zeta. cbn [orb].
  rewrite parse_digits_decimal by assumption. reflexivity.
Qed.

(** X4.  An [INT] token of the lexer is a non-empty run of decimal
    digits that ends where the input has no further digit and no dot;
    [strconv.ParseInt] gives its decimal value and refuses it only from
    2^63 on. *)
Theorem INT_token_is_a_maximal_run_of_digits :
  forall (l : Lexer) (tok : Token) (l' : Lexer),
    lexer_ok l ->
    NextToken l = Some (tok, l') ->
    Type_ tok = INT ->
    Literal tok <> EmptyString
    /\ string_forallb isDigit (Literal tok) = true
    /\ isDigit (ch l') = false /\ ch l' <> "."%char
    /\ ParseInt (Literal tok)
       = if (decimal (Literal tok) <? 2 ^ 63)%Z
         then Some (decimal (Literal tok)) else None.
Proof.
  intros l tok l' Hok H Hty.
  destruct (skipWhitespace_ok l Hok) as (Hok1 & _ & _).
  destruct (NextToken_cases l tok l' H) as [(_ & _ & E)|[(Hd & Hr & E)|E]].
  - pose proof (lookupIdent_range (Literal tok)) as R.
    rewrite <- E, Hty in R. simpl in R.
    repeat (destruct R as [R|R]; [discriminate|]). contradiction.
  - destruct (readNumber_shape _ _ _ Hok1 Hd Hr)
      as (Hstop & [(A & B & C)|(a & b & Ea & _)]).
    + repeat split; auto. now apply ParseInt_digits.
    + rewrite Ea, contains_dot_app, Hty in E. discriminate.
  - rewrite Hty in E. simpl in E.
    repeat (destruct E as [E|E]; [discriminate|]). contradiction.
Qed.

(** X5.  A [FLOAT] token of the lexer is a non-empty run of digits, one
    dot and a run of digits that may be empty, and ends where the input
    has no further digit. *)
Theorem FLOAT_token_is_digits_dot_digits :
  forall (l : Lexer) (tok : Token) (l' : Lexer),
    lexer_ok l ->
    NextToken l = Some (tok, l') ->
    Type_ tok = FLOAT ->
    isDigit (ch l') = false
    /\ exists a b,
         Literal tok = (a ++ String "."%char b)%string
         /\ a <> EmptyString
         /\ string_forallb isDigit a = true
         /\ string_forallb isDigit b = true.
Proof.
  intros l tok l' Hok H Hty.
  destruct (skipWhitespace_ok l Hok) as (Hok1 & _ & _).
  destruct (NextToken_cases l tok l' H) as [(_ & _ & E)|[(Hd & Hr & E)|E]].
  - pose proof (lookupIdent_range (Literal tok)) as R.
    rewrite <- E, Hty in R. simpl in R.
    repeat (destruct R as [R|R]; [discriminate|]). contradiction.
  - destruct (readNumber_shape _ _ _ Hok1 Hd Hr)
      as (Hstop & [(A & B & C)|Hex]).
    + rewrite (contains_dot_digits _ B), Hty in E. discriminate.
    + auto.
  - rewrite Hty in E. simpl in E.
    repeat (destruct E as [E|E]; [discriminate|]). contradiction.
Qed.

(** X6.  A token whose kind is [IDENT] or one of the keyword kinds is a
    non-empty run of letters and underscores that ends where the input
    has no further one, and its kind is what [lookupIdent] gives for its
    text. *)
Theorem name_token_is_a_maximal_run_of_letters :
  forall (l : Lexer) (tok : Token) (l' : Lexer),
    lexer_ok l ->
    NextToken l = Some (tok, l') ->
    In (Type_ tok)
       [IDENT; IF; ELSE; TYPE; RETURN; FUNC; TYPEOF; LOOP; WHILE; FOR; IN;
        BOOL; NIL; BREAK; CONTINUE] ->
    Literal tok <> EmptyString
    /\ string_forallb isLetter (Literal tok) = true
    /\ isLetter (ch l') = false
    /\ Type_ tok = lookupIdent (Literal tok).
Proof.
  intros l tok l' Hok H Hty.
  destruct (skipWhitespace_ok l Hok) as (Hok1 & _ & _).
  destruct (NextToken_cases l tok l' H) as [(Hl & Hr & E)|[(_ & _ & E)|E]].
  - destruct (readIdentifier_shape _ _ _ Hok1 Hl Hr) as (A & B & C).
    auto.
  - exfalso. destruct (contains_dot (Literal tok)); rewrite E in Hty;
      simpl in Hty;
      repeat (destruct Hty as [Hty|Hty]; [discriminate|]); contradiction.
  - exfalso. simpl in Hty, E.
    repeat (destruct E as [E|E];
            [rewrite <- E in Hty;
             repeat (destruct Hty as [Hty|Hty]; [discriminate|]);
             contradiction|]).
    contradiction.
Qed.

(** ** The lexer behind a prefix *)

Lemma lexer_ok_at (l : Lexer) :
  lexer_ok l -> l = lexer_at (input l) (position l).
Proof.
  destruct l as [s i r c]. unfold lexer_ok, lexer_at. simpl.
  intros [-> ->]. reflexivity.
Qed.

Lemma lexer_at_ok (s : string) (i : nat) : lexer_ok (lexer_at s i).
Proof. split; reflexivity. Qed.

Lemma input_at (s : string) (i : nat) : input (lexer_at s i) = s.
Proof. reflexivity. Qed.

Lemma position_at (s : string) (i : nat) : position (lexer_at s i) = i.
Proof. reflexivity. Qed.

Lemma ch_at (s : string) (i : nat) : ch (lexer_at s i) = byte_at s i.
Proof. reflexivity. Qed.

Lemma readChar_at (s : string) (i : nat) :
  readChar (lexer_at s i) = lexer_at s (S i).
Proof.
  unfold readChar, lexer_at. simpl. f_equal.
  destruct (String.length s <=? S i) eqn:E; auto.
  apply Nat.leb_le in E. now rewrite byte_at_past_end.
Qed.

Lemma peekChar_at (s : string) (i : nat) :
  peekChar (lexer_at s i) = byte_at s (S i).
Proof.
  unfold peekChar, lexer_at. simpl.
  destruct (String.length s <=? S i) eqn:E; auto.
  apply Nat.leb_le in E. now rewrite byte_at_past_end.
Qed.

Lemma NewLexer_at (s : string) : NewLexer s = lexer_at s 0.
Proof.
  unfold NewLexer, readChar, lexer_at. simpl. f_equal.
  destruct (String.length s <=? 0) eqn:E; auto.
  apply Nat.leb_le in E. now rewrite byte_at_past_end.
Qed.

Lemma loop_bound_at (s : string) (i : nat) :
  loop_bound (lexer_at s i) = S (String.length s - S i).
Proof. reflexivity. Qed.

Lemma substring_behind (pre s : string) (a n : nat) :
  String.substring (String.length pre + a) n (pre ++ s)
  = String.substring a n s.
Proof. induction pre as [|c pre IH]; simpl; auto. Qed.

Lemma slice_behind (pre s : string) (a b : nat) :
  slice (pre ++ s) (String.length pre + a) (String.length pre + b)
  = slice s a b.
Proof.
  unfold slice. rewrite length_app.
  replace (String.length pre + b - (String.length pre + a)) with (b - a)
    by lia.
  rewrite substring_behind.
  replace (String.length pre + a <=? String.length pre + b) with (a <=? b).
  2:{ destruct (Nat.leb_spec a b), (Nat.leb_spec (String.length pre + a)
        (String.length pre + b)); auto; lia. }
  replace (String.length pre + b <=? String.length pre + String.length s)
    with (b <=? String.length s).
  2:{ destruct (Nat.leb_spec b (String.length s)),
        (Nat.leb_spec (String.length pre + b)
           (String.length pre + String.length s)); auto; lia. }
  reflexivity.
Qed.

Lemma readWhile_S (cond : ascii -> bool) (n : nat) (l : Lexer) :
  readWhile cond (S n) l
  = if cond (ch l) then readWhile cond n (readChar l) else l.
Proof. reflexivity. Qed.

Section Behind.

Variable pre : string.
Variable s : string.

Lemma loop_bound_behind (i : nat) :
  loop_bound (lexer_at (pre ++ s) (String.length pre + i)) = loop_bound (lexer_at s i).
Proof.
  rewrite !loop_bound_at, length_app. f_equal. lia.
Qed.

Lemma readChar_behind (i : nat) :
  readChar (lexer_at (pre ++ s) (String.length pre + i)) = lexer_at (pre ++ s) (String.length pre + S i).
Proof. rewrite readChar_at. f_equal. lia. Qed.

Lemma ch_behind (i : nat) :
  ch (lexer_at (pre ++ s) (String.length pre + i)) = ch (lexer_at s i).
Proof. rewrite !ch_at. apply byte_at_app_right. Qed.

Lemma peekChar_behind (i : nat) :
  peekChar (lexer_at (pre ++ s) (String.length pre + i)) = peekChar (lexer_at s i).
Proof.
  rewrite !peekChar_at. replace (S (String.length pre + i)) with (String.length pre + S i) by lia.
  apply byte_at_app_right.
Qed.

Lemma readWhile_at (cond : ascii -> bool) (n i : nat) :
  exists j, readWhile cond n (lexer_at s i) = lexer_at s j.
Proof.
  destruct (readWhile_ok cond n (lexer_at s i) (lexer_at_ok s i))
    as (H1 & H2 & _).
  exists (position (readWhile cond n (lexer_at s i))).
  rewrite (lexer_ok_at _ H1) at 1. now rewrite H2.
Qed.

Lemma readWhile_behind (cond : ascii -> bool) (n i : nat) :
  readWhile cond n (lexer_at (pre ++ s) (String.length pre + i))
  = shift pre (readWhile cond n (lexer_at s i)).
Proof.
  revert i; induction n as [|n IH]; intros i.
  - reflexivity.
  - rewrite !readWhile_S, ch_behind. destruct (cond (ch (lexer_at s i))); [|reflexivity].
    rewrite readChar_behind, readChar_at. apply IH.
Qed.

Lemma readString_loop_at (n i : nat) :
  exists j, readString_loop n (lexer_at s i) = lexer_at s j.
Proof.
  revert i; induction n as [|n IH]; intros i.
  - now exists i.
  - rewrite readString_loop_S, readChar_at.
    destruct (string_end (ch (lexer_at s (S i)))); [now exists (S i)|].
    apply IH.
Qed.

Lemma readString_loop_behind (n i : nat) :
  readString_loop n (lexer_at (pre ++ s) (String.length pre + i))
  = shift pre (readString_loop n (lexer_at s i)).
Proof.
  revert i; induction n as [|n IH]; intros i.
  - reflexivity.
  - rewrite !readString_loop_S, readChar_behind, readChar_at, ch_behind.
    destruct (string_end (ch (lexer_at s (S i)))); [reflexivity|].
    apply IH.
Qed.

Lemma single_behind (t : TokenType) (i : nat) :
  single t (lexer_at (pre ++ s) (String.length pre + i))
  = shifted pre (single t (lexer_at s i)).
Proof.
  unfold single, shifted.
  now rewrite ch_behind, readChar_behind, readChar_at.
Qed.

Lemma double_behind (second : ascii) (two one : TokenType) (i : nat) :
  double second two one (lexer_at (pre ++ s) (String.length pre + i))
  = shifted pre (double second two one (lexer_at s i)).
Proof.
  unfold double. rewrite peekChar_behind.
  destruct (Ascii.eqb (peekChar (lexer_at s i)) second);
    [|apply single_behind].
  unfold shifted.
  now rewrite !readChar_behind, !readChar_at, !ch_behind.
Qed.

Lemma readIdentifier_behind (i : nat) :
  readIdentifier (lexer_at (pre ++ s) (String.length pre + i))
  = shifted pre (readIdentifier (lexer_at s i)).
Proof.
  unfold readIdentifier. cbv zeta.
  rewrite loop_bound_behind, readWhile_behind.
  destruct (readWhile_at isLetter (loop_bound (lexer_at s i)) i) as [j ->].
  unfold shift. rewrite !input_at, !position_at.
  rewrite slice_behind. now destruct (slice s i j).
Qed.

Lemma readNumber_behind (i : nat) :
  readNumber (lexer_at (pre ++ s) (String.length pre + i))
  = shifted pre (readNumber (lexer_at s i)).
Proof.
  unfold readNumber. cbv zeta.
  rewrite loop_bound_behind, readWhile_behind.
  destruct (readWhile_at isDigit (loop_bound (lexer_at s i)) i) as [j ->].
  unfold shift. rewrite !input_at, !position_at, !ch_behind.
  destruct (Ascii.eqb (ch (lexer_at s j)) "."%char).
  - rewrite readChar_behind, readChar_at.
    rewrite loop_bound_behind, readWhile_behind.
    destruct (readWhile_at isDigit (loop_bound (lexer_at s (S j))) (S j))
      as [k ->].
    unfold shift. rewrite !input_at, !position_at.
    rewrite slice_behind. now destruct (slice s i k).
  - rewrite !input_at, !position_at.
    rewrite slice_behind. now destruct (slice s i j).
Qed.

Lemma readString_behind (i : nat) :
  readString (lexer_at (pre ++ s) (String.length pre + i))
  = shifted pre (readString (lexer_at s i)).
Proof.
  unfold readString. cbv zeta.
  rewrite loop_bound_behind, readString_loop_behind.
  destruct (readString_loop_at (loop_bound (lexer_at s i)) i) as [j ->].
  unfold shift. rewrite !input_at, !position_at.
  replace (String.length pre + i + 1) with (String.length pre + (i + 1)) by lia.
  rewrite slice_behind. now destruct (slice s (i + 1) j).
Qed.

Lemma NextToken_behind (i : nat) :
  NextToken (lexer_at (pre ++ s) (String.length pre + i))
  = shifted pre (NextToken (lexer_at s i)).
Proof.
  unfold NextToken, skipWhitespace.
  rewrite loop_bound_behind, readWhile_behind.
  destruct (readWhile_at isSpace (loop_bound (lexer_at s i)) i) as [j ->].
  unfold shift. rewrite input_at, position_at.
  rewrite ch_behind.
  repeat match goal with
  | |- (if Ascii.eqb ?c ?d then _ else _) = _ =>
      destruct (Ascii.eqb c d);
      [ first [ apply single_behind | apply double_behind | idtac ] | ]
  end.
  - rewrite readString_behind.
    destruct (readString (lexer_at s j)) as [[lit l1]|] eqn:E;
      [|reflexivity].
    simpl. do 2 f_equal.
    destruct (readString_loop_at (loop_bound (lexer_at s j)) j) as [k Ek].
    unfold readString in E. cbv zeta in E. rewrite Ek in E.
    destruct (slice (input (lexer_at s k)) (position (lexer_at s j) + 1)
                (position (lexer_at s k))); [|discriminate].
    injection E as _ <-.
    unfold shift. rewrite input_at, position_at.
    now rewrite readChar_behind, readChar_at.
  - unfold shifted. now rewrite readChar_behind, readChar_at.
  - destruct (isLetter (ch (lexer_at s j))).
    { rewrite readIdentifier_behind.
      now destruct (readIdentifier (lexer_at s j)) as [[lit l1]|]. }
    destruct (isDigit (ch (lexer_at s j))).
    { rewrite readNumber_behind.
      destruct (readNumber (lexer_at s j)) as [[lit l1]|]; [|reflexivity].
      simpl. now destruct (contains_dot lit). }
    apply single_behind.
Qed.

End Behind.

Lemma shift_ok (pre : string) (l : Lexer) : lexer_ok (shift pre l).
Proof. apply lexer_at_ok. Qed.

Lemma NextToken_shifted (pre : string) (l : Lexer) :
  lexer_ok l -> NextToken (shift pre l) = shifted pre (NextToken l).
Proof.
  intros Hok. rewrite (lexer_ok_at l Hok) at 2.
  apply NextToken_behind.
Qed.

Lemma tokens_shifted (pre : string) (n : nat) (l : Lexer) :
  lexer_ok l -> tokens n (shift pre l) = tokens n l.
Proof.
  revert l; induction n as [|n IH]; intros l Hok; simpl; auto.
  rewrite NextToken_shifted by assumption.
  destruct (NextToken_step l Hok) as (tok & l1 & -> & H1 & _).
  simpl. now rewrite IH.
Qed.

(** X7.  The lexer does not look back: with any text put in front of
    the input, the lexer at the same place of the old input gives the
    same token and is at the same place afterwards; so it gives the same
    tokens from there on. *)
Theorem NextToken_behind_a_prefix :
  forall (pre : string) (l : Lexer),
    lexer_ok l ->
    NextToken (shift pre l) = shifted pre (NextToken l)
    /\ forall n, tokens n (shift pre l) = tokens n l.
Proof.
  intros pre l Hok. split.
  - now apply NextToken_shifted.
  - intros n. now apply tokens_shifted.
Qed.

Lemma skipWhitespace_idempotent (l : Lexer) :
  skipWhitespace (skipWhitespace l) = skipWhitespace l.
Proof.
  unfold skipWhitespace at 1. apply readWhile_false, skipWhitespace_stops.
Qed.

Lemma skipWhitespace_readChar (l : Lexer) :
  lexer_ok l -> isSpace (ch l) = true ->
  skipWhitespace l = skipWhitespace (readChar l).
Proof.
  intros Hok Hc.
  pose proof (cond_true_in_range isSpace isSpace_NUL l Hok Hc) as Hlt.
  destruct Hok as [Hrp Hch].
  unfold skipWhitespace, loop_bound. simpl readWhile at 1. rewrite Hc.
  change (input (readChar l)) with (input l).
  change (readPosition (readChar l)) with (S (readPosition l)).
  destruct (Nat.eq_dec (String.length (input l)) (readPosition l))
    as [E|E].
  - rewrite E, Nat.sub_diag.
    replace (readPosition l - S (readPosition l)) with 0 by lia.
    rewrite readWhile_S, readChar_ch, byte_at_past_end by lia.
    reflexivity.
  - f_equal. lia.
Qed.

Lemma NextToken_skipWhitespace (l : Lexer) :
  NextToken (skipWhitespace l) = NextToken l.
Proof. unfold NextToken. now rewrite skipWhitespace_idempotent. Qed.

Lemma skipWhitespace_leading (ws s : string) :
  string_forallb isSpace ws = true ->
  forall i, i <= String.length ws ->
    skipWhitespace (lexer_at (ws ++ s) (String.length ws - i))
    = skipWhitespace (lexer_at (ws ++ s) (String.length ws)).
Proof.
  intros Hws. induction i as [|i IH]; intros Hi.
  - now rewrite Nat.sub_0_r.
  - rewrite skipWhitespace_readChar.
    + rewrite readChar_at.
      replace (S (String.length ws - S i)) with (String.length ws - i)
        by lia.
      apply IH. lia.
    + apply lexer_at_ok.
    + rewrite ch_at, byte_at_app_left by lia.
      apply string_forallb_byte_at; auto. lia.
Qed.

(** X8.  White space in front of a source changes none of its tokens. *)
Theorem leading_white_space_is_ignored :
  forall (ws s : string) (n : nat),
    string_forallb isSpace ws = true ->
    tokens n (NewLexer (ws ++ s)) = tokens n (NewLexer s).
Proof.
  intros ws s n Hws. rewrite !NewLexer_at.
  destruct n as [|n]; [reflexivity|]. simpl.
  rewrite <- (NextToken_skipWhitespace (lexer_at (ws ++ s) 0)).
  pose proof (skipWhitespace_leading ws s Hws (String.length ws)
                (Nat.le_refl _)) as E.
  rewrite Nat.sub_diag in E. rewrite E.
  rewrite NextToken_skipWhitespace.
  replace (String.length ws) with (String.length ws + 0) by lia.
  rewrite NextToken_behind.
  destruct (NextToken_step (lexer_at s 0) (lexer_at_ok s 0))
    as (tok & l1 & -> & H1 & _).
  simpl. now rewrite tokens_shifted.
Qed.

(* ================================================================== *)
(** * More on the parser *)
(* ================================================================== *)

(** ** The tokens before the parser *)

Lemma bind_get {B : Type} (k : Parser -> M B) (p : Parser) :
  bind get k p = k p p.
Proof. reflexivity. Qed.

Lemma bind_ret {A B : Type} (a : A) (k : A -> M B) (p : Parser) :
  bind (ret a) k p = k a p.
Proof. reflexivity. Qed.

(** Deciding the comparisons of token kinds that are known. *)
Ltac kinds :=
  repeat match goal with
  | |- context [TokenType_eqb ?a ?b] =>
      let v := eval vm_compute in (TokenType_eqb a b) in
      match v with
      | true => change (TokenType_eqb a b) with true
      | false => change (TokenType_eqb a b) with false
      end
  end;
  cbn [negb andb orb].

Lemma tokens_S (n : nat) (l : Lexer) :
  tokens (S n) l
  = match NextToken l with
    | Some (t, l1) =>
        match tokens n l1 with
        | Some ts => Some (t :: ts)
        | None => None
        end
    | None => None
    end.
Proof. reflexivity. Qed.

Lemma tokens_length (n : nat) (l : Lexer) (ts : list Token) :
  tokens n l = Some ts -> List.length ts = n.
Proof.
  revert l ts; induction n as [|n IH]; intros l ts; simpl.
  - now intros [= <-].
  - destruct (NextToken l) as [[t l1]|]; [|discriminate].
    destruct (tokens n l1) as [ts'|] eqn:E; [|discriminate].
    intros [= <-]. simpl. f_equal. eauto.
Qed.

Lemma sees_ok (p : Parser) (ts : list Token) : sees p ts -> parser_ok p.
Proof. now intros [H _]. Qed.

Lemma sees_cur (p : Parser) (a : Token) (ts : list Token) :
  sees p (a :: ts) -> curToken p = a.
Proof.
  intros [_ H]. unfold stream in H.
  destruct (tokens _ _) as [xs|]; [|discriminate].
  simpl in H. now injection H.
Qed.

Lemma sees_peek (p : Parser) (a b : Token) (ts : list Token) :
  sees p (a :: b :: ts) -> peekToken p = b.
Proof.
  intros [_ H]. unfold stream in H.
  destruct (tokens _ _) as [xs|]; [|discriminate].
  simpl in H. now injection H.
Qed.

Lemma sees_peek2 (p : Parser) (a b c : Token) (ts : list Token) :
  sees p (a :: b :: c :: ts) -> peekPeek p = c.
Proof.
  intros [_ H]. unfold stream in H.
  destruct (tokens _ _) as [xs|]; [|discriminate].
  simpl in H. now injection H.
Qed.

(** [nextToken] moves the parser one token on. *)
Lemma sees_nextToken (p : Parser) (a : Token) (ts : list Token) :
  sees p (a :: ts) ->
  exists p',
    nextToken p = Ok (tt, p') /\ errors p' = errors p /\ sees p' ts.
Proof.
  intros [Hok H].
  destruct (NextToken_step (lexer p) Hok) as (t & l1 & E & Hok1 & _).
  unfold nextToken. rewrite E. eexists. split; [reflexivity|].
  split; [reflexivity|]. split; [exact Hok1|].
  unfold stream in *. cbn [lexer curToken peekToken peekPeek].
  destruct ts as [|b [|c [|d ts]]].
  - reflexivity.
  - simpl in *. injection H as _ <-. reflexivity.
  - simpl in *. injection H as _ <- <-. reflexivity.
  - cbn [List.length] in *.
    replace (S (S (S (S (List.length ts)))) - 3) with (S (List.length ts))
      in H by lia.
    replace (S (S (S (List.length ts))) - 3) with (List.length ts) by lia.
    rewrite tokens_S, E in H.
    destruct (tokens (List.length ts) l1) as [xs|]; [|discriminate].
    cbn [firstn] in *. injection H as _ <- <- <- H. now rewrite H.
Qed.

Lemma sees_expectPeek (t : TokenType) (p : Parser) (a b : Token)
  (ts : list Token) :
  sees p (a :: b :: ts) -> Type_ b = t ->
  exists p',
    expectPeek t p = Ok (true, p') /\ errors p' = errors p
    /\ sees p' (b :: ts).
Proof.
  intros Hs Ht.
  destruct (sees_nextToken p a _ Hs) as (p' & E & He & Hs').
  exists p'. split; [|auto].
  apply expectPeek_hit; auto.
  unfold peekTokenIs. rewrite (sees_peek _ _ _ _ Hs).
  now apply TokenType_eqb_eq.
Qed.

Lemma sees_peekTokenIs (p : Parser) (a b : Token) (ts : list Token)
  (t : TokenType) :
  sees p (a :: b :: ts) ->
  peekTokenIs t p = TokenType_eqb (Type_ b) t.
Proof. intros H. unfold peekTokenIs. now rewrite (sees_peek _ _ _ _ H). Qed.

Lemma sees_curTokenIs (p : Parser) (a : Token) (ts : list Token)
  (t : TokenType) :
  sees p (a :: ts) -> curTokenIs t p = TokenType_eqb (Type_ a) t.
Proof. intros H. unfold curTokenIs. now rewrite (sees_cur _ _ _ H). Qed.

(** ** Parameter lists *)

Lemma parseParameter_well_formed (p : Parser) (tn : Token * Token)
  (ts : list Token) :
  param_ok tn ->
  sees p (fst tn :: snd tn :: ts) ->
  exists p',
    parseParameter p = Ok (Some (param_of tn), p')
    /\ errors p' = errors p /\ sees p' (snd tn :: ts).
Proof.
  intros [Hty Hnm] Hs.
  destruct (sees_expectPeek IDENT p _ _ _ Hs Hnm) as (p' & E & He & Hs').
  exists p'. split; [|auto].
  unfold parseParameter. rewrite bind_get.
  rewrite (sees_curTokenIs _ _ _ TYPE Hs), Hty. kinds.
  rewrite (bind_Ok _ _ _ _ _ E). cbn [negb]. rewrite bind_get.
  unfold ret, param_of.
  now rewrite (sees_cur _ _ _ Hs), (sees_cur _ _ _ Hs').
Qed.

(** The turns of the loop: one for each parameter after the first. *)
Lemma parseFunctionParameters_loop_well_formed
  (rest : list (Token * Token)) :
  forall (fuel : nat) (acc : list FnParameter) (p : Parser)
         (a r : Token) (more : list Token),
    Forall param_ok rest ->
    Type_ r = RPAREN ->
    sees p (a :: match rest with
                 | [] => []
                 | _ :: _ => COMMA_token :: param_tokens rest
                 end ++ r :: more) ->
    List.length rest < fuel ->
    exists p' a',
      parseFunctionParameters_loop fuel acc p
      = Ok ((acc ++ map param_of rest)%list, p')
      /\ errors p' = errors p /\ sees p' (a' :: r :: more).
Proof.
  induction rest as [|tn rest IH]; intros fuel acc p a r more Hall Hr Hs Hf;
    (destruct fuel as [|fuel]; [simpl in Hf; lia|]);
    cbn [parseFunctionParameters_loop];
    unfold parseFunctionParameters_loop_body; rewrite bind_get.
  - cbn [app] in Hs. rewrite (sees_peekTokenIs _ _ _ _ COMMA Hs), Hr.
    kinds. exists p, a.
    rewrite app_nil_r. auto.
  - inversion Hall as [|? ? Hok Hall']; subst.
    cbn [param_tokens app] in Hs.
    rewrite (sees_peekTokenIs _ _ _ _ COMMA Hs). cbn [Type_ COMMA_token].
    kinds.
    destruct (sees_nextToken _ _ _ Hs) as (p1 & E1 & He1 & Hs1).
    rewrite (bind_Ok _ _ _ _ _ E1).
    destruct (sees_nextToken _ _ _ Hs1) as (p2 & E2 & He2 & Hs2).
    rewrite (bind_Ok _ _ _ _ _ E2).
    destruct (parseParameter_well_formed p2 tn _ Hok Hs2)
      as (p3 & E3 & He3 & Hs3).
    rewrite (bind_Ok _ _ _ _ _ E3). cbn [append_param].
    destruct (IH fuel (acc ++ [param_of tn])%list p3 (snd tn) r more
                Hall' Hr)
      as (p' & a' & E & He & Hs').
    + exact Hs3.
    + simpl in Hf. lia.
    + exists p', a'. rewrite E. cbn [map].
      rewrite <- app_assoc. cbn [app]. split; [reflexivity|].
      split; [congruence|assumption].
Qed.

Lemma parseFunctionParameters_tokens :
  forall (ps : list (Token * Token)) (fuel : nat) (p : Parser)
         (a r : Token) (more : list Token),
    Forall param_ok ps ->
    Type_ r = RPAREN ->
    sees p (a :: param_tokens ps ++ r :: more) ->
    List.length ps <= fuel ->
    exists p',
      parseFunctionParameters fuel p = Ok (map param_of ps, p')
      /\ errors p' = errors p
      /\ sees p' (r :: more).
Proof.
  intros ps fuel p a r more Hall Hr Hs Hf.
  unfold parseFunctionParameters. rewrite bind_get.
  destruct ps as [|tn rest].
  - cbn [param_tokens app] in Hs.
    rewrite (sees_peekTokenIs _ _ _ _ RPAREN Hs), Hr. kinds.
    destruct (sees_nextToken _ _ _ Hs) as (p1 & E1 & He1 & Hs1).
    rewrite (bind_Ok _ _ _ _ _ E1). exists p1. auto.
  - inversion Hall as [|? ? Hok Hall']; subst.
    cbn [param_tokens app] in Hs.
    rewrite (sees_peekTokenIs _ _ _ _ RPAREN Hs).
    destruct Hok as [Hty Hnm]. rewrite Hty. kinds.
    destruct (sees_nextToken _ _ _ Hs) as (p1 & E1 & He1 & Hs1).
    rewrite (bind_Ok _ _ _ _ _ E1).
    destruct (parseParameter_well_formed p1 tn _ (conj Hty Hnm) Hs1)
      as (p2 & E2 & He2 & Hs2).
    rewrite (bind_Ok _ _ _ _ _ E2). cbn [append_param app].
    destruct (parseFunctionParameters_loop_well_formed rest fuel
                [param_of tn] p2 (snd tn) r more Hall' Hr Hs2)
      as (p3 & a' & E3 & He3 & Hs3).
    { simpl in Hf. lia. }
    rewrite (bind_Ok _ _ _ _ _ E3).
    destruct (sees_expectPeek RPAREN p3 _ _ _ Hs3 Hr)
      as (p4 & E4 & He4 & Hs4).
    rewrite (bind_Ok _ _ _ _ _ E4). cbn [negb].
    exists p4. split; [reflexivity|]. split; [congruence|assumption].
Qed.

(** X9.  On a parameter list of any length, each parameter a type token
    and a name token and a comma between two, [parseFunctionParameters]
    returns the parameters in their order, reports no error and stops on
    the closing parenthesis. *)
Theorem parseFunctionParameters_well_formed :
  forall (ps : list (Token * Token)) (fuel : nat) (p : Parser)
         (a r : Token) (more : list Token),
    Forall param_ok ps ->
    Type_ r = RPAREN ->
    sees p (a :: param_tokens ps ++ r :: more) ->
    List.length ps <= fuel ->
    exists p',
      parseFunctionParameters fuel p = Ok (map param_of ps, p')
      /\ errors p' = errors p
      /\ sees p' (r :: more).
Proof. exact parseFunctionParameters_tokens. Qed.

(** ** Expressions in parentheses *)

Lemma Expression_ind' (P : Expression -> Prop) :
  (forall i, P (IdentifierNode i)) ->
  (forall tok v, P (IntegerLiteral tok v)) ->
  (forall tok v, P (FloatLiteral tok v)) ->
  (forall tok v, P (StringLiteral tok v)) ->
  (forall tok v, P (BooleanLiteral tok v)) ->
  (forall tok, P (NilLiteral tok)) ->
  (forall tok, P (VoidLiteral tok)) ->
  (forall tok op r,
     (forall x, r = Some x -> P x) -> P (PrefixExpression tok op r)) ->
  (forall tok op l r,
     (forall x, l = Some x -> P x) -> (forall x, r = Some x -> P x) ->
     P (InfixExpression tok op l r)) ->
  (forall tok x,
     (forall y, x = Some y -> P y) -> P (TypeOfExpression tok x)) ->
  forall e, P e.
Proof.
  intros H1 H2 H3 H4 H5 H6 H7 H8 H9 H10.
  fix IH 1. intros e. destruct e as [| | | | | | |tok op r|tok op l r|tok x].
  - apply H1.
  - apply H2.
  - apply H3.
  - apply H4.
  - apply H5.
  - apply H6.
  - apply H7.
  - apply H8. intros x Hx. destruct r as [r|]; [|discriminate].
    injection Hx as <-. apply IH.
  - apply H9.
    + intros x Hx. destruct l as [l|]; [|discriminate].
      injection Hx as <-. apply IH.
    + intros x Hx. destruct r as [r|]; [|discriminate].
      injection Hx as <-. apply IH.
  - apply H10. intros y Hy. destruct x as [x|]; [|discriminate].
    injection Hy as <-. apply IH.
Qed.

Lemma parseExpression_S (f q : nat) :
  parseExpression (S f) q
  = parseExpression_body f (parseExpression f) (parseExpression_loop f) q.
Proof. reflexivity. Qed.

Lemma parseExpression_loop_S (f q : nat) (left_ : option Expression) :
  parseExpression_loop (S f) q left_
  = parseExpression_loop_body (parseExpression f) (parseExpression_loop f)
      q left_.
Proof. reflexivity. Qed.

Lemma operator_not_end (t : TokenType) :
  LOWEST < precedence_of t -> t <> SEMICOLON /\ t <> EOF.
Proof.
  intros H. split; intros ->; vm_compute in H; lia.
Qed.

(** The loop of [parseExpression] stops before a token that does not
    bind tighter than the level asked for. *)
Lemma parseExpression_loop_stop (f q : nat) (left_ : option Expression)
  (p : Parser) (a t : Token) (more : list Token) :
  sees p (a :: t :: more) ->
  precedence_of (Type_ t) <= q ->
  parseExpression_loop (S f) q left_ p = Ok (left_, p).
Proof.
  intros Hs Hq. rewrite parseExpression_loop_S.
  unfold parseExpression_loop_body. rewrite bind_get.
  change (peekPrecedence p) with (precedence_of (Type_ (peekToken p))).
  rewrite (sees_peek _ _ _ _ Hs).
  apply Nat.ltb_ge in Hq. rewrite Hq, andb_false_r. reflexivity.
Qed.

(** The loop takes an operator that binds tighter, and its right operand
    at the level of the operator. *)
Lemma parseExpression_loop_go (f q : nat) (left_ : option Expression)
  (p p1 p2 : Parser) (a op : Token) (ts : list Token) :
  sees p (a :: op :: ts) ->
  nextToken p = Ok (tt, p1) ->
  nextToken p1 = Ok (tt, p2) ->
  q < precedence_of (Type_ op) ->
  LOWEST < precedence_of (Type_ op) ->
  parseExpression_loop (S f) q left_ p
  = (right_ <- parseExpression f (precedence_of (Type_ op)) ;;
     parseExpression_loop f q
       (Some (InfixExpression op (Literal op) left_ right_))) p2.
Proof.
  intros Hs E1 E2 Hq Hop.
  destruct (operator_not_end _ Hop) as [Hsemi Heof].
  destruct (nextToken_shift _ _ E1) as (Hc1 & _ & _).
  rewrite parseExpression_loop_S.
  unfold parseExpression_loop_body. rewrite bind_get.
  change (peekPrecedence p) with (precedence_of (Type_ (peekToken p))).
  rewrite !(sees_peekTokenIs _ _ _ _ _ Hs), (sees_peek _ _ _ _ Hs).
  apply TokenType_eqb_neq in Hsemi, Heof. rewrite Hsemi, Heof.
  apply Nat.ltb_lt in Hq. rewrite Hq. cbn [negb andb].
  rewrite (bind_Ok _ _ _ _ _ E1).
  unfold parseInfixExpression. unfold bind at 1. rewrite bind_get.
  cbv zeta. rewrite (bind_Ok _ _ _ _ _ E2).
  change (curPrecedence p1) with (precedence_of (Type_ (curToken p1))).
  rewrite Hc1, (sees_peek _ _ _ _ Hs).
  unfold bind, ret.
  destruct (parseExpression f (precedence_of (Type_ op)) p2)
    as [[r p3]| |]; reflexivity.
Qed.

Lemma expr_of_prefix (e : Expression) (n : nat) :
  prefix_parses e n -> expr_parses e (n + 2).
Proof.
  intros H fuel q p t more Hf Hs Hq.
  destruct fuel as [|[|f]]; try lia.
  destruct (H (S f) p (t :: more) ltac:(lia) Hs) as (p' & E & He & Hs').
  exists p'. split; [|auto].
  rewrite parseExpression_S. unfold parseExpression_body.
  rewrite (bind_Ok _ _ _ _ _ E).
  cbv iota. eapply parseExpression_loop_stop; eassumption.
Qed.

Lemma last_snoc (xs : list Token) (x d : Token) :
  last (xs ++ [x])%list d = x.
Proof. apply last_last. Qed.

Lemma last_prefix_shape (a b : Token) (xs : list Token) (x d : Token) :
  last (a :: b :: xs ++ [x])%list d = x.
Proof. apply (last_last (a :: b :: xs)). Qed.

Lemma last_infix_shape (a b : Token) (xs ys : list Token) (x d : Token) :
  last (a :: xs ++ b :: ys ++ [x])%list d = x.
Proof.
  replace (a :: xs ++ b :: ys ++ [x])%list
    with ((a :: xs ++ b :: ys) ++ [x])%list.
  - apply last_last.
  - cbn [app]. now rewrite <- app_assoc.
Qed.

(** [parsePrefixExpression] on a current token of a known kind that is
    not [ILLEGAL]. *)
Lemma parsePrefixExpression_on (f : nat) (rec : nat -> M (option Expression))
  (p : Parser) (a : Token) (ts : list Token) :
  sees p (a :: ts) -> Type_ a <> ILLEGAL ->
  parsePrefixExpression (S f) rec p
  = match Type_ a with
    | VOID => ret (Some (VoidLiteral a))
    | IDENT => ret (Some (IdentifierNode (mkIdentifier a (Literal a))))
    | INT =>
        match ParseInt (Literal a) with
        | None =>
            addError ("could not parse " ++ quoted (Literal a)
                      ++ " as integer") ;;
            ret None
        | Some value => ret (Some (IntegerLiteral a value))
        end
    | BOOL => parseBooleanLiteral
    | NIL => ret (Some (NilLiteral a))
    | STRING => ret (Some (StringLiteral a (Literal a)))
    | FLOAT =>
        match ParseFloat (Literal a) with
        | None =>
            addError ("could not parse " ++ quoted (Literal a)
                      ++ " as float") ;;
            ret None
        | Some value =>
            nextToken ;;
            ret (Some (FloatLiteral a value))
        end
    | LPAREN =>
        nextToken ;;
        exp <- rec LOWEST ;;
        ok <- expectPeek RPAREN ;;
        if negb ok then ret None else
        ret exp
    | SUB | ADD => parsePrefixOperatorExpression rec
    | TYPEOF => parseTypeofExpression rec
    | _ =>
        (if negb (curTokenIs EOF p)
         then addError ("no prefix parse function for "
                        ++ TokenType_string (Type_ a) ++ " found")
         else ret tt) ;;
        ret None
    end p.
Proof.
  intros Hs Hill. unfold parsePrefixExpression.
  rewrite (bind_Ok _ _ _ _ _ (skipWhitespaceTokens_noop f p
             ltac:(rewrite (sees_curTokenIs _ _ _ ILLEGAL Hs);
                   now apply TokenType_eqb_neq))).
  rewrite bind_get. cbv zeta. rewrite (sees_cur _ _ _ Hs). reflexivity.
Qed.

Lemma complete_parses (e : Expression) :
  complete e -> exists n, prefix_parses e n.
Proof.
  induction e as [i|tok v|tok v|tok v|tok v|tok|tok|tok op r IHr
                 |tok op l r IHl IHr|tok x IHx] using Expression_ind';
    cbn [complete]; intros Hc.
  - (* identifier *)
    destruct i as [tok v]. cbn [ident_Token ident_Value] in Hc.
    destruct Hc as [Hty ->]. exists 1. intros [|f] p more Hf Hs; [lia|].
    cbn [expr_tokens ident_Token app last] in *.
    rewrite (parsePrefixExpression_on f _ p tok more Hs)
      by (rewrite Hty; discriminate).
    rewrite Hty. exists p. auto.
  - (* integer *)
    destruct Hc as [Hty Hv]. exists 1. intros [|f] p more Hf Hs; [lia|].
    cbn [expr_tokens app last] in *.
    rewrite (parsePrefixExpression_on f _ p tok more Hs)
      by (rewrite Hty; discriminate).
    rewrite Hty, Hv. exists p. auto.
  - contradiction.
  - (* string *)
    destruct Hc as [Hty ->]. exists 1. intros [|f] p more Hf Hs; [lia|].
    cbn [expr_tokens app last] in *.
    rewrite (parsePrefixExpression_on f _ p tok more Hs)
      by (rewrite Hty; discriminate).
    rewrite Hty. exists p. auto.
  - (* boolean *)
    destruct Hc as [Hty ->]. exists 1. intros [|f] p more Hf Hs; [lia|].
    cbn [expr_tokens app last] in *.
    rewrite (parsePrefixExpression_on f _ p tok more Hs)
      by (rewrite Hty; discriminate).
    rewrite Hty. unfold parseBooleanLiteral. rewrite bind_get.
    rewrite (sees_cur _ _ _ Hs). exists p. auto.
  - (* nil *)
    exists 1. intros [|f] p more Hf Hs; [lia|].
    cbn [expr_tokens app last] in *.
    rewrite (parsePrefixExpression_on f _ p tok more Hs)
      by (rewrite Hc; discriminate).
    rewrite Hc. exists p. auto.
  - (* void *)
    exists 1. intros [|f] p more Hf Hs; [lia|].
    cbn [expr_tokens app last] in *.
    rewrite (parsePrefixExpression_on f _ p tok more Hs)
      by (rewrite Hc; discriminate).
    rewrite Hc. exists p. auto.
  - (* prefix operator *)
    destruct r as [r|]; [|contradiction].
    destruct Hc as (Hty & -> & Hr).
    destruct (IHr r eq_refl Hr) as [n Hn].
    apply expr_of_prefix in Hn.
    exists (n + 4). intros [|[|f]] p more Hf Hs; try lia.
    cbn [expr_tokens] in *. rewrite last_prefix_shape.
    cbn [app] in Hs. rewrite <- app_assoc in Hs. cbn [app] in Hs.
    rewrite (parsePrefixExpression_on _ _ p _ _ Hs) by discriminate.
    cbn [LPAREN_token Type_].
    destruct (sees_nextToken _ _ _ Hs) as (p1 & E1 & He1 & Hs1).
    rewrite (bind_Ok _ _ _ _ _ E1).
    (* the operator and its operand *)
    assert (Hin : exists p3,
               parseExpression (S (S f)) LOWEST p1
               = Ok (Some (PrefixExpression tok (Literal tok) (Some r)), p3)
               /\ errors p3 = errors p1
               /\ exists a, sees p3 (a :: RPAREN_token :: more)).
    { rewrite parseExpression_S. unfold parseExpression_body.
      destruct (sees_nextToken _ _ _ Hs1) as (p2 & E2 & He2 & Hs2).
      destruct (Hn (S f) PREFIX p2 RPAREN_token more ltac:(lia) Hs2)
        as (p3 & E3 & He3 & Hs3).
      { vm_compute. lia. }
      exists p3. split; [|split; [congruence|eauto]].
      assert (Em : parsePrefixExpression (S f) (parseExpression (S f)) p1
                   = Ok (Some (PrefixExpression tok (Literal tok)
                                 (Some r)), p3)).
      { rewrite (parsePrefixExpression_on _ _ p1 _ _ Hs1)
          by (destruct Hty as [-> | ->]; discriminate).
        destruct Hty as [Hty|Hty]; rewrite Hty;
          unfold parsePrefixOperatorExpression; rewrite bind_get;
          cbv zeta; rewrite (bind_Ok _ _ _ _ _ E2),
            (bind_Ok _ _ _ _ _ E3), (sees_cur _ _ _ Hs1); reflexivity. }
      rewrite (bind_Ok _ _ _ _ _ Em). cbv iota.
      eapply parseExpression_loop_stop; [eassumption|].
      vm_compute. lia. }
    destruct Hin as (p3 & E3 & He3 & a & Hs3).
    rewrite (bind_Ok _ _ _ _ _ E3).
    destruct (sees_expectPeek RPAREN p3 _ _ _ Hs3 eq_refl)
      as (p4 & E4 & He4 & Hs4).
    rewrite (bind_Ok _ _ _ _ _ E4). cbn [negb].
    exists p4. split; [reflexivity|]. split; [congruence|assumption].
  - (* infix operator *)
    destruct l as [l|]; [|contradiction].
    destruct r as [r|]; [|contradiction].
    destruct Hc as (Hop & -> & Hl & Hr).
    destruct (IHl l eq_refl Hl) as [nl Hnl].
    destruct (IHr r eq_refl Hr) as [nr Hnr].
    apply expr_of_prefix in Hnr.
    exists (nl + nr + 4). intros [|[|[|f]]] p more Hf Hs; try lia.
    cbn [expr_tokens] in *. rewrite last_infix_shape.
    cbn [app] in Hs. rewrite <- !app_assoc in Hs. cbn [app] in Hs.
    rewrite <- !app_assoc in Hs. cbn [app] in Hs.
    rewrite (parsePrefixExpression_on _ _ p _ _ Hs) by discriminate.
    cbn [LPAREN_token Type_].
    destruct (sees_nextToken _ _ _ Hs) as (p1 & E1 & He1 & Hs1).
    rewrite (bind_Ok _ _ _ _ _ E1).
    assert (Hin : exists p5,
               parseExpression (S (S (S f))) LOWEST p1
               = Ok (Some (InfixExpression tok (Literal tok) (Some l)
                             (Some r)), p5)
               /\ errors p5 = errors p1
               /\ exists a, sees p5 (a :: RPAREN_token :: more)).
    { rewrite parseExpression_S. unfold parseExpression_body.
      destruct (Hnl (S (S f)) p1 _ ltac:(lia) Hs1)
        as (p2 & E2 & He2 & Hs2).
      rewrite (bind_Ok _ _ _ _ _ E2). cbv iota.
      destruct (sees_nextToken _ _ _ Hs2) as (p2' & E2' & He2' & Hs2').
      destruct (sees_nextToken _ _ _ Hs2') as (p3 & E3 & He3 & Hs3).
      rewrite (parseExpression_loop_go (S f) LOWEST (Some l) p2 p2' p3 _ tok
                 _ Hs2 E2' E3 Hop Hop).
      destruct (Hnr (S f) (precedence_of (Type_ tok)) p3 RPAREN_token more
                  ltac:(lia) Hs3) as (p4 & E4 & He4 & Hs4).
      { vm_compute in Hop |- *. lia. }
      rewrite (bind_Ok _ _ _ _ _ E4).
      exists p4. split; [|split; [congruence|eauto]].
      eapply parseExpression_loop_stop; [eassumption|].
      vm_compute. lia. }
    destruct Hin as (p5 & E5 & He5 & a & Hs5).
    rewrite (bind_Ok _ _ _ _ _ E5).
    destruct (sees_expectPeek RPAREN p5 _ _ _ Hs5 eq_refl)
      as (p6 & E6 & He6 & Hs6).
    rewrite (bind_Ok _ _ _ _ _ E6). cbn [negb].
    exists p6. split; [reflexivity|]. split; [congruence|assumption].
  - (* typeof *)
    destruct x as [x|]; [|contradiction].
    destruct Hc as (Hty & Hx).
    destruct (IHx x eq_refl Hx) as [n Hn].
    apply expr_of_prefix in Hn.
    exists (n + 2). intros [|f] p more Hf Hs; try lia.
    cbn [expr_tokens] in *.
    rewrite last_prefix_shape.
    cbn [app] in Hs. rewrite <- app_assoc in Hs. cbn [app] in Hs.
    rewrite (parsePrefixExpression_on _ _ p _ _ Hs)
      by (rewrite Hty; discriminate).
    rewrite Hty. unfold parseTypeofExpression. rewrite bind_get. cbv zeta.
    destruct (sees_expectPeek LPAREN p _ _ _ Hs eq_refl)
      as (p1 & E1 & He1 & Hs1).
    rewrite (bind_Ok _ _ _ _ _ E1). cbn [negb].
    destruct (sees_nextToken _ _ _ Hs1) as (p2 & E2 & He2 & Hs2).
    rewrite (bind_Ok _ _ _ _ _ E2).
    destruct (Hn (S f) LOWEST p2 RPAREN_token more ltac:(lia) Hs2)
      as (p3 & E3 & He3 & Hs3).
    { vm_compute. lia. }
    rewrite (bind_Ok _ _ _ _ _ E3).
    destruct (sees_expectPeek RPAREN p3 _ _ _ Hs3 eq_refl)
      as (p4 & E4 & He4 & Hs4).
    rewrite (bind_Ok _ _ _ _ _ E4). cbn [negb].
    rewrite (sees_cur _ _ _ Hs).
    exists p4. split; [reflexivity|]. split; [congruence|assumption].
Qed.

(** A result of [parseExpression] at some budget is its result at every
    budget that suffices for the input. *)
Lemma parseExpression_at_budget (n fuel q : nat) (p : Parser)
  (r : option Expression * Parser) :
  parser_ok p -> 2 * togo p + 2 <= fuel ->
  parseExpression n q p = Ok r ->
  parseExpression fuel q p = Ok r.
Proof.
  intros Hok Hf H.
  destruct (Nat.le_ge_cases n fuel) as [Hle|Hge].
  - exact (proj1 (parseExpression_mono n fuel Hle) q p r H).
  - pose proof (parseExpression_spec fuel q p Hok Hf) as Hwp.
    unfold wp in Hwp.
    destruct (parseExpression fuel q p) as [r'| |] eqn:E;
      try contradiction.
    pose proof (proj1 (parseExpression_mono fuel n Hge) q p r' E) as E'.
    congruence.
Qed.

(** X10.  Parsing inverts writing with all parentheses: on the tokens
    of a complete tree, every operator application in parentheses as
    [String()] writes it, [parseExpression] returns that tree, reports
    no error and stops on the last of these tokens, whatever the level
    asked for, when the token that follows binds no tighter than it. *)
Theorem parenthesized_expression_round_trip :
  forall (e : Expression) (q : nat) (p : Parser) (t : Token)
         (more : list Token) (fuel : nat),
    complete e ->
    sees p (expr_tokens e ++ t :: more) ->
    precedence_of (Type_ t) <= q ->
    2 * togo p + 2 <= fuel ->
    exists p',
      parseExpression fuel q p = Ok (Some e, p')
      /\ errors p' = errors p
      /\ sees p' (last (expr_tokens e) zeroToken :: t :: more).
Proof.
  intros e q p t more fuel Hc Hs Hq Hf.
  destruct (complete_parses e Hc) as [n Hn].
  destruct (expr_of_prefix e n Hn (n + 2) q p t more (Nat.le_refl _) Hs Hq)
    as (p' & E & He & Hs').
  exists p'. split; [|auto].
  exact (parseExpression_at_budget _ fuel q p _ (sees_ok _ _ Hs) Hf E).
Qed.

(** ** Precedence and grouping to the left *)

Lemma parseExpression_loop_at_more (f g q : nat)
  (left_ : option Expression) (p : Parser)
  (r : option Expression * Parser) :
  f <= g ->
  parseExpression_loop f q left_ p = Ok r ->
  parseExpression_loop g q left_ p = Ok r.
Proof.
  intros Hle. exact (proj2 (parseExpression_mono f g Hle) q left_ p r).
Qed.

Lemma last_app_cons (xs ys : list Token) (y d : Token) :
  ys <> [] -> last (xs ++ y :: ys)%list d = last ys d.
Proof.
  intros Hne. induction xs as [|x xs IH].
  - destruct ys; [contradiction|reflexivity].
  - cbn [app]. rewrite <- IH.
    destruct (xs ++ y :: ys)%list eqn:E; [|reflexivity].
    destruct xs; discriminate.
Qed.

Lemma infix_tokens_not_nil (e : Expression) : infix_tokens e <> [].
Proof.
  destruct e as [| | | | | | |tok op r|tok op l r|tok x]; try discriminate.
  cbn [infix_tokens]. destruct l as [l|]; [|discriminate].
  destruct (infix_tokens l); discriminate.
Qed.

(** Parsing the tokens of a canonical tree at a level below its own
    comes to the loop of [parseExpression] with that tree in hand. *)
Lemma canonical_parses (e : Expression) :
  canonical e ->
  exists d,
    forall q p t more,
      q < level e ->
      sees p (infix_tokens e ++ t :: more) ->
      precedence_of (Type_ t) <= level e ->
      exists p',
        errors p' = errors p
        /\ sees p' (last (infix_tokens e) zeroToken :: t :: more)
        /\ forall f R,
             parseExpression_loop f q (Some e) p' = Ok R ->
             parseExpression (f + d) q p = Ok R.
Proof.
  revert e.
  assert (Hatom : forall e a,
             (forall ts p, sees p (a :: ts) ->
                forall f,
                  parsePrefixExpression (S f) (parseExpression (S f)) p
                  = Ok (Some e, p)) ->
             infix_tokens e = [a] ->
             exists d,
               forall q p t more,
                 q < level e ->
                 sees p (infix_tokens e ++ t :: more) ->
                 precedence_of (Type_ t) <= level e ->
                 exists p',
                   errors p' = errors p
                   /\ sees p' (last (infix_tokens e) zeroToken :: t :: more)
                   /\ forall f R,
                        parseExpression_loop f q (Some e) p' = Ok R ->
                        parseExpression (f + d) q p = Ok R).
  { intros e a Hp Ht. exists 1. intros q p t more _ Hs _.
    rewrite Ht in *. cbn [app last] in *.
    exists p. split; [reflexivity|]. split; [assumption|].
    intros f R HR. destruct f as [|f]; [discriminate|].
    replace (S f + 1) with (S (S f)) by lia.
    rewrite parseExpression_S. unfold parseExpression_body.
    rewrite (bind_Ok _ _ _ _ _ (Hp _ _ Hs f)). exact HR. }
  intros e.
  induction e as [i|tok v|tok v|tok v|tok v|tok|tok|tok op r IHr
                 |tok op l r IHl IHr|tok x IHx] using Expression_ind';
    cbn [canonical complete]; intros Hc; try contradiction.
  - destruct i as [tok v]. cbn [ident_Token ident_Value] in Hc.
    destruct Hc as [Hty ->]. apply (Hatom _ tok); [|reflexivity].
    intros ts p Hs f.
    rewrite (parsePrefixExpression_on f _ p tok ts Hs)
      by (rewrite Hty; discriminate).
    now rewrite Hty.
  - destruct Hc as [Hty Hv]. apply (Hatom _ tok); [|reflexivity].
    intros ts p Hs f.
    rewrite (parsePrefixExpression_on f _ p tok ts Hs)
      by (rewrite Hty; discriminate).
    now rewrite Hty, Hv.
  - destruct Hc as [Hty ->]. apply (Hatom _ tok); [|reflexivity].
    intros ts p Hs f.
    rewrite (parsePrefixExpression_on f _ p tok ts Hs)
      by (rewrite Hty; discriminate).
    now rewrite Hty.
  - destruct Hc as [Hty ->]. apply (Hatom _ tok); [|reflexivity].
    intros ts p Hs f.
    rewrite (parsePrefixExpression_on f _ p tok ts Hs)
      by (rewrite Hty; discriminate).
    rewrite Hty. unfold parseBooleanLiteral. rewrite bind_get.
    now rewrite (sees_cur _ _ _ Hs).
  - apply (Hatom _ tok); [|reflexivity].
    intros ts p Hs f.
    rewrite (parsePrefixExpression_on f _ p tok ts Hs)
      by (rewrite Hc; discriminate).
    now rewrite Hc.
  - apply (Hatom _ tok); [|reflexivity].
    intros ts p Hs f.
    rewrite (parsePrefixExpression_on f _ p tok ts Hs)
      by (rewrite Hc; discriminate).
    now rewrite Hc.
  - (* an operator application *)
    clear Hatom.
    destruct l as [l|]; [|contradiction].
    destruct r as [r|]; [|contradiction].
    destruct Hc as (Hop & -> & Hll & Hlr & Hl & Hr).
    destruct (IHl l eq_refl Hl) as [dl Hdl].
    destruct (IHr r eq_refl Hr) as [dr Hdr].
    exists (dl + dr + 2). intros q p t more Hq Hs Ht.
    cbn [level] in Hq, Ht. cbn [infix_tokens] in *.
    rewrite <- app_assoc in Hs. cbn [app] in Hs.
    destruct (Hdl q p tok (infix_tokens r ++ t :: more)%list
                ltac:(lia) Hs Hll)
      as (p1 & He1 & Hs1 & K1).
    destruct (sees_nextToken _ _ _ Hs1) as (p1' & E1' & He1' & Hs1').
    destruct (sees_nextToken _ _ _ Hs1') as (p2 & E2 & He2 & Hs2).
    destruct (Hdr (precedence_of (Type_ tok)) p2 t more Hlr Hs2 ltac:(lia))
      as (p3 & He3 & Hs3 & K3).
    exists p3. split; [congruence|]. split.
    + replace (last (infix_tokens l ++ tok :: infix_tokens r) zeroToken)
        with (last (infix_tokens r) zeroToken); [exact Hs3|].
      symmetry. apply last_app_cons, infix_tokens_not_nil.
    + intros f R HR.
      replace (f + (dl + dr + 2)) with (S (S (f + dr)) + dl) by lia.
      apply K1.
      rewrite (parseExpression_loop_go (S (f + dr)) q (Some l) p1 p1' p2 _
                 tok _ Hs1 E1' E2 Hq Hop).
      replace (S (f + dr)) with (S f + dr) by lia.
      rewrite (bind_Ok _ _ _ _ _
                 (K3 _ _ (parseExpression_loop_stop f _ _ p3 _ t more Hs3 Ht))).
      apply (parseExpression_loop_at_more f); [lia|exact HR].
Qed.

(** X11.  Precedence and grouping to the left: on the tokens, written
    without parentheses, of a tree of binary operators over identifiers
    and integer, string, boolean, nil and void literals (no float
    literal, no prefix operator, no typeof) in which every left operand
    binds at least as tight as its operator and every right operand
    tighter, [parseExpression] returns that tree, reports no error and
    stops on the last of these tokens, when the level asked for is below
    the tree's, the token that follows binds no tighter than that level,
    and the budget suffices. *)
Theorem precedence_climbing_is_correct :
  forall (e : Expression) (q : nat) (p : Parser) (t : Token)
         (more : list Token) (fuel : nat),
    canonical e ->
    q < level e ->
    sees p (infix_tokens e ++ t :: more) ->
    precedence_of (Type_ t) <= q ->
    2 * togo p + 2 <= fuel ->
    exists p',
      parseExpression fuel q p = Ok (Some e, p')
      /\ errors p' = errors p
      /\ sees p' (last (infix_tokens e) zeroToken :: t :: more).
Proof.
  intros e q p t more fuel Hc Hq Hs Ht Hf.
  destruct (canonical_parses e Hc) as [d Hd].
  destruct (Hd q p t more Hq Hs ltac:(lia)) as (p' & He & Hs' & K).
  exists p'. split; [|auto].
  apply (parseExpression_at_budget (1 + d) fuel q p _ (sees_ok _ _ Hs) Hf).
  apply K. eapply parseExpression_loop_stop; eassumption.
Qed.

(** ** Inversion of a sequence *)

Lemma bind_inv {A B : Type} (m : M A) (k : A -> M B) (p : Parser)
  (r : B * Parser) :
  bind m k p = Ok r -> exists a p', m p = Ok (a, p') /\ k a p' = Ok r.
Proof.
  unfold bind. destruct (m p) as [[a p']| |]; try discriminate. eauto.
Qed.

(** ** Float literals *)

(** X17.  A float literal takes the token after it along: where
    [strconv.ParseFloat] accepts the text, the token [op] that follows
    the literal is passed over unread, whatever it is.  So, when the
    token [t] after [op] binds no tighter than the level asked for,
    [parseExpression] returns the bare literal with [op] as the current
    token: a binary operator in the place of [op] is not applied. *)
Theorem float_literal_takes_the_next_token :
  forall (a op t : Token) (ts : list Token) (value : float64) (q : nat)
         (p : Parser) (fuel : nat),
    Type_ a = FLOAT ->
    ParseFloat (Literal a) = Some value ->
    sees p (a :: op :: t :: ts) ->
    precedence_of (Type_ t) <= q ->
    2 * togo p + 2 <= fuel ->
    exists p',
      parseExpression fuel q p = Ok (Some (FloatLiteral a value), p')
      /\ errors p' = errors p
      /\ sees p' (op :: t :: ts).
Proof.
  intros a op t ts value q p fuel Hty Hv Hs Hq Hf.
  destruct (sees_nextToken _ _ _ Hs) as (p' & E & He & Hs').
  exists p'. split; [|auto].
  apply (parseExpression_at_budget 3 fuel q p _ (sees_ok _ _ Hs) Hf).
  rewrite parseExpression_S. unfold parseExpression_body.
  assert (Em : parsePrefixExpression 2 (parseExpression 2) p
               = Ok (Some (FloatLiteral a value), p')).
  { rewrite (parsePrefixExpression_on _ _ p _ _ Hs)
      by (rewrite Hty; discriminate).
    rewrite Hty, Hv. now rewrite (bind_Ok _ _ _ _ _ E). }
  rewrite (bind_Ok _ _ _ _ _ Em). cbv iota.
  eapply parseExpression_loop_stop; eassumption.
Qed.

(* ================================================================== *)
(** * Statements and programs *)
(* ================================================================== *)

Lemma last_prefix_shape_1 (a : Token) (xs : list Token) (x d : Token) :
  last (a :: xs ++ [x])%list d = x.
Proof. apply (last_last (a :: xs)). Qed.

Lemma parseStatement_S (f : nat) :
  parseStatement (S f)
  = parseStatement_body f (parseStatement f) (parseBlockStatement_loop f)
      (parseIfStatement_loop f).
Proof. reflexivity. Qed.

Lemma parseBlockStatement_loop_S (f : nat) (stmts : list Statement) :
  parseBlockStatement_loop (S f) stmts
  = parseBlockStatement_loop_body (parseStatement f)
      (parseBlockStatement_loop f) stmts.
Proof. reflexivity. Qed.

Lemma parseIfStatement_loop_S (f : nat) (stmt : IfStatement) :
  parseIfStatement_loop (S f) stmt
  = parseIfStatement_loop_body f (parseStatement f)
      (parseBlockStatement_loop f) (parseIfStatement_loop f) stmt.
Proof. reflexivity. Qed.

Lemma complete_expr_parses (e : Expression) :
  complete e -> exists n, expr_parses e n.
Proof.
  intros Hc. destruct (complete_parses e Hc) as [n Hn].
  exists (n + 2). now apply expr_of_prefix.
Qed.

Lemma expr_tokens_start (e : Expression) :
  complete e ->
  exists t rest,
    expr_tokens e = t :: rest /\ expr_start (Type_ t)
    /\ (Type_ t = VOID -> match e with VoidLiteral _ => True | _ => False end).
Proof.
  unfold expr_start.
  destruct e as [[tok v]|tok v|tok v|tok v|tok v|tok|tok|tok op r
                |tok op l r|tok x]; cbn [complete expr_tokens ident_Token];
    intros Hc.
  - destruct Hc as [Hk _]. eexists _, _. split; [reflexivity|].
    rewrite Hk. split; [in_list|discriminate].
  - destruct Hc as [Hk _]. eexists _, _. split; [reflexivity|].
    rewrite Hk. split; [in_list|discriminate].
  - contradiction.
  - destruct Hc as [Hk _]. eexists _, _. split; [reflexivity|].
    rewrite Hk. split; [in_list|discriminate].
  - destruct Hc as [Hk _]. eexists _, _. split; [reflexivity|].
    rewrite Hk. split; [in_list|discriminate].
  - eexists _, _. split; [reflexivity|]. rewrite Hc.
    split; [in_list|discriminate].
  - eexists _, _. split; [reflexivity|]. rewrite Hc.
    split; [in_list|trivial].
  - eexists _, _. split; [reflexivity|]. split; [in_list|discriminate].
  - eexists _, _. split; [reflexivity|]. split; [in_list|discriminate].
  - destruct x as [x|]; [|contradiction]. destruct Hc as [Hk _].
    eexists _, _. split; [reflexivity|]. rewrite Hk.
    split; [in_list|discriminate].
Qed.

(** A kind that begins an expression or a statement is not one that
    begins none. *)
Ltac not_start :=
  let H := fresh in
  intros H; unfold expr_start, stmt_start in H; simpl in H;
  repeat (destruct H as [H|H]; [discriminate|]); contradiction.

Lemma expr_start_not (k t : TokenType) :
  expr_start k -> ~ expr_start t -> TokenType_eqb k t = false.
Proof. intros Hk Ht. apply TokenType_eqb_neq. intros ->. contradiction. Qed.

Lemma peek_expr_not (p : Parser) (t : TokenType) :
  expr_start (Type_ (peekToken p)) -> ~ expr_start t ->
  peekTokenIs t p = false.
Proof. apply expr_start_not. Qed.

Lemma stmt_start_not (k t : TokenType) :
  stmt_start k -> ~ stmt_start t -> TokenType_eqb k t = false.
Proof. intros Hk Ht. apply TokenType_eqb_neq. intros ->. contradiction. Qed.

Lemma sees_peek_expr (p : Parser) (a : Token) (e : Expression)
  (more : list Token) :
  complete e -> sees p (a :: expr_tokens e ++ more) ->
  expr_start (Type_ (peekToken p)).
Proof.
  intros Hc Hs.
  destruct (expr_tokens_start e Hc) as (t & rest & E & Hk & _).
  rewrite E in Hs. cbn [app] in Hs. now rewrite (sees_peek _ _ _ _ Hs).
Qed.

Lemma sees_cur_expr (p : Parser) (e : Expression) (more : list Token) :
  complete e -> sees p (expr_tokens e ++ more) ->
  expr_start (Type_ (curToken p)).
Proof.
  intros Hc Hs.
  destruct (expr_tokens_start e Hc) as (t & rest & E & Hk & _).
  rewrite E in Hs. cbn [app] in Hs. now rewrite (sees_cur _ _ _ Hs).
Qed.

(** The start of [parseStatement]: no token is skipped, and the kind of
    the current token selects the case. *)
Ltac stmt_start Hs Hkind :=
  rewrite parseStatement_S; unfold parseStatement_body;
  rewrite (bind_Ok _ _ _ _ _
             (skipWhitespaceTokens_noop _ _
                ltac:(rewrite (sees_curTokenIs _ _ _ ILLEGAL Hs), Hkind;
                      reflexivity)));
  rewrite bind_get; rewrite (sees_cur _ _ _ Hs), Hkind; cbv iota.

(** After an optional semicolon. *)
Lemma semicolon_taken {B : Type} (k : unit -> M B) (p : Parser)
  (a : Token) (ts : list Token) :
  sees p (a :: SEMICOLON_token :: ts) ->
  exists p',
    errors p' = errors p /\ sees p' (SEMICOLON_token :: ts)
    /\ bind (if peekTokenIs SEMICOLON p then nextToken else ret tt) k p
       = k tt p'.
Proof.
  intros Hs. destruct (sees_nextToken _ _ _ Hs) as (p' & E & He & Hs').
  exists p'. split; [assumption|]. split; [assumption|].
  rewrite (sees_peekTokenIs _ _ _ _ SEMICOLON Hs).
  cbn [SEMICOLON_token Type_]. kinds.
  now rewrite (bind_Ok _ _ _ _ _ E).
Qed.

(** ** Statements without a block *)

Lemma parseBreakStatement_tokens (p : Parser) (a : Token)
  (ts : list Token) :
  sees p (a :: SEMICOLON_token :: ts) ->
  exists p',
    parseBreakStatement p = Ok (Some (mkBreakStatement a), p')
    /\ errors p' = errors p /\ sees p' (SEMICOLON_token :: ts).
Proof.
  intros Hs. unfold parseBreakStatement. rewrite bind_get.
  destruct (semicolon_taken
              (fun _ => ret (Some (mkBreakStatement (curToken p))))
              p _ _ Hs) as (p' & He & Hs' & E).
  rewrite E. unfold ret. rewrite (sees_cur _ _ _ Hs).
  exists p'. auto.
Qed.

Lemma parseContinueStatement_tokens (p : Parser) (a : Token)
  (ts : list Token) :
  sees p (a :: SEMICOLON_token :: ts) ->
  exists p',
    parseContinueStatement p = Ok (Some (mkContinueStatement a), p')
    /\ errors p' = errors p /\ sees p' (SEMICOLON_token :: ts).
Proof.
  intros Hs. unfold parseContinueStatement. rewrite bind_get.
  destruct (semicolon_taken
              (fun _ => ret (Some (mkContinueStatement (curToken p))))
              p _ _ Hs) as (p' & He & Hs' & E).
  rewrite E. unfold ret. rewrite (sees_cur _ _ _ Hs).
  exists p'. auto.
Qed.

Lemma break_parses (b : BreakStatement) :
  Type_ (brk_Token b) = BREAK ->
  stmt_parses (BreakStatementPtr (Some b)) 2.
Proof.
  intros Hty [|[|f]] p more Hf Hs _; try lia.
  destruct b as [tok]. cbn [stmt_tokens app last brk_Token] in *.
  stmt_start Hs Hty.
  destruct (parseBreakStatement_tokens p _ _ Hs) as (p' & E & He & Hs').
  rewrite (bind_Ok _ _ _ _ _ E). exists p'. auto.
Qed.

Lemma continue_parses (c : ContinueStatement) :
  Type_ (cnt_Token c) = CONTINUE ->
  stmt_parses (ContinueStatementPtr (Some c)) 2.
Proof.
  intros Hty [|[|f]] p more Hf Hs _; try lia.
  destruct c as [tok]. cbn [stmt_tokens app last cnt_Token] in *.
  stmt_start Hs Hty.
  destruct (parseContinueStatement_tokens p _ _ Hs) as (p' & E & He & Hs').
  rewrite (bind_Ok _ _ _ _ _ E). exists p'. auto.
Qed.

Lemma parseReturnStatement_bare (fuel : nat) (p : Parser) (a : Token)
  (ts : list Token) :
  sees p (a :: SEMICOLON_token :: ts) ->
  exists p',
    parseReturnStatement fuel p = Ok (Some (mkReturnStatement a None), p')
    /\ errors p' = errors p /\ sees p' (SEMICOLON_token :: ts).
Proof.
  intros Hs. unfold parseReturnStatement. rewrite bind_get. cbv zeta.
  rewrite (sees_peekTokenIs _ _ _ _ SEMICOLON Hs).
  cbn [SEMICOLON_token Type_]. kinds.
  destruct (sees_nextToken _ _ _ Hs) as (p' & E & He & Hs').
  rewrite (bind_Ok _ _ _ _ _ E). unfold ret. rewrite (sees_cur _ _ _ Hs).
  exists p'. auto.
Qed.

Lemma parseReturnStatement_value (fuel n : nat) (p : Parser) (a : Token)
  (e : Expression) (ts : list Token) :
  complete e -> expr_parses e n -> n <= fuel ->
  sees p (a :: expr_tokens e ++ SEMICOLON_token :: ts) ->
  exists p',
    parseReturnStatement fuel p
    = Ok (Some (mkReturnStatement a (Some e)), p')
    /\ errors p' = errors p /\ sees p' (SEMICOLON_token :: ts).
Proof.
  intros Hc Hn Hf Hs. unfold parseReturnStatement. rewrite bind_get.
  cbv zeta.
  pose proof (sees_peek_expr _ _ _ _ Hc Hs) as Hk.
  rewrite (peek_expr_not _ SEMICOLON Hk) by not_start.
  rewrite (peek_expr_not _ RBRACE Hk) by not_start.
  destruct (sees_nextToken _ _ _ Hs) as (p1 & E1 & He1 & Hs1).
  rewrite (bind_Ok _ _ _ _ _ E1).
  destruct (Hn fuel LOWEST p1 SEMICOLON_token ts Hf Hs1)
    as (p2 & E2 & He2 & Hs2).
  { vm_compute. lia. }
  rewrite (bind_Ok _ _ _ _ _ E2). rewrite bind_get.
  destruct (semicolon_taken
              (fun _ => ret (Some (mkReturnStatement (curToken p) (Some e))))
              p2 _ _ Hs2) as (p3 & He3 & Hs3 & E3).
  rewrite E3. unfold ret. rewrite (sees_cur _ _ _ Hs).
  exists p3. split; [reflexivity|]. split; [congruence|assumption].
Qed.

Lemma return_parses (tok : Token) (value : option Expression) :
  Type_ tok = RETURN ->
  match value with Some e => complete e | None => True end ->
  exists k,
    stmt_parses (ReturnStatementPtr (Some (mkReturnStatement tok value))) k.
Proof.
  intros Hty Hv. destruct value as [e|].
  - destruct (complete_expr_parses e Hv) as [n Hn].
    exists (n + 2). intros [|[|f]] p more Hf Hs _; try lia.
    cbn [stmt_tokens rs_Token rs_ReturnValue opt_expr_tokens] in *.
    rewrite last_prefix_shape_1.
    cbn [app] in Hs. rewrite <- app_assoc in Hs. cbn [app] in Hs.
    stmt_start Hs Hty.
    destruct (parseReturnStatement_value (S f) n p _ e _ Hv Hn
                ltac:(lia) Hs) as (p' & E & He & Hs').
    rewrite (bind_Ok _ _ _ _ _ E). exists p'. auto.
  - exists 2. intros [|[|f]] p more Hf Hs _; try lia.
    cbn [stmt_tokens rs_Token rs_ReturnValue opt_expr_tokens app last] in *.
    stmt_start Hs Hty.
    destruct (parseReturnStatement_bare (S f) p _ _ Hs)
      as (p' & E & He & Hs').
    rewrite (bind_Ok _ _ _ _ _ E). exists p'. auto.
Qed.

Lemma parseDeclarationStatement_tokens (fuel n : nat) (p : Parser)
  (ty : Token) (name : Identifier) (e : Expression) (ts : list Token) :
  Type_ ty = TYPE -> name_ok name ->
  complete e -> expr_parses e n -> n <= fuel ->
  sees p (ty :: ident_Token name :: ASSIGN_token
          :: expr_tokens e ++ SEMICOLON_token :: ts) ->
  exists p',
    parseDeclarationStatement fuel p
    = Ok (Some (mkVariableDeclaration ty (Some name) (Some e)), p')
    /\ errors p' = errors p /\ sees p' (SEMICOLON_token :: ts).
Proof.
  intros Hty [Hnm Hval] Hc Hn Hf Hs.
  unfold parseDeclarationStatement. rewrite bind_get.
  rewrite (sees_curTokenIs _ _ _ TYPE Hs), Hty. kinds. cbv zeta.
  destruct (sees_expectPeek IDENT p _ _ _ Hs Hnm) as (p1 & E1 & He1 & Hs1).
  rewrite (bind_Ok _ _ _ _ _ E1). cbn [negb]. rewrite bind_get.
  destruct (sees_expectPeek ASSIGN p1 _ _ _ Hs1 eq_refl)
    as (p2 & E2 & He2 & Hs2).
  rewrite (bind_Ok _ _ _ _ _ E2). cbn [negb].
  destruct (sees_nextToken _ _ _ Hs2) as (p3 & E3 & He3 & Hs3).
  rewrite (bind_Ok _ _ _ _ _ E3).
  destruct (Hn fuel LOWEST p3 SEMICOLON_token ts Hf Hs3)
    as (p4 & E4 & He4 & Hs4).
  { vm_compute. lia. }
  rewrite (bind_Ok _ _ _ _ _ E4). rewrite bind_get.
  destruct (semicolon_taken
              (fun _ =>
                 ret (Some (mkVariableDeclaration (curToken p)
                              (Some (mkIdentifier (curToken p1)
                                       (Literal (curToken p1))))
                              (Some e))))
              p4 _ _ Hs4) as (p5 & He5 & Hs5 & E5).
  rewrite E5. unfold ret.
  rewrite (sees_cur _ _ _ Hs), (sees_cur _ _ _ Hs1), <- Hval.
  destruct name as [tok v]. cbn [ident_Token ident_Value].
  exists p5. split; [reflexivity|]. split; [congruence|assumption].
Qed.

Lemma declaration_parses (ty : Token) (name : Identifier)
  (e : Expression) :
  Type_ ty = TYPE -> name_ok name -> complete e ->
  exists k,
    stmt_parses
      (VariableDeclarationPtr
         (Some (mkVariableDeclaration ty (Some name) (Some e)))) k.
Proof.
  intros Hty Hnm Hc.
  destruct (complete_expr_parses e Hc) as [n Hn].
  exists (n + 2). intros [|[|f]] p more Hf Hs _; try lia.
  cbn [stmt_tokens vd_Token vd_Name vd_Value opt_expr_tokens name_tokens]
    in *.
  replace (last (ty :: ([ident_Token name]
                        ++ ASSIGN_token :: expr_tokens e
                        ++ [SEMICOLON_token])%list) zeroToken)
    with SEMICOLON_token
    by (symmetry;
        apply (last_last (ty :: ident_Token name :: ASSIGN_token
                          :: expr_tokens e))).
  cbn [app] in Hs. rewrite <- app_assoc in Hs. cbn [app] in Hs.
  stmt_start Hs Hty.
  rewrite (sees_peekTokenIs _ _ _ _ IDENT Hs), (proj1 Hnm). kinds.
  unfold peekPeekIs. rewrite (sees_peek2 _ _ _ _ _ Hs).
  cbn [ASSIGN_token Type_]. kinds.
  destruct (parseDeclarationStatement_tokens (S f) n p ty name e _
              Hty Hnm Hc Hn ltac:(lia) Hs) as (p' & E & He & Hs').
  rewrite (bind_Ok _ _ _ _ _ E). exists p'. auto.
Qed.

Lemma expression_statement_parses (e : Expression) :
  complete e ->
  match e with VoidLiteral _ => False | _ => True end ->
  exists k,
    stmt_parses
      (ExpressionStatementPtr
         (Some (mkExpressionStatement (last (expr_tokens e) zeroToken)
                  (Some e)))) k.
Proof.
  intros Hc Hnv.
  destruct (complete_expr_parses e Hc) as [n Hn].
  exists (n + 2). intros [|[|f]] p more Hf Hs _; try lia.
  cbn [stmt_tokens es_Expression opt_expr_tokens] in *.
  rewrite last_last. rewrite <- app_assoc in Hs. cbn [app] in Hs.
  destruct (Hn (S f) LOWEST p SEMICOLON_token more ltac:(lia) Hs)
    as (p1 & E1 & He1 & Hs1).
  { vm_compute. lia. }
  destruct (semicolon_taken
              (fun _ =>
                 ret (Some (ExpressionStatementPtr
                              (Some (mkExpressionStatement (curToken p1)
                                       (Some e))))))
              p1 _ _ Hs1) as (p2 & He2 & Hs2 & E2).
  exists p2. split; [|split; [congruence|assumption]].
  destruct (expr_tokens_start e Hc) as (t & rest & Et & Hk & Hvoid).
  pose proof Hs as Hs0. rewrite Et in Hs0. cbn [app] in Hs0.
  assert (Hnot : Type_ t <> VOID).
  { intros Hv. specialize (Hvoid Hv). destruct e; contradiction. }
  unfold expr_start in Hk. simpl in Hk.
  destruct Hk as [Hk|[Hk|[Hk|[Hk|[Hk|[Hk|[Hk|[Hk|[]]]]]]]]];
    symmetry in Hk; try congruence;
    stmt_start Hs0 Hk;
    rewrite (bind_Ok _ _ _ _ _ E1); cbv iota; rewrite bind_get, E2;
    unfold ret; now rewrite (sees_cur _ _ _ Hs1).
Qed.

(** ** Blocks *)

Lemma block_tokens_shape (b : BlockStatement) :
  block_ok b ->
  exists tok stmts,
    b = mkBlockStatement tok stmts /\ Type_ tok = LBRACE
    /\ all stmt_ok stmts
    /\ block_tokens b
       = (tok :: flat_map stmt_tokens stmts ++ [RBRACE_token])%list.
Proof.
  destruct b as [tok stmts]. cbn [block_ok]. intros [H1 H2].
  exists tok, stmts. auto.
Qed.

Lemma last_block_tokens (xs : list Token) (b : BlockStatement) (d : Token) :
  last (xs ++ block_tokens b)%list d = RBRACE_token.
Proof.
  destruct b as [tok stmts]. cbn [block_tokens].
  replace (xs ++ tok :: flat_map stmt_tokens stmts ++ [RBRACE_token])%list
    with ((xs ++ tok :: flat_map stmt_tokens stmts) ++ [RBRACE_token])%list.
  - apply last_last.
  - rewrite <- app_assoc. reflexivity.
Qed.

(** A statement that ends with a block ends with a closing brace. *)
Ltac last_block xs b :=
  match goal with
  | |- context [last ?L zeroToken] =>
      replace (last L zeroToken) with RBRACE_token
        by (symmetry;
            transitivity (last (xs ++ block_tokens b)%list zeroToken);
            [ f_equal; cbn [app]; rewrite <- ?app_assoc; reflexivity
            | apply last_block_tokens ])
  end.

Lemma stmt_tokens_start (s : Statement) :
  stmt_ok s ->
  exists t rest, stmt_tokens s = t :: rest /\ stmt_start (Type_ t).
Proof.
  unfold stmt_start.
  destruct s as [[[tok [e|]]|]|[[tok [name|] [e|]]|]|[[tok value]|]|[b|]
                |[c|]|b|[[tok [cond|] thenB elseIfs elseB]|]
                |[[tok block [cond|]]|]|[[tok block]|]
                |[[tok [ident|] [iterable|] block]|]
                |[[tok [name|] params returnType body]|]];
    cbn [stmt_ok]; intros Hok; try contradiction.
  - destruct Hok as (Hc & _ & Hnv).
    destruct (expr_tokens_start e Hc) as (t & rest & E & Hk & Hvoid).
    cbn [stmt_tokens es_Expression opt_expr_tokens]. rewrite E.
    eexists _, _. split; [reflexivity|].
    assert (Hnot : Type_ t <> VOID).
    { intros Hv. specialize (Hvoid Hv). destruct e; contradiction. }
    unfold expr_start in Hk. simpl in Hk.
    destruct Hk as [Hk|[Hk|[Hk|[Hk|[Hk|[Hk|[Hk|[Hk|[]]]]]]]]];
      rewrite <- Hk in *; try congruence; in_list.
  - destruct Hok as (Hty & _). eexists _, _. split; [reflexivity|].
    cbn [vd_Token]. rewrite Hty. in_list.
  - destruct Hok as (Hty & _). eexists _, _. split; [reflexivity|].
    cbn [rs_Token]. rewrite Hty. in_list.
  - eexists _, _. split; [reflexivity|]. rewrite Hok. in_list.
  - eexists _, _. split; [reflexivity|]. rewrite Hok. in_list.
  - destruct Hok as (Hty & _). eexists _, _. split; [reflexivity|].
    rewrite Hty. in_list.
  - destruct Hok as (Hty & _). eexists _, _. split; [reflexivity|].
    rewrite Hty. in_list.
  - destruct Hok as (Hty & _). eexists _, _. split; [reflexivity|].
    rewrite Hty. in_list.
  - destruct Hok as (Hty & _). eexists _, _. split; [reflexivity|].
    rewrite Hty. in_list.
  - destruct Hok as ([[Hty _]|[Hty _]] & _);
      (eexists _, _; split; [reflexivity|]); rewrite Hty; in_list.
Qed.

Lemma not_else_stmts (stmts : list Statement) (t : Token)
  (more : list Token) :
  all stmt_ok stmts -> Type_ t <> ELSE ->
  not_else (flat_map stmt_tokens stmts ++ t :: more).
Proof.
  destruct stmts as [|s rest]; cbn [all flat_map app]; intros Hall Ht.
  - exact Ht.
  - destruct Hall as [Hs _].
    destruct (stmt_tokens_start s Hs) as (t0 & rest0 & E & Hk).
    rewrite E. cbn [app not_else]. intros Hn. rewrite Hn in Hk.
    revert Hk. not_start.
Qed.

(** The loop of [parseBlockStatement]: one turn for each statement, up
    to a closing brace or the end of the input. *)
Lemma block_loop_parses (stmts : list Statement) (r : Token) :
  Type_ r = RBRACE \/ Type_ r = EOF ->
  all stmt_ok stmts ->
  (forall s, In s stmts -> exists k, stmt_parses s k) ->
  exists k,
    forall fuel acc p more,
      k <= fuel ->
      sees p (flat_map stmt_tokens stmts ++ r :: more) ->
      exists p',
        parseBlockStatement_loop fuel acc p = Ok ((acc ++ stmts)%list, p')
        /\ errors p' = errors p
        /\ sees p' (r :: more).
Proof.
  intros Hr.
  induction stmts as [|s rest IH]; intros Hall Hin.
  - exists 1. intros [|f] acc p more Hf Hs; [lia|].
    cbn [flat_map app] in Hs.
    rewrite parseBlockStatement_loop_S.
    unfold parseBlockStatement_loop_body. rewrite bind_get.
    rewrite (sees_curTokenIs _ _ _ RBRACE Hs),
      (sees_curTokenIs _ _ _ EOF Hs).
    exists p. rewrite app_nil_r.
    destruct Hr as [-> | ->]; kinds; auto.
  - destruct Hall as [Hok Hall].
    destruct (IH Hall (fun x Hx => Hin x (or_intror Hx))) as [kr Hkr].
    destruct (Hin s (or_introl eq_refl)) as [ks Hks].
    exists (S (ks + kr)). intros [|f] acc p more Hf Hs; [lia|].
    cbn [flat_map] in Hs. rewrite <- app_assoc in Hs.
    rewrite parseBlockStatement_loop_S.
    unfold parseBlockStatement_loop_body. rewrite bind_get.
    destruct (stmt_tokens_start s Hok) as (t0 & rest0 & E0 & Hk0).
    pose proof Hs as Hs0. rewrite E0 in Hs0. cbn [app] in Hs0.
    unfold curTokenIs. rewrite (sees_cur _ _ _ Hs0).
    rewrite (stmt_start_not _ RBRACE Hk0) by not_start.
    rewrite (stmt_start_not _ EOF Hk0) by not_start. cbn [negb andb].
    destruct (Hks f p _ ltac:(lia) Hs) as (p1 & E1 & He1 & Hs1).
    { apply not_else_stmts; [assumption|].
      destruct Hr as [-> | ->]; discriminate. }
    rewrite (bind_Ok _ _ _ _ _ E1).
    destruct (sees_nextToken _ _ _ Hs1) as (p2 & E2 & He2 & Hs2).
    rewrite (bind_Ok _ _ _ _ _ E2). cbn [append_stmt].
    destruct (Hkr f (acc ++ [s])%list p2 more ltac:(lia) Hs2)
      as (p3 & E3 & He3 & Hs3).
    exists p3. rewrite E3, <- app_assoc. cbn [app].
    split; [reflexivity|]. split; [congruence|assumption].
Qed.

Lemma block_of_stmts (b : BlockStatement) :
  block_ok b ->
  (forall s, In s (match b with mkBlockStatement _ stmts => stmts end) ->
             exists k, stmt_parses s k) ->
  exists k, block_parses b k.
Proof.
  destruct b as [tok stmts]. cbn [block_ok]. intros [Hty Hall] Hin.
  destruct (block_loop_parses stmts RBRACE_token (or_introl eq_refl)
              Hall Hin) as [k Hk].
  exists k. intros fuel p more Hf Hs.
  cbn [block_tokens app] in Hs. rewrite <- app_assoc in Hs.
  cbn [app] in Hs.
  unfold parseBlockStatement. rewrite bind_get. cbv zeta.
  destruct (sees_nextToken _ _ _ Hs) as (p1 & E1 & He1 & Hs1).
  rewrite (bind_Ok _ _ _ _ _ E1).
  destruct (Hk fuel [] p1 more Hf Hs1) as (p2 & E2 & He2 & Hs2).
  rewrite (bind_Ok _ _ _ _ _ E2). unfold ret. cbn [app].
  rewrite (sees_cur _ _ _ Hs).
  exists p2. split; [reflexivity|]. split; [congruence|assumption].
Qed.

(** ** Statements with a block *)

Lemma parseLoopStatement_tokens (fuel n : nat) (p : Parser) (tok : Token)
  (b : BlockStatement) (more : list Token) :
  block_ok b -> block_parses b n -> n <= fuel ->
  sees p (tok :: block_tokens b ++ more) ->
  exists p',
    parseLoopStatement (parseBlockStatement_loop fuel) p
    = Ok (Some (mkLoopStatement tok (Some b)), p')
    /\ errors p' = errors p /\ sees p' (RBRACE_token :: more).
Proof.
  intros Hb Hn Hf Hs.
  destruct (block_tokens_shape b Hb) as (bt & stmts & -> & Hbt & _ & Eb).
  unfold parseLoopStatement. rewrite bind_get. cbv zeta.
  pose proof Hs as Hs0. rewrite Eb in Hs0. cbn [app] in Hs0.
  destruct (sees_expectPeek LBRACE p _ _ _ Hs0 Hbt)
    as (p1 & E1 & He1 & Hs1).
  rewrite (bind_Ok _ _ _ _ _ E1). cbn [negb].
  change (bt :: (flat_map stmt_tokens stmts ++ [RBRACE_token]) ++ more)%list
    with (block_tokens (mkBlockStatement bt stmts) ++ more)%list in Hs1.
  destruct (Hn fuel p1 more Hf Hs1) as (p2 & E2 & He2 & Hs2).
  rewrite (bind_Ok _ _ _ _ _ E2). unfold ret.
  rewrite (sees_cur _ _ _ Hs).
  exists p2. split; [reflexivity|]. split; [congruence|assumption].
Qed.

Lemma parseWhileStatement_tokens (fuel n m : nat) (p : Parser)
  (tok : Token) (cond : Expression) (b : BlockStatement)
  (more : list Token) :
  complete cond -> expr_parses cond m -> m <= fuel ->
  block_ok b -> block_parses b n -> n <= fuel ->
  sees p (tok :: LPAREN_token :: expr_tokens cond
          ++ RPAREN_token :: block_tokens b ++ more) ->
  exists p',
    parseWhileStatement fuel (parseBlockStatement_loop fuel) p
    = Ok (Some (mkWhileStatement tok (Some b) (Some cond)), p')
    /\ errors p' = errors p /\ sees p' (RBRACE_token :: more).
Proof.
  intros Hc Hm Hfm Hb Hn Hf Hs.
  destruct (block_tokens_shape b Hb) as (bt & stmts & -> & Hbt & _ & Eb).
  unfold parseWhileStatement. rewrite bind_get. cbv zeta.
  destruct (sees_expectPeek LPAREN p _ _ _ Hs eq_refl)
    as (p1 & E1 & He1 & Hs1).
  rewrite (bind_Ok _ _ _ _ _ E1). cbn [negb].
  destruct (sees_nextToken _ _ _ Hs1) as (p2 & E2 & He2 & Hs2).
  rewrite (bind_Ok _ _ _ _ _ E2).
  destruct (Hm fuel LOWEST p2 RPAREN_token _ Hfm Hs2)
    as (p3 & E3 & He3 & Hs3).
  { vm_compute. lia. }
  rewrite (bind_Ok _ _ _ _ _ E3). cbv iota.
  destruct (sees_expectPeek RPAREN p3 _ _ _ Hs3 eq_refl)
    as (p4 & E4 & He4 & Hs4).
  rewrite (bind_Ok _ _ _ _ _ E4). cbn [negb].
  pose proof Hs4 as Hs4'. rewrite Eb in Hs4'. cbn [app] in Hs4'.
  destruct (sees_expectPeek LBRACE p4 _ _ _ Hs4' Hbt)
    as (p5 & E5 & He5 & Hs5).
  rewrite (bind_Ok _ _ _ _ _ E5). cbn [negb].
  change (bt :: (flat_map stmt_tokens stmts ++ [RBRACE_token]) ++ more)%list
    with (block_tokens (mkBlockStatement bt stmts) ++ more)%list in Hs5.
  destruct (Hn fuel p5 more Hf Hs5) as (p6 & E6 & He6 & Hs6).
  rewrite (bind_Ok _ _ _ _ _ E6). unfold ret.
  rewrite (sees_cur _ _ _ Hs).
  exists p6. split; [reflexivity|]. split; [congruence|assumption].
Qed.

Lemma parseForStatement_tokens (fuel n m : nat) (p : Parser)
  (tok : Token) (ident : Identifier) (iterable : Expression)
  (b : BlockStatement) (more : list Token) :
  name_ok ident ->
  complete iterable -> expr_parses iterable m -> m <= fuel ->
  block_ok b -> block_parses b n -> n <= fuel ->
  sees p (tok :: LPAREN_token :: ident_Token ident :: IN_token
          :: expr_tokens iterable
          ++ RPAREN_token :: block_tokens b ++ more) ->
  exists p',
    parseForStatement fuel (parseBlockStatement_loop fuel) p
    = Ok (Some (mkForStatement tok (Some ident) (Some iterable) (Some b)),
          p')
    /\ errors p' = errors p /\ sees p' (RBRACE_token :: more).
Proof.
  intros [Hnm Hval] Hc Hm Hfm Hb Hn Hf Hs.
  destruct (block_tokens_shape b Hb) as (bt & stmts & -> & Hbt & _ & Eb).
  unfold parseForStatement. rewrite bind_get. cbv zeta.
  destruct (sees_expectPeek LPAREN p _ _ _ Hs eq_refl)
    as (p1 & E1 & He1 & Hs1).
  rewrite (bind_Ok _ _ _ _ _ E1). cbn [negb].
  destruct (sees_expectPeek IDENT p1 _ _ _ Hs1 Hnm)
    as (p2 & E2 & He2 & Hs2).
  rewrite (bind_Ok _ _ _ _ _ E2). cbn [negb]. rewrite bind_get.
  destruct (sees_expectPeek IN p2 _ _ _ Hs2 eq_refl)
    as (p3 & E3 & He3 & Hs3).
  rewrite (bind_Ok _ _ _ _ _ E3). cbn [negb].
  destruct (sees_nextToken _ _ _ Hs3) as (p4 & E4 & He4 & Hs4).
  rewrite (bind_Ok _ _ _ _ _ E4).
  destruct (Hm fuel LOWEST p4 RPAREN_token _ Hfm Hs4)
    as (p5 & E5 & He5 & Hs5).
  { vm_compute. lia. }
  rewrite (bind_Ok _ _ _ _ _ E5). cbv iota.
  destruct (sees_expectPeek RPAREN p5 _ _ _ Hs5 eq_refl)
    as (p6 & E6 & He6 & Hs6).
  rewrite (bind_Ok _ _ _ _ _ E6). cbn [negb].
  pose proof Hs6 as Hs6'. rewrite Eb in Hs6'. cbn [app] in Hs6'.
  destruct (sees_expectPeek LBRACE p6 _ _ _ Hs6' Hbt)
    as (p7 & E7 & He7 & Hs7).
  rewrite (bind_Ok _ _ _ _ _ E7). cbn [negb].
  change (bt :: (flat_map stmt_tokens stmts ++ [RBRACE_token]) ++ more)%list
    with (block_tokens (mkBlockStatement bt stmts) ++ more)%list in Hs7.
  destruct (Hn fuel p7 more Hf Hs7) as (p8 & E8 & He8 & Hs8).
  rewrite (bind_Ok _ _ _ _ _ E8). unfold ret.
  rewrite (sees_cur _ _ _ Hs), (sees_cur _ _ _ Hs2), <- Hval.
  destruct ident as [it iv]. cbn [ident_Token ident_Value].
  exists p8. split; [reflexivity|]. split; [congruence|assumption].
Qed.

Lemma fn_params_pairs (params : list FnParameter) :
  all fn_param_ok params ->
  Forall param_ok (map param_pair params)
  /\ map param_of (map param_pair params) = params.
Proof.
  induction params as [|[ty [[nt nv]|]] rest IH]; cbn [all map];
    intros Hall.
  - split; [constructor|reflexivity].
  - destruct Hall as [[Hty [Hnm Hval]] Hrest].
    cbn [param_Type param_Name ident_Token ident_Value] in *.
    destruct (IH Hrest) as [IH1 IH2]. split.
    + constructor; [split; assumption|assumption].
    + rewrite IH2. unfold param_of, param_pair.
      cbn [fst snd param_Type param_Name ident_Token]. now rewrite Hval.
  - destruct Hall as [[_ []] _].
Qed.

Lemma parseFunctionStatement_tokens (fuel n : nat) (p : Parser)
  (tok : Token) (name : Identifier) (params : list FnParameter)
  (b : BlockStatement) (more : list Token) :
  name_ok name -> all fn_param_ok params -> List.length params <= fuel ->
  block_ok b -> block_parses b n -> n <= fuel ->
  sees p (tok :: ident_Token name :: LPAREN_token
          :: param_tokens (map param_pair params)
          ++ RPAREN_token :: block_tokens b ++ more) ->
  exists p',
    parseFunctionStatement fuel (parseBlockStatement_loop fuel) p
    = Ok (Some (mkFunctionStatement tok (Some name) params
                  (if TokenType_eqb (Type_ tok) FUNC
                   then mkToken VOID "void" else tok)
                  (Some b)), p')
    /\ errors p' = errors p /\ sees p' (RBRACE_token :: more).
Proof.
  intros [Hnm Hval] Hps Hfp Hb Hn Hf Hs.
  destruct (block_tokens_shape b Hb) as (bt & stmts & -> & Hbt & _ & Eb).
  destruct (fn_params_pairs params Hps) as [Hall Hmap].
  unfold parseFunctionStatement. rewrite bind_get. cbv zeta.
  destruct (sees_expectPeek IDENT p _ _ _ Hs Hnm)
    as (p1 & E1 & He1 & Hs1).
  rewrite (bind_Ok _ _ _ _ _ E1). cbn [negb]. rewrite bind_get.
  destruct (sees_expectPeek LPAREN p1 _ _ _ Hs1 eq_refl)
    as (p2 & E2 & He2 & Hs2).
  rewrite (bind_Ok _ _ _ _ _ E2). cbn [negb].
  destruct (parseFunctionParameters_tokens (map param_pair params) fuel p2
              LPAREN_token RPAREN_token _ Hall eq_refl Hs2)
    as (p3 & E3 & He3 & Hs3).
  { now rewrite length_map. }
  rewrite (bind_Ok _ _ _ _ _ E3). rewrite Hmap.
  pose proof Hs3 as Hs3'. rewrite Eb in Hs3'. cbn [app] in Hs3'.
  destruct (sees_expectPeek LBRACE p3 _ _ _ Hs3' Hbt)
    as (p4 & E4 & He4 & Hs4).
  rewrite (bind_Ok _ _ _ _ _ E4). cbn [negb].
  change (bt :: (flat_map stmt_tokens stmts ++ [RBRACE_token]) ++ more)%list
    with (block_tokens (mkBlockStatement bt stmts) ++ more)%list in Hs4.
  destruct (Hn fuel p4 more Hf Hs4) as (p5 & E5 & He5 & Hs5).
  rewrite (bind_Ok _ _ _ _ _ E5). unfold ret.
  unfold curTokenIs.
  rewrite (sees_cur _ _ _ Hs), (sees_cur _ _ _ Hs1), <- Hval.
  destruct name as [nt nv]. cbn [ident_Token ident_Value].
  exists p5. split; [reflexivity|]. split; [congruence|assumption].
Qed.

(** ** If statements *)

Lemma stmt_tokens_if (tok : Token) (cond : option Expression)
  (thenB : option BlockStatement) (elseIfs : list ElseIfClause)
  (elseB : option BlockStatement) :
  stmt_tokens (IfStatementPtr
                 (Some (mkIfStatement tok cond thenB elseIfs elseB)))
  = (tok :: LPAREN_token :: opt_expr_tokens cond
     ++ RPAREN_token :: opt_block_tokens thenB
     ++ flat_map clause_tokens elseIfs ++ else_tokens elseB)%list.
Proof. reflexivity. Qed.

Lemma stmt_ok_if (tok : Token) (cond : option Expression)
  (thenB : option BlockStatement) (elseIfs : list ElseIfClause)
  (elseB : option BlockStatement) :
  stmt_ok (IfStatementPtr
             (Some (mkIfStatement tok cond thenB elseIfs elseB))) ->
  exists c b,
    cond = Some c /\ thenB = Some b /\ Type_ tok = IF /\ complete c
    /\ block_ok b /\ all clause_ok elseIfs
    /\ match elseB with Some b' => block_ok b' | None => True end.
Proof.
  cbn [stmt_ok]. destruct cond as [c|]; [|contradiction].
  intros (Hty & Hc & Hb & Hall & He).
  destruct thenB as [b|]; [|contradiction].
  exists c, b. do 5 (split; [auto|]). split; [|exact He].
  clear -Hall. induction elseIfs as [|[[c'|] [b'|]] rest IH];
    cbn [all clause_ok] in *; try tauto.
  all: destruct Hall as [[] _] || destruct Hall as [[_ []] _].
Qed.

Lemma parseBranch_tokens (fuel n : nat) (pS : M (option Statement))
  (p : Parser) (a : Token) (b : BlockStatement) (more : list Token) :
  block_ok b -> block_parses b n -> n <= fuel ->
  sees p (a :: block_tokens b ++ more) ->
  exists p',
    parseBranch pS (parseBlockStatement_loop fuel) p = Ok (Some b, p')
    /\ errors p' = errors p /\ sees p' (RBRACE_token :: more).
Proof.
  intros Hb Hn Hf Hs.
  destruct (block_tokens_shape b Hb) as (bt & stmts & -> & Hbt & _ & Eb).
  unfold parseBranch. rewrite bind_get.
  pose proof Hs as Hs0. rewrite Eb in Hs0. cbn [app] in Hs0.
  rewrite (sees_peekTokenIs _ _ _ _ LBRACE Hs0), Hbt. kinds.
  destruct (sees_expectPeek LBRACE p _ _ _ Hs0 Hbt)
    as (p1 & E1 & He1 & Hs1).
  rewrite (bind_Ok _ _ _ _ _ E1). cbn [negb].
  change (bt :: (flat_map stmt_tokens stmts ++ [RBRACE_token]) ++ more)%list
    with (block_tokens (mkBlockStatement bt stmts) ++ more)%list in Hs1.
  destruct (Hn fuel p1 more Hf Hs1) as (p2 & E2 & He2 & Hs2).
  rewrite (bind_Ok _ _ _ _ _ E2). unfold ret.
  exists p2. split; [reflexivity|]. split; [congruence|assumption].
Qed.

Lemma sees_peek_block (p : Parser) (a : Token) (b : BlockStatement)
  (more : list Token) (t : TokenType) :
  block_ok b -> sees p (a :: block_tokens b ++ more) ->
  peekTokenIs t p = TokenType_eqb LBRACE t.
Proof.
  intros Hb Hs.
  destruct (block_tokens_shape b Hb) as (bt & stmts & -> & Hbt & _ & Eb).
  rewrite Eb in Hs. cbn [app] in Hs.
  now rewrite (sees_peekTokenIs _ _ _ _ t Hs), Hbt.
Qed.

(** The loop of [parseIfStatement]: one turn for each else-if clause,
    then the else block if there is one. *)
Lemma if_loop_parses (clauses : list ElseIfClause)
  (elseB : option BlockStatement) :
  all clause_ok clauses ->
  (forall c b, In c clauses ->
     match c with mkElseIfClause _ x => x end = Some b ->
     exists n, block_parses b n) ->
  match elseB with
  | Some b => block_ok b /\ exists n, block_parses b n
  | None => True
  end ->
  exists k,
    forall fuel tok c t acc p more,
      k <= fuel ->
      sees p (RBRACE_token :: flat_map clause_tokens clauses
              ++ else_tokens elseB ++ more) ->
      (elseB = None -> not_else more) ->
      exists p',
        parseIfStatement_loop fuel (mkIfStatement tok c t acc None) p
        = Ok (Some (mkIfStatement tok c t (acc ++ clauses)%list elseB), p')
        /\ errors p' = errors p
        /\ sees p' (RBRACE_token :: more).
Proof.
  induction clauses as [|cl rest IH]; intros Hall Hblocks Helse.
  - destruct elseB as [b|].
    + destruct Helse as [Hb [n Hn]]. exists (S n).
      intros [|f] tok c t acc p more Hf Hs _; [lia|].
      cbn [flat_map else_tokens app] in Hs.
      rewrite parseIfStatement_loop_S.
      unfold parseIfStatement_loop_body. rewrite bind_get.
      rewrite (sees_peekTokenIs _ _ _ _ ELSE Hs).
      cbn [ELSE_token Type_]. kinds.
      destruct (sees_nextToken _ _ _ Hs) as (p1 & E1 & He1 & Hs1).
      rewrite (bind_Ok _ _ _ _ _ E1). rewrite bind_get.
      rewrite (sees_peek_block _ _ _ _ IF Hb Hs1). kinds.
      destruct (parseBranch_tokens f n (parseStatement f) p1 _ b more
                  Hb Hn ltac:(lia) Hs1) as (p2 & E2 & He2 & Hs2).
      rewrite (bind_Ok _ _ _ _ _ E2). cbv iota. unfold ret.
      rewrite app_nil_r.
      exists p2. split; [reflexivity|]. split; [congruence|assumption].
    + exists 1. intros [|f] tok c t acc p more Hf Hs Hne; [lia|].
      cbn [flat_map else_tokens app] in Hs.
      specialize (Hne eq_refl). destruct more as [|t0 more]; [contradiction|].
      cbn [not_else] in Hne.
      rewrite parseIfStatement_loop_S.
      unfold parseIfStatement_loop_body. rewrite bind_get.
      rewrite (sees_peekTokenIs _ _ _ _ ELSE Hs).
      apply TokenType_eqb_neq in Hne. rewrite Hne. unfold ret.
      rewrite app_nil_r. exists p. auto.
  - destruct Hall as [Hcl Hall].
    destruct cl as [[cond|] [b|]]; cbn [clause_ok] in Hcl;
      try contradiction.
    destruct Hcl as [Hc Hb].
    destruct (IH Hall (fun c b Hin => Hblocks c b (or_intror Hin)) Helse)
      as [kr Hkr].
    destruct (Hblocks _ b (or_introl eq_refl) eq_refl) as [n Hn].
    destruct (complete_expr_parses cond Hc) as [m Hm].
    exists (S (kr + n + m)).
    intros [|f] tok c t acc p more Hf Hs Hne; [lia|].
    cbn [flat_map clause_tokens opt_expr_tokens opt_block_tokens app] in Hs.
    repeat (rewrite <- app_assoc in Hs; cbn [app] in Hs).
    rewrite parseIfStatement_loop_S.
    unfold parseIfStatement_loop_body. rewrite bind_get.
    rewrite (sees_peekTokenIs _ _ _ _ ELSE Hs).
    cbn [ELSE_token Type_]. kinds.
    destruct (sees_nextToken _ _ _ Hs) as (p1 & E1 & He1 & Hs1).
    rewrite (bind_Ok _ _ _ _ _ E1). rewrite bind_get.
    rewrite (sees_peekTokenIs _ _ _ _ IF Hs1).
    cbn [IF_token Type_]. kinds.
    destruct (sees_nextToken _ _ _ Hs1) as (p2 & E2 & He2 & Hs2).
    rewrite (bind_Ok _ _ _ _ _ E2).
    destruct (sees_expectPeek LPAREN p2 _ _ _ Hs2 eq_refl)
      as (p3 & E3 & He3 & Hs3).
    rewrite (bind_Ok _ _ _ _ _ E3). cbn [negb].
    destruct (sees_nextToken _ _ _ Hs3) as (p4 & E4 & He4 & Hs4).
    rewrite (bind_Ok _ _ _ _ _ E4).
    destruct (Hm f LOWEST p4 RPAREN_token _ ltac:(lia) Hs4)
      as (p5 & E5 & He5 & Hs5).
    { vm_compute. lia. }
    rewrite (bind_Ok _ _ _ _ _ E5). cbv iota.
    destruct (sees_expectPeek RPAREN p5 _ _ _ Hs5 eq_refl)
      as (p6 & E6 & He6 & Hs6).
    rewrite (bind_Ok _ _ _ _ _ E6). cbn [negb].
    destruct (parseBranch_tokens f n (parseStatement f) p6 _ b _
                Hb Hn ltac:(lia) Hs6) as (p7 & E7 & He7 & Hs7).
    rewrite (bind_Ok _ _ _ _ _ E7). cbv iota.
    destruct (Hkr f tok c t (acc ++ [mkElseIfClause (Some cond) (Some b)])%list
                p7 more ltac:(lia) Hs7 Hne) as (p8 & E8 & He8 & Hs8).
    rewrite E8, <- app_assoc. cbn [app].
    exists p8. split; [reflexivity|]. split; [congruence|assumption].
Qed.

Lemma parseIfStatement_tokens (fuel n m k : nat) (p : Parser)
  (tok : Token) (cond : Expression) (b : BlockStatement)
  (clauses : list ElseIfClause) (elseB : option BlockStatement)
  (more : list Token) :
  complete cond -> expr_parses cond m -> m <= fuel ->
  block_ok b -> block_parses b n -> n <= fuel ->
  (forall tok c t acc p more,
     sees p (RBRACE_token :: flat_map clause_tokens clauses
             ++ else_tokens elseB ++ more) ->
     (elseB = None -> not_else more) ->
     exists p',
       parseIfStatement_loop fuel (mkIfStatement tok c t acc None) p
       = Ok (Some (mkIfStatement tok c t (acc ++ clauses)%list elseB), p')
       /\ errors p' = errors p
       /\ sees p' (RBRACE_token :: more)) ->
  sees p (tok :: LPAREN_token :: expr_tokens cond
          ++ RPAREN_token :: block_tokens b
          ++ flat_map clause_tokens clauses ++ else_tokens elseB ++ more) ->
  (elseB = None -> not_else more) ->
  exists p',
    parseIfStatement fuel (parseStatement fuel)
      (parseBlockStatement_loop fuel) (parseIfStatement_loop fuel) p
    = Ok (Some (mkIfStatement tok (Some cond) (Some b) clauses elseB), p')
    /\ errors p' = errors p /\ sees p' (RBRACE_token :: more).
Proof.
  intros Hc Hm Hfm Hb Hn Hf Hloop Hs Hne.
  unfold parseIfStatement. rewrite bind_get. cbv zeta.
  destruct (sees_expectPeek LPAREN p _ _ _ Hs eq_refl)
    as (p1 & E1 & He1 & Hs1).
  rewrite (bind_Ok _ _ _ _ _ E1). cbn [negb].
  destruct (sees_nextToken _ _ _ Hs1) as (p2 & E2 & He2 & Hs2).
  rewrite (bind_Ok _ _ _ _ _ E2).
  destruct (Hm fuel LOWEST p2 RPAREN_token _ Hfm Hs2)
    as (p3 & E3 & He3 & Hs3).
  { vm_compute. lia. }
  rewrite (bind_Ok _ _ _ _ _ E3). cbv iota.
  destruct (sees_expectPeek RPAREN p3 _ _ _ Hs3 eq_refl)
    as (p4 & E4 & He4 & Hs4).
  rewrite (bind_Ok _ _ _ _ _ E4). cbn [negb].
  destruct (parseBranch_tokens fuel n (parseStatement fuel) p4 _ b _
              Hb Hn Hf Hs4) as (p5 & E5 & He5 & Hs5).
  rewrite (bind_Ok _ _ _ _ _ E5). cbv iota.
  destruct (Hloop (curToken p) (Some cond) (Some b) [] p5 more Hs5 Hne)
    as (p6 & E6 & He6 & Hs6).
  rewrite E6. cbn [app]. rewrite (sees_cur _ _ _ Hs).
  exists p6. split; [reflexivity|]. split; [congruence|assumption].
Qed.

(** ** Every well-formed statement *)

Lemma all_In {A : Type} (P : A -> Prop) (xs : list A) (x : A) :
  all P xs -> In x xs -> P x.
Proof.
  induction xs as [|y ys IH]; cbn [all In]; intros Hall Hin; [contradiction|].
  destruct Hall as [Hy Hys]. destruct Hin as [<-|Hin]; auto.
Qed.

Lemma flat_map_In_length {A : Type} (f : A -> list Token) (xs : list A)
  (x : A) :
  In x xs -> List.length (f x) <= List.length (flat_map f xs).
Proof.
  induction xs as [|y ys IH]; cbn [In flat_map]; intros Hin; [contradiction|].
  rewrite List.length_app. destruct Hin as [<-|Hin]; [lia|].
  specialize (IH Hin). lia.
Qed.

Lemma block_sub (N : nat) :
  (forall s, List.length (stmt_tokens s) < N -> stmt_ok s ->
             exists k, stmt_parses s k) ->
  forall b, block_ok b -> List.length (block_tokens b) <= N ->
            exists k, block_parses b k.
Proof.
  intros IH [tok stmts] Hb Hlen. apply block_of_stmts; [exact Hb|].
  intros s Hin. destruct Hb as [_ Hall].
  apply IH; [|exact (all_In _ _ _ Hall Hin)].
  pose proof (flat_map_In_length stmt_tokens stmts s Hin) as Hle.
  cbn [block_tokens List.length] in Hlen.
  rewrite List.length_app in Hlen. cbn [List.length] in Hlen. lia.
Qed.

Lemma loop_parses (n : nat) (tok : Token) (b : BlockStatement) :
  Type_ tok = LOOP -> block_ok b -> block_parses b n ->
  stmt_parses (LoopStatementPtr (Some (mkLoopStatement tok (Some b))))
    (n + 2).
Proof.
  intros Hty Hb Hn [|[|f]] p more Hf Hs _; try lia.
  cbn [stmt_tokens] in *. last_block [tok] b.
  cbn [app] in Hs.
  stmt_start Hs Hty.
  destruct (parseLoopStatement_tokens (S f) n p tok b more Hb Hn
              ltac:(lia) Hs) as (p' & E & He & Hs').
  rewrite (bind_Ok _ _ _ _ _ E). exists p'. auto.
Qed.

Lemma while_parses (n : nat) (tok : Token) (cond : Expression)
  (b : BlockStatement) :
  Type_ tok = WHILE -> complete cond -> block_ok b -> block_parses b n ->
  exists k,
    stmt_parses
      (WhileStatementPtr (Some (mkWhileStatement tok (Some b) (Some cond))))
      k.
Proof.
  intros Hty Hc Hb Hn.
  destruct (complete_expr_parses cond Hc) as [m Hm].
  exists (n + m + 2). intros [|[|f]] p more Hf Hs _; try lia.
  cbn [stmt_tokens opt_expr_tokens] in *.
  last_block (tok :: LPAREN_token :: expr_tokens cond ++ [RPAREN_token])%list
    b.
  cbn [app] in Hs. repeat (rewrite <- app_assoc in Hs; cbn [app] in Hs).
  stmt_start Hs Hty.
  destruct (parseWhileStatement_tokens (S f) n m p tok cond b more Hc Hm
              ltac:(lia) Hb Hn ltac:(lia) Hs) as (p' & E & He & Hs').
  rewrite (bind_Ok _ _ _ _ _ E). exists p'. auto.
Qed.

Lemma for_parses (n : nat) (tok : Token) (ident : Identifier)
  (iterable : Expression) (b : BlockStatement) :
  Type_ tok = FOR -> name_ok ident -> complete iterable ->
  block_ok b -> block_parses b n ->
  exists k,
    stmt_parses
      (ForStatementPtr
         (Some (mkForStatement tok (Some ident) (Some iterable) (Some b))))
      k.
Proof.
  intros Hty Hid Hc Hb Hn.
  destruct (complete_expr_parses iterable Hc) as [m Hm].
  exists (n + m + 2). intros [|[|f]] p more Hf Hs _; try lia.
  cbn [stmt_tokens opt_expr_tokens name_tokens] in *.
  last_block (tok :: LPAREN_token :: ident_Token ident :: IN_token
              :: expr_tokens iterable ++ [RPAREN_token])%list b.
  cbn [app] in Hs. repeat (rewrite <- app_assoc in Hs; cbn [app] in Hs).
  stmt_start Hs Hty.
  destruct (parseForStatement_tokens (S f) n m p tok ident iterable b more
              Hid Hc Hm ltac:(lia) Hb Hn ltac:(lia) Hs)
    as (p' & E & He & Hs').
  rewrite (bind_Ok _ _ _ _ _ E). exists p'. auto.
Qed.

Lemma function_parses (n : nat) (tok : Token) (name : Identifier)
  (params : list FnParameter) (returnType : Token) (b : BlockStatement) :
  (Type_ tok = FUNC /\ returnType = mkToken VOID "void")
  \/ (Type_ tok = TYPE /\ returnType = tok) ->
  name_ok name -> all fn_param_ok params ->
  block_ok b -> block_parses b n ->
  exists k,
    stmt_parses
      (FunctionStatementPtr
         (Some (mkFunctionStatement tok (Some name) params returnType
                  (Some b)))) k.
Proof.
  intros Hty Hnm Hps Hb Hn.
  exists (n + List.length params + 2).
  intros [|[|f]] p more Hf Hs _; try lia.
  cbn [stmt_tokens name_tokens] in *.
  last_block (tok :: ident_Token name :: LPAREN_token
              :: param_tokens (map param_pair params)
              ++ [RPAREN_token])%list b.
  cbn [app] in Hs. repeat (rewrite <- app_assoc in Hs; cbn [app] in Hs).
  destruct (parseFunctionStatement_tokens (S f) n p tok name params b more
              Hnm Hps ltac:(lia) Hb Hn ltac:(lia) Hs)
    as (p' & E & He & Hs').
  exists p'. split; [|auto].
  destruct Hty as [[Hty ->]|[Hty ->]]; rewrite Hty in E; stmt_start Hs Hty.
  - rewrite (bind_Ok _ _ _ _ _ E). reflexivity.
  - rewrite (sees_peekTokenIs _ _ _ _ IDENT Hs), (proj1 Hnm). kinds.
    unfold peekPeekIs. rewrite (sees_peek2 _ _ _ _ _ Hs).
    cbn [LPAREN_token Type_]. kinds.
    rewrite (bind_Ok _ _ _ _ _ E). reflexivity.
Qed.

Lemma if_parses (tok : Token) (cond : Expression) (b : BlockStatement)
  (clauses : list ElseIfClause) (elseB : option BlockStatement) :
  Type_ tok = IF -> complete cond -> block_ok b ->
  (exists n, block_parses b n) ->
  all clause_ok clauses ->
  (forall c b, In c clauses ->
     match c with mkElseIfClause _ x => x end = Some b ->
     exists n, block_parses b n) ->
  match elseB with
  | Some b => block_ok b /\ exists n, block_parses b n
  | None => True
  end ->
  exists k,
    stmt_parses
      (IfStatementPtr
         (Some (mkIfStatement tok (Some cond) (Some b) clauses elseB))) k.
Proof.
  intros Hty Hc Hb [n Hn] Hall Hblocks Helse.
  destruct (complete_expr_parses cond Hc) as [m Hm].
  destruct (if_loop_parses clauses elseB Hall Hblocks Helse) as [k Hk].
  exists (n + m + k + 2). intros [|[|f]] p more Hf Hs Hne; try lia.
  rewrite stmt_tokens_if in *.
  cbn [opt_expr_tokens opt_block_tokens] in *.
  cbn [app] in Hs. repeat (rewrite <- app_assoc in Hs; cbn [app] in Hs).
  stmt_start Hs Hty.
  destruct (parseIfStatement_tokens (S f) n m k p tok cond b clauses elseB
              more Hc Hm ltac:(lia) Hb Hn ltac:(lia)) as (p' & E & He & Hs');
    auto.
  { intros tok0 c0 t0 acc0 p0 more0 Hs0 Hne0.
    apply (Hk (S f)); auto. lia. }
  rewrite (bind_Ok _ _ _ _ _ E). exists p'. split; [reflexivity|].
  split; [assumption|].
  replace (last (tok :: LPAREN_token
                 :: expr_tokens cond ++ RPAREN_token
                 :: block_tokens b ++ flat_map clause_tokens clauses
                 ++ else_tokens elseB)%list zeroToken)
    with RBRACE_token; [exact Hs'|].
  symmetry. clear -Hall Helse.
  destruct elseB as [eb|].
  - transitivity
      (last ((tok :: LPAREN_token
              :: expr_tokens cond ++ RPAREN_token
              :: block_tokens b ++ flat_map clause_tokens clauses
              ++ [ELSE_token]) ++ block_tokens eb)%list zeroToken);
      [|apply last_block_tokens].
    f_equal. cbn [app else_tokens].
    repeat (rewrite <- app_assoc; cbn [app]). reflexivity.
  - cbn [else_tokens]. rewrite app_nil_r.
    induction clauses as [|[c0 [b0|]] rest IH] using rev_ind.
    + cbn [flat_map]. rewrite app_nil_r.
      transitivity
        (last ((tok :: LPAREN_token :: expr_tokens cond ++ [RPAREN_token])
               ++ block_tokens b)%list zeroToken);
        [|apply last_block_tokens].
      f_equal. cbn [app]. rewrite <- app_assoc. reflexivity.
    + rewrite flat_map_app. cbn [flat_map clause_tokens opt_block_tokens].
      rewrite app_nil_r.
      transitivity
        (last ((tok :: LPAREN_token
                :: expr_tokens cond ++ RPAREN_token
                :: block_tokens b ++ flat_map clause_tokens rest
                ++ ELSE_token :: IF_token :: LPAREN_token
                :: opt_expr_tokens c0 ++ [RPAREN_token])
               ++ block_tokens b0)%list zeroToken);
        [|apply last_block_tokens].
      f_equal. cbn [app].
      repeat (rewrite <- app_assoc; cbn [app]). reflexivity.
    + exfalso. clear IH.
      assert (Hin : In (mkElseIfClause c0 None)
                      (rest ++ [mkElseIfClause c0 None]))
        by (apply in_or_app; right; left; reflexivity).
      pose proof (all_In _ _ _ Hall Hin) as Hbad.
      destruct c0; exact Hbad.
Qed.

Lemma stmt_ok_parses_gen (N : nat) :
  forall s, List.length (stmt_tokens s) < N -> stmt_ok s ->
            exists k, stmt_parses s k.
Proof.
  induction N as [|N IH]; intros s Hlen Hok; [lia|].
  pose proof (block_sub N IH) as Hblock.
  destruct s as [[[tok [e|]]|]|[[tok [name|] [e|]]|]|[[tok value]|]|[b|]
                |[c|]|b|[[tok cond thenB elseIfs elseB]|]
                |[[tok [block|] [cond|]]|]|[[tok [block|]]|]
                |[[tok [ident|] [iterable|] [block|]]|]
                |[[tok [name|] params returnType [body|]]|]];
    try (cbn [stmt_ok] in Hok; tauto).
  - (* expression statement *)
    cbn [stmt_ok] in Hok. destruct Hok as (Hc & -> & Hnv).
    now apply expression_statement_parses.
  - (* declaration *)
    cbn [stmt_ok] in Hok. destruct Hok as (Hty & Hnm & Hc).
    now apply declaration_parses.
  - (* return *)
    cbn [stmt_ok] in Hok. destruct Hok as (Hty & Hv).
    now apply return_parses.
  - exists 2. now apply break_parses.
  - exists 2. now apply continue_parses.
  - (* if *)
    destruct (stmt_ok_if _ _ _ _ _ Hok)
      as (c & b & -> & -> & Hty & Hc & Hb & Hall & He).
    rewrite stmt_tokens_if in Hlen.
    cbn [opt_expr_tokens opt_block_tokens List.length] in Hlen.
    rewrite !List.length_app in Hlen. cbn [List.length] in Hlen.
    rewrite !List.length_app in Hlen.
    apply if_parses; auto.
    + apply Hblock; [assumption|lia].
    + intros [c0 x] b0 Hin Hx. cbn in Hx. subst x.
      pose proof (all_In _ _ _ Hall Hin) as Hcl.
      destruct c0 as [c0|]; [|contradiction]. destruct Hcl as [_ Hb0].
      apply Hblock; [assumption|].
      pose proof (flat_map_In_length clause_tokens elseIfs _ Hin) as Hle.
      cbn [clause_tokens opt_block_tokens List.length] in Hle.
      rewrite !List.length_app in Hle. cbn [List.length] in Hle. lia.
    + destruct elseB as [eb|]; [|trivial]. split; [assumption|].
      apply Hblock; [assumption|].
      cbn [else_tokens List.length] in Hlen. lia.
  - (* while *)
    cbn [stmt_ok] in Hok. destruct Hok as (Hty & Hc & Hb).
    cbn [stmt_tokens List.length] in Hlen.
    rewrite !List.length_app in Hlen. cbn [List.length] in Hlen.
    destruct (Hblock block Hb ltac:(lia)) as [n Hn].
    now apply (while_parses n).
  - (* loop *)
    cbn [stmt_ok] in Hok. destruct Hok as (Hty & Hb).
    cbn [stmt_tokens List.length] in Hlen.
    destruct (Hblock block Hb ltac:(lia)) as [n Hn].
    exists (n + 2). now apply loop_parses.
  - (* for *)
    cbn [stmt_ok] in Hok. destruct Hok as (Hty & Hid & Hc & Hb).
    cbn [stmt_tokens name_tokens List.length app] in Hlen.
    rewrite !List.length_app in Hlen. cbn [List.length] in Hlen.
    destruct (Hblock block Hb ltac:(lia)) as [n Hn].
    now apply (for_parses n).
  - (* function *)
    cbn [stmt_ok] in Hok. destruct Hok as (Hty & Hnm & Hps & Hb).
    cbn [stmt_tokens name_tokens List.length app] in Hlen.
    rewrite !List.length_app in Hlen. cbn [List.length] in Hlen.
    destruct (Hblock body Hb ltac:(lia)) as [n Hn].
    now apply (function_parses n).
Qed.

Lemma stmt_ok_parses (s : Statement) :
  stmt_ok s -> exists k, stmt_parses s k.
Proof. apply (stmt_ok_parses_gen (S (List.length (stmt_tokens s)))). lia. Qed.

(** A result of [parseStatement] or of [ParseProgram] at some budget is
    its result at every budget that suffices for the input. *)
Lemma parseStatement_at_budget (n fuel : nat) (p : Parser)
  (r : option Statement * Parser) :
  parser_ok p -> 3 * togo p + 3 <= fuel ->
  parseStatement n p = Ok r ->
  parseStatement fuel p = Ok r.
Proof.
  intros Hok Hf H.
  destruct (Nat.le_ge_cases n fuel) as [Hle|Hge].
  - exact (proj1 (parseStatement_mono n fuel Hle) p r H).
  - pose proof (parseStatement_spec fuel p Hok Hf) as Hwp.
    unfold wp in Hwp.
    destruct (parseStatement fuel p) as [r'| |] eqn:E;
      try contradiction.
    pose proof (proj1 (parseStatement_mono fuel n Hge) p r' E) as E'.
    congruence.
Qed.

Lemma ParseProgram_at_budget (n fuel : nat) (p : Parser)
  (r : Program * Parser) :
  parser_ok p -> 3 * togo p + 4 <= fuel ->
  ParseProgram n p = Ok r ->
  ParseProgram fuel p = Ok r.
Proof.
  intros Hok Hf H.
  destruct (Nat.le_ge_cases n fuel) as [Hle|Hge].
  - exact (ParseProgram_mono n fuel Hle p r H).
  - pose proof (ParseProgram_total fuel p Hok Hf) as Hwp.
    unfold wp in Hwp.
    destruct (ParseProgram fuel p) as [r'| |] eqn:E;
      try contradiction.
    pose proof (ParseProgram_mono fuel n Hge p r' E) as E'.
    congruence.
Qed.

(** X14.  Parsing inverts writing for statements: on the tokens of a
    well-formed statement of any size and nesting (expression statement,
    declaration, return, break, continue, if with else-if clauses and
    else, while, loop, for, function), followed by a token that is no
    [else], [parseStatement] returns exactly that statement, reports no
    error and stops on the last token of the statement. *)
Theorem statement_round_trip :
  forall (s : Statement) (p : Parser) (more : list Token) (fuel : nat),
    stmt_ok s ->
    sees p (stmt_tokens s ++ more) ->
    not_else more ->
    3 * togo p + 3 <= fuel ->
    exists p',
      parseStatement fuel p = Ok (Some s, p')
      /\ errors p' = errors p
      /\ sees p' (last (stmt_tokens s) zeroToken :: more).
Proof.
  intros s p more fuel Hok Hs Hne Hf.
  destruct (stmt_ok_parses s Hok) as [k Hk].
  destruct (Hk k p more (Nat.le_refl _) Hs Hne) as (p' & E & He & Hs').
  exists p'. split; [|auto].
  exact (parseStatement_at_budget k fuel p _ (sees_ok _ _ Hs) Hf E).
Qed.

(** ** Programs *)

Lemma ParseProgram_loop_S (f : nat) (stmts : list Statement) :
  ParseProgram_loop (S f) stmts
  = ParseProgram_loop_body f (ParseProgram_loop f) stmts.
Proof. reflexivity. Qed.

Lemma program_loop_parses (stmts : list Statement) :
  all stmt_ok stmts ->
  exists k,
    forall fuel acc p more,
      k <= fuel ->
      sees p (flat_map stmt_tokens stmts ++ EOF_token :: more) ->
      exists p',
        ParseProgram_loop fuel acc p = Ok ((acc ++ stmts)%list, p')
        /\ errors p' = errors p
        /\ sees p' (EOF_token :: more).
Proof.
  induction stmts as [|s rest IH]; intros Hall.
  - exists 1. intros [|f] acc p more Hf Hs; [lia|].
    cbn [flat_map app] in Hs.
    rewrite ParseProgram_loop_S.
    unfold ParseProgram_loop_body. rewrite bind_get.
    rewrite (sees_curTokenIs _ _ _ EOF Hs). cbn [EOF_token Type_].
    kinds. exists p. rewrite app_nil_r. auto.
  - destruct Hall as [Hok Hall].
    destruct (IH Hall) as [kr Hkr].
    destruct (stmt_ok_parses s Hok) as [ks Hks].
    exists (S (S (ks + kr))). intros [|[|f]] acc p more Hf Hs; try lia.
    cbn [flat_map] in Hs. rewrite <- app_assoc in Hs.
    rewrite ParseProgram_loop_S.
    unfold ParseProgram_loop_body. rewrite bind_get.
    destruct (stmt_tokens_start s Hok) as (t0 & rest0 & E0 & Hk0).
    pose proof Hs as Hs0. rewrite E0 in Hs0. cbn [app] in Hs0.
    assert (Heof : curTokenIs EOF p = false).
    { unfold curTokenIs. rewrite (sees_cur _ _ _ Hs0).
      apply (stmt_start_not _ EOF Hk0). not_start. }
    assert (Hill : curTokenIs ILLEGAL p = false).
    { unfold curTokenIs. rewrite (sees_cur _ _ _ Hs0).
      apply (stmt_start_not _ ILLEGAL Hk0). not_start. }
    rewrite Heof. cbn [negb].
    rewrite (bind_Ok _ _ _ _ _ (skipWhitespaceTokens_noop f p Hill)).
    rewrite bind_get, Heof.
    destruct (Hks (S f) p _ ltac:(lia) Hs) as (p1 & E1 & He1 & Hs1).
    { apply not_else_stmts; [assumption|discriminate]. }
    rewrite (bind_Ok _ _ _ _ _ E1).
    destruct (sees_nextToken _ _ _ Hs1) as (p2 & E2 & He2 & Hs2).
    rewrite (bind_Ok _ _ _ _ _ E2). cbn [append_stmt].
    destruct (Hkr (S f) (acc ++ [s])%list p2 more ltac:(lia) Hs2)
      as (p3 & E3 & He3 & Hs3).
    exists p3. rewrite E3, <- app_assoc. cbn [app].
    split; [reflexivity|]. split; [congruence|assumption].
Qed.

Lemma firstn_tokens (n m : nat) (l : Lexer) (ts : list Token) :
  tokens (n + m) l = Some ts -> tokens n l = Some (firstn n ts).
Proof.
  revert l ts; induction n as [|n IH]; intros l ts H.
  - reflexivity.
  - cbn [Nat.add] in H. rewrite tokens_S in *.
    destruct (NextToken l) as [[t l1]|]; [|discriminate].
    destruct (tokens (n + m) l1) as [ts'|] eqn:E; [|discriminate].
    injection H as <-. rewrite (IH l1 ts' E). reflexivity.
Qed.

(** The parser [NewParser] builds sees the tokens of the source. *)
Lemma NewParser_sees (source : string) (ts : list Token) :
  tokens (List.length ts) (NewLexer source) = Some ts ->
  exists p,
    NewParser (NewLexer source) = Ok p /\ errors p = [] /\ sees p ts
    /\ togo p <= String.length source + 3.
Proof.
  intros H.
  destruct (NewParser_total (NewLexer source) (NewLexer_ok source))
    as (p & E & Hok & He & Ht).
  exists p. split; [exact E|]. split; [exact He|]. split.
  2:{ unfold remaining in Ht. simpl in Ht. lia. }
  split; [exact Hok|].
  unfold NewParser in E.
  destruct ((nextToken;; nextToken;; nextToken)
              {| lexer := NewLexer source; curToken := zeroToken;
                 peekToken := zeroToken; peekPeek := zeroToken;
                 errors := [] |}) as [[u q]| |] eqn:E3; try discriminate.
  injection E as ->.
  apply bind_inv in E3 as ([] & p1 & E1 & E3).
  apply bind_inv in E3 as ([] & p2 & E2 & E3).
  unfold nextToken in E1, E2, E3. cbn [lexer] in E1.
  destruct (NextToken (NewLexer source)) as [[t1 l1]|] eqn:N1;
    [|discriminate].
  injection E1 as <-. cbn [lexer peekToken peekPeek] in E2.
  destruct (NextToken l1) as [[t2 l2]|] eqn:N2; [|discriminate].
  injection E2 as <-. cbn [lexer peekToken peekPeek] in E3.
  destruct (NextToken l2) as [[t3 l3]|] eqn:N3; [|discriminate].
  injection E3 as E3. subst p.
  unfold stream. cbn [lexer curToken peekToken peekPeek].
  destruct ts as [|a [|b [|c ts]]].
  - reflexivity.
  - cbn in H |- *. rewrite N1 in H. now injection H as <-.
  - cbn in H |- *. rewrite N1, N2 in H. now injection H as <- <-.
  - cbn [List.length] in *.
    replace (S (S (S (List.length ts))) - 3) with (List.length ts) by lia.
    rewrite tokens_S, N1, tokens_S, N2, tokens_S, N3 in H.
    destruct (tokens (List.length ts) l3) as [xs|] eqn:Ex; [|discriminate].
    injection H as <- <- <- <-. cbn [firstn]. do 4 f_equal.
    apply firstn_all.
Qed.

(** X15.  Parsing inverts writing for programs: when the lexer turns a
    source text into the tokens of well-formed statements followed by
    [EOF], [Parse] returns the program made of exactly these statements
    and reports no error. *)
Theorem program_round_trip :
  forall (source : string) (stmts : list Statement),
    all stmt_ok stmts ->
    tokens (S (List.length (flat_map stmt_tokens stmts))) (NewLexer source)
    = Some (flat_map stmt_tokens stmts ++ [EOF_token])%list ->
    exists p',
      Parse source = Ok (mkProgram stmts, p') /\ GetErrors p' = [].
Proof.
  intros source stmts Hall Htok.
  destruct (NewParser_sees source
              (flat_map stmt_tokens stmts ++ [EOF_token])%list)
    as (p & E & He & Hs & Ht).
  { rewrite List.length_app. cbn [List.length].
    now rewrite Nat.add_1_r. }
  destruct (program_loop_parses stmts Hall) as [k Hk].
  destruct (Hk k [] p [] (Nat.le_refl _) Hs) as (p' & E' & He' & Hs').
  exists p'. split; [|unfold GetErrors; congruence].
  unfold Parse, parse_source. rewrite E.
  apply (ParseProgram_at_budget k _ p _ (sees_ok _ _ Hs)).
  - unfold enough_fuel. lia.
  - unfold ParseProgram. rewrite (bind_Ok _ _ _ _ _ E'). reflexivity.
Qed.

(** ** What goes unreported *)

Lemma parseBlockStatement_loop_at_budget (n fuel : nat)
  (stmts : list Statement) (p : Parser) (r : list Statement * Parser) :
  parser_ok p -> 3 * togo p + 4 <= fuel ->
  parseBlockStatement_loop n stmts p = Ok r ->
  parseBlockStatement_loop fuel stmts p = Ok r.
Proof.
  intros Hok Hf H.
  destruct (Nat.le_ge_cases n fuel) as [Hle|Hge].
  - exact (proj1 (proj2 (parseStatement_mono n fuel Hle)) stmts p r H).
  - pose proof (proj1 (proj2 (parseStatement_total fuel)) stmts p Hok Hf)
      as Hwp.
    unfold wp in Hwp.
    destruct (parseBlockStatement_loop fuel stmts p) as [r'| |] eqn:E;
      try contradiction.
    pose proof (proj1 (proj2 (parseStatement_mono fuel n Hge)) stmts p r' E)
      as E'.
    congruence.
Qed.

(** X16.  A missing closing brace is not reported: when the input ends
    after the well-formed statements of a block, [parseBlockStatement]
    returns the block of exactly these statements, as it does before a
    closing brace, and adds no error. *)
Theorem unclosed_block_is_accepted :
  forall (tok : Token) (stmts : list Statement) (p : Parser)
         (more : list Token) (fuel : nat),
    all stmt_ok stmts ->
    sees p (tok :: flat_map stmt_tokens stmts ++ EOF_token :: more) ->
    3 * togo p + 4 <= fuel ->
    exists p',
      parseBlockStatement (parseBlockStatement_loop fuel) p
      = Ok (mkBlockStatement tok stmts, p')
      /\ errors p' = errors p
      /\ sees p' (EOF_token :: more).
Proof.
  intros tok stmts p more fuel Hall Hs Hf.
  destruct (block_loop_parses stmts EOF_token (or_intror eq_refl) Hall)
    as [k Hk].
  { intros s Hin. apply stmt_ok_parses. exact (all_In _ _ _ Hall Hin). }
  unfold parseBlockStatement. rewrite bind_get. cbv zeta.
  destruct (nextToken_spec p (sees_ok _ _ Hs))
    as (p1 & E1 & Hok1 & He1 & _ & _ & Ht1).
  destruct (sees_nextToken _ _ _ Hs) as (p1' & E1' & _ & Hs1).
  assert (p1' = p1) by congruence. subst p1'.
  rewrite (bind_Ok _ _ _ _ _ E1).
  destruct (Hk k [] p1 more (Nat.le_refl _) Hs1) as (p2 & E2 & He2 & Hs2).
  rewrite (bind_Ok _ _ _ _ _
             (parseBlockStatement_loop_at_budget k fuel [] p1 _ Hok1
                ltac:(lia) E2)).
  unfold ret. cbn [app]. rewrite (sees_cur _ _ _ Hs).
  exists p2. split; [reflexivity|]. split; [congruence|assumption].
Qed.

(* ================================================================== *)
(** * Printing an expression and reading it back *)
(* ================================================================== *)

Lemma str_app_assoc (a b c : string) :
  ((a ++ b) ++ c)%string = (a ++ b ++ c)%string.
Proof. induction a as [|x a IH]; simpl; congruence. Qed.

Lemma feeds_app (ts1 ts2 : list Token) :
  forall l l1 l2,
    feeds l ts1 l1 -> feeds l1 ts2 l2 -> feeds l (ts1 ++ ts2) l2.
Proof.
  induction ts1 as [|t ts1 IH]; intros l l1 l2 H1 H2; cbn [feeds app] in *.
  - now subst l1.
  - destruct H1 as (l' & E & H1). exists l'. split; [exact E|]. eauto.
Qed.

Lemma feeds_tokens (ts : list Token) (n : nat) :
  forall l l',
    feeds l ts l' ->
    tokens (List.length ts + n) l
    = match tokens n l' with
      | Some r => Some (ts ++ r)%list
      | None => None
      end.
Proof.
  induction ts as [|t ts IH]; intros l l' H; cbn [feeds] in H.
  - subst l'. cbn [List.length Nat.add app].
    now destruct (tokens n l).
  - destruct H as (l1 & E & H). cbn [List.length Nat.add].
    rewrite tokens_S, E, (IH l1 l' H).
    now destruct (tokens n l').
Qed.

Lemma lexes_app (D1 D2 : string -> Prop) (s1 s2 : string)
  (ts1 ts2 : list Token) :
  lexes D1 s1 ts1 -> lexes D2 s2 ts2 ->
  (forall rest, D2 rest -> D1 (s2 ++ rest)%string) ->
  lexes D2 (s1 ++ s2) (ts1 ++ ts2).
Proof.
  intros H1 H2 HD pre rest Hrest.
  specialize (H1 pre (s2 ++ rest)%string (HD rest Hrest)).
  specialize (H2 (pre ++ s1)%string rest Hrest).
  rewrite length_app, !str_app_assoc in H2.
  rewrite length_app, !str_app_assoc, Nat.add_assoc.
  eapply feeds_app; eassumption.
Qed.

Lemma lexes_weaken (D1 D2 : string -> Prop) (s : string)
  (ts : list Token) :
  lexes D1 s ts -> (forall rest, D2 rest -> D1 rest) -> lexes D2 s ts.
Proof. intros H HD pre rest Hrest. apply H, HD, Hrest. Qed.

(** From one step of the lexer at the start of an input to the same
    step anywhere. *)
Lemma lexes_of_step (D : string -> Prop) (s : string) (t : Token) :
  (forall rest, D rest ->
     NextToken (lexer_at (s ++ rest) 0)
     = Some (t, lexer_at (s ++ rest) (String.length s))) ->
  lexes D s [t].
Proof.
  intros H pre rest Hrest. cbn [feeds].
  eexists. split; [|reflexivity].
  rewrite <- (Nat.add_0_r (String.length pre)) at 1.
  rewrite NextToken_behind, (H rest Hrest). reflexivity.
Qed.

Lemma NextToken_after_space (l : Lexer) :
  lexer_ok l -> isSpace (ch l) = true ->
  NextToken l = NextToken (readChar l).
Proof.
  intros Hok Hsp.
  rewrite <- (NextToken_skipWhitespace l),
    <- (NextToken_skipWhitespace (readChar l)).
  now rewrite (skipWhitespace_readChar l Hok Hsp).
Qed.

Lemma lexes_space (D : string -> Prop) (s : string) (t : Token)
  (ts : list Token) :
  lexes D s (t :: ts) -> lexes D (String " "%char s) (t :: ts).
Proof.
  intros H pre rest Hrest.
  specialize (H (pre ++ " ")%string rest Hrest).
  rewrite length_app, str_app_assoc in H. cbn [String.length] in H.
  cbn [append] in H.
  change (String " "%char s ++ rest)%string
    with (String " "%char (s ++ rest))%string.
  cbn [String.length].
  replace (String.length pre + S (String.length s))
    with (String.length pre + 1 + String.length s) by lia.
  cbn [feeds] in *. destruct H as (l1 & E & H).
  exists l1. split; [|exact H].
  rewrite NextToken_after_space.
  - rewrite readChar_at. rewrite <- E. do 2 f_equal. lia.
  - apply lexer_at_ok.
  - rewrite ch_at. rewrite <- (Nat.add_0_r (String.length pre)).
    rewrite byte_at_app_right. reflexivity.
Qed.

(** ** One token *)

(** Deciding the comparisons of bytes that are known. *)
Ltac asciis :=
  repeat match goal with
  | |- context [Ascii.eqb ?a ?b] =>
      let v := eval vm_compute in (Ascii.eqb a b) in
      match v with
      | true => change (Ascii.eqb a b) with true
      | false => change (Ascii.eqb a b) with false
      end
  end;
  cbv iota.

Lemma skipWhitespace_at_token (s : string) (i : nat) :
  isSpace (byte_at s i) = false ->
  skipWhitespace (lexer_at s i) = lexer_at s i.
Proof. intros H. unfold skipWhitespace. now apply readWhile_false. Qed.

Lemma NextToken_operator (txt : string) (K : TokenType) (rest : string) :
  In (txt, K) (("(", LPAREN) :: (")", RPAREN) :: binary_operators) ->
  NextToken (lexer_at (txt ++ rest) 0)
  = Some (mkToken K txt, lexer_at (txt ++ rest) (String.length txt)).
Proof.
  intros H. simpl in H.
  repeat (destruct H as [H|H];
          [ injection H as <- <-; cbn [append String.length];
            unfold NextToken;
            rewrite skipWhitespace_at_token by reflexivity;
            rewrite ch_at; cbn [byte_at get]; asciis;
            unfold double, single;
            rewrite ?peekChar_at; cbn [byte_at get]; asciis;
            rewrite ?readChar_at, ?ch_at; reflexivity
          | ]).
  contradiction.
Qed.

Lemma readWhile_run (cond : ascii -> bool) (inp : string) (n : nat) :
  forall a fuel,
    (forall i, i < n -> cond (byte_at inp (a + i)) = true) ->
    cond (byte_at inp (a + n)) = false ->
    n <= fuel ->
    readWhile cond fuel (lexer_at inp a) = lexer_at inp (a + n).
Proof.
  induction n as [|n IH]; intros a fuel Hrun Hstop Hf.
  - rewrite Nat.add_0_r in *. now apply readWhile_false.
  - destruct fuel as [|fuel]; [lia|].
    rewrite readWhile_S, ch_at.
    pose proof (Hrun 0 ltac:(lia)) as H0. rewrite Nat.add_0_r in H0.
    rewrite H0, readChar_at.
    replace (a + S n) with (S a + n) in * by lia.
    apply IH; [|assumption|lia].
    intros i Hi. replace (S a + i) with (a + S i) by lia.
    apply Hrun. lia.
Qed.

Lemma eqb_by_class (f : ascii -> bool) (c x : ascii) :
  f c = true -> f x = false -> Ascii.eqb c x = false.
Proof.
  intros Hc Hx. destruct (Ascii.eqb c x) eqn:E; auto.
  apply Ascii.eqb_eq in E. congruence.
Qed.

Lemma digit_not_letter (c : ascii) : isDigit c = true -> isLetter c = false.
Proof.
  destruct c as [[] [] [] [] [] [] [] []]; vm_compute; congruence.
Qed.

(** Stepping through the cases of [NextToken] for a byte that is a
    letter, or a digit. *)
Ltac skip_cases f Hc :=
  repeat match goal with
  | |- context [Ascii.eqb ?c ?x] =>
      rewrite (eqb_by_class f c x Hc eq_refl)
  end.

Lemma NextToken_name (s rest : string) :
  s <> EmptyString -> string_forallb isLetter s = true ->
  isLetter (byte_at rest 0) = false ->
  NextToken (lexer_at (s ++ rest) 0)
  = Some (mkToken (lookupIdent s) s,
          lexer_at (s ++ rest) (String.length s)).
Proof.
  intros Hne Hs Hrest.
  assert (Hlen : 0 < String.length s) by (destruct s; simpl; [congruence|lia]).
  assert (Hc : isLetter (byte_at (s ++ rest) 0) = true).
  { rewrite byte_at_app_left by assumption.
    now apply string_forallb_byte_at. }
  assert (Hrun : readWhile isLetter (loop_bound (lexer_at (s ++ rest) 0))
                   (lexer_at (s ++ rest) 0)
                 = lexer_at (s ++ rest) (String.length s)).
  { apply (readWhile_run isLetter (s ++ rest) (String.length s) 0).
    - intros i Hi. cbn [Nat.add]. rewrite byte_at_app_left by assumption.
      now apply string_forallb_byte_at.
    - cbn [Nat.add]. rewrite <- (Nat.add_0_r (String.length s)).
      now rewrite byte_at_app_right.
    - rewrite loop_bound_at, length_app. lia. }
  unfold NextToken.
  rewrite skipWhitespace_at_token.
  2:{ unfold isSpace. skip_cases isLetter Hc. reflexivity. }
  rewrite ch_at. unfold DQUOTE, NUL. skip_cases isLetter Hc. rewrite Hc.
  unfold readIdentifier. cbv zeta. rewrite Hrun.
  rewrite input_at, !position_at.
  rewrite slice_in_range by (rewrite ?length_app; lia).
  now rewrite Nat.sub_0_r, substring_prefix.
Qed.

Lemma NextToken_digits (s rest : string) :
  s <> EmptyString -> string_forallb isDigit s = true ->
  isDigit (byte_at rest 0) = false -> byte_at rest 0 <> "."%char ->
  NextToken (lexer_at (s ++ rest) 0)
  = Some (mkToken INT s, lexer_at (s ++ rest) (String.length s)).
Proof.
  intros Hne Hs Hrest Hdot.
  assert (Hlen : 0 < String.length s) by (destruct s; simpl; [congruence|lia]).
  assert (Hc : isDigit (byte_at (s ++ rest) 0) = true).
  { rewrite byte_at_app_left by assumption.
    now apply string_forallb_byte_at. }
  assert (Hrun : readWhile isDigit (loop_bound (lexer_at (s ++ rest) 0))
                   (lexer_at (s ++ rest) 0)
                 = lexer_at (s ++ rest) (String.length s)).
  { apply (readWhile_run isDigit (s ++ rest) (String.length s) 0).
    - intros i Hi. cbn [Nat.add]. rewrite byte_at_app_left by assumption.
      now apply string_forallb_byte_at.
    - cbn [Nat.add]. rewrite <- (Nat.add_0_r (String.length s)).
      now rewrite byte_at_app_right.
    - rewrite loop_bound_at, length_app. lia. }
  unfold NextToken.
  rewrite skipWhitespace_at_token.
  2:{ unfold isSpace. skip_cases isDigit Hc. reflexivity. }
  rewrite ch_at. unfold DQUOTE, NUL. skip_cases isDigit Hc.
  rewrite (digit_not_letter _ Hc), Hc.
  unfold readNumber. cbv zeta. rewrite Hrun.
  rewrite ch_at.
  replace (byte_at (s ++ rest) (String.length s)) with (byte_at rest 0)
    by (rewrite <- (Nat.add_0_r (String.length s)) at 1;
        now rewrite byte_at_app_right).
  destruct (Ascii.eqb (byte_at rest 0) ".") eqn:E;
    [apply Ascii.eqb_eq in E; contradiction|].
  rewrite input_at, !position_at.
  rewrite slice_in_range by (rewrite ?length_app; lia).
  rewrite Nat.sub_0_r, substring_prefix.
  now rewrite (contains_dot_digits s Hs).
Qed.

Lemma NextToken_quoted (v rest : string) :
  string_forallb (fun c => negb (string_end c)) v = true ->
  NextToken (lexer_at (String DQUOTE (v ++ String DQUOTE rest)) 0)
  = Some (mkToken STRING v,
          lexer_at (String DQUOTE (v ++ String DQUOTE rest))
            (String.length v + 2)).
Proof.
  intros Hv.
  set (inp := String DQUOTE (v ++ String DQUOTE rest)).
  assert (Hat : forall i, byte_at inp (S i)
                          = byte_at (v ++ String DQUOTE rest) i)
    by reflexivity.
  destruct (readString_loop_scan (String.length v)
              (loop_bound (lexer_at inp 0)) (lexer_at inp 0)
              (lexer_at_ok inp 0)) as (H1 & H2 & H3).
  - intros i Hi. rewrite input_at, position_at. cbn [Nat.add].
    rewrite Hat, byte_at_app_left by assumption.
    apply negb_true_iff.
    exact (string_forallb_byte_at (fun c => negb (string_end c)) v i Hv Hi).
  - rewrite input_at, position_at. cbn [Nat.add].
    rewrite Hat. rewrite <- (Nat.add_0_r (String.length v)).
    now rewrite byte_at_app_right.
  - rewrite loop_bound_at. unfold inp. cbn [String.length].
    rewrite length_app. cbn [String.length]. lia.
  - rewrite NextToken_at_DQUOTE by reflexivity.
    unfold readString. cbv zeta.
    rewrite input_at, position_at in *. cbn [Nat.add] in *.
    rewrite (lexer_ok_at _ H1), H2, H3, input_at, position_at.
    rewrite slice_in_range.
    2:{ lia. }
    2:{ unfold inp. cbn [String.length]. rewrite length_app.
        cbn [String.length]. lia. }
    rewrite readChar_at.
    replace (S (String.length v) - 1) with (String.length v) by lia.
    replace (S (S (String.length v))) with (String.length v + 2) by lia.
    do 3 f_equal. unfold inp.
    change (String.substring 1 (String.length v)
              (String DQUOTE (v ++ String DQUOTE rest)))
      with (String.substring 0 (String.length v)
              (v ++ String DQUOTE rest)).
    apply substring_prefix.
Qed.

(** ** A whole expression *)

Lemma delim_letter (rest : string) :
  delim rest -> isLetter (byte_at rest 0) = false.
Proof. destruct rest as [|c r]; [reflexivity|]. intros [-> | ->]; reflexivity. Qed.

Lemma delim_digit (rest : string) :
  delim rest ->
  isDigit (byte_at rest 0) = false /\ byte_at rest 0 <> "."%char.
Proof.
  destruct rest as [|c r]; [split; [reflexivity|discriminate]|].
  intros [-> | ->]; split; (reflexivity || discriminate).
Qed.

Lemma lexes_operator (txt : string) (K : TokenType) :
  In (txt, K) (("(", LPAREN) :: (")", RPAREN) :: binary_operators) ->
  lexes anything txt [mkToken K txt].
Proof.
  intros H. apply lexes_of_step. intros rest _.
  now apply NextToken_operator.
Qed.

Lemma lexes_name (s : string) :
  s <> EmptyString -> string_forallb isLetter s = true ->
  lexes (fun rest => isLetter (byte_at rest 0) = false) s
    [mkToken (lookupIdent s) s].
Proof.
  intros Hne Hs. apply lexes_of_step. intros rest Hrest.
  now apply NextToken_name.
Qed.

Lemma lexes_digits (s : string) :
  s <> EmptyString -> string_forallb isDigit s = true ->
  lexes delim s [mkToken INT s].
Proof.
  intros Hne Hs. apply lexes_of_step. intros rest Hrest.
  destruct (delim_digit rest Hrest). now apply NextToken_digits.
Qed.

Lemma lexes_quoted (v : string) :
  string_forallb (fun c => negb (string_end c)) v = true ->
  lexes anything (in_quotes v) [mkToken STRING v].
Proof.
  intros Hv. apply lexes_of_step. intros rest _.
  unfold in_quotes. cbn [append String.length].
  rewrite str_app_assoc, length_app. cbn [append String.length].
  rewrite (NextToken_quoted v rest Hv). do 3 f_equal. lia.
Qed.

Lemma printable_complete (e : Expression) : printable e -> complete e.
Proof.
  induction e as [i|tok v|tok v|tok v|tok v|tok|tok|tok op r IHr
                 |tok op l r IHl IHr|tok x IHx] using Expression_ind';
    cbn [printable complete]; intros Hp; try contradiction.
  - destruct Hp as (Ht & _ & _ & _). rewrite Ht. auto.
  - destruct Hp as (Ht & _ & _ & Hv). auto.
  - destruct Hp as (-> & _). auto.
  - destruct Hp as [[-> ->]|[-> ->]]; auto.
  - destruct Hp as [-> | ->]; reflexivity.
  - destruct r as [r|]; [|contradiction].
    destruct Hp as (Ht & Hop & Hr). split; [|auto].
    destruct Ht as [-> | ->]; auto.
  - destruct l as [l|]; [|contradiction].
    destruct r as [r|]; [|contradiction].
    destruct Hp as (Ht & Hop & Hl & Hr). split; [|auto].
    destruct tok as [K txt]. cbn [Literal Type_] in *.
    simpl in Ht.
    repeat (destruct Ht as [Ht|Ht];
            [injection Ht as <- <-; vm_compute; lia|]).
    contradiction.
  - destruct x as [x|]; [|contradiction].
    destruct Hp as (-> & Hx). auto.
Qed.

Lemma printable_lexes (e : Expression) :
  printable e ->
  exists s, Expression_String e = Some s /\ lexes delim s (expr_tokens e).
Proof.
  induction e as [i|tok v|tok v|tok v|tok v|tok|tok|tok op r IHr
                 |tok op l r IHl IHr|tok x IHx] using Expression_ind';
    cbn [printable]; intros Hp; try contradiction.
  - (* identifier *)
    destruct i as [tok v]. cbn [ident_Token ident_Value] in Hp.
    destruct Hp as (-> & Hne & Hs & Hk).
    exists v. split; [reflexivity|]. cbn [expr_tokens ident_Token].
    rewrite <- Hk.
    apply (lexes_weaken _ _ _ _ (lexes_name v Hne Hs)), delim_letter.
  - (* integer *)
    destruct Hp as (Ht & Hne & Hs & _).
    exists (Literal tok). split; [reflexivity|]. cbn [expr_tokens].
    destruct tok as [K txt]. cbn [Type_ Literal] in *. subst K.
    now apply lexes_digits.
  - (* string *)
    destruct Hp as (-> & Hv).
    exists (in_quotes v). split; [reflexivity|]. cbn [expr_tokens].
    apply (lexes_weaken _ _ _ _ (lexes_quoted v Hv)). now intros.
  - (* boolean *)
    destruct Hp as [[-> ->]|[-> ->]]; (eexists; split; [reflexivity|]);
      cbn [expr_tokens Literal].
    + apply (lexes_weaken _ _ _ _
               (lexes_name "true" ltac:(discriminate) eq_refl)),
        delim_letter.
    + apply (lexes_weaken _ _ _ _
               (lexes_name "false" ltac:(discriminate) eq_refl)),
        delim_letter.
  - (* nil *)
    destruct Hp as [-> | ->]; (eexists; split; [reflexivity|]);
      cbn [expr_tokens Literal].
    + apply (lexes_weaken _ _ _ _
               (lexes_name "null" ltac:(discriminate) eq_refl)),
        delim_letter.
    + apply (lexes_weaken _ _ _ _
               (lexes_name "nil" ltac:(discriminate) eq_refl)),
        delim_letter.
  - (* prefix operator *)
    destruct r as [r|]; [|contradiction].
    destruct Hp as (Ht & -> & Hr).
    destruct (IHr r eq_refl Hr) as (sr & Er & Lr).
    exists ("(" ++ Literal tok ++ sr ++ ")")%string.
    split; [cbn [Expression_String]; now rewrite Er|].
    cbn [expr_tokens].
    assert (Lop : lexes anything (Literal tok) [tok]).
    { destruct Ht as [-> | ->].
      - apply (lexes_operator "-" SUB). in_list.
      - apply (lexes_operator "+" ADD). in_list. }
    pose proof (lexes_operator "(" LPAREN ltac:(in_list)) as Lopen.
    pose proof (lexes_operator ")" RPAREN ltac:(in_list)) as Lclose.
    apply (lexes_app anything delim "(" _ [LPAREN_token] _ Lopen);
      [|now intros].
    apply (lexes_app anything delim (Literal tok) _ [tok] _ Lop);
      [|now intros].
    apply (lexes_app delim delim sr ")" _ [RPAREN_token] Lr).
    + apply (lexes_weaken _ _ _ _ Lclose). now intros.
    + intros rest _. right. reflexivity.
  - (* infix operator *)
    destruct l as [l|]; [|contradiction].
    destruct r as [r|]; [|contradiction].
    destruct Hp as (Ht & -> & Hl & Hr).
    destruct (IHl l eq_refl Hl) as (sl & El & Ll).
    destruct (IHr r eq_refl Hr) as (sr & Er & Lr).
    exists ("(" ++ sl ++ " " ++ Literal tok ++ " " ++ sr ++ ")")%string.
    split; [cbn [Expression_String]; now rewrite El, Er|].
    cbn [expr_tokens].
    assert (Lop : lexes anything (String " "%char (Literal tok)) [tok]).
    { apply lexes_space. destruct tok as [K txt]. cbn [Literal Type_] in *.
      apply lexes_operator. right. right. exact Ht. }
    assert (Lr' : lexes delim (String " "%char sr) (expr_tokens r)).
    { destruct (expr_tokens_start r (printable_complete r Hr))
        as (t0 & rest0 & E0 & _).
      rewrite E0 in *. now apply lexes_space. }
    pose proof (lexes_operator "(" LPAREN ltac:(in_list)) as Lopen.
    pose proof (lexes_operator ")" RPAREN ltac:(in_list)) as Lclose.
    apply (lexes_app anything delim "(" _ [LPAREN_token] _ Lopen);
      [|now intros].
    apply (lexes_app delim delim sl _ _ _ Ll).
    2:{ intros rest _. left. reflexivity. }
    apply (lexes_app anything delim (String " "%char (Literal tok))
             (String " "%char sr ++ ")") [tok] _ Lop); [|now intros].
    apply (lexes_app delim delim (String " "%char sr) ")" _ [RPAREN_token]
             Lr').
    + apply (lexes_weaken _ _ _ _ Lclose). now intros.
    + intros rest _. right. reflexivity.
  - (* typeof *)
    destruct x as [x|]; [|contradiction].
    destruct Hp as (-> & Hx).
    destruct (IHx x eq_refl Hx) as (sx & Ex & Lx).
    exists ("typeof(" ++ sx ++ ")")%string.
    split; [cbn [Expression_String]; now rewrite Ex|].
    cbn [expr_tokens].
    pose proof (lexes_name "typeof" ltac:(discriminate) eq_refl) as Lty.
    pose proof (lexes_operator "(" LPAREN ltac:(in_list)) as Lopen.
    pose proof (lexes_operator ")" RPAREN ltac:(in_list)) as Lclose.
    apply (lexes_app _ delim "typeof" ("(" ++ sx ++ ")")
             [mkToken TYPEOF "typeof"] _ Lty); [|now intros].
    apply (lexes_app anything delim "(" _ [LPAREN_token] _ Lopen);
      [|now intros].
    apply (lexes_app delim delim sx ")" _ [RPAREN_token] Lx).
    + apply (lexes_weaken _ _ _ _ Lclose). now intros.
    + intros rest _. right. reflexivity.
Qed.

(** X18.  Printing and reading back: for every tree whose tokens are
    those the lexer gives for their texts, [String()] returns a text,
    and lexing and parsing that text as one expression returns the tree
    itself and no error; so rendering a rendering changes nothing. *)
Theorem print_then_parse_is_identity :
  forall (e : Expression),
    printable e ->
    exists s p',
      Expression_String e = Some s
      /\ parse_expression_source (enough_fuel s) s = Ok (Some e, p')
      /\ GetErrors p' = []
      /\ Render s = Some s.
Proof.
  intros e Hp.
  destruct (printable_lexes e Hp) as (s & Es & Ls).
  pose proof (printable_complete e Hp) as Hc.
  specialize (Ls EmptyString EmptyString I).
  cbn [append String.length Nat.add] in Ls.
  assert (Hs0 : (s ++ "")%string = s)
    by (clear; induction s; simpl; congruence).
  rewrite Hs0 in Ls.
  pose proof (feeds_tokens _ 1 _ _ Ls) as Htok.
  rewrite (tokens_exhausted 1) in Htok
    by (try apply lexer_at_ok; rewrite input_at, position_at; lia).
  cbn [repeat] in Htok. rewrite <- NewLexer_at in Htok.
  destruct (NewParser_sees s (expr_tokens e ++ [EOF_token])%list)
    as (p & E & He & Hs & Ht).
  { rewrite List.length_app. exact Htok. }
  destruct (complete_expr_parses e Hc) as [n Hn].
  destruct (Hn n LOWEST p EOF_token [] (Nat.le_refl _) Hs)
    as (p' & E' & He' & Hs').
  { vm_compute. lia. }
  assert (Epar : parse_expression_source (enough_fuel s) s
                 = Ok (Some e, p')).
  { unfold parse_expression_source. rewrite E.
    apply (parseExpression_at_budget n _ LOWEST p _ (sees_ok _ _ Hs));
      [|exact E'].
    unfold enough_fuel. lia. }
  exists s, p'. split; [exact Es|]. split; [exact Epar|].
  split; [unfold GetErrors; congruence|].
  unfold Render, render_expression. now rewrite Epar.
Qed.


(* ================================================================== *)
(** * The evaluator *)
(* ================================================================== *)

Section EvaluatorFacts.

Context {fmt : Fmt}.

Lemma isError_spec (a : nat) (x : Struct) :
  isError (Some (mkPointer a x)) = Ok (is_error x).
Proof. destruct x as [v|v|m|]; reflexivity. Qed.

Lemma bind_Ev_Ok {A B : Type} (m : Ev A) (k : A -> Ev B) (h h1 : nat)
    (a : A) :
  m h = Ok (a, h1) -> bind_Ev m k h = k a h1.
Proof. intros E. unfold bind_Ev. now rewrite E. Qed.

Lemma yields_weaken (m : Ev Object)
    (Q R : nat -> nat -> Struct -> nat -> Prop) :
  yields m Q -> (forall h a x h', h <= h' -> Q h a x h' -> R h a x h') ->
  yields m R.
Proof.
  intros Hm HQR h. destruct (Hm h) as (a & x & h' & E & Hle & HQ).
  exists a, x, h'. auto.
Qed.

Lemma yields_new (x : Struct) (Q : nat -> nat -> Struct -> nat -> Prop) :
  (forall h, Q h h x (S h)) -> yields (new x) Q.
Proof. intros HQ h. exists h, x, (S h). auto. Qed.

(** An operand is evaluated, returned if it is an error, and handed on
    otherwise. *)
Lemma operand_at (m : Ev Object) (k : Object -> Ev Object)
    (Q R : nat -> nat -> Struct -> nat -> Prop) (h : nat) :
  (exists a x h1,
     m h = Ok (Some (mkPointer a x), h1) /\ h <= h1 /\ Q h a x h1) ->
  (forall a x h1, h <= h1 -> Q h a x h1 ->
     if is_error x then R h a x h1
     else exists b y h2,
            k (Some (mkPointer a x)) h1 = Ok (Some (mkPointer b y), h2)
            /\ h1 <= h2 /\ R h b y h2) ->
  exists a x h',
    (right' <~ m ;;
     err <~ lift_Ev (isError right') ;;
     if err then ret_Ev right' else k right') h
    = Ok (Some (mkPointer a x), h')
    /\ h <= h' /\ R h a x h'.
Proof.
  intros (a & x & h1 & E & Hle & HQ) Hk.
  rewrite (bind_Ev_Ok _ _ _ _ _ E).
  unfold bind_Ev at 1. rewrite isError_spec. cbn [lift_Ev].
  specialize (Hk a x h1 Hle HQ).
  destruct (is_error x).
  - exists a, x, h1. auto.
  - destruct Hk as (b & y & h2 & E2 & Hle2 & HR).
    exists b, y, h2. split; [exact E2|]. split; [lia|exact HR].
Qed.

Lemma yields_operand (m : Ev Object) (k : Object -> Ev Object)
    (Q R : nat -> nat -> Struct -> nat -> Prop) :
  yields m Q ->
  (forall h a x h1, h <= h1 -> Q h a x h1 ->
     if is_error x then R h a x h1
     else exists b y h2,
            k (Some (mkPointer a x)) h1 = Ok (Some (mkPointer b y), h2)
            /\ h1 <= h2 /\ R h b y h2) ->
  yields (right' <~ m ;;
          err <~ lift_Ev (isError right') ;;
          if err then ret_Ev right' else k right') R.
Proof.
  intros Hm Hk h. apply (operand_at m k Q R h (Hm h)). apply Hk.
Qed.

Ltac returns_new :=
  eexists; eexists; eexists; split; [reflexivity|]; split; [lia|].

Lemma evalPrefixExpression_yields (operator : string) (a : nat)
    (x : Struct) :
  is_error x = false ->
  yields (evalPrefixExpression operator (Some (mkPointer a x)))
    (fun _ _ y _ => Integer_or_Error y).
Proof.
  intros Hx h. unfold evalPrefixExpression.
  destruct (String.eqb operator "-");
    [|destruct (String.eqb operator "+")].
  - unfold evalMinusPrefixOperatorExpression.
    destruct x as [v|v|m|]; try discriminate; returns_new; exact I.
  - unfold evalPlusPrefixOperatorExpression.
    destruct x as [v|v|m|]; try discriminate; returns_new; exact I.
  - returns_new. exact I.
Qed.

Lemma evalIntegerInfixExpression_yields (operator : string) (a b : nat)
    (x y : Z) :
  yields (evalIntegerInfixExpression operator
            (Some (mkPointer a (Integer x))) (Some (mkPointer b (Integer y))))
    (fun _ _ z _ => Integer_or_Error z).
Proof.
  intros h. unfold evalIntegerInfixExpression.
  unfold bind_Ev, lift_Ev, Integer_Value.
  repeat match goal with
         | |- context [if String.eqb operator ?s then _ else _] =>
             destruct (String.eqb operator s)
         end;
    try destruct (y =? 0)%Z;
    unfold nativeBoolToPyMonkeyBoolean;
    try match goal with
        | |- context [if ?b then new _ else new _] => destruct b
        end;
    returns_new; exact I.
Qed.

Lemma evalInfixExpression_yields (operator : string) (a b : nat)
    (x y : Struct) :
  yields (evalInfixExpression operator (Some (mkPointer a x))
            (Some (mkPointer b y)))
    (fun _ _ z _ => Integer_or_Error z).
Proof.
  unfold evalInfixExpression.
  destruct x as [x|x|x|], y as [y|y|y|];
    try (intros h; unfold bind_Ev, lift_Ev, both_IntType; cbn;
         destruct (String.eqb operator "==");
         [|destruct (String.eqb operator "!=")];
         unfold nativeBoolToPyMonkeyBoolean;
         try match goal with
             | |- context [if ?b then new _ else new _] => destruct b
             end;
         returns_new; exact I).
  intros h. exact (evalIntegerInfixExpression_yields operator a b x y h).
Qed.

Lemma Eval_node_Prefix (tok : Token) (operator : string)
    (r : option Expression) (env : EvalEnv) :
  Eval_node (PrefixExpression tok operator r) env
  = (right' <~ Eval r env ;;
     err <~ lift_Ev (isError right') ;;
     if err then ret_Ev right' else evalPrefixExpression operator right').
Proof. reflexivity. Qed.

Lemma Eval_node_Infix (tok : Token) (operator : string)
    (l r : option Expression) (env : EvalEnv) :
  Eval_node (InfixExpression tok operator l r) env
  = (left' <~ Eval l env ;;
     errl <~ lift_Ev (isError left') ;;
     if errl then ret_Ev left'
     else (fun left' =>
             right' <~ Eval r env ;;
             errr <~ lift_Ev (isError right') ;;
             if errr then ret_Ev right'
             else evalInfixExpression operator left' right') left').
Proof. reflexivity. Qed.

Lemma Eval_node_TypeOf (tok : Token) (x : option Expression)
    (env : EvalEnv) :
  Eval_node (TypeOfExpression tok x) env = typeof x env.
Proof. reflexivity. Qed.

Lemma typeof_operation (x : Expression) (env : EvalEnv) :
  match x with
  | PrefixExpression _ _ _ | InfixExpression _ _ _ _ => True
  | _ => False
  end ->
  typeof (Some x) env
  = (result <~ Eval_node x env ;;
     err <~ lift_Ev (isError result) ;;
     if err then ret_Ev result
     else (fun result => t <~ lift_Ev (Object_Type result) ;;
                         new (String_ t)) result).
Proof. destruct x; intros []; reflexivity. Qed.

Lemma is_error_Error (x : Struct) :
  is_error x = true -> exists m, x = Error m.
Proof.
  destruct x as [v|v|m|]; try discriminate. intros _. now exists m.
Qed.

Lemma is_error_shape (x : Struct) :
  is_error x = true -> Integer_or_Error x.
Proof. intros H. destruct (is_error_Error x H) as [m ->]. exact I. Qed.

Lemma Eval_yields (env : EvalEnv) (r : option Expression)
    (Q : nat -> nat -> Struct -> nat -> Prop) :
  (forall x, r = Some x -> yields (Eval_node x env) Q) ->
  (r = None -> forall h m, Q h h (Error m) (S h)) ->
  yields (Eval r env) Q.
Proof.
  intros Hx Hn. destruct r as [x|]; cbn [Eval].
  - now apply Hx.
  - apply yields_new. intros h. now apply Hn.
Qed.

(** The shape of every result of [Eval]. *)
Lemma Eval_node_yields (env : EvalEnv) :
  env_ok env -> forall e, yields (Eval_node e env) (Eval_result e).
Proof.
  intros Hok.
  assert (Hany : forall r,
             (forall x, r = Some x ->
                        yields (Eval_node x env) (Eval_result x)) ->
             yields (Eval r env) (fun _ _ _ _ => True)).
  { intros r IH. apply Eval_yields; [|now intros].
    intros x Hx. apply (yields_weaken _ _ _ (IH x Hx)). now intros. }
  induction e as [i|tok v|tok v|tok v|tok v|tok|tok|tok op r IHr
                 |tok op l r IHl IHr|tok x IHx] using Expression_ind';
    try (apply yields_new; intros h; reflexivity).
  - (* identifier *)
    intros h. cbn [Eval_node]. unfold evalIdentifier.
    destruct (Get env (ident_Value i)) as [val ok] eqn:Eg.
    destruct ok; cbn [negb].
    + destruct (Hok _ _ Eg) as (a & x & ->).
      exists a, x, h. split; [reflexivity|]. split; [lia|exact I].
    + returns_new. exact I.
  - (* prefix operator *)
    rewrite Eval_node_Prefix.
    apply (yields_operand _ _ _ _ (Hany r IHr)).
    intros h a x h1 Hle _. destruct (is_error x) eqn:Ee.
    + now apply is_error_shape.
    + apply (evalPrefixExpression_yields op a x Ee).
  - (* infix operator *)
    rewrite Eval_node_Infix.
    apply (yields_operand _ _ _ _ (Hany l IHl)).
    intros h a x h1 Hle _. destruct (is_error x) eqn:Ee.
    + now apply is_error_shape.
    + cbv beta.
      refine (yields_operand _ _ _
                (fun _ _ z _ => Integer_or_Error z)
                (Hany r IHr) _ h1).
      intros h' b y h2 Hle' _. destruct (is_error y) eqn:Eq.
      * now apply is_error_shape.
      * apply (evalInfixExpression_yields op a b x y).
  - (* typeof *)
    rewrite Eval_node_TypeOf. cbn [Eval_result].
    destruct x as [x|];
      [|apply yields_new; intros h; left; reflexivity].
    specialize (IHx x eq_refl).
    destruct x as [i|tok' v|tok' v|tok' v|tok' v|tok'|tok'|tok' op r
                  |tok' op l r|tok' y];
      try (apply yields_new; intros h; left; reflexivity).
    + (* a name *)
      intros h. unfold typeof, typeof_body.
      destruct (Get env (ident_Value i)) as [val ok] eqn:Eg.
      destruct ok; cbn [negb].
      * destruct (Hok _ _ Eg) as (a & x & ->).
        returns_new. right. eexists. split; [reflexivity|].
        split; [lia|exact I].
      * returns_new. left. reflexivity.
    + (* an integer literal *)
      apply yields_new. intros h. right. exists IntType.
      split; [reflexivity|]. split; [lia|reflexivity].
    + (* a prefix operator *)
      rewrite typeof_operation by exact I.
      apply (yields_operand _ _ _ _ IHx).
      intros h a x h1 Hle Hp. cbn [Eval_result] in Hp.
      destruct (is_error x) eqn:Ee; [now left|].
      destruct x as [v|v|m|]; try contradiction; try discriminate.
      returns_new. right. exists IntType.
      split; [reflexivity|]. split; [lia|reflexivity].
    + (* an infix operator *)
      rewrite typeof_operation by exact I.
      apply (yields_operand _ _ _ _ IHx).
      intros h a x h1 Hle Hp. cbn [Eval_result] in Hp.
      destruct (is_error x) eqn:Ee; [now left|].
      destruct x as [v|v|m|]; try contradiction; try discriminate.
      returns_new. right. exists IntType.
      split; [reflexivity|]. split; [lia|reflexivity].
Qed.


(** X20.  The guard is needed: with a name bound to nil, the prefixed
    name and the typeof of the name panic (a method call on the nil
    interface). *)
Theorem nil_in_the_environment_panics :
  forall (env : EvalEnv) (i : Identifier) (tok tok' : Token)
         (operator : string) (h : nat),
    Get env (ident_Value i) = (None, true) ->
    operator = "-" \/ operator = "+" ->
    Eval (Some (PrefixExpression tok operator (Some (IdentifierNode i))))
      env h = Panic
    /\ Eval (Some (TypeOfExpression tok' (Some (IdentifierNode i)))) env h
       = Panic.
Proof.
  intros env i tok tok' operator h Hg Hop. split.
  - cbn [Eval]. rewrite Eval_node_Prefix. cbn [Eval Eval_node].
    unfold evalIdentifier. rewrite Hg. cbn [negb].
    destruct Hop as [-> | ->]; reflexivity.
  - cbn [Eval]. rewrite Eval_node_TypeOf. unfold typeof, typeof_body.
    rewrite Hg. reflexivity.
Qed.

(** X26.  A nil pointer in the environment: with a name bound to the nil
    pointer to [Integer], the name negated and the name as an operand of
    a binary operator beside an integer literal panic (the test of the
    type passes, the read of [Value] fails), while the name behind a
    plus sign evaluates to that nil pointer. *)
Theorem nil_pointer_in_the_environment :
  forall (env : EvalEnv) (i : Identifier) (tok tok' lit : Token)
         (operator : string) (value : Z) (h : nat),
    Get env (ident_Value i) = (Some (nil_pointer to_Integer), true) ->
    Eval (Some (PrefixExpression tok "-" (Some (IdentifierNode i)))) env h
    = Panic
    /\ Eval (Some (InfixExpression tok' operator
                     (Some (IdentifierNode i))
                     (Some (IntegerLiteral lit value)))) env h
       = Panic
    /\ Eval (Some (PrefixExpression tok "+" (Some (IdentifierNode i)))) env h
       = Ok (Some (nil_pointer to_Integer), h).
Proof.
  intros env i tok tok' lit operator value h Hg. split; [|split].
  - cbn [Eval]. rewrite Eval_node_Prefix. cbn [Eval Eval_node].
    unfold evalIdentifier. rewrite Hg. reflexivity.
  - cbn [Eval]. rewrite Eval_node_Infix. cbn [Eval Eval_node].
    unfold evalIdentifier. rewrite Hg. reflexivity.
  - cbn [Eval]. rewrite Eval_node_Prefix. cbn [Eval Eval_node].
    unfold evalIdentifier. rewrite Hg. reflexivity.
Qed.

Ltac returned :=
  let Hp := fresh "Hp" in
  intros ? ? ? ? _ Hp; rewrite Hp; reflexivity.

Lemma unsupported_yields (env : EvalEnv) :
  env_ok env ->
  forall e, unsupported e ->
            yields (Eval_node e env) (fun _ _ x _ => is_error x = true).
Proof.
  intros Hok.
  assert (Herr : forall r,
             (forall x, r = Some x -> unsupported x ->
                yields (Eval_node x env)
                  (fun _ _ y _ => is_error y = true)) ->
             match r with Some x => unsupported x | None => True end ->
             yields (Eval r env) (fun _ _ y _ => is_error y = true)).
  { intros r IH Hr. apply Eval_yields; [|now intros].
    intros x ->. now apply IH. }
  assert (Hany : forall r,
             yields (Eval r env) (fun _ _ _ _ => True)).
  { intros r. apply Eval_yields; [|now intros].
    intros x _. apply (yields_weaken _ _ _ (Eval_node_yields env Hok x)).
    now intros. }
  induction e as [i|tok v|tok v|tok v|tok v|tok|tok|tok op r IHr
                 |tok op l r IHl IHr|tok x IHx] using Expression_ind';
    cbn [unsupported]; intros Hu; try contradiction;
    try (apply yields_new; intros h; reflexivity).
  - (* prefix operator *)
    rewrite Eval_node_Prefix.
    apply (yields_operand _ _ _ _ (Herr r IHr Hu)). returned.
  - (* infix operator *)
    rewrite Eval_node_Infix. destruct Hu as [Hu|Hu].
    + apply (yields_operand _ _ _ _ (Herr l IHl Hu)). returned.
    + apply (yields_operand _ _ _ _ (Hany l)).
      intros h a x h1 Hle _. destruct (is_error x) eqn:Ee;
        [reflexivity|].
      cbv beta.
      refine (yields_operand _ _ _
                (fun _ _ y _ => is_error y = true)
                (Herr r IHr Hu) _ h1).
      returned.
  - (* typeof *)
    rewrite Eval_node_TypeOf.
    destruct x as [x|]; [|apply yields_new; intros h; reflexivity].
    specialize (IHx x eq_refl).
    destruct x as [i|tok' v|tok' v|tok' v|tok' v|tok'|tok'|tok' op r
                  |tok' op l r|tok' y];
      try contradiction;
      try (apply yields_new; intros h; reflexivity).
    + rewrite typeof_operation by exact I.
      apply (yields_operand _ _ _ _ (IHx Hu)). returned.
    + rewrite typeof_operation by exact I.
      apply (yields_operand _ _ _ _ (IHx Hu)). returned.
Qed.

(** X21.  The evaluator knows integers only: with every object of the
    environment an allocated struct, an expression of the parser that
    holds a string, boolean, float, nil or void literal, a missing
    operand or a typeof of a typeof, at any depth, evaluates to an
    error, whatever the rest of it. *)
Theorem unsupported_expression_is_an_error :
  forall (env : EvalEnv) (e : Expression) (h : nat),
    env_ok env ->
    unsupported e ->
    exists a m h',
      Eval (Some e) env h = Ok (Some (mkPointer a (Error m)), h').
Proof.
  intros env e h Hok Hu.
  destruct (unsupported_yields env Hok e Hu h) as (a & x & h' & E & _ & Hp).
  destruct (is_error_Error x Hp) as [m ->].
  now exists a, m, h'.
Qed.

(** X22.  With every object of the environment an allocated struct, an
    operator never yields a string or null: every prefix and infix
    expression of the parser evaluates to an integer or to an error; the
    unary plus, which returns its operand itself, and the comparisons by
    identity included. *)
Theorem operators_yield_integers :
  forall (env : EvalEnv) (e : Expression) (h : nat),
    env_ok env ->
    match e with
    | PrefixExpression _ _ _ | InfixExpression _ _ _ _ => True
    | _ => False
    end ->
    exists a x h',
      Eval (Some e) env h = Ok (Some (mkPointer a x), h')
      /\ ((exists z, x = Integer z) \/ exists m, x = Error m).
Proof.
  intros env e h Hok He.
  destruct (Eval_node_yields env Hok e h) as (a & x & h' & E & _ & Hp).
  exists a, x, h'. split; [exact E|].
  destruct e; try contradiction; cbn [Eval_result] in Hp;
    destruct x as [z|s|m|]; try contradiction; eauto.
Qed.

(** X23.  With every object of the environment an allocated struct,
    [typeof] can say string or void of a variable only: applied to
    anything of the parser that is not a name it returns the text int or
    an error. *)
Theorem typeof_is_int_but_for_names :
  forall (env : EvalEnv) (tok : Token) (expr : option Expression)
         (h : nat),
    env_ok env ->
    (forall i, expr <> Some (IdentifierNode i)) ->
    exists a x h',
      Eval (Some (TypeOfExpression tok expr)) env h
      = Ok (Some (mkPointer a x), h')
      /\ (x = String_ IntType \/ exists m, x = Error m).
Proof.
  intros env tok expr h Hok Hx.
  destruct (Eval_node_yields env Hok (TypeOfExpression tok expr) h)
    as (a & x & h' & E & _ & Hp).
  exists a, x, h'. split; [exact E|].
  destruct Hp as [Hp|(t & Ht & _ & Hk)].
  - right. now apply is_error_Error.
  - left. rewrite Ht.
    destruct expr as [[i| | | | | | | | |]|]; try now subst t.
    now destruct (Hx i).
Qed.


(** ** Arithmetic *)

Lemma wrap64_id (z : Z) : int64 z -> wrap64 z = z.
Proof.
  unfold int64, wrap64. intros H.
  rewrite Z.mod_small by lia. lia.
Qed.

Lemma wrap64_mod (z : Z) : (wrap64 z mod 2 ^ 64 = z mod 2 ^ 64)%Z.
Proof.
  unfold wrap64.
  rewrite Zminus_mod_idemp_l. f_equal. lia.
Qed.

Lemma wrap64_congr (x y : Z) :
  (x mod 2 ^ 64 = y mod 2 ^ 64)%Z -> wrap64 x = wrap64 y.
Proof.
  intros H. unfold wrap64. f_equal.
  rewrite <- (Zplus_mod_idemp_l x), <- (Zplus_mod_idemp_l y). now rewrite H.
Qed.

Lemma wrap64_add (x y : Z) : wrap64 (wrap64 x + wrap64 y) = wrap64 (x + y).
Proof.
  apply wrap64_congr.
  rewrite Z.add_mod, !wrap64_mod, <- Z.add_mod by lia. reflexivity.
Qed.

Lemma wrap64_sub (x y : Z) : wrap64 (wrap64 x - wrap64 y) = wrap64 (x - y).
Proof.
  apply wrap64_congr.
  rewrite Zminus_mod, !wrap64_mod, <- Zminus_mod. reflexivity.
Qed.

Lemma wrap64_mul (x y : Z) : wrap64 (wrap64 x * wrap64 y) = wrap64 (x * y).
Proof.
  apply wrap64_congr.
  rewrite Z.mul_mod, !wrap64_mod, <- Z.mul_mod by lia. reflexivity.
Qed.

Lemma wrap64_opp (x : Z) : wrap64 (- wrap64 x) = wrap64 (- x).
Proof.
  apply wrap64_congr.
  change (- wrap64 x)%Z with (0 - wrap64 x)%Z.
  change (- x)%Z with (0 - x)%Z.
  rewrite Zminus_mod, wrap64_mod, <- Zminus_mod. reflexivity.
Qed.

Lemma value_of_Eval (env : EvalEnv) :
  env_int64 env ->
  forall e z h,
    literals_int64 e ->
    value_of env e = Some z ->
    exists a h',
      Eval_node e env h = Ok (Some (mkPointer a (Integer (wrap64 z))), h').
Proof.
  intros Henv.
  induction e as [i|tok v|tok v|tok v|tok v|tok|tok|tok op r IHr
                 |tok op l r IHl IHr|tok x IHx] using Expression_ind';
    intros z h Hl Hv; cbn [value_of] in Hv; try discriminate.
  - (* a variable *)
    destruct (Get env (ident_Value i)) as [[[a [v| | |]|T]|] [|]] eqn:Eg;
      try discriminate.
    injection Hv as <-.
    rewrite (wrap64_id v (Henv _ _ v Eg)).
    exists a, h. cbn [Eval_node]. unfold evalIdentifier. now rewrite Eg.
  - (* a literal *)
    injection Hv as <-. cbn [literals_int64] in Hl.
    rewrite (wrap64_id v Hl). now exists h, (S h).
  - (* a sign *)
    destruct r as [r|]; [|discriminate]. cbn [literals_int64] in Hl.
    destruct (value_of env r) as [y|] eqn:Ey; [|discriminate].
    destruct (IHr r eq_refl y h Hl Ey) as (a & h1 & E).
    rewrite Eval_node_Prefix. cbn [Eval].
    rewrite (bind_Ev_Ok _ _ _ _ _ E).
    unfold evalPrefixExpression.
    destruct (String.eqb op "-").
    + injection Hv as <-. exists h1, (S h1).
      unfold bind_Ev, lift_Ev. cbn. now rewrite wrap64_opp.
    + destruct (String.eqb op "+"); [|discriminate].
      injection Hv as <-. now exists a, h1.
  - (* an operation *)
    destruct l as [l|]; [|discriminate].
    destruct r as [r|]; [|discriminate].
    cbn [literals_int64] in Hl. destruct Hl as [Hl Hr].
    destruct (value_of env l) as [x|] eqn:Ex; [|discriminate].
    destruct (value_of env r) as [y|] eqn:Ey; [|discriminate].
    destruct (IHl l eq_refl x h Hl Ex) as (a & h1 & E1).
    destruct (IHr r eq_refl y h1 Hr Ey) as (b & h2 & E2).
    rewrite Eval_node_Infix. cbn [Eval].
    rewrite (bind_Ev_Ok _ _ _ _ _ E1).
    unfold bind_Ev at 1. rewrite isError_spec.
    cbn [lift_Ev is_error]. cbv beta.
    rewrite (bind_Ev_Ok _ _ _ _ _ E2).
    unfold bind_Ev at 1. rewrite isError_spec.
    cbn [lift_Ev is_error].
    unfold evalInfixExpression, evalIntegerInfixExpression.
    unfold bind_Ev, lift_Ev, both_IntType.
    cbn [Object_Type Struct_Type PointerType_of PointerType_Type
         Integer_Value].
    change (String.eqb IntType IntType) with true. cbv iota.
    destruct (String.eqb op "+");
      [|destruct (String.eqb op "-");
        [|destruct (String.eqb op "*"); [|discriminate]]];
      injection Hv as <-; exists h2, (S h2).
    + now rewrite wrap64_add.
    + now rewrite wrap64_sub.
    + now rewrite wrap64_mul.
Qed.

(** X25.  Integer arithmetic is exact modulo 2^64: an expression of
    [+], [-] and [*] (binary, and the two signs) over integer literals
    and variables bound to integers evaluates to the integer it stands
    for, reduced to the int64 range once; overflow at an inner operation
    does not change the result. *)
Theorem arithmetic_is_exact_modulo_2_64 :
  forall (env : EvalEnv) (e : Expression) (z : Z) (h : nat),
    env_int64 env ->
    literals_int64 e ->
    value_of env e = Some z ->
    exists a h',
      Eval (Some e) env h = Ok (Some (mkPointer a (Integer (wrap64 z))), h').
Proof.
  intros env e z h Henv Hl Hv. cbn [Eval].
  now apply value_of_Eval.
Qed.

End EvaluatorFacts.


(* ================================================================== *)
(** * The call stack *)
(* ================================================================== *)

(** ** A stack with room for the budget changes nothing *)

Lemma parseExpression_st_enough (fuel : nat) :
  forall stack,
    fuel <= stack ->
    parseExpression_st fuel stack = parseExpression fuel
    /\ parseExpression_loop_st fuel stack = parseExpression_loop fuel.
Proof.
  induction fuel as [|fuel IH]; intros stack Hle.
  - split; reflexivity.
  - destruct stack as [|stack]; [lia|].
    destruct (IH stack ltac:(lia)) as [E1 E2].
    destruct (IH (S stack) ltac:(lia)) as [E3 E4].
    split.
    + transitivity
        (fun precedence =>
           parseExpression_body fuel (parseExpression_st fuel stack)
             (parseExpression_loop_st fuel stack) precedence);
        [reflexivity|].
      rewrite E1, E2. reflexivity.
    + transitivity
        (fun precedence leftExp =>
           parseExpression_loop_body (parseExpression_st fuel (S stack))
             (parseExpression_loop_st fuel (S stack)) precedence leftExp);
        [reflexivity|].
      rewrite E3, E4. reflexivity.
Qed.

(** The functions over [pe] are those of the parser when [pe] is
    [parseExpression]. *)
Lemma parseStatement_body_st_plain (fuel : nat) (ps : M (option Statement))
    (block_loop : list Statement -> M (list Statement))
    (if_loop : IfStatement -> M (option IfStatement)) :
  parseStatement_body_st fuel (parseExpression fuel) ps block_loop if_loop
  = parseStatement_body fuel ps block_loop if_loop.
Proof. reflexivity. Qed.

Lemma parseIfStatement_loop_body_st_plain (fuel : nat)
    (ps : M (option Statement))
    (block_loop : list Statement -> M (list Statement))
    (if_loop : IfStatement -> M (option IfStatement)) :
  parseIfStatement_loop_body_st (parseExpression fuel) ps block_loop if_loop
  = parseIfStatement_loop_body fuel ps block_loop if_loop.
Proof. reflexivity. Qed.

Lemma ParseProgram_loop_body_st_plain (fuel : nat)
    (again : list Statement -> M (list Statement)) :
  ParseProgram_loop_body_st fuel (parseStatement fuel) again
  = ParseProgram_loop_body fuel again.
Proof. reflexivity. Qed.

Lemma parseStatement_st_enough (fuel : nat) :
  forall stack,
    fuel <= stack ->
    parseStatement_st fuel stack = parseStatement fuel
    /\ parseBlockStatement_loop_st fuel stack = parseBlockStatement_loop fuel
    /\ parseIfStatement_loop_st fuel stack = parseIfStatement_loop fuel.
Proof.
  induction fuel as [|fuel IH]; intros stack Hle.
  - repeat split; reflexivity.
  - destruct stack as [|stack]; [lia|].
    destruct (IH stack ltac:(lia)) as (E1 & E2 & E3).
    destruct (IH (S stack) ltac:(lia)) as (E4 & E5 & E6).
    destruct (parseExpression_st_enough fuel stack ltac:(lia)) as [X1 _].
    destruct (parseExpression_st_enough fuel (S stack) ltac:(lia))
      as [X2 _].
    split; [|split].
    + transitivity
        (parseStatement_body_st fuel (parseExpression_st fuel stack)
           (parseStatement_st fuel stack)
           (parseBlockStatement_loop_st fuel stack)
           (parseIfStatement_loop_st fuel stack));
        [reflexivity|].
      rewrite X1, E1, E2, E3. reflexivity.
    + transitivity
        (fun stmts =>
           parseBlockStatement_loop_body (parseStatement_st fuel (S stack))
             (parseBlockStatement_loop_st fuel (S stack)) stmts);
        [reflexivity|].
      rewrite E4, E5. reflexivity.
    + transitivity
        (fun stmt =>
           parseIfStatement_loop_body_st (parseExpression_st fuel (S stack))
             (parseStatement_st fuel (S stack))
             (parseBlockStatement_loop_st fuel (S stack))
             (parseIfStatement_loop_st fuel (S stack)) stmt);
        [reflexivity|].
      rewrite X2, E4, E5, E6. reflexivity.
Qed.

Lemma ParseProgram_loop_st_enough (stack : nat) :
  forall fuel,
    fuel <= stack -> ParseProgram_loop_st fuel stack = ParseProgram_loop fuel.
Proof.
  induction fuel as [|fuel IH]; intros Hle; [reflexivity|].
  destruct (parseStatement_st_enough fuel stack ltac:(lia)) as (E & _).
  transitivity
    (fun stmts =>
       ParseProgram_loop_body_st fuel (parseStatement_st fuel stack)
         (ParseProgram_loop_st fuel stack) stmts);
    [reflexivity|].
  rewrite E, IH by lia. reflexivity.
Qed.

Lemma ParseProgram_st_enough (fuel stack : nat) :
  fuel <= stack -> ParseProgram_st fuel stack = ParseProgram fuel.
Proof.
  intros Hle. unfold ParseProgram_st, ParseProgram.
  now rewrite ParseProgram_loop_st_enough.
Qed.

Lemma Parse_st_enough (stack : nat) (source : string) :
  enough_fuel source <= stack -> Parse_st stack source = Parse source.
Proof.
  intros Hle. unfold Parse_st, parse_source_st, Parse, parse_source.
  now rewrite ParseProgram_st_enough.
Qed.

(** ** Minus signs in a row *)

Lemma bind_Panic {A B : Type} (m : M A) (k : A -> M B) (p : Parser) :
  m p = Panic -> bind m k p = Panic.
Proof. intros H. unfold bind. now rewrite H. Qed.

Lemma minus_signs_length (n : nat) : String.length (minus_signs n) = n.
Proof. induction n; simpl; congruence. Qed.

Lemma lexes_minus_signs (n : nat) :
  lexes anything (minus_signs n) (repeat SUB_token n).
Proof.
  induction n as [|n IH].
  - intros pre rest _. cbn [minus_signs repeat feeds String.length append].
    now rewrite Nat.add_0_r.
  - change (minus_signs (S n)) with ("-" ++ minus_signs n)%string.
    change (repeat SUB_token (S n))
      with ([SUB_token] ++ repeat SUB_token n)%list.
    apply (lexes_app anything anything); [|exact IH|now intros].
    apply (lexes_operator "-" SUB). in_list.
Qed.

Lemma NewParser_minus_signs (n : nat) :
  exists p,
    NewParser (NewLexer (minus_signs n)) = Ok p
    /\ sees p (repeat SUB_token n ++ [EOF_token]).
Proof.
  pose proof (lexes_minus_signs n EmptyString EmptyString I) as L.
  cbn [append String.length Nat.add] in L.
  assert (Hs0 : (minus_signs n ++ "")%string = minus_signs n)
    by (generalize (minus_signs n) as s; induction s; simpl; congruence).
  rewrite Hs0 in L.
  pose proof (feeds_tokens _ 1 _ _ L) as Htok.
  rewrite (tokens_exhausted 1) in Htok
    by (try apply lexer_at_ok; rewrite input_at, position_at; lia).
  cbn [repeat] in Htok. rewrite <- NewLexer_at in Htok.
  destruct (NewParser_sees (minus_signs n)
              (repeat SUB_token n ++ [EOF_token])%list)
    as (p & E & _ & Hs & _).
  { rewrite List.length_app. exact Htok. }
  now exists p.
Qed.

(** Every minus sign before an operand is a nested call: where [stack]
    minus signs or more are in sight, [parseExpression] runs out of a
    stack that has room for [stack] calls. *)
Lemma parseExpression_st_overflows :
  forall stack n fuel prec p ts,
    stack <= n ->
    stack < fuel ->
    sees p (repeat SUB_token n ++ ts) ->
    parseExpression_st fuel stack prec p = StackOverflow.
Proof.
  induction stack as [|s IH]; intros n fuel prec p ts Hn Hf Hs.
  - destruct fuel as [|f]; [lia|]. reflexivity.
  - destruct fuel as [|[|f]]; try lia.
    destruct n as [|n]; [lia|]. cbn [repeat app] in Hs.
    change (parseExpression_st (S (S f)) (S s) prec p)
      with (parseExpression_body (S f) (parseExpression_st (S f) s)
              (parseExpression_loop_st (S f) s) prec p).
    unfold parseExpression_body. apply bind_Panic.
    rewrite (parsePrefixExpression_on _ _ p _ _ Hs) by discriminate.
    cbn [Type_ SUB_token]. unfold parsePrefixOperatorExpression.
    rewrite bind_get. cbv zeta.
    destruct (sees_nextToken _ _ _ Hs) as (p1 & E & _ & Hs1).
    rewrite (bind_Ok _ _ _ _ _ E). apply bind_Panic.
    apply (IH n (S f) PREFIX p1 ts); [lia|lia|exact Hs1].
Qed.

Lemma parseStatement_st_overflows (stack n fuel : nat) (p : Parser)
    (ts : list Token) :
  stack <= n ->
  S stack < fuel ->
  sees p (SUB_token :: repeat SUB_token n ++ ts) ->
  parseStatement_st fuel stack p = StackOverflow.
Proof.
  intros Hn Hf Hs.
  destruct fuel as [|[|f]]; try lia.
  destruct stack as [|s]; [reflexivity|].
  change (parseStatement_st (S (S f)) (S s) p)
    with (parseStatement_body_st (S f) (parseExpression_st (S f) s)
            (parseStatement_st (S f) s)
            (parseBlockStatement_loop_st (S f) s)
            (parseIfStatement_loop_st (S f) s) p).
  unfold parseStatement_body_st.
  rewrite (bind_Ok _ _ _ _ _ (skipWhitespaceTokens_noop f p
             ltac:(rewrite (sees_curTokenIs _ _ _ ILLEGAL Hs);
                   now apply TokenType_eqb_neq))).
  rewrite bind_get, (sees_cur _ _ _ Hs). cbn [Type_ SUB_token].
  apply bind_Panic.
  destruct n as [|n]; [lia|].
  apply (parseExpression_st_overflows s (S (S n)) (S f) LOWEST p ts);
    [lia|lia|exact Hs].
Qed.

Lemma minus_signs_overflow (stack : nat) :
  Parse_st stack (minus_signs (S stack)) = StackOverflow.
Proof.
  unfold Parse_st, parse_source_st, enough_fuel.
  rewrite minus_signs_length.
  destruct (NewParser_minus_signs (S stack)) as (p & -> & Hs).
  cbn [repeat app] in Hs.
  replace (3 * S stack + 13) with (S (S (3 * stack + 14))) by lia.
  unfold ParseProgram_st. apply bind_Panic.
  change (ParseProgram_loop_st (S (S (3 * stack + 14))) stack [] p)
    with (ParseProgram_loop_body_st (S (3 * stack + 14))
            (parseStatement_st (S (3 * stack + 14)) stack)
            (ParseProgram_loop_st (S (3 * stack + 14)) stack) [] p).
  unfold ParseProgram_loop_body_st.
  assert (Hcur : curTokenIs EOF p = false).
  { rewrite (sees_curTokenIs _ _ _ EOF Hs). reflexivity. }
  rewrite bind_get, Hcur. cbn [negb].
  rewrite (bind_Ok _ _ _ _ _ (skipWhitespaceTokens_noop _ p
             ltac:(rewrite (sees_curTokenIs _ _ _ ILLEGAL Hs);
                   now apply TokenType_eqb_neq))).
  rewrite bind_get, Hcur. apply bind_Panic.
  apply (parseStatement_st_overflows stack stack _ p [EOF_token]);
    [lia|lia|exact Hs].
Qed.

(** ** Errors are collected, and only the stack is fatal *)

(** C7.  Where the stack has room for the budget of a source text
    ([3 * len + 13] nested calls for [len] bytes), [Parse] returns a
    program, and [GetErrors] then gives the error list.  From any
    consistent state, with a sufficient budget and such a stack,
    [ParseProgram], [parseStatement] and [parseExpression] return and
    leave the errors they found appended to those already there;
    [addError] appends at the end; a fresh parser has no errors; two
    faulty statements in a row leave their errors in the order of the
    source.  And whatever room the stack has, there is a source text,
    of minus signs, on which the run ends with a stack overflow. *)
Theorem ParseProgram_returns_when_the_stack_suffices :
  (forall (source : string) (stack : nat),
     enough_fuel source <= stack ->
     exists prog p,
       Parse_st stack source = Ok (prog, p)
       /\ run_parser_st stack source = Some (prog, GetErrors p))
  /\ (forall (fuel stack : nat) (p : Parser),
        parser_ok p -> 3 * togo p + 4 <= fuel -> fuel <= stack ->
        (exists prog p', ParseProgram_st fuel stack p = Ok (prog, p')
                         /\ extends (errors p) (GetErrors p'))
        /\ (exists s p', parseStatement_st fuel stack p = Ok (s, p')
                         /\ extends (errors p) (GetErrors p'))
        /\ (forall prec,
              exists e p', parseExpression_st fuel stack prec p = Ok (e, p')
                           /\ extends (errors p) (GetErrors p')))
  /\ (forall (msg : string) (p : Parser),
        exists p', addError msg p = Ok (tt, p')
                   /\ GetErrors p' = (errors p ++ [msg])%list)
  /\ (forall source : string,
        exists p0, NewParser (NewLexer source) = Ok p0
                   /\ GetErrors p0 = [])
  /\ (forall stack : nat,
        enough_fuel "if 1 while 2" <= stack ->
        run_parser_st stack "if 1 while 2"
        = Some (mkProgram
                  [IfStatementPtr None; int_stmt "1" 1;
                   WhileStatementPtr None; int_stmt "2" 2],
                ["expected next token to be (, got INT instead";
                 "expected next token to be (, got INT instead";
                 "expected '(' after 'while'"]))
  /\ (forall stack : nat,
        Parse_st stack (minus_signs (S stack)) = StackOverflow).
Proof.
  destruct errors_accumulate_on_an_unbounded_stack
    as (H1 & H2 & H3 & H4 & H5).
  split.
  { intros source stack Hle.
    destruct (H1 source) as (prog & p & E & _).
    exists prog, p. unfold run_parser_st.
    rewrite (Parse_st_enough stack source Hle), E. auto. }
  split.
  { intros fuel stack p Hok Hf Hle.
    destruct (H2 fuel p Hok Hf) as (A & B & C).
    rewrite (ParseProgram_st_enough fuel stack Hle).
    rewrite (proj1 (parseStatement_st_enough fuel stack Hle)).
    rewrite (proj1 (parseExpression_st_enough fuel stack Hle)).
    auto. }
  split; [exact H3|]. split; [exact H4|]. split.
  { intros stack Hle. unfold run_parser_st.
    rewrite (Parse_st_enough stack _ Hle). exact H5. }
  exact minus_signs_overflow.
Qed.

End Parser.

(* ================================================================== *)
(** * The statements above at concrete inputs *)
(* ================================================================== *)

Lemma statement_dispatch_by_two_tokens_witness :
  let p := parser_at_end (mkToken TYPE "int") (mkToken IDENT "foo")
             EOF_token in
  parser_ok p
  /\ (Type_ (curToken p) = TYPE \/ Type_ (curToken p) = VOID)
  /\ peekTokenIs IDENT p = true
  /\ peekPeekIs LPAREN p = false
  /\ peekPeekIs ASSIGN p = false
  /\ exists p',
       parseStatement unit reject_floats 2 p
       = Ok (Some (VariableDeclarationPtr unit None), p')
       /\ errors p'
          = ["expected next token to be =, got EOF instead"].
Proof.
  intros p.
  assert (H1 : parser_ok p) by (split; reflexivity).
  assert (H2 : Type_ (curToken p) = TYPE \/ Type_ (curToken p) = VOID)
    by (left; reflexivity).
  assert (H3 : peekTokenIs IDENT p = true) by reflexivity.
  assert (H4 : peekPeekIs LPAREN p = false) by reflexivity.
  assert (H5 : peekPeekIs ASSIGN p = false) by reflexivity.
  do 5 (split; [assumption|]).
  exact (proj1 (proj2 (statement_dispatch_by_two_tokens unit reject_floats))
           0 p H1 H2 H3 H4 H5).
Defined.

Lemma precedence_and_associativity_witness :
  In ("+", ADD) binary_operators
  /\ In ("*", MUL) binary_operators
  /\ Render unit reject_floats "a + b * c" = Some "(a + (b * c))".
Proof.
  assert (H1 : In ("+", ADD) binary_operators)
    by (do 6 right; left; reflexivity).
  assert (H2 : In ("*", MUL) binary_operators)
    by (do 8 right; left; reflexivity).
  do 2 (split; [assumption|]).
  exact (proj2 (proj2 (proj2 (proj2 (proj2 (proj2 (proj2
           (precedence_and_associativity unit reject_floats)))))))
           ("+", ADD) ("*", MUL) H1 H2).
Defined.

Lemma else_if_chain_collected_in_order_witness :
  let p := parser_at_end (mkToken RBRACE "}") (mkToken ELSE "else")
             (mkToken LBRACE "{") in
  let stmt := mkIfStatement unit (mkToken IF "if") None None [] None in
  peekTokenIs ELSE p = true
  /\ peekPeekIs IF p = false
  /\ parseIfStatement_loop_body unit reject_floats 9
       (parseStatement unit reject_floats 9)
       (parseBlockStatement_loop unit reject_floats 9)
       (fun _ => out_of_fuel) stmt p
     = parseIfStatement_loop_body unit reject_floats 9
         (parseStatement unit reject_floats 9)
         (parseBlockStatement_loop unit reject_floats 9)
         (fun s => ret (Some s)) stmt p.
Proof.
  intros p stmt.
  assert (H1 : peekTokenIs ELSE p = true) by reflexivity.
  assert (H2 : peekPeekIs IF p = false) by reflexivity.
  do 2 (split; [assumption|]).
  exact (proj1 (proj2 (else_if_chain_collected_in_order unit reject_floats))
           9 _ _ _ _ stmt p H1 H2).
Defined.

Lemma ParseProgram_terminates_witness :
  let p := parser_at_end (mkToken IDENT "a") EOF_token EOF_token in
  parser_ok p
  /\ 3 * togo p + 4 <= 7
  /\ exists prog p',
       ParseProgram unit reject_floats 7 p = Ok (prog, p')
       /\ togo p' <= togo p.
Proof.
  intros p.
  assert (H1 : parser_ok p) by (split; reflexivity).
  assert (H2 : 3 * togo p + 4 <= 7) by (vm_compute; lia).
  do 2 (split; [assumption|]).
  exact (proj1 (proj2 (proj2 (ParseProgram_terminates unit reject_floats))
                  7 p H1 H2)).
Defined.

(** C7, as stated, fails on deep nesting: four minus signs end the run
    with a stack overflow where the stack has room for three nested
    calls, and no stack has room for every source text. *)
Lemma deep_nesting_overflows_the_stack :
  Parse_st unit reject_floats 3 "----" = StackOverflow
  /\ ~ (exists stack : nat,
          forall source : string,
          exists prog p,
            Parse_st unit reject_floats stack source = Ok (prog, p)).
Proof.
  split; [reflexivity|].
  intros (stack & H).
  destruct (H (minus_signs (S stack))) as (prog & p & E).
  rewrite (minus_signs_overflow unit reject_floats stack) in E.
  discriminate.
Qed.

Lemma ParseProgram_returns_when_the_stack_suffices_witness :
  let source := "if 1 while 2" in
  enough_fuel source <= 49
  /\ exists prog p,
       Parse_st unit reject_floats 49 source = Ok (prog, p)
       /\ run_parser_st unit reject_floats 49 source
          = Some (prog, GetErrors p).
Proof.
  intros source.
  assert (H1 : enough_fuel source <= 49) by (vm_compute; lia).
  split; [assumption|].
  exact (proj1 (ParseProgram_returns_when_the_stack_suffices unit
                  reject_floats) source 49 H1).
Defined.

Lemma NextToken_EOF_idempotent_witness :
  let l := readChar (NewLexer "x") in
  lexer_after 1 (NewLexer "x") = Some l
  /\ String.length "x" <= position l
  /\ tokens 2 l = Some [EOF_token; EOF_token].
Proof.
  intros l.
  assert (H1 : lexer_after 1 (NewLexer "x") = Some l) by reflexivity.
  assert (H2 : String.length "x" <= position l) by (vm_compute; lia).
  do 2 (split; [assumption|]).
  destruct (NextToken_EOF_idempotent "x" 1)
    as (l0 & tok & l' & E & _ & _ & H).
  rewrite H1 in E. injection E as <-.
  exact (proj2 (H (or_introl H2)) 2).
Defined.

Lemma string_literal_verbatim_witness :
  let l := NewLexer (String DQUOTE "abc") in
  lexer_ok l
  /\ input l = EmptyString ++ String DQUOTE ("abc" ++ EmptyString)
  /\ position l = String.length EmptyString
  /\ string_forallb (fun c => negb (string_end c)) "abc" = true
  /\ string_end (byte_at EmptyString 0) = true
  /\ exists l',
       NextToken l = Some (mkToken STRING "abc", l')
       /\ lexer_ok l'
       /\ position l' = String.length EmptyString + String.length "abc" + 2
       /\ (EmptyString = EmptyString ->
           NextToken l' = Some (mkToken EOF EmptyString, readChar l')).
Proof.
  intros l.
  assert (H1 : lexer_ok l) by (split; reflexivity).
  assert (H2 : input l = EmptyString ++ String DQUOTE ("abc" ++ EmptyString))
    by reflexivity.
  assert (H3 : position l = String.length EmptyString) by reflexivity.
  assert (H4 : string_forallb (fun c => negb (string_end c)) "abc" = true)
    by reflexivity.
  assert (H5 : string_end (byte_at EmptyString 0) = true) by reflexivity.
  do 5 (split; [assumption|]).
  exact (string_literal_verbatim EmptyString "abc" EmptyString l
           H1 H2 H3 H4 H5).
Defined.

Lemma NextToken_never_LE_GE_witness :
  let l := NewLexer "<=" in
  NextToken l = Some (mkToken LT "<", readChar l)
  /\ Type_ (mkToken LT "<") <> LE
  /\ Type_ (mkToken LT "<") <> GE.
Proof.
  intros l.
  assert (H : NextToken l = Some (mkToken LT "<", readChar l))
    by reflexivity.
  split; [assumption|].
  exact (proj1 NextToken_never_LE_GE l (mkToken LT "<") (readChar l) H).
Defined.

Lemma NextToken_never_VOID_witness :
  let l := NewLexer "void" in
  let tok := mkToken TYPE "void" in
  NextToken l = Some (tok, lexer_at "void" 4)
  /\ Type_ tok <> VOID /\ Type_ tok <> ZERO_TYPE.
Proof.
  intros l tok.
  assert (H1 : NextToken l = Some (tok, lexer_at "void" 4)) by reflexivity.
  split; [assumption|].
  exact (NextToken_never_VOID l tok _ H1).
Defined.

Lemma skipWhitespaceTokens_keeps_lexer_tokens_witness :
  let l := NewLexer "&" in
  let tok := mkToken ILLEGAL "&" in
  let p := parser_at_end tok EOF_token EOF_token in
  NextToken l = Some (tok, lexer_at "&" 1)
  /\ curToken p = tok
  /\ (Type_ tok = ILLEGAL -> Literal tok <> EmptyString)
  /\ skipWhitespaceTokens 1 p = Ok (tt, p).
Proof.
  intros l tok p.
  assert (H1 : NextToken l = Some (tok, lexer_at "&" 1)) by reflexivity.
  assert (H2 : curToken p = tok) by reflexivity.
  do 2 (split; [assumption|]).
  exact (skipWhitespaceTokens_keeps_lexer_tokens l tok _ p 0 H1 H2).
Defined.

Lemma token_text_is_the_input_passed_witness :
  let l := NewLexer "  foo(" in
  let tok := mkToken IDENT "foo" in
  lexer_ok l
  /\ NextToken l = Some (tok, lexer_at "  foo(" 5)
  /\ token_text (input l) (position (skipWhitespace l)) 5 tok.
Proof.
  intros l tok.
  assert (H1 : lexer_ok l) by (split; reflexivity).
  assert (H2 : NextToken l = Some (tok, lexer_at "  foo(" 5))
    by reflexivity.
  do 2 (split; [assumption|]).
  exact (token_text_is_the_input_passed l tok _ H1 H2).
Defined.

Lemma INT_token_is_a_maximal_run_of_digits_witness :
  let l := NewLexer "42;" in
  let tok := mkToken INT "42" in
  let l' := lexer_at "42;" 2 in
  lexer_ok l
  /\ NextToken l = Some (tok, l')
  /\ Type_ tok = INT
  /\ Literal tok <> EmptyString
  /\ string_forallb isDigit (Literal tok) = true
  /\ isDigit (ch l') = false /\ ch l' <> "."%char
  /\ ParseInt (Literal tok)
     = if (decimal (Literal tok) <? 2 ^ 63)%Z
       then Some (decimal (Literal tok)) else None.
Proof.
  intros l tok l'.
  assert (H1 : lexer_ok l) by (split; reflexivity).
  assert (H2 : NextToken l = Some (tok, l')) by reflexivity.
  assert (H3 : Type_ tok = INT) by reflexivity.
  do 3 (split; [assumption|]).
  exact (INT_token_is_a_maximal_run_of_digits l tok l' H1 H2 H3).
Defined.

Lemma FLOAT_token_is_digits_dot_digits_witness :
  let l := NewLexer "3.14)" in
  let tok := mkToken FLOAT "3.14" in
  let l' := lexer_at "3.14)" 4 in
  lexer_ok l
  /\ NextToken l = Some (tok, l')
  /\ Type_ tok = FLOAT
  /\ isDigit (ch l') = false
  /\ exists a b,
       Literal tok = (a ++ String "."%char b)%string
       /\ a <> EmptyString
       /\ string_forallb isDigit a = true
       /\ string_forallb isDigit b = true.
Proof.
  intros l tok l'.
  assert (H1 : lexer_ok l) by (split; reflexivity).
  assert (H2 : NextToken l = Some (tok, l')) by reflexivity.
  assert (H3 : Type_ tok = FLOAT) by reflexivity.
  do 3 (split; [assumption|]).
  exact (FLOAT_token_is_digits_dot_digits l tok l' H1 H2 H3).
Defined.

Lemma name_token_is_a_maximal_run_of_letters_witness :
  let l := NewLexer "while(" in
  let tok := mkToken WHILE "while" in
  let l' := lexer_at "while(" 5 in
  lexer_ok l
  /\ NextToken l = Some (tok, l')
  /\ In (Type_ tok)
       [IDENT; IF; ELSE; TYPE; RETURN; FUNC; TYPEOF; LOOP; WHILE; FOR; IN;
        BOOL; NIL; BREAK; CONTINUE]
  /\ Literal tok <> EmptyString
  /\ string_forallb isLetter (Literal tok) = true
  /\ isLetter (ch l') = false
  /\ Type_ tok = lookupIdent (Literal tok).
Proof.
  intros l tok l'.
  assert (H1 : lexer_ok l) by (split; reflexivity).
  assert (H2 : NextToken l = Some (tok, l')) by reflexivity.
  assert (H3 : In (Type_ tok)
                 [IDENT; IF; ELSE; TYPE; RETURN; FUNC; TYPEOF; LOOP; WHILE;
                  FOR; IN; BOOL; NIL; BREAK; CONTINUE])
    by (simpl; tauto).
  do 3 (split; [assumption|]).
  exact (name_token_is_a_maximal_run_of_letters l tok l' H1 H2 H3).
Defined.

Lemma NextToken_behind_a_prefix_witness :
  let l := NewLexer "1 + 2" in
  lexer_ok l
  /\ NextToken (shift "x = " l) = shifted "x = " (NextToken l)
  /\ forall n, tokens n (shift "x = " l) = tokens n l.
Proof.
  intros l.
  assert (H1 : lexer_ok l) by (split; reflexivity).
  split; [assumption|].
  exact (NextToken_behind_a_prefix "x = " l H1).
Defined.

Lemma leading_white_space_is_ignored_witness :
  string_forallb isSpace "  " = true
  /\ tokens 2 (NewLexer ("  " ++ "a")) = tokens 2 (NewLexer "a").
Proof.
  assert (H1 : string_forallb isSpace "  " = true) by reflexivity.
  split; [assumption|].
  exact (leading_white_space_is_ignored "  " "a" 2 H1).
Defined.

Lemma parseFunctionParameters_well_formed_witness :
  let ps := [(mkToken TYPE "int", mkToken IDENT "a");
             (mkToken TYPE "string", mkToken IDENT "b")] in
  let p := parser_on "(int a, string b) {" in
  let more := [mkToken LBRACE "{"; EOF_token] in
  Forall param_ok ps
  /\ Type_ RPAREN_token = RPAREN
  /\ sees p (LPAREN_token :: param_tokens ps ++ RPAREN_token :: more)
  /\ List.length ps <= 2
  /\ exists p',
       parseFunctionParameters 2 p = Ok (map param_of ps, p')
       /\ errors p' = errors p
       /\ sees p' (RPAREN_token :: more).
Proof.
  intros ps p more.
  assert (H1 : Forall param_ok ps)
    by (repeat constructor; reflexivity).
  assert (H2 : Type_ RPAREN_token = RPAREN) by reflexivity.
  assert (H3 : sees p (LPAREN_token :: param_tokens ps
                       ++ RPAREN_token :: more))
    by (split; [split; reflexivity|reflexivity]).
  assert (H4 : List.length ps <= 2) by (simpl; lia).
  do 4 (split; [assumption|]).
  exact (parseFunctionParameters_well_formed ps 2 p LPAREN_token
           RPAREN_token more H1 H2 H3 H4).
Defined.

Lemma parenthesized_expression_round_trip_witness :
  let e := InfixExpression unit (mkToken ADD "+") "+"
             (ident_expr unit "a") (ident_expr unit "b") in
  let p := parser_on "(a + b);" in
  let t := mkToken SEMICOLON ";" in
  complete unit e
  /\ sees p (expr_tokens unit e ++ t :: [EOF_token])
  /\ precedence_of (Type_ t) <= LOWEST
  /\ 2 * togo p + 2 <= 40
  /\ exists p',
       parseExpression unit reject_floats 40 LOWEST p = Ok (Some e, p')
       /\ errors p' = errors p
       /\ sees p' (last (expr_tokens unit e) zeroToken :: t :: [EOF_token]).
Proof.
  intros e p t.
  assert (H1 : complete unit e)
    by (simpl; repeat split; vm_compute; lia).
  assert (H2 : sees p (expr_tokens unit e ++ t :: [EOF_token]))
    by (split; [split; reflexivity|reflexivity]).
  assert (H3 : precedence_of (Type_ t) <= LOWEST) by (vm_compute; lia).
  assert (H4 : 2 * togo p + 2 <= 40) by (vm_compute; lia).
  do 4 (split; [assumption|]).
  exact (parenthesized_expression_round_trip unit reject_floats e LOWEST p t
           [EOF_token] 40 H1 H2 H3 H4).
Defined.

Lemma precedence_climbing_is_correct_witness :
  let a := ident_expr unit "a" in
  let b := ident_expr unit "b" in
  let c := ident_expr unit "c" in
  let e := InfixExpression unit (mkToken ADD "+") "+" a
             (Some (InfixExpression unit (mkToken MUL "*") "*" b c)) in
  let p := parser_on "a + b * c;" in
  let t := mkToken SEMICOLON ";" in
  canonical unit e
  /\ LOWEST < level unit e
  /\ sees p (infix_tokens unit e ++ t :: [EOF_token])
  /\ precedence_of (Type_ t) <= LOWEST
  /\ 2 * togo p + 2 <= 40
  /\ exists p',
       parseExpression unit reject_floats 40 LOWEST p = Ok (Some e, p')
       /\ errors p' = errors p
       /\ sees p' (last (infix_tokens unit e) zeroToken :: t :: [EOF_token]).
Proof.
  intros a b c e p t.
  assert (H1 : canonical unit e)
    by (simpl; repeat split; vm_compute; lia).
  assert (H2 : LOWEST < level unit e) by (vm_compute; lia).
  assert (H3 : sees p (infix_tokens unit e ++ t :: [EOF_token]))
    by (split; [split; reflexivity|reflexivity]).
  assert (H4 : precedence_of (Type_ t) <= LOWEST) by (vm_compute; lia).
  assert (H5 : 2 * togo p + 2 <= 40) by (vm_compute; lia).
  do 5 (split; [assumption|]).
  exact (precedence_climbing_is_correct unit reject_floats e LOWEST p t
           [EOF_token] 40 H1 H2 H3 H4 H5).
Defined.

Lemma statement_round_trip_witness :
  let cond := InfixExpression unit (mkToken LT "<") "<"
                (ident_expr unit "a") (ident_expr unit "b") in
  let body := mkBlockStatement unit (mkToken LBRACE "{")
                [BreakStatementPtr unit
                   (Some (mkBreakStatement (mkToken BREAK "break")))] in
  let s := WhileStatementPtr unit
             (Some (mkWhileStatement unit (mkToken WHILE "while")
                      (Some body) (Some cond))) in
  let p := parser_on "while ((a < b)) { break; }" in
  let more := [EOF_token; EOF_token] in
  stmt_ok unit s
  /\ sees p (stmt_tokens unit s ++ more)
  /\ not_else more
  /\ 3 * togo p + 3 <= 66
  /\ exists p',
       parseStatement unit reject_floats 66 p = Ok (Some s, p')
       /\ errors p' = errors p
       /\ sees p' (last (stmt_tokens unit s) zeroToken :: more).
Proof.
  intros cond body s p more.
  assert (H1 : stmt_ok unit s)
    by (simpl; repeat split; vm_compute; lia).
  assert (H2 : sees p (stmt_tokens unit s ++ more))
    by (split; [split; reflexivity|reflexivity]).
  assert (H3 : not_else more) by discriminate.
  assert (H4 : 3 * togo p + 3 <= 66) by (vm_compute; lia).
  do 4 (split; [assumption|]).
  exact (statement_round_trip unit reject_floats s p more 66 H1 H2 H3 H4).
Defined.

Lemma program_round_trip_witness :
  let x := IdentifierNode unit (ident_ "x") in
  let s1 := VariableDeclarationPtr unit
              (Some (mkVariableDeclaration unit (mkToken TYPE "int")
                       (Some (ident_ "x"))
                       (Some (IntegerLiteral unit (mkToken INT "1") 1%Z)))) in
  let cond := InfixExpression unit (mkToken LT "<") "<" (Some x)
                (Some (IntegerLiteral unit (mkToken INT "3") 3%Z)) in
  let body := mkBlockStatement unit (mkToken LBRACE "{")
                [ExpressionStatementPtr unit
                   (Some (mkExpressionStatement unit (mkToken IDENT "x")
                            (Some x)))] in
  let s2 := WhileStatementPtr unit
              (Some (mkWhileStatement unit (mkToken WHILE "while")
                       (Some body) (Some cond))) in
  let source := "int x = 1; while ((x < 3)) { x; }" in
  all (stmt_ok unit) [s1; s2]
  /\ tokens (S (List.length (flat_map (stmt_tokens unit) [s1; s2])))
       (NewLexer source)
     = Some (flat_map (stmt_tokens unit) [s1; s2] ++ [EOF_token])%list
  /\ exists p',
       Parse unit reject_floats source = Ok (mkProgram unit [s1; s2], p')
       /\ GetErrors p' = [].
Proof.
  intros x s1 cond body s2 source.
  assert (H1 : all (stmt_ok unit) [s1; s2])
    by (simpl; repeat split; vm_compute; lia).
  assert (H2 : tokens (S (List.length
                            (flat_map (stmt_tokens unit) [s1; s2])))
                 (NewLexer source)
               = Some (flat_map (stmt_tokens unit) [s1; s2]
                       ++ [EOF_token])%list)
    by reflexivity.
  do 2 (split; [assumption|]).
  exact (program_round_trip unit reject_floats source [s1; s2] H1 H2).
Defined.

Lemma unclosed_block_is_accepted_witness :
  let stmts := [BreakStatementPtr unit
                  (Some (mkBreakStatement (mkToken BREAK "break")))] in
  let p := parser_on "{ break;" in
  all (stmt_ok unit) stmts
  /\ sees p (mkToken LBRACE "{"
             :: flat_map (stmt_tokens unit) stmts ++ EOF_token :: [EOF_token])
  /\ 3 * togo p + 4 <= 40
  /\ exists p',
       parseBlockStatement unit
         (parseBlockStatement_loop unit reject_floats 40) p
       = Ok (mkBlockStatement unit (mkToken LBRACE "{") stmts, p')
       /\ errors p' = errors p
       /\ sees p' (EOF_token :: [EOF_token]).
Proof.
  intros stmts p.
  assert (H1 : all (stmt_ok unit) stmts) by (simpl; auto).
  assert (H2 : sees p (mkToken LBRACE "{"
                       :: flat_map (stmt_tokens unit) stmts
                       ++ EOF_token :: [EOF_token]))
    by (split; [split; reflexivity|reflexivity]).
  assert (H3 : 3 * togo p + 4 <= 40) by (vm_compute; lia).
  do 3 (split; [assumption|]).
  exact (unclosed_block_is_accepted unit reject_floats (mkToken LBRACE "{")
           stmts p [EOF_token] 40 H1 H2 H3).
Defined.

Lemma float_literal_takes_the_next_token_witness :
  let a := mkToken FLOAT "1.5" in
  let op := mkToken ADD "+" in
  let t := mkToken INT "2" in
  let p := parser_on "1.5 + 2" in
  Type_ a = FLOAT
  /\ accept_floats (Literal a) = Some tt
  /\ sees p (a :: op :: t :: [EOF_token])
  /\ precedence_of (Type_ t) <= LOWEST
  /\ 2 * togo p + 2 <= 40
  /\ exists p',
       parseExpression unit accept_floats 40 LOWEST p
       = Ok (Some (FloatLiteral unit a tt), p')
       /\ errors p' = errors p
       /\ sees p' (op :: t :: [EOF_token]).
Proof.
  intros a op t p.
  assert (H1 : Type_ a = FLOAT) by reflexivity.
  assert (H2 : accept_floats (Literal a) = Some tt) by reflexivity.
  assert (H3 : sees p (a :: op :: t :: [EOF_token]))
    by (split; [split; reflexivity|reflexivity]).
  assert (H4 : precedence_of (Type_ t) <= LOWEST) by (vm_compute; lia).
  assert (H5 : 2 * togo p + 2 <= 40) by (vm_compute; lia).
  do 5 (split; [assumption|]).
  exact (float_literal_takes_the_next_token unit accept_floats a op t
           [EOF_token] tt LOWEST p 40 H1 H2 H3 H4 H5).
Defined.

Lemma print_then_parse_is_identity_witness :
  let e := InfixExpression unit (mkToken MUL "*") "*"
             (Some (PrefixExpression unit (mkToken SUB "-") "-"
                      (ident_expr unit "a")))
             (Some (IntegerLiteral unit (mkToken INT "12") 12%Z)) in
  printable unit e
  /\ exists s p',
       Expression_String unit e = Some s
       /\ parse_expression_source unit reject_floats (enough_fuel s) s
          = Ok (Some e, p')
       /\ GetErrors p' = []
       /\ Render unit reject_floats s = Some s.
Proof.
  intros e.
  assert (H1 : printable unit e).
  { simpl. repeat split; try discriminate; try reflexivity;
      solve [repeat (first [left; reflexivity | right])]. }
  split; [assumption|].
  exact (print_then_parse_is_identity unit reject_floats e H1).
Defined.


Lemma nil_in_the_environment_panics_witness :
  let env := fst (Set_ NewEvalEnv "x" None) in
  let i := ident_ "x" in
  let tok := mkToken SUB "-" in
  let tok' := mkToken TYPEOF "typeof" in
  Get env (ident_Value i) = (None, true)
  /\ ("-" = "-" \/ "-" = "+")
  /\ Eval unit (fmt := plain_text)
       (Some (PrefixExpression unit tok "-" (Some (IdentifierNode unit i))))
       env 0 = Panic
  /\ Eval unit (fmt := plain_text)
       (Some (TypeOfExpression unit tok' (Some (IdentifierNode unit i))))
       env 0 = Panic.
Proof.
  intros env i tok tok'.
  assert (H1 : Get env (ident_Value i) = (None, true)) by reflexivity.
  assert (H2 : "-" = "-" \/ "-" = "+") by (left; reflexivity).
  do 2 (split; [assumption|]).
  exact (@nil_in_the_environment_panics unit plain_text env i tok tok' "-"
           0 H1 H2).
Defined.

Lemma nil_pointer_in_the_environment_witness :
  let env := fst (Set_ NewEvalEnv "x" (Some (nil_pointer to_Integer))) in
  let i := ident_ "x" in
  let tok := mkToken SUB "-" in
  let tok' := mkToken ADD "+" in
  let lit := mkToken INT "1" in
  Get env (ident_Value i) = (Some (nil_pointer to_Integer), true)
  /\ Eval unit (fmt := plain_text)
       (Some (PrefixExpression unit tok "-" (Some (IdentifierNode unit i))))
       env 0 = Panic
  /\ Eval unit (fmt := plain_text)
       (Some (InfixExpression unit tok' "+"
                (Some (IdentifierNode unit i))
                (Some (IntegerLiteral unit lit 1%Z))))
       env 0 = Panic
  /\ Eval unit (fmt := plain_text)
       (Some (PrefixExpression unit tok "+" (Some (IdentifierNode unit i))))
       env 0 = Ok (Some (nil_pointer to_Integer), 0).
Proof.
  intros env i tok tok' lit.
  assert (H1 : Get env (ident_Value i)
               = (Some (nil_pointer to_Integer), true)) by reflexivity.
  split; [assumption|].
  exact (@nil_pointer_in_the_environment unit plain_text env i tok tok' lit
           "+" 1%Z 0 H1).
Defined.

Lemma unsupported_expression_is_an_error_witness :
  let e := InfixExpression unit (mkToken ADD "+") "+"
             (Some (IntegerLiteral unit (mkToken INT "1") 1%Z))
             (Some (StringLiteral unit (mkToken STRING "a") "a")) in
  env_ok demo_env
  /\ unsupported unit e
  /\ exists a m h',
       Eval unit (fmt := plain_text) (Some e) demo_env 2
       = Ok (Some (mkPointer a (Error m)), h').
Proof.
  intros e.
  assert (H1 : env_ok demo_env).
  { intros name obj. unfold demo_env. cbn.
    destruct (String.eqb name "name"); [intros [= <-]; eauto|].
    destruct (String.eqb name "x"); [intros [= <-]; eauto|discriminate]. }
  assert (H2 : unsupported unit e) by (simpl; right; exact I).
  do 2 (split; [assumption|]).
  exact (@unsupported_expression_is_an_error unit plain_text demo_env e 2
           H1 H2).
Defined.

Lemma operators_yield_integers_witness :
  let e := InfixExpression unit (mkToken EQ "==") "=="
             (ident_expr unit "name") (ident_expr unit "name") in
  env_ok demo_env
  /\ exists a x h',
       Eval unit (fmt := plain_text) (Some e) demo_env 2
       = Ok (Some (mkPointer a x), h')
       /\ ((exists z, x = Integer z) \/ exists m, x = Error m).
Proof.
  intros e.
  assert (H1 : env_ok demo_env).
  { intros name obj. unfold demo_env. cbn.
    destruct (String.eqb name "name"); [intros [= <-]; eauto|].
    destruct (String.eqb name "x"); [intros [= <-]; eauto|discriminate]. }
  split; [assumption|].
  exact (@operators_yield_integers unit plain_text demo_env e 2 H1 I).
Defined.

Lemma typeof_is_int_but_for_names_witness :
  let tok := mkToken TYPEOF "typeof" in
  let expr := Some (PrefixExpression unit (mkToken ADD "+") "+"
                      (ident_expr unit "x")) in
  env_ok demo_env
  /\ (forall i, expr <> Some (IdentifierNode unit i))
  /\ exists a x h',
       Eval unit (fmt := plain_text) (Some (TypeOfExpression unit tok expr))
         demo_env 2 = Ok (Some (mkPointer a x), h')
       /\ (x = String_ IntType \/ exists m, x = Error m).
Proof.
  intros tok expr.
  assert (H1 : env_ok demo_env).
  { intros name obj. unfold demo_env. cbn.
    destruct (String.eqb name "name"); [intros [= <-]; eauto|].
    destruct (String.eqb name "x"); [intros [= <-]; eauto|discriminate]. }
  assert (H2 : forall i, expr <> Some (IdentifierNode unit i))
    by (intros i; discriminate).
  do 2 (split; [assumption|]).
  exact (@typeof_is_int_but_for_names unit plain_text demo_env tok expr 2
           H1 H2).
Defined.


Lemma arithmetic_is_exact_modulo_2_64_witness :
  let big := IntegerLiteral unit (mkToken INT "9223372036854775807")
               9223372036854775807%Z in
  let e := InfixExpression unit (mkToken SUB "-") "-"
             (Some (InfixExpression unit (mkToken ADD "+") "+"
                      (Some big) (ident_expr unit "x")))
             (Some big) in
  env_int64 demo_env
  /\ literals_int64 unit e
  /\ value_of unit demo_env e = Some 100%Z
  /\ exists a h',
       Eval unit (fmt := plain_text) (Some e) demo_env 2
       = Ok (Some (mkPointer a (Integer (wrap64 100))), h').
Proof.
  intros big e.
  assert (H1 : env_int64 demo_env).
  { intros name a z. unfold demo_env. cbn.
    destruct (String.eqb name "name"); [discriminate|].
    destruct (String.eqb name "x"); [|discriminate].
    intros [= <- <-]. unfold int64. lia. }
  assert (H2 : literals_int64 unit e)
    by (simpl; unfold int64; repeat split; lia).
  assert (H3 : value_of unit demo_env e = Some 100%Z) by reflexivity.
  do 3 (split; [assumption|]).
  exact (@arithmetic_is_exact_modulo_2_64 unit plain_text demo_env e 100 2
           H1 H2 H3).
Defined.

